(** * go-mib-parser: a shallow embedding of the SMIv2 MIB parser

    The development follows the Go sources of the repository:
    - [lexer]      : the tokenizer (package [lexer]);
    - [parser]     : the recursive-descent parser and OID resolver
                     (package [parser], latest revision of [parser.go]);
    - [mib_parser] : the public records and lookup helpers ([types.go]);
    - [facade]     : the entry point [ParseMIB] ([parser.go] of the root
                     package).

    Go [int] values are modelled as [Z]; the places where 64-bit
    wrap-around can occur are written out with [wrap64].  Go strings are
    byte strings ([string]); a [[]rune] is a [list Z] of code points.
    Go maps are [gmap]s; a pointer that may be [nil] is an [option]. *)

From Stdlib Require Import ZArith List String Ascii Bool Lia.
From stdpp Require Import gmap strings list.

Open Scope string_scope.
Open Scope Z_scope.
Open Scope list_scope.

(** ** Loops

    A Go [for] loop whose body either continues with a new state or leaves
    the loop with a result.  [loop] runs the body with explicit fuel;
    [while] supplies the fuel from a measure [μ] on the state.  Whenever the
    body decreases the measure on [Continue], the fuel is never exhausted
    ([loop_enough]) and [while] satisfies the loop's own unfolding equation
    ([while_unfold]); each use of [while] below comes with that proof. *)

Inductive ctl (St R : Type) : Type :=
| Continue (s : St)
| Break (r : R).
Arguments Continue {St R} s.
Arguments Break {St R} r.

Fixpoint loop {St R : Type} (body : St → ctl St R) (fuel : nat) (s : St) : option R :=
  match fuel with
  | O => None
  | S fuel' =>
      match body s with
      | Continue s' => loop body fuel' s'
      | Break r => Some r
      end
  end.

Definition while {St R : Type} (μ : St → nat) (dflt : R)
    (body : St → ctl St R) (s : St) : R :=
  default dflt (loop body (S (μ s)) s).

(** ** Machine integers *)

(** Two's-complement wrap-around of a 64-bit Go [int]. *)
Definition wrap64 (n : Z) : Z := (n + 2 ^ 63) mod 2 ^ 64 - 2 ^ 63.

Definition minInt64 : Z := - 2 ^ 63.
Definition maxInt64 : Z := 2 ^ 63 - 1.

(** ** Decimal formatting *)

Definition byte_of_Z (b : Z) : ascii := ascii_of_N (Z.to_N b).
Definition Z_of_byte (c : ascii) : Z := Z.of_N (N_of_ascii c).

(** [byte('0' + d)] *)
Definition digit (d : Z) : ascii := byte_of_Z (48 + d).

(** The digit loop shared by [itoa] and [%d]:
    [for n > 0 { i--; buf[i] = byte('0' + n%10); n /= 10 }],
    where [acc] is the filled tail [buf[i:]] of the buffer. *)
Fixpoint digits (fuel : nat) (n : Z) (acc : string) : string :=
  match fuel with
  | O => acc
  | S fuel' =>
      if 0 <? n
      then digits fuel' (n / 10) (String (digit (n mod 10)) acc)
      else acc
  end.

(** [fmt.Sprintf("%d", n)]: the decimal numeral of [n]. *)
Definition Sprintf_d (n : Z) : string :=
  if n =? 0 then "0"
  else if n <? 0
       then String "-" (digits (S (Z.to_nat (Z.log2 (- n)))) (- n) EmptyString)
       else digits (S (Z.to_nat (Z.log2 n))) n EmptyString.

(** [strings.Join(elems, sep)] *)
Fixpoint Join (elems : list string) (sep : string) : string :=
  match elems with
  | [] => EmptyString
  | [a] => a
  | a :: rest => a +:+ sep +:+ Join rest sep
  end.


(** ** List scanning *)

Fixpoint takeWhile {A : Type} (f : A → bool) (l : list A) : list A :=
  match l with
  | x :: l' => if f x then x :: takeWhile f l' else []
  | [] => []
  end.

Fixpoint dropWhile {A : Type} (f : A → bool) (l : list A) : list A :=
  match l with
  | x :: l' => if f x then dropWhile f l' else l
  | [] => []
  end.

(** * Package [mib_parser]: public records and lookup helpers *)

Module mib_parser.

(** A Go call either returns or panics (here: a [nil] pointer is
    dereferenced). *)
Inductive exec (A : Type) : Type :=
| Return (a : A)
| Panic.
Arguments Return {A} a.
Arguments Panic {A}.

Definition bind {A B : Type} (c : exec A) (k : A → exec B) : exec B :=
  match c with
  | Return a => k a
  | Panic => Panic
  end.

Notation "x ←! c ; k" := (bind c (fun x => k))
  (at level 20, c at level 100, k at level 200, right associativity,
   format "'[' x  ←!  c ;  '/' k ']'").

(** Selecting a field through a pointer: [p.f] panics when [p == nil]. *)
Definition deref {A : Type} (p : option A) : exec A :=
  match p with
  | Some a => Return a
  | None => Panic
  end.

Module OidNode.
Record t : Type := mk { Name : string; OID : list Z }.
End OidNode.

Module ObjectType.
Record t : Type := mk {
  Name : string;
  OID : list Z;
  Syntax : string;
  Access : string;
  Status : string;
  Description : string;
  Index : list string
}.
End ObjectType.

Module ModuleIdentity.
Record t : Type := mk {
  Name : string;
  OID : list Z;
  LastUpdated : string;
  Organization : string;
  ContactInfo : string;
  Description : string
}.
End ModuleIdentity.

Module ObjectIdentity.
Record t : Type := mk {
  Name : string;
  OID : list Z;
  Status : string;
  Description : string
}.
End ObjectIdentity.

Module TextualConvention.
Record t : Type := mk {
  Name : string;
  DisplayHint : string;
  Status : string;
  Description : string;
  Syntax : string
}.
End TextualConvention.

Module NotificationType.
Record t : Type := mk {
  Name : string;
  OID : list Z;
  Objects : list string;
  Status : string;
  Description : string
}.
End NotificationType.

(** [Module]: every map field may be the [nil] map ([None]) and holds
    pointers, each of which may be [nil] ([None]).  The fields are those
    that [ParseMIB] fills in. *)
Module Module.
Record t : Type := mk {
  Name : string;
  NodesByName : option (gmap string (option OidNode.t));
  ObjectsByName : option (gmap string (option ObjectType.t));
  ModuleIdentity : option ModuleIdentity.t;
  ObjectIdentities : option (gmap string (option ObjectIdentity.t));
  TextualConventions : option (gmap string (option TextualConvention.t));
  NotificationTypes : option (gmap string (option NotificationType.t))
}.
End Module.

(** [v, ok := m[name]] on a map that may be [nil]: reading a [nil] map
    yields the zero value and [false]. *)
Definition index {V : Type} (m : option (gmap string (option V))) (name : string)
    : option V * bool :=
  match m with
  | None => (None, false)
  | Some entries =>
      match entries !! name with
      | Some v => (v, true)
      | None => (None, false)
      end
  end.

Definition is_nil {A : Type} (p : option A) : bool :=
  match p with None => true | Some _ => false end.

(** [m == nil || m.ObjectsByName == nil], with Go's short-circuit [||]. *)
Definition nil_or {A B : Type} (m : option A) (field : A → option B) : exec bool :=
  if is_nil m then Return true
  else (s ←! deref m; Return (is_nil (field s))).

Definition GetObjectByName (m : option Module.t) (name : string)
    : exec (option ObjectType.t * bool) :=
  c ←! nil_or m Module.ObjectsByName;
  if c then Return (None, false)
  else
    s ←! deref m;
    let '(v, ok) := index (Module.ObjectsByName s) name in
    Return (v, ok).

(** [append([]int(nil), oid...)]: a fresh copy of [oid]; appending nothing
    to the [nil] slice leaves it [nil] ([None]). *)
Definition copyOID (oid : list Z) : option (list Z) :=
  match oid with
  | [] => None
  | _ :: _ => Some oid
  end.

(** [None] is the [nil] slice, also that of the failure results. *)
Definition GetNodeOIDByName (m : option Module.t) (name : string)
    : exec (option (list Z) * bool) :=
  c ←! nil_or m Module.NodesByName;
  if c then Return (None, false)
  else
    s ←! deref m;
    let '(n, ok) := index (Module.NodesByName s) name in
    if negb ok then Return (None, false)
    else
      node ←! deref n;
      Return (copyOID (OidNode.OID node), true).

Fixpoint oidsEqual_from (a b : list Z) : bool :=
  match a, b with
  | x :: a', y :: b' => if negb (x =? y) then false else oidsEqual_from a' b'
  | _, _ => true
  end.

Definition oidsEqual (a b : list Z) : bool :=
  if negb (Nat.eqb (length a) (length b)) then false
  else oidsEqual_from a b.

Definition oidToString (oid : list Z) : string :=
  Join (map Sprintf_d oid) ".".

(** [itoa] of [types.go]; the buffer has 20 bytes, and [n = -n] wraps for
    the least 64-bit integer. *)
Definition itoa (n : Z) : string :=
  if n =? 0 then "0"
  else
    let neg := n <? 0 in
    let n := if neg then wrap64 (- n) else n in
    let s := digits 20 n EmptyString in
    if neg then String "-" s else s.

(** [OIDString] of [types.go]: [s] is the string built so far and [i] the
    index of the next component. *)
Fixpoint OIDString_from (i : nat) (s : string) (oid : list Z) : string :=
  match oid with
  | [] => s
  | n :: rest =>
      let s := if (0 <? i)%nat then s +:+ "." else s in
      OIDString_from (S i) (s +:+ itoa n) rest
  end.

Definition OIDString (oid : list Z) : string :=
  if Nat.eqb (length oid) 0 then EmptyString
  else OIDString_from 0 EmptyString oid.

(** [for _, obj := range m.ObjectsByName { ... }]: Go leaves the order in
    which [range] visits a map unspecified; [visit] is the sequence of the
    entries in the order of this run. *)
Fixpoint GetObjectByOID_range (visit : list (string * option ObjectType.t))
    (oid : list Z) : exec (option ObjectType.t * bool) :=
  match visit with
  | [] => Return (None, false)
  | (_, obj) :: rest =>
      o ←! deref obj;
      if oidsEqual (ObjectType.OID o) oid then Return (obj, true)
      else GetObjectByOID_range rest oid
  end.

Definition GetObjectByOID (m : option Module.t)
    (visit : list (string * option ObjectType.t)) (oid : list Z)
    : exec (option ObjectType.t * bool) :=
  c ←! nil_or m Module.ObjectsByName;
  if c then Return (None, false)
  else GetObjectByOID_range visit oid.

Fixpoint GetObjectByOIDString_range (visit : list (string * option ObjectType.t))
    (oid : string) : exec (option ObjectType.t * bool) :=
  match visit with
  | [] => Return (None, false)
  | (_, obj) :: rest =>
      o ←! deref obj;
      if String.eqb (oidToString (ObjectType.OID o)) oid then Return (obj, true)
      else GetObjectByOIDString_range rest oid
  end.

Definition GetObjectByOIDString (m : option Module.t)
    (visit : list (string * option ObjectType.t)) (oid : string)
    : exec (option ObjectType.t * bool) :=
  c ←! nil_or m Module.ObjectsByName;
  if c then Return (None, false)
  else GetObjectByOIDString_range visit oid.

(** [visit] is a possible [range] order of the entries of [m.ObjectsByName]. *)
Definition range_of (m : option Module.t)
    (visit : list (string * option ObjectType.t)) : Prop :=
  match m with
  | Some s =>
      match Module.ObjectsByName s with
      | Some entries => visit ≡ₚ map_to_list entries
      | None => visit = []
      end
  | None => visit = []
  end.

End mib_parser.

Module mib_parser_wf.
Import mib_parser.

(** No entry of the map is a [nil] pointer. *)
Definition noNilEntries {V : Type} (mp : option (gmap string (option V))) : Prop :=
  ∀ entries k, mp = Some entries → entries !! k ≠ Some None.

(** The module stores no [nil] pointer in the maps that the lookup
    helpers read. *)
Definition noNilPointers (m : option Module.t) : Prop :=
  match m with
  | None => True
  | Some s =>
      noNilEntries (Module.NodesByName s) ∧ noNilEntries (Module.ObjectsByName s)
  end.

End mib_parser_wf.

Module mib_parser_examples.
Import mib_parser.

(** A module whose maps hold a [nil] pointer under the key [x]. *)
Definition nilEntryModule : Module.t :=
  Module.mk "M" (Some {[ "x" := None ]}) (Some {[ "x" := None ]}) None None None None.

(** A module with the one object [ifIndex]. *)
Definition ifIndexObject : ObjectType.t :=
  ObjectType.mk "ifIndex" [1; 3; 6; 1; 2; 1; 2; 2; 1; 1] "InterfaceIndex"
    "read-only" "current" EmptyString [].

Definition ifIndexModule : Module.t :=
  Module.mk "IF-MIB"
    (Some {[ "ifIndex" := Some (OidNode.mk "ifIndex" [1; 3; 6; 1; 2; 1; 2; 2; 1; 1]) ]})
    (Some {[ "ifIndex" := Some ifIndexObject ]})
    None None None None.

End mib_parser_examples.

(** ** Reading a dotted string back

    The inverse direction of [oidToString] is not code of the repository;
    it is what the round-trip property is stated with: the standard
    library's [strings.Split] on a one-byte separator and the reading of an
    unsigned decimal numeral. *)

(** [strings.Split(s, sep)] for a separator [sep] of one byte *)
Fixpoint Split (s : string) (sep : ascii) : list string :=
  match s with
  | EmptyString => [EmptyString]
  | String c s' =>
      if Ascii.eqb c sep then EmptyString :: Split s' sep
      else
        match Split s' sep with
        | h :: t => String c h :: t
        | [] => [String c EmptyString]
        end
  end.

Definition digitValue (c : ascii) : option Z :=
  let b := Z_of_byte c in
  if (48 <=? b) && (b <=? 57) then Some (b - 48) else None.

Fixpoint parseDecimal_from (s : string) (n : Z) : option Z :=
  match s with
  | EmptyString => Some n
  | String c s' =>
      match digitValue c with
      | Some d => parseDecimal_from s' (n * 10 + d)
      | None => None
      end
  end.

(** The value of a non-empty string of decimal digits. *)
Definition parseDecimal (s : string) : option Z :=
  match s with
  | EmptyString => None
  | _ => parseDecimal_from s 0
  end.

(** The string has no byte ['.']. *)
Definition dotFree (s : string) : Prop :=
  ∀ s1 s2, s ≠ s1 +:+ String "." s2.

(** Every byte of the string is a decimal digit. *)
Fixpoint allDigits (s : string) : Prop :=
  match s with
  | EmptyString => True
  | String c s' => is_Some (digitValue c) ∧ allDigits s'
  end.

(** * Package [lexer] *)

Module lexer.

Inductive TokenType : Type :=
| TokenEOF
| TokenIdent
| TokenNumber
| TokenString
| TokenLBrace
| TokenRBrace
| TokenLParen
| TokenRParen
| TokenComma
| TokenDot
| TokenSemicolon
| TokenColonColonEq
| TokenAssignEq.

#[global] Instance TokenType_eq_dec : EqDecision TokenType.
Proof. solve_decision. Defined.

Record Token : Type := mkToken {
  Typ : TokenType;
  Text : string;
  Int : Z;
  Line : Z;
  Col : Z
}.

(** The standard library's Unicode tables are not part of the repository.
    The ASCII range is fixed below; the classification of the code points
    from 128 on is a parameter of the lexer. *)
Record Unicode : Type := mkUnicode {
  otherLetter : Z → bool;
  otherDigit : Z → bool
}.

(** The tables that classify no code point beyond ASCII. *)
Definition asciiOnly : Unicode :=
  {| otherLetter := fun _ => false; otherDigit := fun _ => false |}.

Definition unicode_IsLetter (U : Unicode) (r : Z) : bool :=
  if r <? 128
  then ((65 <=? r) && (r <=? 90)) || ((97 <=? r) && (r <=? 122))
  else otherLetter U r.

Definition unicode_IsDigit (U : Unicode) (r : Z) : bool :=
  if r <? 128
  then (48 <=? r) && (r <=? 57)
  else otherDigit U r.

(** [string(rs)] for [rs []rune]: the UTF-8 encoding; a code point that is
    not a Unicode scalar value is encoded as U+FFFD. *)
Definition encodeRune (r : Z) : list ascii :=
  if (r <? 0) || (0x10FFFF <? r) || ((0xD800 <=? r) && (r <=? 0xDFFF))
  then [byte_of_Z 0xEF; byte_of_Z 0xBF; byte_of_Z 0xBD]
  else if r <=? 0x7F then [byte_of_Z r]
  else if r <=? 0x7FF
  then [byte_of_Z (Z.lor 0xC0 (Z.shiftr r 6));
        byte_of_Z (Z.lor 0x80 (Z.land r 0x3F))]
  else if r <=? 0xFFFF
  then [byte_of_Z (Z.lor 0xE0 (Z.shiftr r 12));
        byte_of_Z (Z.lor 0x80 (Z.land (Z.shiftr r 6) 0x3F));
        byte_of_Z (Z.lor 0x80 (Z.land r 0x3F))]
  else [byte_of_Z (Z.lor 0xF0 (Z.shiftr r 18));
        byte_of_Z (Z.lor 0x80 (Z.land (Z.shiftr r 12) 0x3F));
        byte_of_Z (Z.lor 0x80 (Z.land (Z.shiftr r 6) 0x3F));
        byte_of_Z (Z.lor 0x80 (Z.land r 0x3F))].

Definition string_of_runes (rs : list Z) : string :=
  string_of_list_ascii (concat (map encodeRune rs)).

(** [[]rune(s)] for a string [s] of ASCII text: one rune per byte. *)
Definition runes_of_string (s : string) : list Z :=
  map Z_of_byte (list_ascii_of_string s).

(** The lexer state.  [input] is the unread part [l.input[l.pos:]] of the
    rune slice; the one-token buffer [peeked] is accounted for in
    [TokenStream] below. *)
Record Lexer : Type := mkLexer {
  input : list Z;
  line : Z;
  col : Z
}.

Definition New (input : list Z) : Lexer :=
  {| input := input; line := 1; col := 1 |}.

Definition eof (l : Lexer) : bool :=
  match input l with [] => true | _ => false end.

Definition cur (l : Lexer) : Z := hd 0 (input l).

Definition peekChar (l : Lexer) : Z :=
  match input l with
  | _ :: r :: _ => r
  | _ => 0
  end.

Definition advance (l : Lexer) : Lexer :=
  match input l with
  | [] => l
  | r :: rest =>
      if r =? 10
      then {| input := rest; line := line l + 1; col := 1 |}
      else {| input := rest; line := line l; col := col l + 1 |}
  end.

Definition mk (l : Lexer) (t : TokenType) (s : string) : Token :=
  {| Typ := t; Text := s; Int := 0; Line := line l; Col := col l |}.

Definition isIdentStart (U : Unicode) (r : Z) : bool := unicode_IsLetter U r.

Definition isIdent (U : Unicode) (r : Z) : bool :=
  unicode_IsLetter U r || unicode_IsDigit U r || (r =? 45).

(** The measure of every lexer loop: the number of unread runes. *)
Definition unread (l : Lexer) : nat := length (input l).

(** [for !l.eof() && l.cur() != '\n' { l.advance() }] *)
Definition skipLine_body (l : Lexer) : ctl Lexer Lexer :=
  if negb (eof l) && negb (cur l =? 10) then Continue (advance l) else Break l.

Definition skipLine (l : Lexer) : Lexer := while unread l skipLine_body l.

Definition skipWhitespaceAndComments_body (l : Lexer) : ctl Lexer Lexer :=
  if eof l then Break l
  else
    let r := cur l in
    if (r =? 32) || (r =? 9) || (r =? 13) || (r =? 10) then Continue (advance l)
    else if (r =? 45) && (peekChar l =? 45)
    then Continue (skipLine (advance (advance l)))
    else Break l.

Definition skipWhitespaceAndComments (l : Lexer) : Lexer :=
  while unread l skipWhitespaceAndComments_body l.

(** The identifier loop of [Next]; [s] collects the runes. *)
Definition readIdent_body (U : Unicode) (st : Lexer * list Z)
    : ctl (Lexer * list Z) (Lexer * list Z) :=
  let '(l, s) := st in
  if eof l then Break (l, s)
  else
    let r := cur l in
    if isIdent U r then Continue (advance l, s ++ [r]) else Break (l, s).

Definition readIdent (U : Unicode) (l : Lexer) : Token * Lexer :=
  let startLine := line l in
  let startCol := col l in
  let s := [cur l] in
  let l := advance l in
  let '(l, s) := while (fun st => unread st.1) (l, s) (readIdent_body U) (l, s) in
  ({| Typ := TokenIdent; Text := string_of_runes s; Int := 0;
      Line := startLine; Col := startCol |}, l).

(** The number loop of [Next]: [n = n*10 + int(l.cur()-'0')]. *)
Definition readNumber_body (U : Unicode) (st : Lexer * Z)
    : ctl (Lexer * Z) (Lexer * Z) :=
  let '(l, n) := st in
  if negb (eof l) && unicode_IsDigit U (cur l)
  then Continue (advance l, wrap64 (n * 10 + (cur l - 48)))
  else Break (l, n).

Definition readNumber (U : Unicode) (l : Lexer) : Token * Lexer :=
  let startLine := line l in
  let startCol := col l in
  let '(l, n) := while (fun st => unread st.1) (l, 0) (readNumber_body U) (l, 0) in
  ({| Typ := TokenNumber; Text := EmptyString; Int := n;
      Line := startLine; Col := startCol |}, l).

Definition readString_body (st : Lexer * list Z)
    : ctl (Lexer * list Z) (Lexer * list Z) :=
  let '(l, s) := st in
  if eof l then Break (l, s)
  else
    let r := cur l in
    if r =? 34 then Break (advance l, s)
    else if r =? 92
    then
      let l := advance l in
      if eof l then Break (l, s)
      else Continue (advance l, s ++ [cur l])
    else Continue (advance l, s ++ [r]).

Definition readString (l : Lexer) : Token * Lexer :=
  let startLine := line l in
  let startCol := col l in
  let l := advance l in
  let '(l, s) := while (fun st => unread st.1) (l, []) readString_body (l, []) in
  ({| Typ := TokenString; Text := string_of_runes s; Int := 0;
      Line := startLine; Col := startCol |}, l).

Definition readColonAssign (l : Lexer) : Token * Lexer :=
  let l := advance l in
  if eof l || negb (cur l =? 58) then (mk l TokenAssignEq ":", l)
  else
    let l := advance l in
    if eof l || negb (cur l =? 61) then (mk l TokenAssignEq "::", l)
    else
      let l := advance l in
      (mk l TokenColonColonEq "::=", l).

(** One punctuation character: [l.advance(); return l.mk(t, s)]. *)
Definition punct (l : Lexer) (t : TokenType) (s : string) : Token * Lexer :=
  let l := advance l in (mk l t s, l).

(** [Next] with an empty [peeked] buffer.  An unknown character is dropped
    and the scan starts over ([return l.Next()]). *)
Definition Next_body (U : Unicode) (l : Lexer) : ctl Lexer (Token * Lexer) :=
  let l := skipWhitespaceAndComments l in
  if eof l then Break (mk l TokenEOF EmptyString, l)
  else
    let r := cur l in
    if isIdentStart U r then Break (readIdent U l)
    else if unicode_IsDigit U r then Break (readNumber U l)
    else if r =? 34 then Break (readString l)
    else if r =? 123 then Break (punct l TokenLBrace "{")
    else if r =? 125 then Break (punct l TokenRBrace "}")
    else if r =? 40 then Break (punct l TokenLParen "(")
    else if r =? 41 then Break (punct l TokenRParen ")")
    else if r =? 44 then Break (punct l TokenComma ",")
    else if r =? 46 then Break (punct l TokenDot ".")
    else if r =? 59 then Break (punct l TokenSemicolon ";")
    else if r =? 58 then Break (readColonAssign l)
    else if r =? 61 then Break (punct l TokenAssignEq "=")
    else Continue (advance l).

Definition Next (U : Unicode) (l : Lexer) : Token * Lexer :=
  while unread (mk l TokenEOF EmptyString, l) (Next_body U) l.

(** The tokens that successive calls of [Next] return: the tokens before
    the first [TokenEOF], and that [TokenEOF], which [Next] then returns
    again on every later call.  [Peek] followed by [Next] yields the token
    that [Next] alone yields, so the buffer [peeked] does not change the
    sequence. *)
Record TokenStream : Type := mkStream {
  tokens : list Token;
  last : Token
}.

Definition Tokens_body (U : Unicode) (st : Lexer * list Token)
    : ctl (Lexer * list Token) TokenStream :=
  let '(l, acc) := st in
  let '(t, l) := Next U l in
  if bool_decide (Typ t = TokenEOF)
  then Break {| tokens := acc; last := t |}
  else Continue (l, acc ++ [t]).

Definition Tokens (U : Unicode) (l : Lexer) : TokenStream :=
  while (fun st => unread st.1)
        {| tokens := []; last := mk l TokenEOF EmptyString |}
        (Tokens_body U) (l, []).

End lexer.

(** * Package [parser] *)

Module parser.
Import lexer.

(** ** The internal representation

    The maps of [ModuleIR] hold pointers to records that the parser
    allocates itself; no such pointer is [nil], and a record is written
    through its pointer only by the one pending closure that captured it,
    which stores the pointer again right after.  The records are therefore
    modelled as values. *)

Module ObjectTypeIR.
Record t : Type := mk {
  Name : string;
  OID : list Z;
  Syntax : string;
  Access : string;
  Status : string;
  Description : string;
  Index : list string
}.
Definition new (name : string) : t :=
  mk name [] EmptyString EmptyString EmptyString EmptyString [].
Definition set_OID (v : list Z) (o : t) : t :=
  mk (Name o) v (Syntax o) (Access o) (Status o) (Description o) (Index o).
Definition set_Syntax (v : string) (o : t) : t :=
  mk (Name o) (OID o) v (Access o) (Status o) (Description o) (Index o).
Definition set_Access (v : string) (o : t) : t :=
  mk (Name o) (OID o) (Syntax o) v (Status o) (Description o) (Index o).
Definition set_Status (v : string) (o : t) : t :=
  mk (Name o) (OID o) (Syntax o) (Access o) v (Description o) (Index o).
Definition set_Description (v : string) (o : t) : t :=
  mk (Name o) (OID o) (Syntax o) (Access o) (Status o) v (Index o).
Definition set_Index (v : list string) (o : t) : t :=
  mk (Name o) (OID o) (Syntax o) (Access o) (Status o) (Description o) v.
End ObjectTypeIR.

Module ModuleIdentityIR.
Record t : Type := mk {
  Name : string;
  OID : list Z;
  LastUpdated : string;
  Organization : string;
  ContactInfo : string;
  Description : string
}.
Definition new (name : string) : t :=
  mk name [] EmptyString EmptyString EmptyString EmptyString.
Definition set_OID (v : list Z) (o : t) : t :=
  mk (Name o) v (LastUpdated o) (Organization o) (ContactInfo o) (Description o).
Definition set_LastUpdated (v : string) (o : t) : t :=
  mk (Name o) (OID o) v (Organization o) (ContactInfo o) (Description o).
Definition set_Organization (v : string) (o : t) : t :=
  mk (Name o) (OID o) (LastUpdated o) v (ContactInfo o) (Description o).
Definition set_ContactInfo (v : string) (o : t) : t :=
  mk (Name o) (OID o) (LastUpdated o) (Organization o) v (Description o).
Definition set_Description (v : string) (o : t) : t :=
  mk (Name o) (OID o) (LastUpdated o) (Organization o) (ContactInfo o) v.
End ModuleIdentityIR.

Module ObjectIdentityIR.
Record t : Type := mk {
  Name : string;
  OID : list Z;
  Status : string;
  Description : string
}.
Definition new (name : string) : t := mk name [] EmptyString EmptyString.
Definition set_OID (v : list Z) (o : t) : t :=
  mk (Name o) v (Status o) (Description o).
Definition set_Status (v : string) (o : t) : t :=
  mk (Name o) (OID o) v (Description o).
Definition set_Description (v : string) (o : t) : t :=
  mk (Name o) (OID o) (Status o) v.
End ObjectIdentityIR.

Module TextualConventionIR.
Record t : Type := mk {
  Name : string;
  DisplayHint : string;
  Status : string;
  Description : string;
  Syntax : string
}.
Definition new (name : string) : t :=
  mk name EmptyString EmptyString EmptyString EmptyString.
Definition set_DisplayHint (v : string) (o : t) : t :=
  mk (Name o) v (Status o) (Description o) (Syntax o).
Definition set_Status (v : string) (o : t) : t :=
  mk (Name o) (DisplayHint o) v (Description o) (Syntax o).
Definition set_Description (v : string) (o : t) : t :=
  mk (Name o) (DisplayHint o) (Status o) v (Syntax o).
Definition set_Syntax (v : string) (o : t) : t :=
  mk (Name o) (DisplayHint o) (Status o) (Description o) v.
End TextualConventionIR.

Module NotificationTypeIR.
Record t : Type := mk {
  Name : string;
  OID : list Z;
  Objects : list string;
  Status : string;
  Description : string
}.
Definition new (name : string) : t := mk name [] [] EmptyString EmptyString.
Definition set_OID (v : list Z) (o : t) : t :=
  mk (Name o) v (Objects o) (Status o) (Description o).
Definition set_Objects (v : list string) (o : t) : t :=
  mk (Name o) (OID o) v (Status o) (Description o).
Definition set_Status (v : string) (o : t) : t :=
  mk (Name o) (OID o) (Objects o) v (Description o).
Definition set_Description (v : string) (o : t) : t :=
  mk (Name o) (OID o) (Objects o) (Status o) v.
End NotificationTypeIR.

Module ModuleIR.
Record t : Type := mk {
  Name : string;
  NodesByName : gmap string (list Z);
  ObjectsByName : gmap string ObjectTypeIR.t;
  ModuleIdentity : option ModuleIdentityIR.t;
  ObjectIdentities : gmap string ObjectIdentityIR.t;
  TextualConventions : gmap string TextualConventionIR.t;
  NotificationTypes : gmap string NotificationTypeIR.t
}.
(** [&ModuleIR{NodesByName: map[string][]int{}, ...}] of [Parse] *)
Definition new : t := mk EmptyString ∅ ∅ None ∅ ∅ ∅.
Definition set_Name (v : string) (m : t) : t :=
  mk v (NodesByName m) (ObjectsByName m) (ModuleIdentity m)
     (ObjectIdentities m) (TextualConventions m) (NotificationTypes m).
(** [m.NodesByName[name] = oid] *)
Definition setNode (name : string) (oid : list Z) (m : t) : t :=
  mk (Name m) (<[name := oid]> (NodesByName m)) (ObjectsByName m)
     (ModuleIdentity m) (ObjectIdentities m) (TextualConventions m)
     (NotificationTypes m).
(** [m.ObjectsByName[name] = obj] *)
Definition setObject (name : string) (obj : ObjectTypeIR.t) (m : t) : t :=
  mk (Name m) (NodesByName m) (<[name := obj]> (ObjectsByName m))
     (ModuleIdentity m) (ObjectIdentities m) (TextualConventions m)
     (NotificationTypes m).
(** [m.ModuleIdentity = mi] *)
Definition setModuleIdentity (mi : ModuleIdentityIR.t) (m : t) : t :=
  mk (Name m) (NodesByName m) (ObjectsByName m) (Some mi)
     (ObjectIdentities m) (TextualConventions m) (NotificationTypes m).
(** [m.ObjectIdentities[name] = oi] *)
Definition setObjectIdentity (name : string) (oi : ObjectIdentityIR.t) (m : t) : t :=
  mk (Name m) (NodesByName m) (ObjectsByName m) (ModuleIdentity m)
     (<[name := oi]> (ObjectIdentities m)) (TextualConventions m)
     (NotificationTypes m).
(** [m.TextualConventions[name] = tc] *)
Definition setTextualConvention (name : string) (tc : TextualConventionIR.t) (m : t) : t :=
  mk (Name m) (NodesByName m) (ObjectsByName m) (ModuleIdentity m)
     (ObjectIdentities m) (<[name := tc]> (TextualConventions m))
     (NotificationTypes m).
(** [m.NotificationTypes[name] = nt] *)
Definition setNotificationType (name : string) (nt : NotificationTypeIR.t) (m : t) : t :=
  mk (Name m) (NodesByName m) (ObjectsByName m) (ModuleIdentity m)
     (ObjectIdentities m) (TextualConventions m)
     (<[name := nt]> (NotificationTypes m)).
(** [if _, exists := m.NodesByName[name]; !exists { m.NodesByName[name] = []int{} }] *)
Definition ensureNode (name : string) (m : t) : t :=
  match NodesByName m !! name with
  | Some _ => m
  | None => setNode name [] m
  end.
End ModuleIR.

(** A pending reference.  The Go closure [apply] writes to the module of
    the parser that created it; here it maps the module before the call to
    the module after it. *)
Record pendingRef : Type := mkPending {
  parent : string;
  index : Z;
  apply : list Z → ModuleIR.t → ModuleIR.t
}.

(** The parser state.  [toks] is the current token [p.tok] followed by the
    tokens that the lexer [p.l] has yet to return; once they are used up
    the current token is the lexer's [TokenEOF], which carries the position
    [eofLine], [eofCol] of the end of the input.  The field [mod_] is Go's
    [mod]. *)
Record rdParser : Type := mkParser {
  toks : list Token;
  eofLine : Z;
  eofCol : Z;
  mod_ : ModuleIR.t;
  pend : list pendingRef;
  src : list Z
}.

(** [l.mk(TokenEOF, "")] at the end of the input *)
Definition eofTok (p : rdParser) : Token :=
  mkToken TokenEOF EmptyString 0 (eofLine p) (eofCol p).

Inductive result (A : Type) : Type :=
| Ok (a : A)
| Err (e : string).
Arguments Ok {A} a.
Arguments Err {A} e.

Definition tok (p : rdParser) : Token := hd (eofTok p) (toks p).

(** [p.l.Peek()] *)
Definition Peek (p : rdParser) : Token := hd (eofTok p) (tl (toks p)).

Definition next (p : rdParser) : rdParser :=
  mkParser (tl (toks p)) (eofLine p) (eofCol p) (mod_ p) (pend p) (src p).

Definition set_toks (ts : list Token) (p : rdParser) : rdParser :=
  mkParser ts (eofLine p) (eofCol p) (mod_ p) (pend p) (src p).

Definition set_mod (m : ModuleIR.t) (p : rdParser) : rdParser :=
  mkParser (toks p) (eofLine p) (eofCol p) m (pend p) (src p).

Definition update_mod (f : ModuleIR.t → ModuleIR.t) (p : rdParser) : rdParser :=
  set_mod (f (mod_ p)) p.

(** [p.pend = append(p.pend, pr)] *)
Definition add_pend (pr : pendingRef) (p : rdParser) : rdParser :=
  mkParser (toks p) (eofLine p) (eofCol p) (mod_ p) (pend p ++ [pr]) (src p).

Definition set_pend (prs : list pendingRef) (p : rdParser) : rdParser :=
  mkParser (toks p) (eofLine p) (eofCol p) (mod_ p) prs (src p).

(** The measure of every parser loop: the number of tokens not yet consumed. *)
Definition remaining (p : rdParser) : nat := length (toks p).

Definition tokIs (t : TokenType) (p : rdParser) : bool :=
  bool_decide (Typ (tok p) = t).

(** ** Token helpers *)

Definition lowerByte (c : ascii) : Z :=
  let b := Z_of_byte c in
  if (65 <=? b) && (b <=? 90) then b + 32 else b.

Fixpoint equalFold_from (a b : string) : bool :=
  match a, b with
  | String ca a', String cb b' =>
      if negb (lowerByte ca =? lowerByte cb) then false
      else equalFold_from a' b'
  | _, _ => true
  end.

Definition equalFold (a b : string) : bool :=
  if negb (Nat.eqb (String.length a) (String.length b)) then false
  else equalFold_from a b.

Definition isSpaceByte (c : ascii) : bool :=
  let b := Z_of_byte c in
  (b =? 32) || (b =? 10) || (b =? 9) || (b =? 13).

(** [for i < len(s) && isSpace(s[i]) { i++ }]: the string from index [i] on *)
Fixpoint trimLeft (s : string) : string :=
  match s with
  | String c s' => if isSpaceByte c then trimLeft s' else s
  | EmptyString => s
  end.

(** [for j > i && isSpace(s[j-1]) { j-- }]: the string up to index [j] *)
Fixpoint trimRight (s : string) : string :=
  match s with
  | String c s' =>
      match trimRight s' with
      | EmptyString => if isSpaceByte c then EmptyString else String c EmptyString
      | t => String c t
      end
  | EmptyString => s
  end.

Definition trimSpace (s : string) : string := trimRight (trimLeft s).

Definition accept (t : TokenType) (p : rdParser) : bool * rdParser :=
  if tokIs t p then (true, next p) else (false, p).

Definition isIdent (s : string) (p : rdParser) : bool :=
  tokIs TokenIdent p && equalFold (Text (tok p)) s.

Definition acceptIdent (s : string) (p : rdParser) : bool * rdParser :=
  if isIdent s p then (true, next p) else (false, p).

(** [p.acceptIdent(a) || p.acceptIdent(b)] *)
Definition acceptIdent2 (a b : string) (p : rdParser) : bool * rdParser :=
  let '(ok, p) := acceptIdent a p in
  if ok then (true, p) else acceptIdent b p.

Definition expect (t : TokenType) (p : rdParser) : option Token * rdParser :=
  if tokIs t p then (Some (tok p), next p) else (None, p).

(** [fmt.Errorf("parse error at %d:%d: "+format, p.tok.Line, p.tok.Col, ...)];
    [msg] is the formatted description. *)
Definition errorf (p : rdParser) (msg : string) : string :=
  "parse error at " +:+ Sprintf_d (Line (tok p)) +:+ ":"
    +:+ Sprintf_d (Col (tok p)) +:+ ": " +:+ msg.

(** ** Sub-parsers *)

Definition parseImports_body (p : rdParser) : ctl rdParser rdParser :=
  if tokIs TokenEOF p then Break p
  else
    let '(ok, p) := accept TokenSemicolon p in
    if ok then Break p else Continue (next p).

(** The Go function always returns the [nil] error. *)
Definition parseImports (p : rdParser) : rdParser :=
  let p := next p in
  while remaining p parseImports_body p.

Definition parseParentRef (p : rdParser) : string * Z * rdParser :=
  let '(parentName, p) :=
    if tokIs TokenIdent p
    then
      let parentName := Text (tok p) in
      let p := next p in
      if tokIs TokenDot p
      then
        let p := next p in
        if tokIs TokenIdent p then (Text (tok p), next p) else (parentName, p)
      else (parentName, p)
    else (EmptyString, p) in
  let '(ok, p) := accept TokenLParen p in
  if ok
  then
    let '(index, p) :=
      if tokIs TokenNumber p then (Int (tok p), next p) else (0, p) in
    let '(_, p) := accept TokenRParen p in
    (parentName, index, p)
  else if tokIs TokenNumber p
  then (parentName, Int (tok p), next p)
  else (parentName, 0, p).

(** [for p.tok.Type == lexer.TokenNumber { abs = append(abs, p.tok.Int); p.next() }] *)
Definition absOid_body (st : rdParser * list Z)
    : ctl (rdParser * list Z) (rdParser * list Z) :=
  let '(p, abs) := st in
  if tokIs TokenNumber p then Continue (next p, abs ++ [Int (tok p)])
  else Break (p, abs).

(** The results [(parentName, index, absoluteOID, hasAbsolute)] and the
    parser state after the call. *)
Definition parseOidAssignmentInsideBraces (p : rdParser)
    : string * Z * list Z * bool * rdParser :=
  if tokIs TokenNumber p
  then
    let '(p, abs) := while (fun st => remaining st.1) (p, []) absOid_body (p, []) in
    (EmptyString, 0, abs, true, p)
  else
    let '(parent, idx, p) := parseParentRef p in
    (parent, idx, [], false, p).

Definition resolveOidBase (name : string) (p : rdParser) : option (list Z) :=
  match ModuleIR.NodesByName (mod_ p) !! name with
  | Some base => if (0 <? length base)%nat then Some base else None
  | None => None
  end.

(** [for _, s := range stop { if p.isIdent(s) { return ... } }] *)
Definition stopsAtIdent (stop : list string) (p : rdParser) : bool :=
  existsb (fun s => isIdent s p) stop.

(** [for _, s := range stop { if s == "::=" { return ... } }] *)
Definition stopsAtAssign (stop : list string) : bool :=
  existsb (fun s => String.eqb s "::=") stop.

Definition quote : string := String (byte_of_Z 34) EmptyString.

Definition parseUntilKeywords_body (stop : list string) (st : rdParser * string)
    : ctl (rdParser * string) (string * rdParser) :=
  let '(p, acc) := st in
  if tokIs TokenEOF p then Break (trimSpace acc, p)
  else if tokIs TokenIdent p && stopsAtIdent stop p then Break (trimSpace acc, p)
  else if tokIs TokenColonColonEq p && stopsAtAssign stop then Break (trimSpace acc, p)
  else
    let acc := if negb (String.eqb acc EmptyString) then acc +:+ " " else acc in
    let acc :=
      if tokIs TokenIdent p then acc +:+ Text (tok p)
      else if tokIs TokenNumber p then acc +:+ Sprintf_d (Int (tok p))
      else if tokIs TokenString p then acc +:+ (quote +:+ Text (tok p) +:+ quote)
      else acc +:+ Text (tok p) in
    Continue (next p, acc).

Definition parseUntilKeywords (stop : list string) (p : rdParser) : string * rdParser :=
  while (fun st => remaining st.1) (EmptyString, p)
        (parseUntilKeywords_body stop) (p, EmptyString).

Definition parseTypeString (p : rdParser) : string * rdParser :=
  parseUntilKeywords ["ACCESS"; "MAX-ACCESS"; "STATUS"; "DESCRIPTION"; "INDEX"; "::="] p.

Definition initBaseOids (p : rdParser) : rdParser :=
  let p := update_mod (ModuleIR.setNode "iso" [1]) p in
  let p := update_mod (ModuleIR.setNode "org" [1; 3]) p in
  let p := update_mod (ModuleIR.setNode "dod" [1; 3; 6]) p in
  let p := update_mod (ModuleIR.setNode "internet" [1; 3; 6; 1]) p in
  let p := update_mod (ModuleIR.setNode "mgmt" [1; 3; 6; 1; 2]) p in
  let p := update_mod (ModuleIR.setNode "mib-2" [1; 3; 6; 1; 2; 1]) p in
  let p := update_mod (ModuleIR.setNode "private" [1; 3; 6; 1; 4]) p in
  let p := update_mod (ModuleIR.setNode "enterprises" [1; 3; 6; 1; 4; 1]) p in
  let p := update_mod (ModuleIR.setNode "snmpV2" [1; 3; 6; 1; 6]) p in
  let p := update_mod (ModuleIR.setNode "snmpModules" [1; 3; 6; 1; 6; 3]) p in
  p.

(** The loop of [skipDefinition] over a macro body. *)
Definition skipMacroBody_body (p : rdParser) : ctl rdParser rdParser :=
  if tokIs TokenEOF p then Break p
  else if isIdent "END" p then Break (next p)
  else Continue (next p).

(** The main loop of [skipDefinition]; the state carries [depth] and
    [depthStarted]. *)
Definition skipBalanced_body (st : rdParser * Z * bool)
    : ctl (rdParser * Z * bool) rdParser :=
  let '(p, depth, depthStarted) := st in
  if tokIs TokenEOF p then Break p
  else if isIdent "END" p then Break p
  else if tokIs TokenLBrace p then Continue (next p, depth + 1, true)
  else if tokIs TokenRBrace p
  then
    let depth := if 0 <? depth then depth - 1 else depth in
    if depthStarted && (depth =? 0) then Break (next p)
    else Continue (next p, depth, depthStarted)
  else Continue (next p, depth, depthStarted).

Definition skipBalanced (p : rdParser) : rdParser :=
  while (fun st => remaining st.1.1) p skipBalanced_body (p, 0, false).

Definition skipDefinition (p : rdParser) : rdParser :=
  if isIdent "MACRO" p
  then
    let p := next p in
    let '(ok, p) := accept TokenColonColonEq p in
    let '(ok, p) := if ok then acceptIdent "BEGIN" p else (false, p) in
    if ok then while remaining p skipMacroBody_body p
    else skipBalanced p
  else skipBalanced p.

(** ** The constructs of [parseModule]

    [parseModule] is one Go function; its blocks are named here after the
    construct they parse.  [append(append([]int(nil), base...), index)] is
    [base ++ [index]], a fresh slice. *)

Definition lift (r : result rdParser) : ctl rdParser (result rdParser) :=
  match r with
  | Ok p => Continue p
  | Err e => Break (Err e)
  end.

(** *** [<name> OBJECT IDENTIFIER ::= { ... }] *)

Definition applyNode (name : string) (index : Z) (base : list Z)
    (m : ModuleIR.t) : ModuleIR.t :=
  ModuleIR.setNode name (base ++ [index]) m.

Definition resolveObjectIdentifier (ident parentName : string) (index : Z)
    (abs : list Z) (hasAbs : bool) (p : rdParser) : rdParser :=
  if hasAbs then update_mod (ModuleIR.setNode ident abs) p
  else
    match resolveOidBase parentName p with
    | Some base => update_mod (ModuleIR.setNode ident (base ++ [index])) p
    | None =>
        let p := update_mod (ModuleIR.ensureNode ident) p in
        add_pend (mkPending parentName index (applyNode ident index)) p
    end.

(** Entered with [OBJECT] as the current token. *)
Definition parseObjectIdentifier (ident : string) (p : rdParser) : result rdParser :=
  let p := next p in
  let '(ok, p) := acceptIdent "IDENTIFIER" p in
  if negb ok then Err (errorf p ("expected IDENTIFIER after OBJECT for " +:+ ident))
  else
    let '(ok, p) := accept TokenColonColonEq p in
    if negb ok then Err (errorf p "expected '::=' after OBJECT IDENTIFIER")
    else
      let '(ok, p) := accept TokenLBrace p in
      if negb ok then Err (errorf p "expected '{' in OBJECT IDENTIFIER assignment")
      else
        let '(parentName, index, abs, hasAbs, p) := parseOidAssignmentInsideBraces p in
        let '(ok, p) := accept TokenRBrace p in
        if negb ok then Err (errorf p "expected '}' in OBJECT IDENTIFIER assignment")
        else Ok (resolveObjectIdentifier ident parentName index abs hasAbs p).

(** *** [TEXTUAL-CONVENTION]

    The two entry forms, [<name> TEXTUAL-CONVENTION] and
    [<name> ::= TEXTUAL-CONVENTION], run the same clause loop. *)

Definition textualConvention_body (st : rdParser * TextualConventionIR.t)
    : ctl (rdParser * TextualConventionIR.t) (result rdParser) :=
  let '(p, tc) := st in
  let '(ok, p) := acceptIdent "DISPLAY-HINT" p in
  if ok
  then
    if tokIs TokenString p
    then Continue (next p, TextualConventionIR.set_DisplayHint (Text (tok p)) tc)
    else Continue (p, tc)
  else
    let '(ok, p) := acceptIdent "STATUS" p in
    if ok
    then
      let '(s, p) := parseUntilKeywords ["DESCRIPTION"; "SYNTAX"] p in
      Continue (p, TextualConventionIR.set_Status s tc)
    else
      let '(ok, p) := acceptIdent "DESCRIPTION" p in
      if ok
      then
        if tokIs TokenString p
        then Continue (next p, TextualConventionIR.set_Description (Text (tok p)) tc)
        else Continue (p, tc)
      else
        let '(ok, p) := acceptIdent "SYNTAX" p in
        if ok
        then
          let '(s, p) := parseTypeString p in
          let tc := TextualConventionIR.set_Syntax s tc in
          Break (Ok (update_mod
            (ModuleIR.setTextualConvention (TextualConventionIR.Name tc) tc) p))
        else if tokIs TokenEOF p
        then Break (Err (errorf p "unexpected EOF in TEXTUAL-CONVENTION"))
        else Continue (next p, tc).

(** Entered after the keyword [TEXTUAL-CONVENTION] has been consumed. *)
Definition parseTextualConvention (ident : string) (p : rdParser) : result rdParser :=
  while (fun st => remaining st.1) (Ok p) textualConvention_body
        (p, TextualConventionIR.new ident).

(** *** [OBJECT-TYPE] *)

Definition indexList_body (st : rdParser * list string)
    : ctl (rdParser * list string) (result (rdParser * list string)) :=
  let '(p, idx) := st in
  if tokIs TokenIdent p
  then
    if equalFold (Text (tok p)) "IMPLIED" then Continue (next p, idx)
    else
      let idx := idx ++ [Text (tok p)] in
      let p := next p in
      let '(ok, p) := accept TokenComma p in
      if ok then Continue (p, idx)
      else
        let '(ok, p) := accept TokenRBrace p in
        if ok then Break (Ok (p, idx))
        else Break (Err (errorf p "expected ',' or '}' in INDEX list"))
  else
    let '(ok, p) := accept TokenRBrace p in
    if ok then Break (Ok (p, idx))
    else Break (Err (errorf p "expected identifier in INDEX list")).

(** The list of an [INDEX] clause, entered after the opening brace. *)
Definition parseIndexList (p : rdParser) : result (rdParser * list string) :=
  while (fun st => remaining st.1) (Ok (p, [])) indexList_body (p, []).

Definition applyObjectType (ref : ObjectTypeIR.t) (index : Z) (base : list Z)
    (m : ModuleIR.t) : ModuleIR.t :=
  let ref := ObjectTypeIR.set_OID (base ++ [index]) ref in
  let m := ModuleIR.setObject (ObjectTypeIR.Name ref) ref m in
  ModuleIR.setNode (ObjectTypeIR.Name ref) (ObjectTypeIR.OID ref) m.

Definition resolveObjectType (obj : ObjectTypeIR.t) (parentName : string)
    (index : Z) (abs : list Z) (hasAbs : bool) (p : rdParser) : rdParser :=
  if hasAbs
  then
    let obj := ObjectTypeIR.set_OID abs obj in
    let p := update_mod (ModuleIR.setObject (ObjectTypeIR.Name obj) obj) p in
    update_mod (ModuleIR.setNode (ObjectTypeIR.Name obj) (ObjectTypeIR.OID obj)) p
  else
    match resolveOidBase parentName p with
    | Some base =>
        let obj := ObjectTypeIR.set_OID (base ++ [index]) obj in
        let p := update_mod (ModuleIR.setObject (ObjectTypeIR.Name obj) obj) p in
        update_mod (ModuleIR.setNode (ObjectTypeIR.Name obj) (ObjectTypeIR.OID obj)) p
    | None =>
        let p := update_mod (ModuleIR.setObject (ObjectTypeIR.Name obj) obj) p in
        let p := update_mod (ModuleIR.ensureNode (ObjectTypeIR.Name obj)) p in
        add_pend (mkPending parentName index (applyObjectType obj index)) p
    end.

(** The [::=] block shared by the constructs that carry an OID: the braces
    around the reference, then [resolve] on what was read. *)
Definition parseOidAssignment (lbrace rbrace : string)
    (resolve : string → Z → list Z → bool → rdParser → rdParser)
    (p : rdParser) : result rdParser :=
  let '(ok, p) := accept TokenLBrace p in
  if negb ok then Err (errorf p lbrace)
  else
    let '(parentName, index, abs, hasAbs, p) := parseOidAssignmentInsideBraces p in
    let '(ok, p) := accept TokenRBrace p in
    if negb ok then Err (errorf p rbrace)
    else Ok (resolve parentName index abs hasAbs p).

Definition objectType_body (ident : string) (st : rdParser * ObjectTypeIR.t)
    : ctl (rdParser * ObjectTypeIR.t) (result rdParser) :=
  let '(p, obj) := st in
  if tokIs TokenEOF p
  then Break (Err (errorf p ("unexpected EOF in OBJECT-TYPE for " +:+ ident)))
  else
  let '(ok, p) := acceptIdent "SYNTAX" p in
  if ok
  then let '(s, p) := parseTypeString p in Continue (p, ObjectTypeIR.set_Syntax s obj)
  else
  let '(ok, p) := acceptIdent2 "MAX-ACCESS" "ACCESS" p in
  if ok
  then
    let '(s, p) := parseUntilKeywords ["STATUS"; "DESCRIPTION"; "INDEX"; "::="] p in
    Continue (p, ObjectTypeIR.set_Access s obj)
  else
  let '(ok, p) := acceptIdent "STATUS" p in
  if ok
  then
    let '(s, p) := parseUntilKeywords ["DESCRIPTION"; "INDEX"; "::="] p in
    Continue (p, ObjectTypeIR.set_Status s obj)
  else
  let '(ok, p) := acceptIdent "DESCRIPTION" p in
  if ok
  then
    if negb (tokIs TokenString p)
    then Break (Err (errorf p "expected string after DESCRIPTION"))
    else Continue (next p, ObjectTypeIR.set_Description (Text (tok p)) obj)
  else
  let '(ok, p) := acceptIdent "INDEX" p in
  if ok
  then
    let '(ok, p) := accept TokenLBrace p in
    if negb ok then Break (Err (errorf p "expected '{' after INDEX"))
    else
      match parseIndexList p with
      | Err e => Break (Err e)
      | Ok (p, idx) => Continue (p, ObjectTypeIR.set_Index idx obj)
      end
  else
  (* "Allow STATUS before ACCESS in some MIBs" *)
  let '(ok, p) := acceptIdent "STATUS" p in
  if ok
  then
    let '(s, p) :=
      parseUntilKeywords ["DESCRIPTION"; "INDEX"; "::="; "ACCESS"; "MAX-ACCESS"] p in
    Continue (p, ObjectTypeIR.set_Status s obj)
  else
  let '(ok, p) := acceptIdent2 "MAX-ACCESS" "ACCESS" p in
  if ok
  then
    let '(s, p) := parseUntilKeywords ["STATUS"; "DESCRIPTION"; "INDEX"; "::="] p in
    Continue (p, ObjectTypeIR.set_Access s obj)
  else
  let '(ok, p) := accept TokenColonColonEq p in
  if ok
  then
    Break (parseOidAssignment "expected '{' after '::=' in OBJECT-TYPE"
             "expected '}' after OBJECT-TYPE OID ref" (resolveObjectType obj) p)
  else
  let '(ok, p) := accept TokenSemicolon p in
  if ok then Continue (p, obj)
  else if negb (tokIs TokenEOF p) then Continue (next p, obj)
  else Continue (p, obj).

(** Entered with [OBJECT-TYPE] as the current token. *)
Definition parseObjectType (ident : string) (p : rdParser) : result rdParser :=
  let p := next p in
  while (fun st => remaining st.1) (Ok p) (objectType_body ident)
        (p, ObjectTypeIR.new ident).

(** *** [OBJECT-GROUP], [NOTIFICATION-GROUP], [MODULE-COMPLIANCE],
    [AGENT-CAPABILITIES]

    Four copies of one loop in the source; they differ in the keyword
    [kw] of their messages. *)

Definition resolveGroup (ident parent_ : string) (idx : Z) (p : rdParser) : rdParser :=
  match ModuleIR.NodesByName (mod_ p) !! parent_ with
  | Some base => update_mod (ModuleIR.setNode ident (base ++ [idx])) p
  | None => add_pend (mkPending parent_ idx (applyNode ident idx)) p
  end.

Definition group_body (kw ident : string) (p : rdParser)
    : ctl rdParser (result rdParser) :=
  if tokIs TokenEOF p then Break (Err (errorf p ("unexpected EOF in " +:+ kw)))
  else
    let '(ok, p) := accept TokenColonColonEq p in
    if ok
    then
      let '(ok, p) := accept TokenLBrace p in
      if negb ok then Break (Err (errorf p ("expected '{' after " +:+ kw +:+ " '::='")))
      else
        let '(parent_, idx, p) := parseParentRef p in
        let '(ok, p) := accept TokenRBrace p in
        if negb ok then Break (Err (errorf p ("expected '}' after " +:+ kw +:+ " OID")))
        else Break (Ok (resolveGroup ident parent_ idx p))
    else Continue (next p).

(** Entered with the keyword [kw] as the current token. *)
Definition parseGroup (kw ident : string) (p : rdParser) : result rdParser :=
  let p := next p in
  while remaining (Ok p) (group_body kw ident) p.

(** *** [MODULE-IDENTITY] *)

Definition applyModuleIdentity (ref : ModuleIdentityIR.t) (ident : string)
    (idx : Z) (base : list Z) (m : ModuleIR.t) : ModuleIR.t :=
  let ref := ModuleIdentityIR.set_OID (base ++ [idx]) ref in
  let m := ModuleIR.setModuleIdentity ref m in
  ModuleIR.setNode ident (ModuleIdentityIR.OID ref) m.

Definition resolveModuleIdentity (mi : ModuleIdentityIR.t) (ident parent_ : string)
    (idx : Z) (abs : list Z) (hasAbs : bool) (p : rdParser) : rdParser :=
  if hasAbs
  then
    let mi := ModuleIdentityIR.set_OID abs mi in
    let p := update_mod (ModuleIR.setModuleIdentity mi) p in
    update_mod (ModuleIR.setNode ident (ModuleIdentityIR.OID mi)) p
  else
    match resolveOidBase parent_ p with
    | Some base =>
        let mi := ModuleIdentityIR.set_OID (base ++ [idx]) mi in
        let p := update_mod (ModuleIR.setModuleIdentity mi) p in
        update_mod (ModuleIR.setNode ident (ModuleIdentityIR.OID mi)) p
    | None =>
        let p := update_mod (ModuleIR.setModuleIdentity mi) p in
        add_pend (mkPending parent_ idx (applyModuleIdentity mi ident idx)) p
    end.

(** [if p.acceptIdent(kw) { if p.tok.Type == lexer.TokenString { ... p.next() }; continue }]:
    the string that follows the keyword, if any. *)
Definition stringClause (p : rdParser) : option string * rdParser :=
  if tokIs TokenString p then (Some (Text (tok p)), next p) else (None, p).

Definition moduleIdentity_body (ident : string) (st : rdParser * ModuleIdentityIR.t)
    : ctl (rdParser * ModuleIdentityIR.t) (result rdParser) :=
  let '(p, mi) := st in
  let '(ok, p) := acceptIdent "LAST-UPDATED" p in
  if ok
  then
    let '(s, p) := stringClause p in
    Continue (p, from_option (fun s => ModuleIdentityIR.set_LastUpdated s mi) mi s)
  else
  let '(ok, p) := acceptIdent "ORGANIZATION" p in
  if ok
  then
    let '(s, p) := stringClause p in
    Continue (p, from_option (fun s => ModuleIdentityIR.set_Organization s mi) mi s)
  else
  let '(ok, p) := acceptIdent "CONTACT-INFO" p in
  if ok
  then
    let '(s, p) := stringClause p in
    Continue (p, from_option (fun s => ModuleIdentityIR.set_ContactInfo s mi) mi s)
  else
  let '(ok, p) := acceptIdent "DESCRIPTION" p in
  if ok
  then
    let '(s, p) := stringClause p in
    Continue (p, from_option (fun s => ModuleIdentityIR.set_Description s mi) mi s)
  else
  let '(ok, p) := accept TokenColonColonEq p in
  if ok
  then
    Break (parseOidAssignment "expected '{' after MODULE-IDENTITY '::='"
             "expected '}' after MODULE-IDENTITY OID"
             (resolveModuleIdentity mi ident) p)
  else if tokIs TokenEOF p
  then Break (Err (errorf p "unexpected EOF in MODULE-IDENTITY"))
  else Continue (next p, mi).

(** Entered with [MODULE-IDENTITY] as the current token. *)
Definition parseModuleIdentity (ident : string) (p : rdParser) : result rdParser :=
  let p := next p in
  let p := update_mod (ModuleIR.ensureNode ident) p in
  while (fun st => remaining st.1) (Ok p) (moduleIdentity_body ident)
        (p, ModuleIdentityIR.new ident).

(** *** [OBJECT-IDENTITY] *)

Definition applyObjectIdentity (ref : ObjectIdentityIR.t) (ident : string)
    (idx : Z) (base : list Z) (m : ModuleIR.t) : ModuleIR.t :=
  let ref := ObjectIdentityIR.set_OID (base ++ [idx]) ref in
  let m := ModuleIR.setObjectIdentity (ObjectIdentityIR.Name ref) ref m in
  ModuleIR.setNode ident (ObjectIdentityIR.OID ref) m.

Definition resolveObjectIdentity (oi : ObjectIdentityIR.t) (ident parent_ : string)
    (idx : Z) (abs : list Z) (hasAbs : bool) (p : rdParser) : rdParser :=
  if hasAbs
  then
    let oi := ObjectIdentityIR.set_OID abs oi in
    let p := update_mod (ModuleIR.setObjectIdentity (ObjectIdentityIR.Name oi) oi) p in
    update_mod (ModuleIR.setNode ident (ObjectIdentityIR.OID oi)) p
  else
    match resolveOidBase parent_ p with
    | Some base =>
        let oi := ObjectIdentityIR.set_OID (base ++ [idx]) oi in
        let p := update_mod (ModuleIR.setObjectIdentity (ObjectIdentityIR.Name oi) oi) p in
        update_mod (ModuleIR.setNode ident (ObjectIdentityIR.OID oi)) p
    | None =>
        let p := update_mod (ModuleIR.setObjectIdentity (ObjectIdentityIR.Name oi) oi) p in
        add_pend (mkPending parent_ idx (applyObjectIdentity oi ident idx)) p
    end.

Definition objectIdentity_body (ident : string) (st : rdParser * ObjectIdentityIR.t)
    : ctl (rdParser * ObjectIdentityIR.t) (result rdParser) :=
  let '(p, oi) := st in
  let '(ok, p) := acceptIdent "STATUS" p in
  if ok
  then
    let '(s, p) := parseUntilKeywords ["DESCRIPTION"; "::="] p in
    Continue (p, ObjectIdentityIR.set_Status s oi)
  else
  let '(ok, p) := acceptIdent "DESCRIPTION" p in
  if ok
  then
    let '(s, p) := stringClause p in
    Continue (p, from_option (fun s => ObjectIdentityIR.set_Description s oi) oi s)
  else
  let '(ok, p) := accept TokenColonColonEq p in
  if ok
  then
    Break (parseOidAssignment "expected '{' after OBJECT-IDENTITY '::='"
             "expected '}' after OBJECT-IDENTITY OID"
             (resolveObjectIdentity oi ident) p)
  else if tokIs TokenEOF p
  then Break (Err (errorf p "unexpected EOF in OBJECT-IDENTITY"))
  else Continue (next p, oi).

(** Entered with [OBJECT-IDENTITY] as the current token. *)
Definition parseObjectIdentity (ident : string) (p : rdParser) : result rdParser :=
  let p := next p in
  let p := update_mod (ModuleIR.ensureNode ident) p in
  while (fun st => remaining st.1) (Ok p) (objectIdentity_body ident)
        (p, ObjectIdentityIR.new ident).

(** *** [NOTIFICATION-TYPE] *)

Definition objectsList_body (st : rdParser * list string)
    : ctl (rdParser * list string) (rdParser * list string) :=
  let '(p, objs) := st in
  if tokIs TokenIdent p
  then
    let objs := objs ++ [Text (tok p)] in
    let p := next p in
    let '(ok, p) := accept TokenComma p in
    if ok then Continue (p, objs) else Break (p, objs)
  else Break (p, objs).

Definition applyNotificationType (ref : NotificationTypeIR.t) (idx : Z)
    (base : list Z) (m : ModuleIR.t) : ModuleIR.t :=
  let ref := NotificationTypeIR.set_OID (base ++ [idx]) ref in
  ModuleIR.setNotificationType (NotificationTypeIR.Name ref) ref m.

Definition resolveNotificationType (nt : NotificationTypeIR.t) (parent_ : string)
    (idx : Z) (abs : list Z) (hasAbs : bool) (p : rdParser) : rdParser :=
  if hasAbs
  then
    let nt := NotificationTypeIR.set_OID abs nt in
    update_mod (ModuleIR.setNotificationType (NotificationTypeIR.Name nt) nt) p
  else
    match resolveOidBase parent_ p with
    | Some base =>
        let nt := NotificationTypeIR.set_OID (base ++ [idx]) nt in
        update_mod (ModuleIR.setNotificationType (NotificationTypeIR.Name nt) nt) p
    | None =>
        let p := update_mod (ModuleIR.setNotificationType (NotificationTypeIR.Name nt) nt) p in
        add_pend (mkPending parent_ idx (applyNotificationType nt idx)) p
    end.

Definition notificationType_body (st : rdParser * NotificationTypeIR.t)
    : ctl (rdParser * NotificationTypeIR.t) (result rdParser) :=
  let '(p, nt) := st in
  let '(ok, p) := acceptIdent "OBJECTS" p in
  if ok
  then
    let '(ok, p) := accept TokenLBrace p in
    if negb ok then Break (Err (errorf p "expected '{' after OBJECTS"))
    else
      let '(p, objs) := while (fun st => remaining st.1) (p, []) objectsList_body (p, []) in
      let '(ok, p) := accept TokenRBrace p in
      if negb ok then Break (Err (errorf p "expected '}' at end of OBJECTS list"))
      else Continue (p, NotificationTypeIR.set_Objects objs nt)
  else
  let '(ok, p) := acceptIdent "STATUS" p in
  if ok
  then
    let '(s, p) := parseUntilKeywords ["DESCRIPTION"; "::="] p in
    Continue (p, NotificationTypeIR.set_Status s nt)
  else
  let '(ok, p) := acceptIdent "DESCRIPTION" p in
  if ok
  then
    let '(s, p) := stringClause p in
    Continue (p, from_option (fun s => NotificationTypeIR.set_Description s nt) nt s)
  else
  let '(ok, p) := accept TokenColonColonEq p in
  if ok
  then
    Break (parseOidAssignment "expected '{' after NOTIFICATION-TYPE '::='"
             "expected '}' after NOTIFICATION-TYPE OID"
             (resolveNotificationType nt) p)
  else if tokIs TokenEOF p
  then Break (Err (errorf p "unexpected EOF in NOTIFICATION-TYPE"))
  else Continue (next p, nt).

(** Entered with [NOTIFICATION-TYPE] as the current token. *)
Definition parseNotificationType (ident : string) (p : rdParser) : result rdParser :=
  let p := next p in
  while (fun st => remaining st.1) (Ok p) notificationType_body
        (p, NotificationTypeIR.new ident).

(** ** [parseModule] *)

(** One iteration of the body loop [for p.tok.Type != lexer.TokenEOF]. *)
Definition moduleBody_body (p : rdParser) : ctl rdParser (result rdParser) :=
  if tokIs TokenEOF p then Break (Ok p)
  else if isIdent "END" p
  then
    let peek := Peek p in
    if bool_decide (Typ peek = TokenEOF) then Break (Ok (next p))
    else Continue (next p)
  else if tokIs TokenIdent p
  then
    let ident := Text (tok p) in
    let p := next p in
    if isIdent "MACRO" p then Continue (skipDefinition p)
    else if isIdent "OBJECT" p then lift (parseObjectIdentifier ident p)
    else
      let '(ok, p) := accept TokenColonColonEq p in
      if ok
      then
        let '(ok, p) := acceptIdent "TEXTUAL-CONVENTION" p in
        if ok then lift (parseTextualConvention ident p)
        else Continue (skipDefinition p)
      else if isIdent "OBJECT-TYPE" p then lift (parseObjectType ident p)
      else if isIdent "OBJECT-GROUP" p then lift (parseGroup "OBJECT-GROUP" ident p)
      else if isIdent "NOTIFICATION-GROUP" p
      then lift (parseGroup "NOTIFICATION-GROUP" ident p)
      else if isIdent "MODULE-COMPLIANCE" p
      then lift (parseGroup "MODULE-COMPLIANCE" ident p)
      else if isIdent "AGENT-CAPABILITIES" p
      then lift (parseGroup "AGENT-CAPABILITIES" ident p)
      else if isIdent "MODULE-IDENTITY" p then lift (parseModuleIdentity ident p)
      else if isIdent "OBJECT-IDENTITY" p then lift (parseObjectIdentity ident p)
      else if isIdent "TEXTUAL-CONVENTION" p
      then lift (parseTextualConvention ident (next p))
      else if isIdent "NOTIFICATION-TYPE" p then lift (parseNotificationType ident p)
      else Continue (skipDefinition p)
  else Continue (next p).

Definition moduleBody (p : rdParser) : result rdParser :=
  while remaining (Ok p) moduleBody_body p.

(** One pass over the pending references:
    [for _, pr := range p.pend { if base, ok := p.mod.NodesByName[pr.parent]; ok
    { pr.apply(base); progressed = true } else { remaining = append(remaining, pr) } }].
    The result is the module, [remaining] and [progressed] after the pass. *)
Fixpoint resolvePass (prs : list pendingRef) (m : ModuleIR.t)
    (remaining_ : list pendingRef) (progressed : bool)
    : ModuleIR.t * list pendingRef * bool :=
  match prs with
  | [] => (m, remaining_, progressed)
  | pr :: prs' =>
      match ModuleIR.NodesByName m !! parent pr with
      | Some base => resolvePass prs' (apply pr base m) remaining_ true
      | None => resolvePass prs' m (remaining_ ++ [pr]) progressed
      end
  end.

Definition resolvePending_body (p : rdParser) : ctl rdParser rdParser :=
  if Nat.eqb (length (pend p)) 0 then Break p
  else
    let '(m, remaining_, progressed) := resolvePass (pend p) (mod_ p) [] false in
    let p := set_pend remaining_ (set_mod m p) in
    if negb progressed then Break p else Continue p.

(** The fixed-point loop at the end of [parseModule]. *)
Definition resolvePending (p : rdParser) : rdParser :=
  while (fun p => length (pend p)) p resolvePending_body p.

Definition parseModule (p : rdParser) : result rdParser :=
  match expect TokenIdent p with
  | (None, p) => Err (errorf p "expected module name")
  | (Some nameTok, p) =>
      let p := update_mod (ModuleIR.set_Name (Text nameTok)) p in
      let '(ok, p) := acceptIdent "DEFINITIONS" p in
      if negb ok then Err (errorf p "expected DEFINITIONS")
      else
        let '(ok, p) := accept TokenColonColonEq p in
        if negb ok then Err (errorf p "expected '::=' after DEFINITIONS")
        else
          let '(ok, p) := acceptIdent "BEGIN" p in
          if negb ok then Err (errorf p "expected BEGIN")
          else
            let p := if isIdent "IMPORTS" p then parseImports p else p in
            match moduleBody p with
            | Err e => Err e
            | Ok p => Ok (resolvePending p)
            end
  end.

(** ** [augmentFromSource]

    The source text [p.src] is handled as the rune sequence that [Parse]
    received.  The three cleaning passes and the regular expressions only
    test for ASCII characters, so they act on this sequence as they do on
    its UTF-8 bytes. *)

(** [strings.Split(s, "\n")] *)
Fixpoint splitLines (s : list Z) : list (list Z) :=
  match s with
  | [] => [[]]
  | r :: s' =>
      if r =? 10 then [] :: splitLines s'
      else
        match splitLines s' with
        | line :: lines => (r :: line) :: lines
        | [] => [[r]]
        end
  end.

(** [strings.Join(lines, "\n")] *)
Fixpoint joinLines (lines : list (list Z)) : list Z :=
  match lines with
  | [] => []
  | [line] => line
  | line :: rest => line ++ 10 :: joinLines rest
  end.

(** [if idx := strings.Index(line, "--"); idx >= 0 { line = line[:idx] }] *)
Fixpoint cutComment (line : list Z) : list Z :=
  match line with
  | a :: ((b :: _) as line') =>
      if (a =? 45) && (b =? 45) then [] else a :: cutComment line'
  | _ => line
  end.

Definition stripLineComments (src : list Z) : list Z :=
  joinLines (map cutComment (splitLines src)).

(** The loop of [removeQuotedStrings]; [inside] is Go's [in]. *)
Fixpoint removeQuotedStrings_from (inside : bool) (runes : list Z) : list Z :=
  match runes with
  | [] => []
  | r :: rest =>
      if r =? 34 then 32 :: removeQuotedStrings_from (negb inside) rest
      else if inside
      then (if (r =? 10) || (r =? 13) then r else 32)
             :: removeQuotedStrings_from inside rest
      else r :: removeQuotedStrings_from inside rest
  end.

Definition removeQuotedStrings (src : list Z) : list Z :=
  removeQuotedStrings_from false src.

(** [unicode.IsSpace]: the code points with the White_Space property. *)
Definition unicode_IsSpace (r : Z) : bool :=
  ((9 <=? r) && (r <=? 13)) || (r =? 32) || (r =? 0x85) || (r =? 0xA0)
  || (r =? 0x1680) || ((0x2000 <=? r) && (r <=? 0x200A))
  || (r =? 0x2028) || (r =? 0x2029) || (r =? 0x202F) || (r =? 0x205F)
  || (r =? 0x3000).

Definition TrimSpace (s : list Z) : list Z :=
  rev (dropWhile unicode_IsSpace (rev (dropWhile unicode_IsSpace s))).

(** [strings.HasPrefix(s, prefix)] *)
Fixpoint HasPrefix (s prefix_ : list Z) : bool :=
  match prefix_, s with
  | [], _ => true
  | c :: prefix', r :: s' => (r =? c) && HasPrefix s' prefix'
  | _ :: _, [] => false
  end.

(** [strings.Contains(line, ";")] *)
Definition ContainsSemicolon (line : list Z) : bool :=
  existsb (fun r => r =? 59) line.

(** The loop of [removeImportsBlocks] over the lines; the result is [out]. *)
Fixpoint removeImportsBlocks_from (skipping : bool) (lines : list (list Z))
    : list (list Z) :=
  match lines with
  | [] => []
  | line :: rest =>
      let trimmed := TrimSpace line in
      if negb skipping && HasPrefix trimmed (runes_of_string "IMPORTS")
      then
        if ContainsSemicolon line then removeImportsBlocks_from skipping rest
        else removeImportsBlocks_from true rest
      else if skipping
      then
        if ContainsSemicolon line then removeImportsBlocks_from false rest
        else removeImportsBlocks_from skipping rest
      else line :: removeImportsBlocks_from skipping rest
  end.

Definition removeImportsBlocks (src : list Z) : list Z :=
  joinLines (removeImportsBlocks_from false (splitLines src)).

(** *** The regular expressions

    The four expressions are multi-line ([(?m)]) and have the shape
    [^ \s* NAME \s+ W1 \s+ ... \s+ Wn], where the captured group NAME is one
    of [A-Za-z] followed by any number of [A-Za-z0-9-], with an optional
    final [\b].  Each repetition is followed by a character outside its own
    class, so a match from a given start, if any, takes every repetition
    at its longest: leftmost-first matching has one candidate per start. *)

Definition reSpace (r : Z) : bool :=
  (r =? 9) || (r =? 10) || (r =? 12) || (r =? 13) || (r =? 32).

Definition reAlpha (r : Z) : bool :=
  ((65 <=? r) && (r <=? 90)) || ((97 <=? r) && (r <=? 122)).

Definition reNameChar (r : Z) : bool :=
  reAlpha r || ((48 <=? r) && (r <=? 57)) || (r =? 45).

Definition reWordChar (r : Z) : bool :=
  reAlpha r || ((48 <=? r) && (r <=? 57)) || (r =? 95).

(** A literal word: the text after it, if the text starts with it. *)
Fixpoint reLiteral (w s : list Z) : option (list Z) :=
  match w, s with
  | [], _ => Some s
  | c :: w', r :: s' => if r =? c then reLiteral w' s' else None
  | _ :: _, [] => None
  end.

(** [\s+ W1 \s+ ... \s+ Wn] *)
Fixpoint reWords (ws : list (list Z)) (s : list Z) : option (list Z) :=
  match ws with
  | [] => Some s
  | w :: ws' =>
      match s with
      | r :: _ =>
          if reSpace r
          then
            match reLiteral w (dropWhile reSpace s) with
            | Some s' => reWords ws' s'
            | None => None
            end
          else None
      | [] => None
      end
  end.

(** [\b] after a word character: the end of the text, or a character
    that is not a word character. *)
Definition reBoundary (s : list Z) : bool :=
  match s with
  | [] => true
  | r :: _ => negb (reWordChar r)
  end.

Record regexp : Type := mkRegexp {
  words : list string;
  boundary : bool
}.

(** The match that starts at the beginning of [s], a line start: the
    captured name and the text after the match. *)
Definition matchHere (re : regexp) (s : list Z) : option (string * list Z) :=
  let s := dropWhile reSpace s in
  match s with
  | r :: s' =>
      if reAlpha r
      then
        let name := r :: takeWhile reNameChar s' in
        match reWords (map runes_of_string (words re)) (dropWhile reNameChar s') with
        | Some rest =>
            if negb (boundary re) || reBoundary rest
            then Some (string_of_runes name, rest)
            else None
        | None => None
        end
      else None
  | [] => None
  end.

(** [re.FindAllStringSubmatch(clean, -1)], the captured names [m[1]] in
    order.  The state is [(lineStart, s, names)]: the unread text [s],
    whether [^] holds in front of it, and the names found so far.  The
    search resumes where a match ends. *)
Definition FindAll_body (re : regexp) (st : bool * list Z * list string)
    : ctl (bool * list Z * list string) (list string) :=
  let '(lineStart, s, names) := st in
  match s with
  | [] => Break names
  | r :: s' =>
      match (if lineStart then matchHere re s else None) with
      | Some (name, rest) => Continue (false, rest, names ++ [name])
      | None => Continue (r =? 10, s', names)
      end
  end.

Definition FindAllNames (re : regexp) (clean : list Z) : list string :=
  while (fun st => length st.1.2) [] (FindAll_body re) (true, clean, []).

Definition reObjId : regexp := mkRegexp ["OBJECT"; "IDENTIFIER"; "::="] false.
Definition reObjType : regexp := mkRegexp ["OBJECT-TYPE"] true.
Definition reObjIdentity : regexp := mkRegexp ["OBJECT-IDENTITY"] true.
Definition reNotif : regexp := mkRegexp ["NOTIFICATION-TYPE"] true.

Definition isReservedName (s : string) : bool :=
  String.eqb s "BEGIN" || String.eqb s "END"
  || String.eqb s "DEFINITIONS" || String.eqb s "IMPORTS".

Definition cleanSource (src : list Z) : list Z :=
  removeImportsBlocks (removeQuotedStrings (stripLineComments src)).

Definition augmentObjId (m : ModuleIR.t) (name : string) : ModuleIR.t :=
  ModuleIR.ensureNode name m.

Definition augmentObjType (m : ModuleIR.t) (name : string) : ModuleIR.t :=
  if isReservedName name then m
  else
    let m :=
      match ModuleIR.ObjectsByName m !! name with
      | Some _ => m
      | None => ModuleIR.setObject name (ObjectTypeIR.new name) m
      end in
    ModuleIR.ensureNode name m.

Definition augmentObjIdentity (m : ModuleIR.t) (name : string) : ModuleIR.t :=
  if isReservedName name then m
  else
    let m :=
      match ModuleIR.ObjectIdentities m !! name with
      | Some _ => m
      | None => ModuleIR.setObjectIdentity name (ObjectIdentityIR.new name) m
      end in
    ModuleIR.ensureNode name m.

Definition augmentNotif (m : ModuleIR.t) (name : string) : ModuleIR.t :=
  if isReservedName name then m
  else
    let m :=
      match ModuleIR.NotificationTypes m !! name with
      | Some _ => m
      | None => ModuleIR.setNotificationType name (NotificationTypeIR.new name) m
      end in
    ModuleIR.ensureNode name m.

Definition augmentFromSource (p : rdParser) : rdParser :=
  let clean := cleanSource (src p) in
  let m := mod_ p in
  let m := fold_left augmentObjId (FindAllNames reObjId clean) m in
  let m := fold_left augmentObjType (FindAllNames reObjType clean) m in
  let m := fold_left augmentObjIdentity (FindAllNames reObjIdentity clean) m in
  let m := fold_left augmentNotif (FindAllNames reNotif clean) m in
  set_mod m p.

(** ** [Parse]

    [input] is the rune sequence [[]rune(string(input))] of the bytes
    given to [Parse]. *)
(** The parser state on which [Parse] calls [parseModule]: the first
    token has been read ([p.next()]) and [initBaseOids] has run. *)
Definition Parse_start (U : Unicode) (input : list Z) : rdParser :=
  let ts := Tokens U (New input) in
  let p := mkParser (tokens ts) (Line (last ts)) (Col (last ts)) ModuleIR.new [] input in
  initBaseOids p.

Definition Parse (U : Unicode) (input : list Z) : result ModuleIR.t :=
  let p := Parse_start U input in
  match parseModule p with
  | Err e => Err e
  | Ok p => Ok (mod_ (augmentFromSource p))
  end.

(** [Parse] on ASCII text given as a string. *)
Definition ParseString (s : string) : result ModuleIR.t :=
  Parse asciiOnly (runes_of_string s).

End parser.

(** * Package [mib_parser]: the entry point [ParseMIB] *)

Module facade.
Import mib_parser.

Definition fromObjectTypeIR (obj : parser.ObjectTypeIR.t) : ObjectType.t :=
  ObjectType.mk (parser.ObjectTypeIR.Name obj) (parser.ObjectTypeIR.OID obj)
    (parser.ObjectTypeIR.Syntax obj) (parser.ObjectTypeIR.Access obj)
    (parser.ObjectTypeIR.Status obj) (parser.ObjectTypeIR.Description obj)
    (parser.ObjectTypeIR.Index obj).

Definition fromModuleIdentityIR (mi : parser.ModuleIdentityIR.t) : ModuleIdentity.t :=
  ModuleIdentity.mk (parser.ModuleIdentityIR.Name mi) (parser.ModuleIdentityIR.OID mi)
    (parser.ModuleIdentityIR.LastUpdated mi) (parser.ModuleIdentityIR.Organization mi)
    (parser.ModuleIdentityIR.ContactInfo mi) (parser.ModuleIdentityIR.Description mi).

Definition fromObjectIdentityIR (oi : parser.ObjectIdentityIR.t) : ObjectIdentity.t :=
  ObjectIdentity.mk (parser.ObjectIdentityIR.Name oi) (parser.ObjectIdentityIR.OID oi)
    (parser.ObjectIdentityIR.Status oi) (parser.ObjectIdentityIR.Description oi).

Definition fromTextualConventionIR (tc : parser.TextualConventionIR.t)
    : TextualConvention.t :=
  TextualConvention.mk (parser.TextualConventionIR.Name tc)
    (parser.TextualConventionIR.DisplayHint tc) (parser.TextualConventionIR.Status tc)
    (parser.TextualConventionIR.Description tc) (parser.TextualConventionIR.Syntax tc).

Definition fromNotificationTypeIR (nt : parser.NotificationTypeIR.t)
    : NotificationType.t :=
  NotificationType.mk (parser.NotificationTypeIR.Name nt) (parser.NotificationTypeIR.OID nt)
    (parser.NotificationTypeIR.Objects nt) (parser.NotificationTypeIR.Status nt)
    (parser.NotificationTypeIR.Description nt).

(** The module that [ParseMIB] builds from the parser's result: every map
    is made, and every entry is the address of a fresh record. *)
Definition fromIR (ir : parser.ModuleIR.t) : Module.t :=
  Module.mk (parser.ModuleIR.Name ir)
    (Some (map_imap (fun name oid => Some (Some (OidNode.mk name oid)))
             (parser.ModuleIR.NodesByName ir)))
    (Some ((fun obj => Some (fromObjectTypeIR obj)) <$> parser.ModuleIR.ObjectsByName ir))
    (fromModuleIdentityIR <$> parser.ModuleIR.ModuleIdentity ir)
    (Some ((fun oi => Some (fromObjectIdentityIR oi))
             <$> parser.ModuleIR.ObjectIdentities ir))
    (Some ((fun tc => Some (fromTextualConventionIR tc))
             <$> parser.ModuleIR.TextualConventions ir))
    (Some ((fun nt => Some (fromNotificationTypeIR nt))
             <$> parser.ModuleIR.NotificationTypes ir)).

(** [ParseMIB]: the pair of its results, the module pointer and the
    error. *)
Definition ParseMIB (U : lexer.Unicode) (mib : list Z)
    : option Module.t * option string :=
  match parser.Parse U mib with
  | parser.Err err => (None, Some err)
  | parser.Ok ir => (Some (fromIR ir), None)
  end.

End facade.

(** * Package [testutil]: what the tests expect of a parsed module *)

Module testutil.
Import lexer parser.

(** [testutil] has its own copies of the three cleaning passes and of the
    test for reserved names; they are, statement by statement, those of
    the parser. *)
Definition stripLineComments : list Z → list Z := parser.stripLineComments.
Definition removeQuotedStrings : list Z → list Z := parser.removeQuotedStrings.
Definition removeImportsBlocks : list Z → list Z := parser.removeImportsBlocks.
Definition isReserved : string → bool := parser.isReservedName.

Record Expected : Type := mkExpected {
  ObjectIdentifierNames : gset string;
  ObjectTypeNames : gset string;
  ModuleIdentityName : string;
  ObjectIdentityNames : gset string;
  NotificationTypeNames : gset string
}.

Definition reModId : regexp := mkRegexp ["MODULE-IDENTITY"] true.

(** The names that are not reserved, as a set: the loops
    [for _, m := range re.FindAllStringSubmatch(src, -1)] with
    [if isReserved(name) { continue }]. *)
Definition namesOf (names : list string) : gset string :=
  list_to_set (List.filter (fun name => negb (isReserved name)) names).

(** [extractExpected]; [reModId.FindStringSubmatch] gives the first
    match, and the empty name stands when there is none. *)
Definition extractExpected (src : list Z) : Expected :=
  {| ObjectIdentifierNames := list_to_set (FindAllNames reObjId src);
     ObjectTypeNames := namesOf (FindAllNames reObjType src);
     ModuleIdentityName := hd EmptyString (FindAllNames reModId src);
     ObjectIdentityNames := namesOf (FindAllNames reObjIdentity src);
     NotificationTypeNames := namesOf (FindAllNames reNotif src) |}.

(** The text from which [VerifyMIB] extracts what it expects. *)
Definition cleaned (mibSource : list Z) : list Z :=
  removeImportsBlocks (removeQuotedStrings (stripLineComments mibSource)).

(** The four presence loops of [VerifyMIB]: the names for which the loop
    calls [t.Errorf].  [if _, ok := ir.NodesByName[name]; !ok { ... }] *)
Definition missingObjectIdentifiers (exp : Expected) (ir : ModuleIR.t) : gset string :=
  filter (fun name => ModuleIR.NodesByName ir !! name = None) (ObjectIdentifierNames exp).

(** [if _, ok := mod.ObjectsByName[name]; !ok { ... }] *)
Definition missingObjectTypes (exp : Expected) (md : mib_parser.Module.t) : gset string :=
  filter (fun name =>
            (mib_parser.index (mib_parser.Module.ObjectsByName md) name).2 = false)
         (ObjectTypeNames exp).

Definition missingObjectIdentities (exp : Expected) (md : mib_parser.Module.t)
    : gset string :=
  filter (fun name =>
            (mib_parser.index (mib_parser.Module.ObjectIdentities md) name).2 = false)
         (ObjectIdentityNames exp).

Definition missingNotificationTypes (exp : Expected) (md : mib_parser.Module.t)
    : gset string :=
  filter (fun name =>
            (mib_parser.index (mib_parser.Module.NotificationTypes md) name).2 = false)
         (NotificationTypeNames exp).

(** [if mod == nil || mod.Name == <empty> { t.Fatalf(...) }] *)
Definition moduleEmpty (md : option mib_parser.Module.t) : bool :=
  match md with
  | None => true
  | Some m => String.eqb (mib_parser.Module.Name m) EmptyString
  end.

(** The MODULE-IDENTITY check of [VerifyMIB]: whether it calls
    [t.Errorf].  [EqualFold] stands for [strings.EqualFold] of the
    standard library, which [equalFold] of this package calls. *)
Definition moduleIdentityMissing (EqualFold : string → string → bool)
    (exp : Expected) (md : mib_parser.Module.t) : bool :=
  if negb (String.eqb (ModuleIdentityName exp) EmptyString)
  then
    match mib_parser.Module.ModuleIdentity md with
    | None => true
    | Some mi =>
        negb (EqualFold (mib_parser.ModuleIdentity.Name mi) (ModuleIdentityName exp))
    end
  else false.

End testutil.

(** * Specification vocabulary *)

Module spec.
Import lexer parser.

(** [p'] is [p] after some tokens have been consumed: the same module,
    pending references and source, and a suffix of the tokens. *)
Definition advanced (p p' : rdParser) : Prop :=
  ∃ k : nat, p' = set_toks (drop k (toks p)) p.

(** What one construct of the module body does to the parser state: it
    consumes tokens and performs at most one of the store-and-resolve
    blocks. *)
Inductive effect (p : rdParser) : rdParser → Prop :=
| effect_skip p' :
    advanced p p' → effect p p'
| effect_ObjectIdentifier p1 ident parentName index abs hasAbs :
    advanced p p1 →
    effect p (resolveObjectIdentifier ident parentName index abs hasAbs p1)
| effect_TextualConvention p1 tc :
    advanced p p1 →
    effect p (update_mod
                (ModuleIR.setTextualConvention (TextualConventionIR.Name tc) tc) p1)
| effect_ObjectType p1 obj parentName index abs hasAbs :
    advanced p p1 →
    effect p (resolveObjectType obj parentName index abs hasAbs p1)
| effect_Group p1 ident parent_ idx :
    advanced p p1 →
    effect p (resolveGroup ident parent_ idx p1)
| effect_ModuleIdentity p1 mi ident parent_ idx abs hasAbs :
    advanced p p1 →
    ModuleIdentityIR.Name mi = ident →
    effect p (resolveModuleIdentity mi ident parent_ idx abs hasAbs
                (update_mod (ModuleIR.ensureNode ident) p1))
| effect_ObjectIdentity p1 oi ident parent_ idx abs hasAbs :
    advanced p p1 →
    ObjectIdentityIR.Name oi = ident →
    effect p (resolveObjectIdentity oi ident parent_ idx abs hasAbs
                (update_mod (ModuleIR.ensureNode ident) p1))
| effect_NotificationType p1 nt parent_ idx abs hasAbs :
    advanced p p1 →
    effect p (resolveNotificationType nt parent_ idx abs hasAbs p1).

(** The ten bootstrap nodes. *)
Definition bootstrap : gmap string (list Z) :=
  list_to_map
    [("iso", [1]); ("org", [1; 3]); ("dod", [1; 3; 6]);
     ("internet", [1; 3; 6; 1]); ("mgmt", [1; 3; 6; 1; 2]);
     ("mib-2", [1; 3; 6; 1; 2; 1]); ("private", [1; 3; 6; 1; 4]);
     ("enterprises", [1; 3; 6; 1; 4; 1]); ("snmpV2", [1; 3; 6; 1; 6]);
     ("snmpModules", [1; 3; 6; 1; 6; 3])].

(** A line feed; the inputs below are written with it. *)
Definition LF : string := String (byte_of_Z 10) EmptyString.

(** Scenario S1, the minimal empty module. *)
Definition S1 : string := "FOO DEFINITIONS ::= BEGIN" +:+ LF +:+ "END" +:+ LF.

(** The header token that is missing at the start of the module, with the
    description that [parseModule] gives of it: the module name,
    [DEFINITIONS], the assignment sign after it, or [BEGIN]. *)
Definition missingHeaderToken (p : rdParser) : option (Token * string) :=
  if negb (tokIs TokenIdent p) then Some (tok p, "expected module name")
  else
    let p := next p in
    if negb (isIdent "DEFINITIONS" p) then Some (tok p, "expected DEFINITIONS")
    else
      let p := next p in
      if negb (tokIs TokenColonColonEq p)
      then Some (tok p, "expected '::=' after DEFINITIONS")
      else
        let p := next p in
        if negb (isIdent "BEGIN" p) then Some (tok p, "expected BEGIN")
        else None.

(** The error value of a parse error: [parse error at <line>:<col>: <description>]. *)
Definition parseError (t : Token) (description : string) : string :=
  "parse error at " +:+ Sprintf_d (Line t) +:+ ":" +:+ Sprintf_d (Col t)
    +:+ ": " +:+ description.

(** A module header without the closing [END]. *)
Definition headerOnly : string := "FOO DEFINITIONS ::= BEGIN".

(** A chain of forward references: [a] under [b], [b] under [c], and [c]
    under the bootstrap node [mib-2]. *)
Definition forwardChain : string :=
  "X DEFINITIONS ::= BEGIN" +:+ LF
  +:+ "a OBJECT IDENTIFIER ::= { b 1 }" +:+ LF
  +:+ "b OBJECT IDENTIFIER ::= { c 2 }" +:+ LF
  +:+ "c OBJECT IDENTIFIER ::= { mib-2 3 }" +:+ LF
  +:+ "END" +:+ LF.

(** A notification that does not start a line of the source. *)
Definition notificationInLine : string :=
  "M DEFINITIONS ::= BEGIN up NOTIFICATION-TYPE ::= { mib-2 1 } END".

(** The OID that a declaration gets in the block that stores it: the
    absolute OID when one is written; otherwise the entry of the parent in
    nodes, when there is one and it is not empty, followed by the index;
    none when the parent has no entry or an empty one, in which case the
    reference is left pending. *)
Definition resolvedOid (parentName : string) (index : Z) (abs : list Z)
    (hasAbs : bool) (p : rdParser) : option (list Z) :=
  if hasAbs then Some abs
  else
    match ModuleIR.NodesByName (mod_ p) !! parentName with
    | Some (b :: base) => Some ((b :: base) ++ [index])
    | _ => None
    end.

(** What storing the notification [nt] with the reference it was written
    with does to the parser state: nodes is as it was; notificationTypes
    has [nt] under its name, with the resolved OID when there is one; and
    the reference is appended to the pending ones when there is none. *)
Definition storesNotification (nt : NotificationTypeIR.t) (parentName : string)
    (index : Z) (abs : list Z) (hasAbs : bool) (p p' : rdParser) : Prop :=
  let oid := resolvedOid parentName index abs hasAbs p in
  ModuleIR.NodesByName (mod_ p') = ModuleIR.NodesByName (mod_ p)
  ∧ ModuleIR.NotificationTypes (mod_ p') =
      <[NotificationTypeIR.Name nt :=
          from_option (fun oid => NotificationTypeIR.set_OID oid nt) nt oid]>
        (ModuleIR.NotificationTypes (mod_ p))
  ∧ pend p' =
      pend p ++ match oid with
                | Some _ => []
                | None => [mkPending parentName index (applyNotificationType nt index)]
                end.

(** The same for the object [obj]: objects has [obj] under its name, with
    the resolved OID when there is one, and nodes has the resolved OID
    under that name; when there is none, nodes keeps the entry of the
    name, or gets an empty one, and the reference is appended to the
    pending ones. *)
Definition storesObject (obj : ObjectTypeIR.t) (parentName : string)
    (index : Z) (abs : list Z) (hasAbs : bool) (p p' : rdParser) : Prop :=
  let oid := resolvedOid parentName index abs hasAbs p in
  ModuleIR.ObjectsByName (mod_ p') =
    <[ObjectTypeIR.Name obj :=
        from_option (fun oid => ObjectTypeIR.set_OID oid obj) obj oid]>
      (ModuleIR.ObjectsByName (mod_ p))
  ∧ ModuleIR.NodesByName (mod_ p') =
      <[ObjectTypeIR.Name obj :=
          from_option id
            (default [] (ModuleIR.NodesByName (mod_ p) !! ObjectTypeIR.Name obj)) oid]>
        (ModuleIR.NodesByName (mod_ p))
  ∧ pend p' =
      pend p ++ match oid with
                | Some _ => []
                | None => [mkPending parentName index (applyObjectType obj index)]
                end.

(** The parent [b] of the object [a] is assigned a second time after [a]
    has been resolved. *)
Definition parentRedefined : string :=
  "X DEFINITIONS ::= BEGIN" +:+ LF
  +:+ "b OBJECT IDENTIFIER ::= { mib-2 7 }" +:+ LF
  +:+ "a OBJECT-TYPE ::= { b 1 }" +:+ LF
  +:+ "b OBJECT IDENTIFIER ::= { mib-2 8 }" +:+ LF
  +:+ "END" +:+ LF.

(** What resolving the symbolic reference [(parentName, index)] against
    the entry [base] of the parent does, for each kind of declaration: the
    declaration's OID, and its entry in nodes where it has one, is [base]
    followed by [index], and the parent's entry is still [base] unless the
    declaration has the parent's own name. *)
Definition extendsParent (parentName : string) (index : Z) (p : rdParser)
    (base : list Z) : Prop :=
  (∀ ident abs,
     let p' := resolveObjectIdentifier ident parentName index abs false p in
     ModuleIR.NodesByName (mod_ p') !! ident = Some (base ++ [index])
     ∧ (ident ≠ parentName →
        ModuleIR.NodesByName (mod_ p') !! parentName = Some base))
  ∧ (∀ obj abs,
       let p' := resolveObjectType obj parentName index abs false p in
       ModuleIR.ObjectsByName (mod_ p') !! ObjectTypeIR.Name obj
         = Some (ObjectTypeIR.set_OID (base ++ [index]) obj)
       ∧ ModuleIR.NodesByName (mod_ p') !! ObjectTypeIR.Name obj
           = Some (base ++ [index])
       ∧ (ObjectTypeIR.Name obj ≠ parentName →
          ModuleIR.NodesByName (mod_ p') !! parentName = Some base))
  ∧ (∀ mi ident abs,
       let p' := resolveModuleIdentity mi ident parentName index abs false p in
       ModuleIR.ModuleIdentity (mod_ p')
         = Some (ModuleIdentityIR.set_OID (base ++ [index]) mi)
       ∧ ModuleIR.NodesByName (mod_ p') !! ident = Some (base ++ [index])
       ∧ (ident ≠ parentName →
          ModuleIR.NodesByName (mod_ p') !! parentName = Some base))
  ∧ (∀ oi ident abs,
       let p' := resolveObjectIdentity oi ident parentName index abs false p in
       ModuleIR.ObjectIdentities (mod_ p') !! ObjectIdentityIR.Name oi
         = Some (ObjectIdentityIR.set_OID (base ++ [index]) oi)
       ∧ ModuleIR.NodesByName (mod_ p') !! ident = Some (base ++ [index])
       ∧ (ident ≠ parentName →
          ModuleIR.NodesByName (mod_ p') !! parentName = Some base))
  ∧ (∀ nt abs,
       let p' := resolveNotificationType nt parentName index abs false p in
       ModuleIR.NotificationTypes (mod_ p') !! NotificationTypeIR.Name nt
         = Some (NotificationTypeIR.set_OID (base ++ [index]) nt)
       ∧ ModuleIR.NodesByName (mod_ p') !! parentName = Some base).

(** The same for the four group constructs, which look the parent up in
    nodes themselves: the entry of the group in nodes is [base] followed
    by [index]. *)
Definition extendsParentGroup (parentName : string) (index : Z) (p : rdParser)
    (base : list Z) : Prop :=
  ∀ ident,
    let p' := resolveGroup ident parentName index p in
    ModuleIR.NodesByName (mod_ p') !! ident = Some (base ++ [index])
    ∧ (ident ≠ parentName →
       ModuleIR.NodesByName (mod_ p') !! parentName = Some base)
    ∧ pend p' = pend p.

(** The same for a reference that was deferred: what the closure of each
    kind of declaration does to the module [m] when the fixed-point loop
    fires it on the entry [base] of the parent. *)
Definition extendsParentLater (parentName : string) (index : Z) (m : ModuleIR.t)
    (base : list Z) : Prop :=
  (∀ ident,
     let m' := applyNode ident index base m in
     ModuleIR.NodesByName m' !! ident = Some (base ++ [index])
     ∧ (ident ≠ parentName →
        ModuleIR.NodesByName m' !! parentName = ModuleIR.NodesByName m !! parentName))
  ∧ (∀ obj,
       let m' := applyObjectType obj index base m in
       ModuleIR.ObjectsByName m' !! ObjectTypeIR.Name obj
         = Some (ObjectTypeIR.set_OID (base ++ [index]) obj)
       ∧ ModuleIR.NodesByName m' !! ObjectTypeIR.Name obj = Some (base ++ [index])
       ∧ (ObjectTypeIR.Name obj ≠ parentName →
          ModuleIR.NodesByName m' !! parentName
            = ModuleIR.NodesByName m !! parentName))
  ∧ (∀ mi ident,
       let m' := applyModuleIdentity mi ident index base m in
       ModuleIR.ModuleIdentity m'
         = Some (ModuleIdentityIR.set_OID (base ++ [index]) mi)
       ∧ ModuleIR.NodesByName m' !! ident = Some (base ++ [index])
       ∧ (ident ≠ parentName →
          ModuleIR.NodesByName m' !! parentName
            = ModuleIR.NodesByName m !! parentName))
  ∧ (∀ oi ident,
       let m' := applyObjectIdentity oi ident index base m in
       ModuleIR.ObjectIdentities m' !! ObjectIdentityIR.Name oi
         = Some (ObjectIdentityIR.set_OID (base ++ [index]) oi)
       ∧ ModuleIR.NodesByName m' !! ident = Some (base ++ [index])
       ∧ (ident ≠ parentName →
          ModuleIR.NodesByName m' !! parentName
            = ModuleIR.NodesByName m !! parentName))
  ∧ (∀ nt,
       let m' := applyNotificationType nt index base m in
       ModuleIR.NotificationTypes m' !! NotificationTypeIR.Name nt
         = Some (NotificationTypeIR.set_OID (base ++ [index]) nt)
       ∧ ModuleIR.NodesByName m' = ModuleIR.NodesByName m).

(** The pending reference that each kind of declaration leaves when its
    parent [parentName] cannot be resolved yet: the written parent and
    index, with the closure of its kind for that index. *)
Definition defersReference (parentName : string) (index : Z) (p : rdParser) : Prop :=
  (∀ ident abs,
     pend (resolveObjectIdentifier ident parentName index abs false p)
       = pend p ++ [mkPending parentName index (applyNode ident index)])
  ∧ (∀ obj abs,
       pend (resolveObjectType obj parentName index abs false p)
         = pend p ++ [mkPending parentName index (applyObjectType obj index)])
  ∧ (∀ mi ident abs,
       pend (resolveModuleIdentity mi ident parentName index abs false p)
         = pend p ++ [mkPending parentName index (applyModuleIdentity mi ident index)])
  ∧ (∀ oi ident abs,
       pend (resolveObjectIdentity oi ident parentName index abs false p)
         = pend p ++ [mkPending parentName index (applyObjectIdentity oi ident index)])
  ∧ (∀ nt abs,
       pend (resolveNotificationType nt parentName index abs false p)
         = pend p ++ [mkPending parentName index (applyNotificationType nt index)])
  ∧ (∀ ident,
       ModuleIR.NodesByName (mod_ p) !! parentName = None →
       pend (resolveGroup ident parentName index p)
         = pend p ++ [mkPending parentName index (applyNode ident index)]).

(** The tokens of the list of an INDEX clause, after the opening brace
    and up to the closing brace, with the names that the list declares:
    identifiers separated by commas, each preceded by any number of
    [IMPLIED] keywords. *)
Inductive IndexClause : list Token → list string → Prop :=
| index_close t :
    Typ t = TokenRBrace → IndexClause [t] []
| index_implied t ts names :
    Typ t = TokenIdent → equalFold (Text t) "IMPLIED" = true →
    IndexClause ts names → IndexClause (t :: ts) names
| index_last t c :
    Typ t = TokenIdent → equalFold (Text t) "IMPLIED" = false →
    Typ c = TokenRBrace → IndexClause [t; c] [Text t]
| index_entry t c ts names :
    Typ t = TokenIdent → equalFold (Text t) "IMPLIED" = false →
    Typ c = TokenComma →
    IndexClause ts names → IndexClause (t :: c :: ts) (Text t :: names).

(** Scenario S3, an OBJECT-TYPE with INDEX and IMPLIED. *)
Definition S3 : string :=
  "X DEFINITIONS ::= BEGIN" +:+ LF
  +:+ "foo OBJECT-TYPE SYNTAX INTEGER MAX-ACCESS read-only STATUS current DESCRIPTION "
  +:+ quote +:+ "d" +:+ quote +:+ " INDEX { IMPLIED a, b } ::= { mib-2 9 }" +:+ LF
  +:+ "END" +:+ LF.

(** The INDEX clause of S3 and what follows it, as the parser state in
    front of the keyword. *)
Definition S3_index : rdParser :=
  Parse_start asciiOnly (runes_of_string "INDEX { IMPLIED a, b } ::= { mib-2 9 }").

(** The tokens at which the skip stops without consuming them: the
    identifier END, in any case, and the end of the input. *)
Definition stopsSkip (t : Token) : bool :=
  bool_decide (Typ t = TokenEOF)
  || (bool_decide (Typ t = TokenIdent) && equalFold (Text t) "END").

(** The tokens that the skip consumes before a brace has been opened:
    every token but the two that stop it and the opening brace. *)
Definition beforeBrace (t : Token) : bool :=
  negb (stopsSkip t) && negb (bool_decide (Typ t = TokenLBrace)).

(** The tokens that do not change the depth inside the braces. *)
Definition plainToken (t : Token) : bool :=
  beforeBrace t && negb (bool_decide (Typ t = TokenRBrace)).

(** Token lists with matching braces and without END. *)
Inductive balanced : list Token → Prop :=
| balanced_nil : balanced []
| balanced_plain t ts :
    plainToken t = true → balanced ts → balanced (t :: ts)
| balanced_braces lb ts1 rb ts2 :
    Typ lb = TokenLBrace → balanced ts1 → Typ rb = TokenRBrace →
    balanced ts2 → balanced (lb :: ts1 ++ rb :: ts2).

(** Token lists without END in which braces are still open: balanced
    runs, each but the last followed by an opening brace that is not
    closed. *)
Inductive unclosed : list Token → Prop :=
| unclosed_balanced ts :
    balanced ts → unclosed ts
| unclosed_open ts1 lb ts2 :
    balanced ts1 → Typ lb = TokenLBrace → unclosed ts2 →
    unclosed (ts1 ++ lb :: ts2).

(** An unknown construct with the identifier [end] between its braces,
    as the parser state in front of the unknown keyword. *)
Definition unknownWithEndInside : rdParser :=
  Parse_start asciiOnly
    (runes_of_string
       "MUMBLE ::= { start INTEGER, end INTEGER } b OBJECT IDENTIFIER ::= { mib-2 2 }").

(** An unknown construct without braces that ends in a semicolon, as the
    parser state in front of the unknown keyword, and a module in which a
    textual convention follows that construct. *)
Definition unknownWithSemicolon : rdParser :=
  Parse_start asciiOnly (runes_of_string "MUMBLE foo ; bar baz END").

Definition unknownThenConvention : string :=
  "X DEFINITIONS ::= BEGIN garbage MUMBLE foo ; "
  +:+ "T ::= TEXTUAL-CONVENTION STATUS current SYNTAX INTEGER END".

(** Scenario S4, an unknown construct with nested braces, as the parser
    state in front of the unknown keyword. *)
Definition S4_unknown : rdParser :=
  Parse_start asciiOnly
    (runes_of_string "MUMBLE ::= { 1 2 3 { 4 5 } } b OBJECT IDENTIFIER ::= { mib-2 2 }").

(** Invariant I1 without its part on notifications: the names in objects
    and in objectIdentities, and the name of the module identity, are
    names in nodes. *)
Definition declared (m : ModuleIR.t) : Prop :=
  dom (ModuleIR.ObjectsByName m) ⊆ dom (ModuleIR.NodesByName m)
  ∧ dom (ModuleIR.ObjectIdentities m) ⊆ dom (ModuleIR.NodesByName m)
  ∧ ∀ mi, ModuleIR.ModuleIdentity m = Some mi →
          ModuleIdentityIR.Name mi ∈ dom (ModuleIR.NodesByName m).

(** A pending reference whose closure keeps [declared], whenever it fires. *)
Definition keepsDeclared (pr : pendingRef) : Prop :=
  ∀ base m, declared m → declared (apply pr base m).

Definition Inv (p : rdParser) : Prop :=
  declared (mod_ p) ∧ Forall keepsDeclared (pend p).

(** The names that the source sweep finds in front of NOTIFICATION-TYPE. *)
Definition sweptNotifications (input : list Z) : list string :=
  FindAllNames reNotif (cleanSource input).

End spec.

(** * Vocabulary of the further properties *)

Module props.
Import lexer parser.

(** ** Positions in the input *)

(** The line and the column after one more rune: what [advance] does to
    [line] and [col]. *)
Definition pos_step (pos : Z * Z) (r : Z) : Z * Z :=
  if r =? 10 then (pos.1 + 1, 1) else (pos.1, pos.2 + 1).

(** The line and the column of the position that follows the text [pre],
    counted from line 1, column 1. *)
Definition pos_after (pre : list Z) : Z * Z := fold_left pos_step pre (1, 1).

(** The lexer stands in [text] behind some prefix of it, and its line
    and column are those of that position. *)
Definition standsIn (text : list Z) (l : Lexer) : Prop :=
  ∃ pre, text = pre ++ input l ∧ (line l, col l) = pos_after pre.

(** The rune [r] starts a token of the type [ty]. *)
Definition startsToken (U : Unicode) (ty : TokenType) (r : Z) : bool :=
  match ty with
  | TokenIdent => isIdentStart U r
  | TokenNumber => unicode_IsDigit U r
  | TokenString => r =? 34
  | _ => false
  end.

(** The characters of the punctuation tokens. *)
Definition punctuation (r : Z) : bool :=
  (r =? 123) || (r =? 125) || (r =? 40) || (r =? 41) || (r =? 44)
  || (r =? 46) || (r =? 59) || (r =? 58) || (r =? 61).

(** The lexer that stands in front of [rest], behind the text [pre],
    with the line and the column of that position. *)
Definition lexerAt (pre rest : list Z) : Lexer :=
  mkLexer rest (pos_after pre).1 (pos_after pre).2.

(** The token [t] of the text [text] is the token that stands at its
    position.  The text splits into [pre] and [rest], where [rest]
    begins with the first rune of the token, and [Next], called there
    with the line and the column of that place, returns [t].  The
    position that [t] carries is that of its first rune for an
    identifier, a number and a string; for a punctuation token, whose
    [Text] is the characters read, the one behind the last of them; and
    for [TokenEOF] the end of the text. *)
Definition tokenPositioned (U : Unicode) (text : list Z) (t : Token) : Prop :=
  ∃ pre rest,
    text = pre ++ rest
    ∧ (Next U (lexerAt pre rest)).1 = t
    ∧ match Typ t with
      | TokenEOF => rest = [] ∧ (Line t, Col t) = pos_after pre
      | TokenIdent | TokenNumber | TokenString =>
          (∃ r rest', rest = r :: rest' ∧ startsToken U (Typ t) r = true)
          ∧ (Line t, Col t) = pos_after pre
      | _ =>
          (∃ r rest', rest = r :: rest' ∧ punctuation r = true)
          ∧ (∃ rest', rest = runes_of_string (Text t) ++ rest')
          ∧ Text t ≠ EmptyString
          ∧ (Line t, Col t) = pos_after (pre ++ runes_of_string (Text t))
      end.

(** The order of positions: by line, then by column. *)
Definition pos_lt (a b : Z * Z) : Prop := a.1 < b.1 ∨ (a.1 = b.1 ∧ a.2 < b.2).

(** The lexer [l] after [k] calls of [advance]. *)
Definition advanceBy (k : nat) (l : Lexer) : Lexer := Nat.iter k advance l.

(** ** ASCII text *)

Definition asciiLetter (r : Z) : bool :=
  ((65 <=? r) && (r <=? 90)) || ((97 <=? r) && (r <=? 122)).

Definition asciiDigit (r : Z) : bool := (48 <=? r) && (r <=? 57).

(** A letter followed by letters, digits and hyphens, all of them ASCII. *)
Definition asciiIdentifier (s : list Z) : bool :=
  match s with
  | [] => false
  | r :: s' =>
      asciiLetter r && forallb (fun r => asciiLetter r || asciiDigit r || (r =? 45)) s'
  end.

(** The text does not go on with a rune that satisfies [f]. *)
Definition endsBefore (f : Z → bool) (rest : list Z) : Prop :=
  match rest with
  | [] => True
  | r :: _ => f r = false
  end.

(** The identifier characters of ASCII. *)
Definition identChar (r : Z) : bool := asciiLetter r || asciiDigit r || (r =? 45).

(** ** Properties of the module under construction *)

(** The closure of a pending reference keeps the property [P] of the
    module. *)
Definition keeps (P : ModuleIR.t → Prop) (pr : pendingRef) : Prop :=
  ∀ base m, P m → P (apply pr base m).

(** [P] holds of the module of the parser, and the pending references
    keep it. *)
Definition holds (P : ModuleIR.t → Prop) (p : rdParser) : Prop :=
  P (mod_ p) ∧ Forall (keeps P) (pend p).

(** ** Token shapes *)

(** The token is the identifier [kw], in any case of its letters. *)
Definition keyword (kw : string) (t : Token) : bool :=
  bool_decide (Typ t = TokenIdent) && equalFold (Text t) kw.

(** A symbolic OID reference, as written between the braces: the parent
    and the index [parent n], with a module prefix [Module.parent n], with
    the index in parentheses [parent (n)], or without an index, which
    then is 0. *)
Inductive OidRef : list Token → string → Z → Prop :=
| OidRef_plain id n :
    Typ id = TokenIdent → Typ n = TokenNumber →
    OidRef [id; n] (Text id) (Int n)
| OidRef_qualified md dot id n :
    Typ md = TokenIdent → Typ dot = TokenDot → Typ id = TokenIdent →
    Typ n = TokenNumber →
    OidRef [md; dot; id; n] (Text id) (Int n)
| OidRef_paren id lp n rp :
    Typ id = TokenIdent → Typ lp = TokenLParen → Typ n = TokenNumber →
    Typ rp = TokenRParen →
    OidRef [id; lp; n; rp] (Text id) (Int n)
| OidRef_no_index id :
    Typ id = TokenIdent → OidRef [id] (Text id) 0.

(** What stands between the braces of an OID assignment, with the four
    results of [parseOidAssignmentInsideBraces]: a non-empty list of
    numbers, the absolute OID, or a symbolic reference. *)
Inductive OidBraces : list Token → string → Z → list Z → bool → Prop :=
| OidBraces_absolute nums :
    nums ≠ [] → Forall (fun t => Typ t = TokenNumber) nums →
    OidBraces nums EmptyString 0 (map Int nums) true
| OidBraces_symbolic ts parent_ idx :
    OidRef ts parent_ idx → OidBraces ts parent_ idx [] false.

(** None of the tokens that the parser has yet to read is [TokenEOF]. *)
Definition noEOF (p : rdParser) : Prop :=
  Forall (fun t => Typ t ≠ TokenEOF) (toks p).

(** Every record of the four indexes is filed under its own name. *)
Definition filedByName (m : ModuleIR.t) : Prop :=
  (∀ k obj, ModuleIR.ObjectsByName m !! k = Some obj → ObjectTypeIR.Name obj = k)
  ∧ (∀ k oi, ModuleIR.ObjectIdentities m !! k = Some oi → ObjectIdentityIR.Name oi = k)
  ∧ (∀ k tc, ModuleIR.TextualConventions m !! k = Some tc →
             TextualConventionIR.Name tc = k)
  ∧ (∀ k nt, ModuleIR.NotificationTypes m !! k = Some nt →
             NotificationTypeIR.Name nt = k).

(** ** Text *)


(** The bytes of a string in lower case, as [equalFold] compares them. *)
Definition lower (s : string) : list Z := map lowerByte (list_ascii_of_string s).

Fixpoint allSpace (s : string) : bool :=
  match s with
  | EmptyString => true
  | String c s' => isSpaceByte c && allSpace s'
  end.

Definition startsWithSpace (s : string) : bool :=
  match s with
  | EmptyString => false
  | String c _ => isSpaceByte c
  end.

Fixpoint endsWithSpace (s : string) : bool :=
  match s with
  | EmptyString => false
  | String c EmptyString => isSpaceByte c
  | String _ s' => endsWithSpace s'
  end.

(** A line that opens an [IMPORTS] block for [removeImportsBlocks]. *)
Definition importsLine (line : list Z) : bool :=
  HasPrefix (TrimSpace line) (runes_of_string "IMPORTS").

(** ** The sweep of the source *)

(** The map [mp'] is [mp] with placeholders added: each key keeps its
    entry, and a new key holds the placeholder [dflt] of its name. *)
Definition addsOnly {V : Type} (dflt : string → V) (mp mp' : gmap string V) : Prop :=
  ∀ k, mp' !! k = mp !! k ∨ (mp !! k = None ∧ mp' !! k = Some (dflt k)).

(** The module [m'] is [m] with placeholders added: an empty OID in
    nodes, and records that hold only their name in objects,
    objectIdentities and notificationTypes. *)
Definition sweepOf (m m' : ModuleIR.t) : Prop :=
  ModuleIR.Name m' = ModuleIR.Name m
  ∧ ModuleIR.ModuleIdentity m' = ModuleIR.ModuleIdentity m
  ∧ ModuleIR.TextualConventions m' = ModuleIR.TextualConventions m
  ∧ addsOnly (fun _ => []) (ModuleIR.NodesByName m) (ModuleIR.NodesByName m')
  ∧ addsOnly ObjectTypeIR.new (ModuleIR.ObjectsByName m) (ModuleIR.ObjectsByName m')
  ∧ addsOnly ObjectIdentityIR.new (ModuleIR.ObjectIdentities m)
      (ModuleIR.ObjectIdentities m')
  ∧ addsOnly NotificationTypeIR.new (ModuleIR.NotificationTypes m)
      (ModuleIR.NotificationTypes m').

(** A module in which an unknown construct stands in front of the
    MODULE-IDENTITY statement. *)
Definition moduleIdentitySkipped : string :=
  "X DEFINITIONS ::= BEGIN" +:+ spec.LF
  +:+ "garbage MUMBLE" +:+ spec.LF
  +:+ "foo MODULE-IDENTITY ::= { mib-2 1 }" +:+ spec.LF
  +:+ "END" +:+ spec.LF.

(** ** Errors *)

(** The text of [errorf] at the token [t]. *)
Definition parseErrorAt (t : Token) (msg : string) : string :=
  "parse error at " +:+ Sprintf_d (Line t) +:+ ":" +:+ Sprintf_d (Col t)
    +:+ ": " +:+ msg.

(** The parser [p'] reads the tokens of [p] from some token on, up to the
    same end of input. *)
Definition sameTokens (p p' : rdParser) : Prop :=
  (∃ k : nat, toks p' = drop k (toks p)) ∧ eofTok p' = eofTok p.

(** The error [e] is reported at a token that [p] has still to read, or
    at the end of its input. *)
Definition located (p : rdParser) (e : string) : Prop :=
  ∃ t msg, t ∈ toks p ++ [eofTok p] ∧ e = parseErrorAt t msg.

Definition failsAt {A : Type} (p : rdParser) (r : result A) : Prop :=
  match r with
  | Ok _ => True
  | Err e => located p e
  end.

End props.
(* ===================================================================== *)
(** * Part II: properties *)
(* ===================================================================== *)

(** ** Loops terminate within their fuel *)

Section Loops.
Context {St R : Type}.
Variable body : St → ctl St R.
Variable μ : St → nat.
Hypothesis decreases : ∀ s s', body s = Continue s' → (μ s' < μ s)%nat.

Lemma loop_enough fuel s : (μ s < fuel)%nat → is_Some (loop body fuel s).
Proof using decreases.
  revert s. induction fuel as [|fuel IH]; intros s Hlt; [lia|].
  simpl. destruct (body s) as [s'|r] eqn:Hb; [|by eexists].
  apply IH. apply decreases in Hb. lia.
Qed.

Lemma loop_mono fuel fuel' s r :
  loop body fuel s = Some r → (fuel ≤ fuel')%nat → loop body fuel' s = Some r.
Proof.
  revert fuel' s. induction fuel as [|fuel IH]; intros fuel' s Hl Hle; [done|].
  destruct fuel' as [|fuel']; [lia|]. simpl in *.
  destruct (body s); [|done]. apply IH; [done|lia].
Qed.

Lemma while_fuel dflt s : loop body (S (μ s)) s = Some (while μ dflt body s).
Proof using decreases.
  unfold while. destruct (loop_enough (S (μ s)) s) as [r Hr]; [lia|].
  by rewrite Hr.
Qed.

Lemma while_unfold dflt s :
  while μ dflt body s =
    match body s with
    | Continue s' => while μ dflt body s'
    | Break r => r
    end.
Proof using decreases.
  pose proof (while_fuel dflt s) as Hs. simpl in Hs.
  destruct (body s) as [s'|r] eqn:Hb; [|congruence].
  pose proof (while_fuel dflt s') as Hs'.
  apply decreases in Hb.
  apply loop_mono with (fuel' := μ s) in Hs'; [congruence|lia].
Qed.

(** Invariant rule: an invariant kept by [Continue] and establishing the
    post-condition on [Break] yields the post-condition of the loop. *)
Lemma while_ind (I : St → Prop) (Q : R → Prop) dflt :
  (∀ s, I s →
        match body s with
        | Continue s' => I s'
        | Break r => Q r
        end) →
  ∀ s, I s → Q (while μ dflt body s).
Proof using decreases.
  intros Hstep s. remember (μ s) as n eqn:Hn. revert s Hn.
  induction n as [n IH] using lt_wf_ind. intros s -> HI.
  rewrite while_unfold. specialize (Hstep s HI).
  destruct (body s) as [s'|r] eqn:Hb; [|done].
  eapply IH; [|reflexivity|done]. by apply decreases.
Qed.
End Loops.

Lemma wrap64_id n : minInt64 ≤ n ≤ maxInt64 → wrap64 n = n.
Proof.
  unfold wrap64, minInt64, maxInt64. intros H.
  rewrite Z.mod_small; lia.
Qed.

(** ** Dotted decimal rendering of OIDs *)

Section OidString.
Import mib_parser.

Lemma digit_value d : 0 ≤ d < 10 → digitValue (digit d) = Some d.
Proof.
  intros H.
  assert (d = 0 ∨ d = 1 ∨ d = 2 ∨ d = 3 ∨ d = 4 ∨ d = 5 ∨ d = 6 ∨ d = 7
          ∨ d = 8 ∨ d = 9) as Hd by lia.
  repeat destruct Hd as [-> | Hd]; try subst d; reflexivity.
Qed.

Lemma digitValue_not_dot c d : digitValue c = Some d → c ≠ "."%char.
Proof. intros H ->. discriminate H. Qed.

Lemma append_cons c (a b : string) : String c a +:+ b = String c (a +:+ b).
Proof. reflexivity. Qed.

Lemma append_nil_l (b : string) : EmptyString +:+ b = b.
Proof. reflexivity. Qed.

Lemma append_assoc (a b c : string) : (a +:+ b) +:+ c = a +:+ (b +:+ c).
Proof.
  induction a as [|x a IH]; [done|]. by rewrite !append_cons, IH.
Qed.

Lemma append_nil_r (a : string) : a +:+ EmptyString = a.
Proof.
  induction a as [|x a IH]; [done|]. by rewrite append_cons, IH.
Qed.

Lemma digits_acc fuel n acc :
  digits fuel n acc = digits fuel n EmptyString +:+ acc.
Proof.
  revert n acc. induction fuel as [|fuel IH]; intros n acc; simpl; [done|].
  destruct (0 <? n); [|done].
  rewrite (IH _ (String _ acc)), (IH _ (String _ EmptyString)).
  by rewrite append_assoc.
Qed.

Lemma digits_step fuel n :
  0 < n →
  digits (S fuel) n EmptyString =
    digits fuel (n / 10) EmptyString +:+ String (digit (n mod 10)) EmptyString.
Proof.
  intros Hn. simpl. destruct (Z.ltb_spec 0 n); [|lia]. apply digits_acc.
Qed.

Lemma parseDecimal_from_app s1 s2 n :
  parseDecimal_from (s1 +:+ s2) n = parseDecimal_from s1 n ≫= parseDecimal_from s2.
Proof.
  revert n. induction s1 as [|c s1 IH]; intros n; simpl; [done|].
  destruct (digitValue c); [apply IH|done].
Qed.

Lemma parseDecimal_from_digits fuel n :
  0 ≤ n < 10 ^ Z.of_nat fuel →
  parseDecimal_from (digits fuel n EmptyString) 0 = Some n.
Proof.
  revert n. induction fuel as [|fuel IH]; intros n Hn.
  - simpl in *. f_equal. lia.
  - destruct (Z.eq_dec n 0) as [->|Hnz]; [done|].
    rewrite digits_step by lia. rewrite parseDecimal_from_app.
    rewrite IH.
    + simpl. rewrite digit_value by (apply Z.mod_pos_bound; lia).
      simpl. f_equal. pose proof (Z.div_mod n 10). lia.
    + rewrite Nat2Z.inj_succ, Z.pow_succ_r in Hn by lia.
      split; [apply Z.div_pos; lia|].
      apply Z.div_lt_upper_bound; lia.
Qed.

Lemma digits_nonempty fuel n :
  0 < n → digits (S fuel) n EmptyString ≠ EmptyString.
Proof.
  intros Hn. rewrite digits_step by done.
  destruct (digits fuel (n / 10) EmptyString); discriminate.
Qed.

Lemma allDigits_digits fuel n acc :
  allDigits acc → allDigits (digits fuel n acc).
Proof.
  revert n acc. induction fuel as [|fuel IH]; intros n acc Hacc; simpl; [done|].
  destruct (Z.ltb_spec 0 n); [|done].
  apply IH. split; [|done].
  rewrite digit_value by (apply Z.mod_pos_bound; lia). by eexists.
Qed.

Lemma allDigits_dotFree s : allDigits s → dotFree s.
Proof.
  intros Hs s1 s2. revert s Hs.
  induction s1 as [|c s1 IH]; intros [|c' s] Hs Heq; simpl in *; try discriminate.
  - injection Heq as -> _. destruct Hs as [[d Hd] _]. discriminate Hd.
  - injection Heq as -> ->. destruct Hs as [_ Hs]. by eapply IH.
Qed.

Lemma dotFree_cons c s : c ≠ "."%char → dotFree s → dotFree (String c s).
Proof.
  intros Hc Hs [|c1 s1] s2 Heq; simpl in Heq.
  - by injection Heq as -> _.
  - injection Heq as -> ->. by eapply Hs.
Qed.

Lemma pow10_log2 n : 0 < n → n < 10 ^ Z.of_nat (S (Z.to_nat (Z.log2 n))).
Proof.
  intros Hn. pose proof (Z.log2_nonneg n) as Hl.
  rewrite Nat2Z.inj_succ, Z2Nat.id by done.
  pose proof (Z.log2_spec n Hn) as [_ Hlt].
  eapply Z.lt_le_trans; [exact Hlt|].
  apply Z.pow_le_mono_l. lia.
Qed.

Lemma Sprintf_d_dotFree n : dotFree (Sprintf_d n).
Proof.
  unfold Sprintf_d. destruct (n =? 0).
  - by apply allDigits_dotFree; simpl; split; [eexists|].
  - destruct (n <? 0).
    + apply dotFree_cons; [discriminate|].
      apply allDigits_dotFree, allDigits_digits. done.
    + apply allDigits_dotFree, allDigits_digits. done.
Qed.

Lemma Sprintf_d_nonempty n : Sprintf_d n ≠ EmptyString.
Proof.
  unfold Sprintf_d. destruct (Z.eqb_spec n 0); [discriminate|].
  destruct (Z.ltb_spec n 0); [discriminate|].
  apply digits_nonempty. lia.
Qed.

Lemma parseDecimal_Sprintf_d n : 0 ≤ n → parseDecimal (Sprintf_d n) = Some n.
Proof.
  intros Hn. unfold Sprintf_d.
  destruct (Z.eqb_spec n 0) as [->|Hnz]; [done|].
  destruct (Z.ltb_spec n 0); [lia|].
  pose proof (digits_nonempty (Z.to_nat (Z.log2 n)) n ltac:(lia)) as Hne.
  unfold parseDecimal.
  destruct (digits _ n EmptyString) eqn:Hd; [done|]. rewrite <- Hd.
  apply parseDecimal_from_digits. split; [done|]. apply pow10_log2. lia.
Qed.

Lemma Split_dotFree s : dotFree s → Split s "." = [s].
Proof.
  induction s as [|c s IH]; intros Hs; simpl; [done|].
  destruct (Ascii.eqb_spec c ".") as [->|Hc].
  - by destruct (Hs EmptyString s).
  - rewrite IH; [done|]. intros s1 s2 ->. by apply (Hs (String c s1) s2).
Qed.

Lemma Split_app a b :
  dotFree a → Split (a +:+ String "." b) "." = a :: Split b ".".
Proof.
  induction a as [|c a IH]; intros Ha; simpl; [done|].
  destruct (Ascii.eqb_spec c ".") as [->|Hc].
  - by destruct (Ha EmptyString a).
  - rewrite IH; [done|]. intros s1 s2 ->. by apply (Ha (String c s1) s2).
Qed.

Lemma Split_Join (xs : list string) :
  xs ≠ [] → Forall dotFree xs → Split (Join xs ".") "." = xs.
Proof.
  induction xs as [|x xs IH]; intros Hne Hall; [done|].
  inversion_clear Hall as [|? ? Hx Hxs].
  destruct xs as [|y xs].
  - by apply Split_dotFree.
  - change (Join (x :: y :: xs) ".") with (x +:+ String "." (Join (y :: xs) ".")).
    rewrite Split_app by done. f_equal. by apply IH.
Qed.

Lemma Split_nonempty s sep : Split s sep ≠ [].
Proof.
  destruct s as [|c s]; simpl; [done|].
  destruct (Ascii.eqb c sep); [done|]. by destruct (Split s sep).
Qed.

Lemma Split_snoc_dot s : Split (s +:+ ".") "." = Split s "." ++ [EmptyString].
Proof.
  induction s as [|c s IH]; [reflexivity|].
  rewrite append_cons. simpl. rewrite IH.
  destruct (Ascii.eqb c "."); [done|].
  pose proof (Split_nonempty s ".") as Hne.
  by destruct (Split s ".").
Qed.

Lemma Split_oidToString oid :
  oid ≠ [] → Split (oidToString oid) "." = map Sprintf_d oid.
Proof.
  intros Hne. unfold oidToString. apply Split_Join.
  - by destruct oid.
  - apply Forall_forall. intros s Hs.
    apply list_elem_of_In, in_map_iff in Hs as (n & <- & _).
    apply Sprintf_d_dotFree.
Qed.

Lemma oidToString_no_leading_dot oid s :
  oid ≠ [] → oidToString oid ≠ String "." s.
Proof.
  intros Hne Heq. pose proof (Split_oidToString oid Hne) as Hs.
  rewrite Heq in Hs. destruct oid as [|n oid]; [done|].
  simpl in Hs. injection Hs as Hs _. symmetry in Hs.
  by apply Sprintf_d_nonempty in Hs.
Qed.

Lemma oidToString_no_trailing_dot oid s :
  oid ≠ [] → oidToString oid ≠ s +:+ ".".
Proof.
  intros Hne Heq. pose proof (Split_oidToString oid Hne) as Hs.
  rewrite Heq, Split_snoc_dot in Hs.
  assert (List.last (map Sprintf_d oid) "x" = EmptyString) as Hl.
  { rewrite <- Hs. apply last_last. }
  destruct (exists_last Hne) as (oid' & n & ->).
  rewrite map_app in Hl. simpl in Hl. rewrite last_last in Hl.
  by apply Sprintf_d_nonempty in Hl.
Qed.

Lemma parseDecimal_oidToString oid :
  oid ≠ [] → Forall (fun n => 0 ≤ n) oid →
  map parseDecimal (Split (oidToString oid) ".") = map Some oid.
Proof.
  intros Hne Hall. rewrite Split_oidToString by done.
  rewrite map_map. apply map_ext_in. intros n Hn.
  apply parseDecimal_Sprintf_d. apply list_elem_of_In in Hn.
  by eapply Forall_forall in Hall.
Qed.

(** [OIDString] of [types.go] renders as [oidToString] does. *)
Lemma itoa_Sprintf_d n : 0 ≤ n ≤ maxInt64 → itoa n = Sprintf_d n.
Proof.
  intros Hn. unfold itoa, Sprintf_d.
  destruct (Z.eqb_spec n 0); [done|]. destruct (Z.ltb_spec n 0); [lia|].
  assert (∀ f1 f2 m, 0 ≤ m < 10 ^ Z.of_nat f1 → 0 ≤ m < 10 ^ Z.of_nat f2 →
            digits f1 m EmptyString = digits f2 m EmptyString) as Hfuel.
  { induction f1 as [|f1 IH]; intros f2 m H1 H2.
    - simpl in H1. assert (m = 0) as -> by lia. by destruct f2.
    - destruct (Z.eq_dec m 0) as [->|Hm]; [by destruct f2|].
      destruct f2 as [|f2]; [simpl in H2; lia|].
      rewrite !digits_step by lia. f_equal.
      rewrite !Nat2Z.inj_succ, !Z.pow_succ_r in * by lia.
      apply IH; (split; [apply Z.div_pos; lia|apply Z.div_lt_upper_bound; lia]). }
  apply Hfuel.
  - unfold maxInt64 in Hn. change (Z.of_nat 20) with 20. lia.
  - split; [lia|]. apply pow10_log2. lia.
Qed.

Lemma OIDString_from_spec i s oid :
  Forall (fun n => 0 ≤ n ≤ maxInt64) oid →
  OIDString_from i s oid =
    match oid with
    | [] => s
    | _ => (if (0 <? i)%nat then s +:+ "." else s) +:+ oidToString oid
    end.
Proof.
  revert i s. induction oid as [|n oid IH]; intros i s Hall; [done|].
  inversion_clear Hall as [|? ? Hn Hoid]. simpl OIDString_from.
  rewrite IH by done. rewrite itoa_Sprintf_d by done.
  destruct oid as [|m oid]; [done|].
  unfold oidToString. simpl. by rewrite !append_assoc.
Qed.

Lemma OIDString_oidToString oid :
  Forall (fun n => 0 ≤ n ≤ maxInt64) oid → OIDString oid = oidToString oid.
Proof.
  intros Hall. unfold OIDString. destruct oid as [|n oid]; [done|].
  simpl Nat.eqb. cbv iota. by rewrite OIDString_from_spec.
Qed.

End OidString.

(** ** The lookup helpers *)

Section Lookups.
Import mib_parser mib_parser_wf.

Lemma GetObjectByName_returns m name : GetObjectByName m name ≠ Panic.
Proof.
  unfold GetObjectByName, nil_or.
  destruct m as [s|]; simpl; [|done].
  destruct (Module.ObjectsByName s) as [entries|]; simpl; [|done].
  by destruct (entries !! name).
Qed.

Lemma GetNodeOIDByName_returns m name :
  noNilPointers m → GetNodeOIDByName m name ≠ Panic.
Proof.
  unfold GetNodeOIDByName, nil_or.
  destruct m as [s|]; simpl; [|done]. intros [Hnodes _].
  destruct (Module.NodesByName s) as [entries|] eqn:He; simpl; [|done].
  destruct (entries !! name) as [[node|]|] eqn:Hl; simpl; try done.
  by destruct (Hnodes entries name).
Qed.

Lemma GetObjectByOID_range_returns visit oid :
  Forall (fun e => e.2 ≠ None) visit → GetObjectByOID_range visit oid ≠ Panic.
Proof.
  induction visit as [|[k [o|]] visit IH]; intros Hall; simpl; try done.
  - inversion_clear Hall. destruct (oidsEqual _ _); [done|by apply IH].
  - inversion_clear Hall as [|? ? Hk]. by destruct Hk.
Qed.

Lemma GetObjectByOIDString_range_returns visit oid :
  Forall (fun e => e.2 ≠ None) visit → GetObjectByOIDString_range visit oid ≠ Panic.
Proof.
  induction visit as [|[k [o|]] visit IH]; intros Hall; simpl; try done.
  - inversion_clear Hall. destruct (String.eqb _ _); [done|by apply IH].
  - inversion_clear Hall as [|? ? Hk]. by destruct Hk.
Qed.

Lemma range_of_noNil m visit :
  noNilPointers m → range_of m visit → Forall (fun e => e.2 ≠ None) visit.
Proof.
  destruct m as [s|]; simpl; [|by intros _ ->].
  intros [_ Hobjs]. destruct (Module.ObjectsByName s) as [entries|] eqn:He;
    [|by intros ->].
  intros Hperm. apply Forall_forall. intros [k v] Hin. simpl.
  rewrite Hperm in Hin. apply elem_of_map_to_list in Hin.
  intros ->. by apply (Hobjs entries k).
Qed.

Lemma GetObjectByOID_returns m visit oid :
  noNilPointers m → range_of m visit → GetObjectByOID m visit oid ≠ Panic.
Proof.
  intros Hwf Hvisit. unfold GetObjectByOID, nil_or.
  pose proof (range_of_noNil m visit Hwf Hvisit) as Hall.
  destruct m as [s|]; simpl; [|done].
  destruct (Module.ObjectsByName s); simpl; [|done].
  by apply GetObjectByOID_range_returns.
Qed.

Lemma GetObjectByOIDString_returns m visit oid :
  noNilPointers m → range_of m visit → GetObjectByOIDString m visit oid ≠ Panic.
Proof.
  intros Hwf Hvisit. unfold GetObjectByOIDString, nil_or.
  pose proof (range_of_noNil m visit Hwf Hvisit) as Hall.
  destruct m as [s|]; simpl; [|done].
  destruct (Module.ObjectsByName s); simpl; [|done].
  by apply GetObjectByOIDString_range_returns.
Qed.

End Lookups.

(** ** The lexer: every loop ends within its fuel *)

Section LexerTermination.
Import lexer.
Variable U : Unicode.

Lemma advance_le l : (unread (advance l) ≤ unread l)%nat.
Proof.
  unfold advance, unread. destruct (input l) as [|r rest] eqn:E; [by rewrite E|].
  destruct (r =? 10); simpl; lia.
Qed.

Lemma advance_lt l : eof l = false → (unread (advance l) < unread l)%nat.
Proof.
  unfold advance, unread, eof. destruct (input l) as [|r rest] eqn:E; [done|].
  intros _. destruct (r =? 10); simpl; lia.
Qed.

Lemma skipLine_decreases l l' :
  skipLine_body l = Continue l' → (unread l' < unread l)%nat.
Proof.
  unfold skipLine_body. destruct (eof l) eqn:He; simpl; [done|].
  destruct (cur l =? 10); simpl; [done|].
  intros [= <-]. by apply advance_lt.
Qed.

Lemma skipLine_le l : (unread (skipLine l) ≤ unread l)%nat.
Proof.
  unfold skipLine.
  apply (while_ind _ _ skipLine_decreases
           (fun s => (unread s ≤ unread l)%nat)
           (fun r => (unread r ≤ unread l)%nat)); [|done].
  intros s Hs. destruct (skipLine_body s) as [s'|r] eqn:Hb.
  - apply skipLine_decreases in Hb. lia.
  - unfold skipLine_body in Hb. destruct (_ && _); [done|].
    by injection Hb as <-.
Qed.

Lemma skipWhitespaceAndComments_decreases l l' :
  skipWhitespaceAndComments_body l = Continue l' → (unread l' < unread l)%nat.
Proof.
  unfold skipWhitespaceAndComments_body. destruct (eof l) eqn:He; [done|].
  destruct (_ || _).
  - intros [= <-]. by apply advance_lt.
  - destruct (_ && _); [|done]. intros [= <-].
    pose proof (skipLine_le (advance (advance l))).
    pose proof (advance_le (advance l)). pose proof (advance_lt l He). lia.
Qed.

Lemma skipWhitespaceAndComments_le l :
  (unread (skipWhitespaceAndComments l) ≤ unread l)%nat.
Proof.
  unfold skipWhitespaceAndComments.
  apply (while_ind _ _ skipWhitespaceAndComments_decreases
           (fun s => (unread s ≤ unread l)%nat)
           (fun r => (unread r ≤ unread l)%nat)); [|done].
  intros s Hs. destruct (skipWhitespaceAndComments_body s) as [s'|r] eqn:Hb.
  - apply skipWhitespaceAndComments_decreases in Hb. lia.
  - unfold skipWhitespaceAndComments_body in Hb.
    destruct (eof s); [by injection Hb as <-|].
    destruct (_ || _); [done|]. destruct (_ && _); [done|].
    by injection Hb as <-.
Qed.

Lemma readIdent_decreases st st' :
  readIdent_body U st = Continue st' → (unread st'.1 < unread st.1)%nat.
Proof.
  destruct st as [l s]. unfold readIdent_body.
  destruct (eof l) eqn:He; [done|]. destruct (isIdent U (cur l)); [|done].
  intros [= <-]. by apply advance_lt.
Qed.

Lemma readIdent_lt l : eof l = false → (unread (readIdent U l).2 < unread l)%nat.
Proof.
  intros He. unfold readIdent.
  pose proof (advance_lt l He) as Hadv.
  set (w := while _ _ _ _).
  assert ((unread w.1 ≤ unread (advance l))%nat) as Hw.
  { apply (while_ind _ _ readIdent_decreases
             (fun st => (unread st.1 ≤ unread (advance l))%nat)
             (fun r => (unread r.1 ≤ unread (advance l))%nat)); [|done].
    intros st Hst. destruct (readIdent_body U st) as [st'|r] eqn:Hb.
    - apply readIdent_decreases in Hb. lia.
    - destruct st as [l0 s0]. unfold readIdent_body in Hb.
      destruct (eof l0); [by injection Hb as <-|].
      destruct (isIdent U (cur l0)); [done|]. by injection Hb as <-. }
  destruct w as [l' s']. simpl in *. lia.
Qed.

Lemma readNumber_decreases st st' :
  readNumber_body U st = Continue st' → (unread st'.1 < unread st.1)%nat.
Proof.
  destruct st as [l n]. unfold readNumber_body.
  destruct (eof l) eqn:He; [done|]. simpl.
  destruct (unicode_IsDigit U (cur l)); [|done].
  intros [= <-]. by apply advance_lt.
Qed.

Lemma readNumber_lt l :
  eof l = false → unicode_IsDigit U (cur l) = true →
  (unread (readNumber U l).2 < unread l)%nat.
Proof.
  intros He Hd. unfold readNumber.
  rewrite (while_unfold _ _ readNumber_decreases).
  unfold readNumber_body at 1. rewrite He, Hd. simpl.
  pose proof (advance_lt l He) as Hadv.
  set (w := while _ _ _ _).
  assert ((unread w.1 ≤ unread (advance l))%nat) as Hw.
  { apply (while_ind _ _ readNumber_decreases
             (fun st => (unread st.1 ≤ unread (advance l))%nat)
             (fun r => (unread r.1 ≤ unread (advance l))%nat)); [|done].
    intros st Hst. destruct (readNumber_body U st) as [st'|r] eqn:Hb.
    - apply readNumber_decreases in Hb. lia.
    - destruct st as [l0 s0]. unfold readNumber_body in Hb.
      destruct (_ && _); [done|]. by injection Hb as <-. }
  destruct w as [l' s']. simpl in *. lia.
Qed.

Lemma readString_decreases st st' :
  readString_body st = Continue st' → (unread st'.1 < unread st.1)%nat.
Proof.
  destruct st as [l s]. unfold readString_body.
  destruct (eof l) eqn:He; [done|]. destruct (cur l =? 34); [done|].
  pose proof (advance_lt l He). destruct (cur l =? 92).
  - destruct (eof (advance l)) eqn:He'; [done|]. intros [= <-]. simpl.
    pose proof (advance_lt _ He'). lia.
  - by intros [= <-].
Qed.

Lemma readString_lt l : eof l = false → (unread (readString l).2 < unread l)%nat.
Proof.
  intros He. unfold readString.
  pose proof (advance_lt l He) as Hadv.
  set (w := while _ _ _ _).
  assert ((unread w.1 ≤ unread (advance l))%nat) as Hw.
  { apply (while_ind _ _ readString_decreases
             (fun st => (unread st.1 ≤ unread (advance l))%nat)
             (fun r => (unread r.1 ≤ unread (advance l))%nat)); [|done].
    intros st Hst. destruct (readString_body st) as [st'|r] eqn:Hb.
    - apply readString_decreases in Hb. lia.
    - destruct st as [l0 s0]. unfold readString_body in Hb.
      destruct (eof l0); [by injection Hb as <-|].
      pose proof (advance_le l0).
      destruct (cur l0 =? 34); [injection Hb as <-; simpl in *; lia|].
      destruct (cur l0 =? 92); [|done].
      destruct (eof (advance l0)); [|done]. injection Hb as <-. simpl in *. lia. }
  destruct w as [l' s']. simpl in *. lia.
Qed.

Lemma readColonAssign_lt l :
  eof l = false → (unread (readColonAssign l).2 < unread l)%nat.
Proof.
  intros He. unfold readColonAssign. pose proof (advance_lt l He).
  pose proof (advance_le (advance l)).
  pose proof (advance_le (advance (advance l))).
  destruct (_ || _); simpl; [lia|]. destruct (_ || _); simpl; lia.
Qed.

Lemma punct_lt l t s : eof l = false → (unread (punct l t s).2 < unread l)%nat.
Proof. intros He. unfold punct. simpl. by apply advance_lt. Qed.

Lemma Next_decreases l l' :
  Next_body U l = Continue l' → (unread l' < unread l)%nat.
Proof.
  unfold Next_body. pose proof (skipWhitespaceAndComments_le l) as Hle.
  destruct (eof (skipWhitespaceAndComments l)) eqn:He; [done|].
  repeat (match goal with |- context [if ?c then _ else _] => destruct c end;
          [done|]).
  intros [= <-]. pose proof (advance_lt _ He). lia.
Qed.

(** [Next] never gives input back, and a token other than [TokenEOF]
    consumes input. *)
Lemma Next_consumes l :
  (unread (Next U l).2 ≤ unread l)%nat ∧
  (Typ (Next U l).1 ≠ TokenEOF → (unread (Next U l).2 < unread l)%nat).
Proof.
  unfold Next.
  apply (while_ind _ _ Next_decreases
           (fun s => (unread s ≤ unread l)%nat)
           (fun r => (unread r.2 ≤ unread l)%nat ∧
                     (Typ r.1 ≠ TokenEOF → (unread r.2 < unread l)%nat)));
    [|done].
  intros s Hs. destruct (Next_body U s) as [s'|r] eqn:Hb.
  { apply Next_decreases in Hb. lia. }
  unfold Next_body in Hb. pose proof (skipWhitespaceAndComments_le s) as Hle.
  set (s1 := skipWhitespaceAndComments s) in *.
  destruct (eof s1) eqn:He.
  { injection Hb as <-. simpl. split; [lia|done]. }
  assert ((unread r.2 < unread s1)%nat) as Hlt; [|lia].
  destruct (isIdentStart U (cur s1)).
  { injection Hb as <-. by apply readIdent_lt. }
  destruct (unicode_IsDigit U (cur s1)) eqn:Hd.
  { injection Hb as <-. by apply readNumber_lt. }
  destruct (cur s1 =? 34).
  { injection Hb as <-. by apply readString_lt. }
  repeat (match type of Hb with
          | (if ?c then _ else _) = _ => destruct c
          end;
          [injection Hb as <-;
           first [by apply punct_lt | by apply readColonAssign_lt]|]).
  done.
Qed.

Lemma Tokens_decreases st st' :
  Tokens_body U st = Continue st' → (unread st'.1 < unread st.1)%nat.
Proof.
  destruct st as [l acc]. unfold Tokens_body.
  pose proof (Next_consumes l) as [_ Hlt].
  destruct (Next U l) as [t l1]. simpl in *.
  case_bool_decide as Ht; [done|]. intros [= <-]. simpl. by apply Hlt.
Qed.

(** The tokenizer ends on every input: run with the fuel that [while]
    supplies, the loop returns [Tokens]. *)
Lemma Tokens_total input :
  loop (Tokens_body U) (S (length input)) (New input, []) =
    Some (Tokens U (New input)).
Proof.
  apply (while_fuel (Tokens_body U) (fun st => unread st.1) Tokens_decreases).
Qed.

End LexerTermination.

(** ** The parser: consuming tokens *)

Import lexer parser spec.

Lemma set_toks_id p : set_toks (toks p) p = p.
Proof. by destruct p. Qed.

Lemma advanced_refl p : advanced p p.
Proof. exists 0%nat. by rewrite drop_0, set_toks_id. Qed.

Lemma advanced_trans p1 p2 p3 : advanced p1 p2 → advanced p2 p3 → advanced p1 p3.
Proof.
  intros [k1 ->] [k2 ->]. exists (k1 + k2)%nat. unfold set_toks. simpl.
  by rewrite drop_drop.
Qed.

Lemma advanced_next p : advanced p (next p).
Proof. exists 1%nat. unfold next, set_toks. by destruct (toks p). Qed.

Lemma advanced_le p p' : advanced p p' → (remaining p' ≤ remaining p)%nat.
Proof. intros [k ->]. unfold remaining. simpl. rewrite length_drop. lia. Qed.

Lemma advanced_mod p p' : advanced p p' → mod_ p' = mod_ p.
Proof. by intros [k ->]. Qed.

Lemma advanced_pend p p' : advanced p p' → pend p' = pend p.
Proof. by intros [k ->]. Qed.

Lemma advanced_update_mod f p p' :
  advanced (update_mod f p) p' → ∃ p1, advanced p p1 ∧ p' = update_mod f p1.
Proof.
  intros [k ->]. exists (set_toks (drop k (toks p)) p). split; [by exists k|done].
Qed.

Lemma next_lt p : tokIs TokenEOF p = false → (remaining (next p) < remaining p)%nat.
Proof.
  unfold tokIs, tok, remaining, next. destruct (toks p); simpl; [done|lia].
Qed.

Lemma tokIs_not_EOF t p : tokIs t p = true → t ≠ TokenEOF → tokIs TokenEOF p = false.
Proof.
  unfold tokIs. intros H1 H2. apply bool_decide_eq_true in H1.
  apply bool_decide_eq_false. congruence.
Qed.

Lemma isIdent_not_EOF s p : isIdent s p = true → tokIs TokenEOF p = false.
Proof.
  unfold isIdent. intros [H _]%andb_true_iff. by eapply tokIs_not_EOF.
Qed.

Lemma accept_spec t p :
  match accept t p with
  | (true, p') => p' = next p ∧ tokIs t p = true
  | (false, p') => p' = p ∧ tokIs t p = false
  end.
Proof. unfold accept. by destruct (tokIs t p). Qed.

Lemma acceptIdent_spec s p :
  match acceptIdent s p with
  | (true, p') => p' = next p ∧ isIdent s p = true
  | (false, p') => p' = p ∧ isIdent s p = false
  end.
Proof. unfold acceptIdent. by destruct (isIdent s p). Qed.

Lemma acceptIdent2_spec a b p :
  match acceptIdent2 a b p with
  | (true, p') => p' = next p ∧ tokIs TokenEOF p = false
  | (false, p') => p' = p
  end.
Proof.
  unfold acceptIdent2, acceptIdent.
  destruct (isIdent a p) eqn:Ha; [by apply isIdent_not_EOF in Ha|].
  destruct (isIdent b p) eqn:Hb; [by apply isIdent_not_EOF in Hb|done].
Qed.

Lemma stringClause_spec p :
  match stringClause p with
  | (Some _, p') => p' = next p
  | (None, p') => p' = p
  end.
Proof. unfold stringClause. by destruct (tokIs TokenString p). Qed.

Lemma stringClause_advanced p : advanced p (stringClause p).2.
Proof.
  pose proof (stringClause_spec p). destruct (stringClause p) as [[s|] p'];
    subst; simpl; [apply advanced_next|apply advanced_refl].
Qed.

(** A strict step followed by any steps is a strict step. *)
Lemma advanced_lt p p' :
  tokIs TokenEOF p = false → advanced (next p) p' →
  (remaining p' < remaining p)%nat.
Proof. intros H1 H2%advanced_le. apply next_lt in H1. lia. Qed.


(** ** The sub-parsers only consume tokens *)


Ltac not_eof :=
  match goal with
  | H : tokIs ?t ?p = true |- tokIs TokenEOF ?p = false =>
      apply (tokIs_not_EOF t p H); discriminate
  | H : isIdent ?s ?p = true |- tokIs TokenEOF ?p = false =>
      apply (isIdent_not_EOF s p H)
  | H : tokIs TokenEOF ?p = false |- tokIs TokenEOF ?p = false => exact H
  end.

(** Case analysis on the next [accept] or [acceptIdent] of the goal. *)
Ltac step_accept :=
  let H := fresh "Hacc" in
  match goal with
  | |- context [accept ?t ?p] =>
      pose proof (accept_spec t p) as H;
      destruct (accept t p) as [[] ?]; destruct H as [-> H]
  | |- context [acceptIdent2 ?a ?b ?p] =>
      pose proof (acceptIdent2_spec a b p) as H;
      destruct (acceptIdent2 a b p) as [[] ?]; [destruct H as [-> H]|subst]
  | |- context [acceptIdent ?s ?p] =>
      pose proof (acceptIdent_spec s p) as H;
      destruct (acceptIdent s p) as [[] ?]; destruct H as [-> H]
  end.

Ltac step_tokIs :=
  match goal with
  | |- context [tokIs ?t ?p] => destruct (tokIs t p) eqn:?
  end.

(** [advanced p q] along [next] and the hypotheses on sub-parsers. *)
Ltac adv_chain :=
  repeat first
    [ assumption
    | apply advanced_refl
    | (eapply advanced_trans; [|apply advanced_next])
    | match goal with
      | H : advanced ?a ?q |- advanced _ ?q => eapply advanced_trans; [|exact H]
      end ].



(** A strict step: one [next] at a token that is not [TokenEOF], then
    any steps. *)
Ltac adv_lt :=
  first
    [ apply next_lt; not_eof
    | eapply advanced_lt; [not_eof|adv_chain] ].

Ltac solve_adv :=
  simpl;
  repeat match goal with |- _ ∧ _ => split end;
  first [ done | by adv_chain | adv_lt ].

Lemma parseImports_body_spec p :
  match parseImports_body p with
  | Continue p' => advanced p p' ∧ (remaining p' < remaining p)%nat
  | Break r => advanced p r
  end.
Proof.
  unfold parseImports_body. step_tokIs; [solve_adv|].
  step_accept; solve_adv.
Qed.

Lemma parseImports_decreases p p' :
  parseImports_body p = Continue p' → (remaining p' < remaining p)%nat.
Proof.
  intros H. pose proof (parseImports_body_spec p) as Hs. rewrite H in Hs. tauto.
Qed.

Lemma parseImports_advanced p : advanced p (parseImports p).
Proof.
  unfold parseImports.
  apply (while_ind _ _ parseImports_decreases
           (fun s => advanced p s) (fun r => advanced p r)); [|solve_adv].
  intros s Hs. pose proof (parseImports_body_spec s) as H.
  destruct (parseImports_body s) as [s'|r]; [destruct H|];
    by eapply advanced_trans.
Qed.

Lemma parseParentRef_advanced p : advanced p (parseParentRef p).2.
Proof.
  unfold parseParentRef. repeat first [step_accept | step_tokIs]; solve_adv.
Qed.

(** A loop whose iterations consume tokens and keep an invariant [J] of
    the state: a property [Q] of the result that holds when the loop is
    left, and that is kept when more tokens were consumed before, holds of
    the loop. *)
Lemma while_advanced_inv {St R : Type} (π : St → rdParser) (body : St → ctl St R)
    (J : St → Prop) (Q : rdParser → R → Prop) dflt :
  (∀ p p' r, advanced p p' → Q p' r → Q p r) →
  (∀ s, match body s with
        | Continue s' =>
            advanced (π s) (π s') ∧ (remaining (π s') < remaining (π s))%nat
            ∧ (J s → J s')
        | Break r => J s → Q (π s) r
        end) →
  ∀ s, J s → Q (π s) (while (fun s => remaining (π s)) dflt body s).
Proof.
  intros Hclosed Hspec s0 HJ.
  assert (∀ s s', body s = Continue s' →
            (remaining (π s') < remaining (π s))%nat) as Hdecr.
  { intros s s' Hb. specialize (Hspec s). rewrite Hb in Hspec. tauto. }
  apply (while_ind body _ Hdecr
           (fun s => advanced (π s0) (π s) ∧ J s) (fun r => Q (π s0) r));
    [|split; [apply advanced_refl|done]].
  intros s [Hs HJs]. specialize (Hspec s).
  destruct (body s) as [s'|r].
  - destruct Hspec as (? & ? & ?). split; [by eapply advanced_trans|auto].
  - eapply Hclosed; eauto.
Qed.

Lemma while_advanced {St R : Type} (π : St → rdParser) (body : St → ctl St R)
    (Q : rdParser → R → Prop) dflt :
  (∀ p p' r, advanced p p' → Q p' r → Q p r) →
  (∀ s, match body s with
        | Continue s' =>
            advanced (π s) (π s') ∧ (remaining (π s') < remaining (π s))%nat
        | Break r => Q (π s) r
        end) →
  ∀ s, Q (π s) (while (fun s => remaining (π s)) dflt body s).
Proof.
  intros Hclosed Hspec s.
  apply (while_advanced_inv π body (fun _ => True) Q dflt Hclosed); [|done].
  intros s1. specialize (Hspec s1). destruct (body s1); tauto.
Qed.

Lemma while_decreases {St R : Type} (π : St → rdParser) (body : St → ctl St R)
    (Q : rdParser → R → Prop) :
  (∀ s, match body s with
        | Continue s' =>
            advanced (π s) (π s') ∧ (remaining (π s') < remaining (π s))%nat
        | Break r => Q (π s) r
        end) →
  ∀ s s', body s = Continue s' → (remaining (π s') < remaining (π s))%nat.
Proof. intros Hspec s s' Hb. specialize (Hspec s). rewrite Hb in Hspec. tauto. Qed.

Lemma absOid_body_spec st :
  match absOid_body st with
  | Continue st' => advanced st.1 st'.1 ∧ (remaining st'.1 < remaining st.1)%nat
  | Break r => advanced st.1 r.1
  end.
Proof. destruct st as [p abs]. unfold absOid_body. step_tokIs; solve_adv. Qed.

Lemma parseOidAssignmentInsideBraces_advanced p :
  advanced p (parseOidAssignmentInsideBraces p).2.
Proof.
  unfold parseOidAssignmentInsideBraces. step_tokIs.
  - pose proof (while_advanced fst absOid_body (fun q r => advanced q r.1)
                  (p, []) ltac:(intros; by eapply advanced_trans)
                  absOid_body_spec (p, [])) as H.
    simpl in H. by destruct (while _ _ _ _).
  - pose proof (parseParentRef_advanced p). by destruct (parseParentRef p) as [[? ?] ?].
Qed.

Lemma parseUntilKeywords_body_spec stop st :
  match parseUntilKeywords_body stop st with
  | Continue st' => advanced st.1 st'.1 ∧ (remaining st'.1 < remaining st.1)%nat
  | Break r => advanced st.1 r.2
  end.
Proof.
  destruct st as [p acc]. unfold parseUntilKeywords_body.
  destruct (tokIs TokenEOF p) eqn:He; [solve_adv|].
  destruct (_ && _); [solve_adv|]. destruct (_ && _); solve_adv.
Qed.

Lemma parseUntilKeywords_advanced stop p :
  advanced p (parseUntilKeywords stop p).2.
Proof.
  unfold parseUntilKeywords.
  apply (while_advanced fst (parseUntilKeywords_body stop)
           (fun q r => advanced q r.2) (EmptyString, p)
           ltac:(intros; by eapply advanced_trans)
           (parseUntilKeywords_body_spec stop) (p, EmptyString)).
Qed.

Lemma parseTypeString_advanced p : advanced p (parseTypeString p).2.
Proof. apply parseUntilKeywords_advanced. Qed.

Lemma skipMacroBody_body_spec p :
  match skipMacroBody_body p with
  | Continue p' => advanced p p' ∧ (remaining p' < remaining p)%nat
  | Break r => advanced p r
  end.
Proof.
  unfold skipMacroBody_body. destruct (tokIs TokenEOF p) eqn:He; [solve_adv|].
  destruct (isIdent "END" p); solve_adv.
Qed.

Lemma skipBalanced_body_spec st :
  match skipBalanced_body st with
  | Continue st' =>
      advanced st.1.1 st'.1.1 ∧ (remaining st'.1.1 < remaining st.1.1)%nat
  | Break r => advanced st.1.1 r
  end.
Proof.
  destruct st as [[p depth] started]. unfold skipBalanced_body.
  destruct (tokIs TokenEOF p) eqn:He; [solve_adv|].
  destruct (isIdent "END" p); [solve_adv|].
  destruct (tokIs TokenLBrace p); [solve_adv|].
  destruct (tokIs TokenRBrace p); [|solve_adv].
  destruct (_ && _); solve_adv.
Qed.

Lemma skipBalanced_advanced p : advanced p (skipBalanced p).
Proof.
  unfold skipBalanced.
  apply (while_advanced (fun st => st.1.1) skipBalanced_body
           (fun q r => advanced q r) p
           ltac:(intros; by eapply advanced_trans)
           skipBalanced_body_spec (p, 0, false)).
Qed.

Lemma skipMacroBody_advanced p :
  advanced p (while remaining p skipMacroBody_body p).
Proof.
  apply (while_advanced id skipMacroBody_body
           (fun q r => advanced q r) p
           ltac:(intros; by eapply advanced_trans)
           skipMacroBody_body_spec p).
Qed.

Lemma skipDefinition_advanced p : advanced p (skipDefinition p).
Proof.
  unfold skipDefinition.
  destruct (isIdent "MACRO" p); [|apply skipBalanced_advanced].
  step_accept.
  - step_accept.
    + eapply advanced_trans; [|apply skipMacroBody_advanced]. solve_adv.
    + eapply advanced_trans; [|apply skipBalanced_advanced]. solve_adv.
  - eapply advanced_trans; [|apply skipBalanced_advanced]. solve_adv.
Qed.

Lemma indexList_body_spec st :
  match indexList_body st with
  | Continue st' => advanced st.1 st'.1 ∧ (remaining st'.1 < remaining st.1)%nat
  | Break (Ok r) => advanced st.1 r.1
  | Break (Err _) => True
  end.
Proof.
  destruct st as [p idx]. unfold indexList_body.
  destruct (tokIs TokenIdent p) eqn:Hi.
  - destruct (equalFold _ _); [solve_adv|].
    step_accept; [solve_adv|]. step_accept; solve_adv.
  - step_accept; solve_adv.
Qed.

Lemma parseIndexList_advanced p :
  match parseIndexList p with
  | Ok r => advanced p r.1
  | Err _ => True
  end.
Proof.
  unfold parseIndexList.
  apply (while_advanced fst indexList_body
           (fun q r => match r with Ok r => advanced q r.1 | Err _ => True end)
           (Ok (p, []))
           ltac:(intros ? ? [] ? ?; [by eapply advanced_trans|done])
           indexList_body_spec (p, [])).
Qed.

Lemma objectsList_body_spec st :
  match objectsList_body st with
  | Continue st' => advanced st.1 st'.1 ∧ (remaining st'.1 < remaining st.1)%nat
  | Break r => advanced st.1 r.1
  end.
Proof.
  destruct st as [p objs]. unfold objectsList_body.
  destruct (tokIs TokenIdent p) eqn:Hi; [|solve_adv].
  step_accept; solve_adv.
Qed.

Lemma objectsList_advanced p :
  advanced p (while (fun st => remaining st.1) (p, []) objectsList_body (p, [])).1.
Proof.
  apply (while_advanced fst objectsList_body
           (fun q r => advanced q r.1) (p, [])
           ltac:(intros; by eapply advanced_trans)
           objectsList_body_spec (p, [])).
Qed.

(** Case analysis on the next sub-parser call of the goal, with the fact
    that it only consumes tokens. *)
Ltac step_sub :=
  let H := fresh "Hadv" in
  match goal with
  | |- context [parseTypeString ?p] =>
      pose proof (parseTypeString_advanced p) as H;
      destruct (parseTypeString p) as [? ?]; simpl in H
  | |- context [parseUntilKeywords ?stop ?p] =>
      pose proof (parseUntilKeywords_advanced stop p) as H;
      destruct (parseUntilKeywords stop p) as [? ?]; simpl in H
  | |- context [stringClause ?p] =>
      pose proof (stringClause_advanced p) as H;
      destruct (stringClause p) as [[?|] ?]; simpl in H
  | |- context [parseIndexList ?p] =>
      pose proof (parseIndexList_advanced p) as H;
      destruct (parseIndexList p) as [[? ?]|?]; simpl in H
  | |- context [parseOidAssignmentInsideBraces ?p] =>
      pose proof (parseOidAssignmentInsideBraces_advanced p) as H;
      destruct (parseOidAssignmentInsideBraces p) as [[[[? ?] ?] ?] ?];
      simpl in H
  end.

(** ** The constructs of the module body

    Each construct consumes tokens and then runs its store-and-resolve
    block once: [effect]. *)

Lemma remaining_resolveObjectIdentifier ident parentName index abs hasAbs p :
  remaining (resolveObjectIdentifier ident parentName index abs hasAbs p) = remaining p.
Proof.
  unfold resolveObjectIdentifier. destruct hasAbs; [done|].
  by destruct (resolveOidBase parentName p).
Qed.

Lemma remaining_resolveObjectType obj parentName index abs hasAbs p :
  remaining (resolveObjectType obj parentName index abs hasAbs p) = remaining p.
Proof.
  unfold resolveObjectType. destruct hasAbs; [done|].
  by destruct (resolveOidBase parentName p).
Qed.

Lemma remaining_resolveGroup ident parent_ idx p :
  remaining (resolveGroup ident parent_ idx p) = remaining p.
Proof. unfold resolveGroup. by destruct (_ !! _). Qed.

Lemma remaining_resolveModuleIdentity mi ident parent_ idx abs hasAbs p :
  remaining (resolveModuleIdentity mi ident parent_ idx abs hasAbs p) = remaining p.
Proof.
  unfold resolveModuleIdentity. destruct hasAbs; [done|].
  by destruct (resolveOidBase parent_ p).
Qed.

Lemma remaining_resolveObjectIdentity oi ident parent_ idx abs hasAbs p :
  remaining (resolveObjectIdentity oi ident parent_ idx abs hasAbs p) = remaining p.
Proof.
  unfold resolveObjectIdentity. destruct hasAbs; [done|].
  by destruct (resolveOidBase parent_ p).
Qed.

Lemma remaining_resolveNotificationType nt parent_ idx abs hasAbs p :
  remaining (resolveNotificationType nt parent_ idx abs hasAbs p) = remaining p.
Proof.
  unfold resolveNotificationType. destruct hasAbs; [done|].
  by destruct (resolveOidBase parent_ p).
Qed.

Lemma effect_le p p' : effect p p' → (remaining p' ≤ remaining p)%nat.
Proof.
  intros [p1 H|p1 ? ? ? ? ? H|p1 ? H|p1 ? ? ? ? ? H|p1 ? ? ? H
         |p1 ? ? ? ? ? ? H _|p1 ? ? ? ? ? ? H _|p1 ? ? ? ? ? H];
    apply advanced_le in H;
    rewrite ?remaining_resolveObjectIdentifier, ?remaining_resolveObjectType,
      ?remaining_resolveGroup, ?remaining_resolveModuleIdentity,
      ?remaining_resolveObjectIdentity, ?remaining_resolveNotificationType;
    done.
Qed.

Lemma effect_advanced_l p q p' : advanced p q → effect q p' → effect p p'.
Proof.
  intros Hpq [p1 H|p1 ? ? ? ? ? H|p1 ? H|p1 ? ? ? ? ? H|p1 ? ? ? H
             |p1 ? ? ? ? ? ? H ?|p1 ? ? ? ? ? ? H ?|p1 ? ? ? ? ? H];
    [constructor 1|constructor 2|constructor 3|constructor 4|constructor 5
    |constructor 6|constructor 7|constructor 8];
    try done; by eapply advanced_trans.
Qed.

(** The [::=] block: the reference is read, then [resolve] runs on what
    was read. *)
Lemma parseOidAssignment_spec lbrace rbrace resolve p :
  match parseOidAssignment lbrace rbrace resolve p with
  | Ok p' =>
      ∃ p1 parentName index abs hasAbs,
        advanced p p1 ∧ p' = resolve parentName index abs hasAbs p1
  | Err _ => True
  end.
Proof.
  unfold parseOidAssignment. step_accept; [|done].
  step_sub. step_accept; [|done]. simpl.
  eexists _, _, _, _, _. split; [|done]. adv_chain.
Qed.

Lemma parseObjectIdentifier_effect ident p :
  match parseObjectIdentifier ident p with
  | Ok p' => effect p p'
  | Err _ => True
  end.
Proof.
  unfold parseObjectIdentifier. do 3 (step_accept; [|done]).
  step_sub. step_accept; [|done]. simpl.
  apply effect_ObjectIdentifier. adv_chain.
Qed.

(** *** [TEXTUAL-CONVENTION] *)

Lemma textualConvention_body_spec st :
  match textualConvention_body st with
  | Continue st' => advanced st.1 st'.1 ∧ (remaining st'.1 < remaining st.1)%nat
  | Break (Ok p') => effect st.1 p'
  | Break (Err _) => True
  end.
Proof.
  destruct st as [p tc]. unfold textualConvention_body.
  step_accept. { step_tokIs; solve_adv. }
  step_accept. { step_sub. solve_adv. }
  step_accept. { step_tokIs; solve_adv. }
  step_accept.
  { step_sub.
    match goal with
    | |- context [TextualConventionIR.set_Syntax ?s ?tc] =>
        apply (effect_TextualConvention _ _ (TextualConventionIR.set_Syntax s tc))
    end.
    adv_chain. }
  step_tokIs; [done|]. solve_adv.
Qed.

Lemma effect_closed p p' (r : result rdParser) :
  advanced p p' →
  match r with Ok q => effect p' q | Err _ => True end →
  match r with Ok q => effect p q | Err _ => True end.
Proof. destruct r; [|done]. apply effect_advanced_l. Qed.

Lemma parseTextualConvention_effect ident p :
  match parseTextualConvention ident p with
  | Ok p' => effect p p'
  | Err _ => True
  end.
Proof.
  unfold parseTextualConvention.
  apply (while_advanced fst textualConvention_body
           (fun q r => match r with Ok p' => effect q p' | Err _ => True end)
           (Ok p) effect_closed textualConvention_body_spec
           (p, TextualConventionIR.new ident)).
Qed.

(** *** [OBJECT-TYPE] *)

Lemma objectType_body_spec ident st :
  match objectType_body ident st with
  | Continue st' =>
      advanced st.1 st'.1 ∧ (remaining st'.1 < remaining st.1)%nat
      ∧ (ObjectTypeIR.Name st.2 = ident → ObjectTypeIR.Name st'.2 = ident)
  | Break r =>
      ObjectTypeIR.Name st.2 = ident →
      match r with
      | Ok p' =>
          ∃ obj p1 parentName index abs hasAbs,
              ObjectTypeIR.Name obj = ident ∧ advanced st.1 p1
              ∧ p' = resolveObjectType obj parentName index abs hasAbs p1
      | Err _ => True
      end
  end.
Proof.
  destruct st as [p obj]. unfold objectType_body.
  destruct (tokIs TokenEOF p) eqn:He; [done|].
  step_accept. { step_sub. solve_adv. }
  step_accept. { step_sub. solve_adv. }
  step_accept. { step_sub. solve_adv. }
  step_accept. { step_tokIs; [solve_adv|done]. }
  step_accept. { step_accept; [|done]. step_sub; [|done]. solve_adv. }
  step_accept. { step_sub. solve_adv. }
  step_accept. { step_sub. solve_adv. }
  step_accept.
  { pose proof (parseOidAssignment_spec
                  "expected '{' after '::=' in OBJECT-TYPE"
                  "expected '}' after OBJECT-TYPE OID ref"
                  (resolveObjectType obj) (next p)) as Hr.
    destruct (parseOidAssignment _ _ _ _) as [p'|]; [|done].
    destruct Hr as (p1 & ? & ? & ? & ? & Hadv & ->). intros Hname.
    eexists obj, p1, _, _, _, _. split_and!; [done| |done]. adv_chain. }
  step_accept; [solve_adv|]. rewrite He. solve_adv.
Qed.

Lemma parseObjectType_spec ident p :
  match parseObjectType ident p with
  | Ok p' =>
      ∃ obj p1 parentName index abs hasAbs,
        ObjectTypeIR.Name obj = ident ∧ advanced p p1
        ∧ p' = resolveObjectType obj parentName index abs hasAbs p1
  | Err _ => True
  end.
Proof.
  unfold parseObjectType.
  set (Q := fun (q : rdParser) (r : result rdParser) =>
              match r with
                       | Ok p' =>
                           ∃ obj p1 parentName index abs hasAbs,
                             ObjectTypeIR.Name obj = ident ∧ advanced q p1
                             ∧ p' = resolveObjectType obj parentName index abs hasAbs p1
                       | Err _ => True
                       end).
  assert (∀ q q' r, advanced q q' → Q q' r → Q q r) as Hclosed.
  { intros q q' [p'|] Hq; [|done].
    intros (x & p1 & ? & ? & ? & ? & ? & Hadv & ->).
    eexists x, p1, _, _, _, _. split_and!; [done| |done].
    by eapply advanced_trans. }
  pose proof (while_advanced_inv fst (objectType_body ident)
                (fun st => ObjectTypeIR.Name st.2 = ident) Q (Ok (next p)) Hclosed
                (objectType_body_spec ident)
                (next p, ObjectTypeIR.new ident) eq_refl) as H.
  unfold Q in H. clear Q Hclosed.
  simpl in H. destruct (while _ _ _ _); [|done].
  destruct H as (obj & p1 & ? & ? & ? & ? & ? & ? & ->).
  eexists obj, p1, _, _, _, _. split_and!; [done| |done]. adv_chain.
Qed.

Lemma parseObjectType_effect ident p :
  match parseObjectType ident p with
  | Ok p' => effect p p'
  | Err _ => True
  end.
Proof.
  pose proof (parseObjectType_spec ident p) as H.
  destruct (parseObjectType ident p); [|done].
  destruct H as (obj & p1 & ? & ? & ? & ? & ? & ? & ->).
  by apply effect_ObjectType.
Qed.

(** *** The group constructs *)

Lemma group_body_spec kw ident p :
  match group_body kw ident p with
  | Continue p' => advanced p p' ∧ (remaining p' < remaining p)%nat
  | Break (Ok p') => effect p p'
  | Break (Err _) => True
  end.
Proof.
  unfold group_body. destruct (tokIs TokenEOF p) eqn:He; [done|].
  step_accept; [|solve_adv]. step_accept; [|done].
  pose proof (parseParentRef_advanced (next (next p))) as Hadv.
  destruct (parseParentRef _) as [[? ?] p1]. simpl in Hadv.
  step_accept; [|done]. apply effect_Group. adv_chain.
Qed.

Lemma parseGroup_effect kw ident p :
  match parseGroup kw ident p with
  | Ok p' => effect p p'
  | Err _ => True
  end.
Proof.
  unfold parseGroup.
  apply (effect_closed p (next p)); [apply advanced_next|].
  apply (while_advanced id (group_body kw ident)
           (fun q r => match r with Ok p' => effect q p' | Err _ => True end)
           (Ok (next p)) effect_closed (group_body_spec kw ident) (next p)).
Qed.

(** *** [MODULE-IDENTITY] *)

Lemma moduleIdentity_body_spec ident st :
  match moduleIdentity_body ident st with
  | Continue st' =>
      advanced st.1 st'.1 ∧ (remaining st'.1 < remaining st.1)%nat
      ∧ (ModuleIdentityIR.Name st.2 = ident → ModuleIdentityIR.Name st'.2 = ident)
  | Break r =>
      ModuleIdentityIR.Name st.2 = ident →
      match r with
      | Ok p' =>
          ∃ mi p1 parent_ idx abs hasAbs,
              ModuleIdentityIR.Name mi = ident ∧ advanced st.1 p1
              ∧ p' = resolveModuleIdentity mi ident parent_ idx abs hasAbs p1
      | Err _ => True
      end
  end.
Proof.
  destruct st as [p mi]. unfold moduleIdentity_body.
  step_accept. { step_sub; solve_adv. }
  step_accept. { step_sub; solve_adv. }
  step_accept. { step_sub; solve_adv. }
  step_accept. { step_sub; solve_adv. }
  step_accept.
  { pose proof (parseOidAssignment_spec
                  "expected '{' after MODULE-IDENTITY '::='"
                  "expected '}' after MODULE-IDENTITY OID"
                  (resolveModuleIdentity mi ident) (next p)) as Hr.
    destruct (parseOidAssignment _ _ _ _) as [p'|]; [|done].
    destruct Hr as (p1 & ? & ? & ? & ? & Hadv & ->). intros Hname.
    eexists mi, p1, _, _, _, _. split_and!; [done| |done]. adv_chain. }
  step_tokIs; [done|]. solve_adv.
Qed.

Lemma parseModuleIdentity_spec ident p :
  match parseModuleIdentity ident p with
  | Ok p' =>
      ∃ mi p1 parent_ idx abs hasAbs,
        ModuleIdentityIR.Name mi = ident ∧ advanced p p1
        ∧ p' = resolveModuleIdentity mi ident parent_ idx abs hasAbs
                 (update_mod (ModuleIR.ensureNode ident) p1)
  | Err _ => True
  end.
Proof.
  unfold parseModuleIdentity.
  set (Q := fun (q : rdParser) (r : result rdParser) =>
              match r with
                       | Ok p' =>
                           ∃ mi p1 parent_ idx abs hasAbs,
                             ModuleIdentityIR.Name mi = ident ∧ advanced q p1
                             ∧ p' = resolveModuleIdentity mi ident parent_ idx abs hasAbs p1
                       | Err _ => True
                       end).
  assert (∀ q q' r, advanced q q' → Q q' r → Q q r) as Hclosed.
  { intros q q' [p'|] Hq; [|done].
    intros (x & p1 & ? & ? & ? & ? & ? & Hadv & ->).
    eexists x, p1, _, _, _, _. split_and!; [done| |done].
    by eapply advanced_trans. }
  pose proof (while_advanced_inv fst (moduleIdentity_body ident)
                (fun st => ModuleIdentityIR.Name st.2 = ident) Q (Ok (update_mod (ModuleIR.ensureNode ident) (next p))) Hclosed
                (moduleIdentity_body_spec ident)
                (update_mod (ModuleIR.ensureNode ident) (next p), ModuleIdentityIR.new ident) eq_refl) as H.
  unfold Q in H. clear Q Hclosed.
  simpl in H. destruct (while _ _ _ _); [|done].
  destruct H as (mi & p1 & ? & ? & ? & ? & ? & Hadv & ->).
  apply advanced_update_mod in Hadv as (p2 & Hadv & ->).
  eexists mi, p2, _, _, _, _. split_and!; [done| |done]. adv_chain.
Qed.

Lemma parseModuleIdentity_effect ident p :
  match parseModuleIdentity ident p with
  | Ok p' => effect p p'
  | Err _ => True
  end.
Proof.
  pose proof (parseModuleIdentity_spec ident p) as H.
  destruct (parseModuleIdentity ident p); [|done].
  destruct H as (mi & p1 & ? & ? & ? & ? & ? & ? & ->).
  by apply effect_ModuleIdentity.
Qed.

(** *** [OBJECT-IDENTITY] *)

Lemma objectIdentity_body_spec ident st :
  match objectIdentity_body ident st with
  | Continue st' =>
      advanced st.1 st'.1 ∧ (remaining st'.1 < remaining st.1)%nat
      ∧ (ObjectIdentityIR.Name st.2 = ident → ObjectIdentityIR.Name st'.2 = ident)
  | Break r =>
      ObjectIdentityIR.Name st.2 = ident →
      match r with
      | Ok p' =>
          ∃ oi p1 parent_ idx abs hasAbs,
              ObjectIdentityIR.Name oi = ident ∧ advanced st.1 p1
              ∧ p' = resolveObjectIdentity oi ident parent_ idx abs hasAbs p1
      | Err _ => True
      end
  end.
Proof.
  destruct st as [p oi]. unfold objectIdentity_body.
  step_accept. { step_sub; solve_adv. }
  step_accept. { step_sub; solve_adv. }
  step_accept.
  { pose proof (parseOidAssignment_spec
                  "expected '{' after OBJECT-IDENTITY '::='"
                  "expected '}' after OBJECT-IDENTITY OID"
                  (resolveObjectIdentity oi ident) (next p)) as Hr.
    destruct (parseOidAssignment _ _ _ _) as [p'|]; [|done].
    destruct Hr as (p1 & ? & ? & ? & ? & Hadv & ->). intros Hname.
    eexists oi, p1, _, _, _, _. split_and!; [done| |done]. adv_chain. }
  step_tokIs; [done|]. solve_adv.
Qed.

Lemma parseObjectIdentity_spec ident p :
  match parseObjectIdentity ident p with
  | Ok p' =>
      ∃ oi p1 parent_ idx abs hasAbs,
        ObjectIdentityIR.Name oi = ident ∧ advanced p p1
        ∧ p' = resolveObjectIdentity oi ident parent_ idx abs hasAbs
                 (update_mod (ModuleIR.ensureNode ident) p1)
  | Err _ => True
  end.
Proof.
  unfold parseObjectIdentity.
  set (Q := fun (q : rdParser) (r : result rdParser) =>
              match r with
                       | Ok p' =>
                           ∃ oi p1 parent_ idx abs hasAbs,
                             ObjectIdentityIR.Name oi = ident ∧ advanced q p1
                             ∧ p' = resolveObjectIdentity oi ident parent_ idx abs hasAbs p1
                       | Err _ => True
                       end).
  assert (∀ q q' r, advanced q q' → Q q' r → Q q r) as Hclosed.
  { intros q q' [p'|] Hq; [|done].
    intros (x & p1 & ? & ? & ? & ? & ? & Hadv & ->).
    eexists x, p1, _, _, _, _. split_and!; [done| |done].
    by eapply advanced_trans. }
  pose proof (while_advanced_inv fst (objectIdentity_body ident)
                (fun st => ObjectIdentityIR.Name st.2 = ident) Q (Ok (update_mod (ModuleIR.ensureNode ident) (next p))) Hclosed
                (objectIdentity_body_spec ident)
                (update_mod (ModuleIR.ensureNode ident) (next p), ObjectIdentityIR.new ident) eq_refl) as H.
  unfold Q in H. clear Q Hclosed.
  simpl in H. destruct (while _ _ _ _); [|done].
  destruct H as (oi & p1 & ? & ? & ? & ? & ? & Hadv & ->).
  apply advanced_update_mod in Hadv as (p2 & Hadv & ->).
  eexists oi, p2, _, _, _, _. split_and!; [done| |done]. adv_chain.
Qed.

Lemma parseObjectIdentity_effect ident p :
  match parseObjectIdentity ident p with
  | Ok p' => effect p p'
  | Err _ => True
  end.
Proof.
  pose proof (parseObjectIdentity_spec ident p) as H.
  destruct (parseObjectIdentity ident p); [|done].
  destruct H as (oi & p1 & ? & ? & ? & ? & ? & ? & ->).
  by apply effect_ObjectIdentity.
Qed.

(** *** [NOTIFICATION-TYPE] *)

Lemma notificationType_body_spec ident st :
  match notificationType_body st with
  | Continue st' =>
      advanced st.1 st'.1 ∧ (remaining st'.1 < remaining st.1)%nat
      ∧ (NotificationTypeIR.Name st.2 = ident → NotificationTypeIR.Name st'.2 = ident)
  | Break r =>
      NotificationTypeIR.Name st.2 = ident →
      match r with
      | Ok p' =>
          ∃ nt p1 parent_ idx abs hasAbs,
              NotificationTypeIR.Name nt = ident ∧ advanced st.1 p1
              ∧ p' = resolveNotificationType nt parent_ idx abs hasAbs p1
      | Err _ => True
      end
  end.
Proof.
  destruct st as [p nt]. unfold notificationType_body.
  step_accept.
  { step_accept; [|done].
    pose proof (objectsList_advanced (next (next p))) as Hadv.
    destruct (while _ _ _ _) as [p1 objs]. simpl in Hadv.
    step_accept; [|done]. solve_adv. }
  step_accept. { step_sub; solve_adv. }
  step_accept. { step_sub; solve_adv. }
  step_accept.
  { pose proof (parseOidAssignment_spec
                  "expected '{' after NOTIFICATION-TYPE '::='"
                  "expected '}' after NOTIFICATION-TYPE OID"
                  (resolveNotificationType nt) (next p)) as Hr.
    destruct (parseOidAssignment _ _ _ _) as [p'|]; [|done].
    destruct Hr as (p1 & ? & ? & ? & ? & Hadv & ->). intros Hname.
    eexists nt, p1, _, _, _, _. split_and!; [done| |done]. adv_chain. }
  step_tokIs; [done|]. solve_adv.
Qed.

Lemma parseNotificationType_spec ident p :
  match parseNotificationType ident p with
  | Ok p' =>
      ∃ nt p1 parent_ idx abs hasAbs,
        NotificationTypeIR.Name nt = ident ∧ advanced p p1
        ∧ p' = resolveNotificationType nt parent_ idx abs hasAbs p1
  | Err _ => True
  end.
Proof.
  unfold parseNotificationType.
  set (Q := fun (q : rdParser) (r : result rdParser) =>
              match r with
                       | Ok p' =>
                           ∃ nt p1 parent_ idx abs hasAbs,
                             NotificationTypeIR.Name nt = ident ∧ advanced q p1
                             ∧ p' = resolveNotificationType nt parent_ idx abs hasAbs p1
                       | Err _ => True
                       end).
  assert (∀ q q' r, advanced q q' → Q q' r → Q q r) as Hclosed.
  { intros q q' [p'|] Hq; [|done].
    intros (x & p1 & ? & ? & ? & ? & ? & Hadv & ->).
    eexists x, p1, _, _, _, _. split_and!; [done| |done].
    by eapply advanced_trans. }
  pose proof (while_advanced_inv fst notificationType_body
                (fun st => NotificationTypeIR.Name st.2 = ident) Q (Ok (next p)) Hclosed
                (notificationType_body_spec ident)
                (next p, NotificationTypeIR.new ident) eq_refl) as H.
  unfold Q in H. clear Q Hclosed.
  simpl in H. destruct (while _ _ _ _); [|done].
  destruct H as (nt & p1 & ? & ? & ? & ? & ? & ? & ->).
  eexists nt, p1, _, _, _, _. split_and!; [done| |done]. adv_chain.
Qed.

Lemma parseNotificationType_effect ident p :
  match parseNotificationType ident p with
  | Ok p' => effect p p'
  | Err _ => True
  end.
Proof.
  pose proof (parseNotificationType_spec ident p) as H.
  destruct (parseNotificationType ident p); [|done].
  destruct H as (nt & p1 & ? & ? & ? & ? & ? & ? & ->).
  by apply effect_NotificationType.
Qed.

(** ** The module body and the fixed-point loop *)

Lemma lift_spec p q r :
  advanced p q → (remaining q < remaining p)%nat →
  match r with Ok p' => effect q p' | Err _ => True end →
  match lift r with
  | Continue p' => effect p p' ∧ (remaining p' < remaining p)%nat
  | Break (Ok p') => advanced p p'
  | Break (Err _) => True
  end.
Proof.
  intros Hpq Hlt Hr. destruct r as [p'|e]; simpl; [|done].
  split; [by eapply effect_advanced_l|]. apply effect_le in Hr. lia.
Qed.

Lemma skip_spec p q :
  advanced p q → (remaining q < remaining p)%nat →
  effect p (skipDefinition q) ∧ (remaining (skipDefinition q) < remaining p)%nat.
Proof.
  intros Hpq Hlt. pose proof (skipDefinition_advanced q) as Hs. split.
  - apply effect_skip. by eapply advanced_trans.
  - apply advanced_le in Hs. lia.
Qed.

Lemma moduleBody_body_spec p :
  match moduleBody_body p with
  | Continue p' => effect p p' ∧ (remaining p' < remaining p)%nat
  | Break (Ok p') => advanced p p'
  | Break (Err _) => True
  end.
Proof.
  unfold moduleBody_body.
  destruct (tokIs TokenEOF p) eqn:He; [apply advanced_refl|].
  pose proof (next_lt p He) as Hlt. pose proof (advanced_next p) as Hadv.
  destruct (isIdent "END" p).
  { case_bool_decide; [done|]. split; [by apply effect_skip|done]. }
  destruct (tokIs TokenIdent p); [|split; [by apply effect_skip|done]].
  destruct (isIdent "MACRO" (next p)); [by apply skip_spec|].
  destruct (isIdent "OBJECT" (next p)).
  { apply (lift_spec p (next p)); [done..|]. apply parseObjectIdentifier_effect. }
  step_accept.
  { assert (advanced p (next (next p))) as Hadv2 by adv_chain.
    assert ((remaining (next (next p)) < remaining p)%nat) as Hlt2.
    { pose proof (advanced_le _ _ (advanced_next (next p))). lia. }
    step_accept.
    - apply (lift_spec p (next (next (next p)))); [adv_chain|..].
      + pose proof (advanced_le _ _ (advanced_next (next (next p)))). lia.
      + apply parseTextualConvention_effect.
    - by apply skip_spec. }
  repeat match goal with
         | |- context [if isIdent ?kw (next p) then _ else _] =>
             destruct (isIdent kw (next p)) eqn:?
         end;
    first
      [ by apply skip_spec
      | match goal with |- context [lift (?f ?q)] => apply (lift_spec p q) end;
        first
          [ done
          | apply parseObjectType_effect
          | apply parseGroup_effect
          | apply parseModuleIdentity_effect
          | apply parseObjectIdentity_effect
          | apply parseNotificationType_effect
          | idtac ] ].
  - adv_chain.
  - pose proof (advanced_le _ _ (advanced_next (next p))). lia.
  - apply parseTextualConvention_effect.
Qed.

Lemma moduleBody_decreases p p' :
  moduleBody_body p = Continue p' → (remaining p' < remaining p)%nat.
Proof.
  intros H. pose proof (moduleBody_body_spec p) as Hs. rewrite H in Hs. tauto.
Qed.

(** The body of the module is a sequence of constructs. *)
Lemma moduleBody_effects p :
  match moduleBody p with
  | Ok p' => rtc effect p p'
  | Err _ => True
  end.
Proof.
  unfold moduleBody.
  apply (while_ind _ _ moduleBody_decreases
           (fun s => rtc effect p s)
           (fun r => match r with Ok p' => rtc effect p p' | Err _ => True end));
    [|done].
  intros s Hs. pose proof (moduleBody_body_spec s) as H.
  destruct (moduleBody_body s) as [s'|[p'|e]]; [| |done].
  - destruct H. by eapply rtc_r.
  - eapply rtc_r; [done|]. by apply effect_skip.
Qed.

(** One pass over the pending references keeps those whose parent has no
    entry, in order, after the ones kept before, and reports progress
    exactly when it fired one. *)
Lemma resolvePass_length prs m remaining_ progressed :
  let '(_, remaining', progressed') := resolvePass prs m remaining_ progressed in
  (length remaining' ≤ length remaining_ + length prs)%nat ∧
  (progressed' = true →
   progressed = true ∨ (length remaining' < length remaining_ + length prs)%nat).
Proof.
  revert m remaining_ progressed.
  induction prs as [|pr prs IH]; intros m remaining_ progressed; simpl.
  { split; [lia|auto]. }
  destruct (ModuleIR.NodesByName m !! parent pr) as [base|].
  - specialize (IH (apply pr base m) remaining_ true).
    destruct (resolvePass prs _ _ _) as [[m' r'] b']. split; [lia|].
    intros _. right. lia.
  - specialize (IH m (remaining_ ++ [pr]) progressed).
    destruct (resolvePass prs _ _ _) as [[m' r'] b'].
    rewrite length_app in IH. simpl in IH. split; [lia|].
    intros Hb. destruct IH as [_ [?|?]]; [done|by left|right; lia].
Qed.

Lemma resolvePending_decreases p p' :
  resolvePending_body p = Continue p' → (length (pend p') < length (pend p))%nat.
Proof.
  unfold resolvePending_body. destruct (Nat.eqb _ _); [done|].
  pose proof (resolvePass_length (pend p) (mod_ p) [] false) as H.
  destruct (resolvePass _ _ _ _) as [[m r] b].
  destruct b; simpl; [|done]. intros [= <-]. simpl.
  destruct H as [_ [?|?]]; [done..|]. simpl in *. lia.
Qed.

(** ** The sweep of the source text ends *)

Lemma dropWhile_length {A : Type} (f : A → bool) (s : list A) :
  (length (dropWhile f s) ≤ length s)%nat.
Proof.
  induction s as [|a s IH]; simpl; [lia|]. destruct (f a); simpl; lia.
Qed.

Lemma reLiteral_length w s s' :
  reLiteral w s = Some s' → (length s' ≤ length s)%nat.
Proof.
  revert s. induction w as [|c w IH]; intros [|r s]; simpl; try done.
  - intros [= <-]. simpl. lia.
  - intros [= <-]. simpl. lia.
  - destruct (r =? c); [|done]. intros H. apply IH in H. lia.
Qed.

Lemma reWords_length ws s s' :
  reWords ws s = Some s' → (length s' ≤ length s)%nat.
Proof.
  revert s. induction ws as [|w ws IH]; intros s; simpl.
  - by intros [= <-].
  - destruct s as [|r s0]; [done|]. destruct (reSpace r) eqn:Hr; [|done].
    destruct (reLiteral w _) as [s1|] eqn:Hw; [|done].
    intros H. apply IH in H. apply reLiteral_length in Hw.
    pose proof (dropWhile_length reSpace (r :: s0)). lia.
Qed.

Lemma matchHere_length re s name rest :
  matchHere re s = Some (name, rest) → (length rest < length s)%nat.
Proof.
  unfold matchHere. pose proof (dropWhile_length reSpace s) as Hs.
  destruct (dropWhile reSpace s) as [|r s0]; [done|].
  destruct (reAlpha r); [|done].
  destruct (reWords _ _) as [s1|] eqn:Hw; [|done].
  destruct (negb _ || _); [|done]. intros [= _ <-].
  apply reWords_length in Hw.
  pose proof (dropWhile_length reNameChar s0). simpl in Hs. lia.
Qed.

Lemma FindAll_decreases re st st' :
  FindAll_body re st = Continue st' → (length st'.1.2 < length st.1.2)%nat.
Proof.
  destruct st as [[lineStart s] names]. unfold FindAll_body.
  destruct s as [|r s0]; [done|].
  destruct (if lineStart then _ else _) as [[name rest]|] eqn:Hm.
  - intros [= <-]. simpl. destruct lineStart; [|done].
    by apply matchHere_length in Hm.
  - intros [= <-]. simpl. lia.
Qed.

(* ===================================================================== *)
(** * The claims *)
(* ===================================================================== *)

Lemma errorf_parseError p msg : errorf p msg = parseError (tok p) msg.
Proof. reflexivity. Qed.

Lemma mod_update_mod f p : mod_ (update_mod f p) = f (mod_ p).
Proof. reflexivity. Qed.

Lemma NodesByName_setNode k v m :
  ModuleIR.NodesByName (ModuleIR.setNode k v m) = <[k := v]> (ModuleIR.NodesByName m).
Proof. reflexivity. Qed.

Lemma initBaseOids_nodes p :
  ModuleIR.NodesByName (mod_ (initBaseOids p)) =
    bootstrap ∪ ModuleIR.NodesByName (mod_ p).
Proof.
  unfold initBaseOids. cbv zeta.
  rewrite !mod_update_mod, !NodesByName_setNode.
  rewrite !insert_union_singleton_l, !(assoc_L (∪)).
  f_equal.
Qed.

(** C7.  The ten bootstrap names iso, org, dod, internet, mgmt, mib-2,
    private, enterprises, snmpV2 and snmpModules are in nodes with their
    canonical OIDs when parsing begins: [initBaseOids] puts them on top of
    whatever nodes held, and [parseModule] starts, on every input, with
    exactly these ten.  Parsing the minimal empty module S1 yields the
    name FOO, nodes with exactly the ten entries, and every other index
    empty. *)
Theorem bootstrap_nodes_and_minimal_module :
  (∀ p, ModuleIR.NodesByName (mod_ (initBaseOids p)) =
          bootstrap ∪ ModuleIR.NodesByName (mod_ p)) ∧
  (∀ U input, ModuleIR.NodesByName (mod_ (Parse_start U input)) = bootstrap) ∧
  ParseString S1 =
    Ok (ModuleIR.mk "FOO" bootstrap ∅ None ∅ ∅ ∅).
Proof.
  split_and!.
  - apply initBaseOids_nodes.
  - intros U input. unfold Parse_start. rewrite initBaseOids_nodes. simpl.
    apply (right_id ∅ (∪)).
  - vm_compute. reflexivity.
Qed.

(** C1 (as amended).  On every input, when the module name, DEFINITIONS,
    the assignment sign after DEFINITIONS, or BEGIN is absent, the parse
    fails with a parse error whose text gives the line and column of the
    offending token and names what was expected.  (A missing trailing END
    is not an error, see [missing_END_is_accepted].) *)
Theorem missing_header_token_fails U input t description :
  missingHeaderToken (Parse_start U input) = Some (t, description) →
  Parse U input = Err (parseError t description).
Proof.
  unfold Parse. generalize (Parse_start U input) as p. intros p.
  unfold missingHeaderToken, parseModule, expect, acceptIdent, accept.
  destruct (tokIs TokenIdent p); simpl; [|by intros [= <- <-]].
  set (p1 := update_mod _ (next p)).
  change (isIdent "DEFINITIONS" p1) with (isIdent "DEFINITIONS" (next p)).
  destruct (isIdent "DEFINITIONS" (next p)); simpl; [|by intros [= <- <-]].
  change (tokIs TokenColonColonEq (next p1))
    with (tokIs TokenColonColonEq (next (next p))).
  destruct (tokIs TokenColonColonEq (next (next p))); simpl;
    [|by intros [= <- <-]].
  change (isIdent "BEGIN" (next (next p1)))
    with (isIdent "BEGIN" (next (next (next p)))).
  destruct (isIdent "BEGIN" (next (next (next p)))); simpl;
    [done|by intros [= <- <-]].
Qed.

Lemma missing_header_token_fails_witness :
  missingHeaderToken (Parse_start asciiOnly (runes_of_string "FOO ::= BEGIN")) =
    Some (mkToken TokenColonColonEq "::=" 0 1 8, "expected DEFINITIONS")
  ∧ ParseString "FOO ::= BEGIN" = Err "parse error at 1:8: expected DEFINITIONS".
Proof.
  split; [vm_compute; reflexivity|].
  apply (missing_header_token_fails asciiOnly (runes_of_string "FOO ::= BEGIN")
           (mkToken TokenColonColonEq "::=" 0 1 8) "expected DEFINITIONS").
  vm_compute. reflexivity.
Defined.

(** C1, counterexample.  The input [FOO DEFINITIONS ::= BEGIN] has no
    trailing END, and the parse succeeds. *)
Lemma missing_END_is_accepted :
  ParseString headerOnly = Ok (ModuleIR.mk "FOO" bootstrap ∅ None ∅ ∅ ∅).
Proof. vm_compute. reflexivity. Qed.

(** In the fixed-point pass a pending reference fires as soon as its parent
    has an entry in nodes, the empty placeholder included. *)
Lemma resolvePass_fires_on_placeholder pr prs m remaining_ progressed :
  ModuleIR.NodesByName m !! parent pr = Some [] →
  resolvePass (pr :: prs) m remaining_ progressed =
    resolvePass prs (apply pr [] m) remaining_ true.
Proof. intros H. simpl. by rewrite H. Qed.

(** C2, the code at the failing input.  In [forwardChain] the reference of
    [a] to [b] fires in the first pass, on the empty placeholder of [b]:
    [a] ends as [1], although [b] is resolved to 1.3.6.1.2.1.3.2 in the
    same pass. *)
Theorem forward_chain_fires_on_placeholder :
  ∃ m, ParseString forwardChain = Ok m
       ∧ ModuleIR.NodesByName m !! "a" = Some [1]
       ∧ ModuleIR.NodesByName m !! "b" = Some [1; 3; 6; 1; 2; 1; 3; 2]
       ∧ ModuleIR.NodesByName m !! "c" = Some [1; 3; 6; 1; 2; 1; 3].
Proof. eexists. split; [vm_compute; reflexivity|]. by vm_compute. Qed.

(** ** NOTIFICATION-TYPE and the nodes index *)

Lemma resolveNotificationType_nodes nt parent_ idx abs hasAbs p :
  ModuleIR.NodesByName (mod_ (resolveNotificationType nt parent_ idx abs hasAbs p)) =
    ModuleIR.NodesByName (mod_ p).
Proof.
  unfold resolveNotificationType. destruct hasAbs; [done|].
  by destruct (resolveOidBase parent_ p).
Qed.

Lemma resolveNotificationType_stored nt parent_ idx abs hasAbs p :
  ∃ nt',
    ModuleIR.NotificationTypes
      (mod_ (resolveNotificationType nt parent_ idx abs hasAbs p))
      !! NotificationTypeIR.Name nt = Some nt'
    ∧ NotificationTypeIR.Name nt' = NotificationTypeIR.Name nt.
Proof.
  unfold resolveNotificationType. destruct hasAbs.
  - eexists. split; [apply lookup_insert_eq|done].
  - destruct (resolveOidBase parent_ p);
      (eexists; split; [apply lookup_insert_eq|done]).
Qed.

Lemma ensureNode_nodes k m :
  ModuleIR.NodesByName (ModuleIR.ensureNode k m) =
    match ModuleIR.NodesByName m !! k with
    | Some _ => ModuleIR.NodesByName m
    | None => <[k := []]> (ModuleIR.NodesByName m)
    end.
Proof. unfold ModuleIR.ensureNode. by destruct (_ !! _). Qed.

Lemma ensureNode_lookup k m :
  is_Some (ModuleIR.NodesByName (ModuleIR.ensureNode k m) !! k).
Proof.
  rewrite ensureNode_nodes.
  destruct (ModuleIR.NodesByName m !! k) eqn:E; [by rewrite E|].
  eexists. apply lookup_insert_eq.
Qed.

Lemma ensureNode_objects k m :
  ModuleIR.ObjectsByName (ModuleIR.ensureNode k m) = ModuleIR.ObjectsByName m.
Proof. unfold ModuleIR.ensureNode. by destruct (_ !! _). Qed.

Lemma resolveObjectType_stored obj parentName idx abs hasAbs p :
  is_Some (ModuleIR.ObjectsByName
             (mod_ (resolveObjectType obj parentName idx abs hasAbs p))
             !! ObjectTypeIR.Name obj)
  ∧ is_Some (ModuleIR.NodesByName
               (mod_ (resolveObjectType obj parentName idx abs hasAbs p))
               !! ObjectTypeIR.Name obj).
Proof.
  unfold resolveObjectType. destruct hasAbs.
  - split; (eexists; apply lookup_insert_eq).
  - destruct (resolveOidBase parentName p).
    + split; (eexists; apply lookup_insert_eq).
    + cbn [mod_ add_pend]. rewrite !mod_update_mod. split.
      * rewrite ensureNode_objects. eexists. apply lookup_insert_eq.
      * apply ensureNode_lookup.
Qed.

Lemma resolvedOid_spec parentName index abs hasAbs p :
  resolvedOid parentName index abs hasAbs p =
    if hasAbs then Some abs
    else (fun base => base ++ [index]) <$> resolveOidBase parentName p.
Proof.
  unfold resolvedOid, resolveOidBase. destruct hasAbs; [done|].
  by destruct (ModuleIR.NodesByName (mod_ p) !! parentName) as [[|b base]|].
Qed.

Lemma resolvedOid_advanced parentName index abs hasAbs p p1 :
  advanced p p1 →
  resolvedOid parentName index abs hasAbs p1 = resolvedOid parentName index abs hasAbs p.
Proof. intros Hadv. unfold resolvedOid. by rewrite (advanced_mod _ _ Hadv). Qed.

Lemma resolveNotificationType_stores nt parentName index abs hasAbs p :
  storesNotification nt parentName index abs hasAbs p
    (resolveNotificationType nt parentName index abs hasAbs p).
Proof.
  unfold storesNotification. cbv zeta. rewrite resolvedOid_spec.
  unfold resolveNotificationType. destruct hasAbs.
  { simpl. by rewrite app_nil_r. }
  destruct (resolveOidBase parentName p) as [base|]; simpl; [by rewrite app_nil_r|done].
Qed.

Lemma resolveObjectType_stores obj parentName index abs hasAbs p :
  storesObject obj parentName index abs hasAbs p
    (resolveObjectType obj parentName index abs hasAbs p).
Proof.
  unfold storesObject. cbv zeta. rewrite resolvedOid_spec.
  unfold resolveObjectType. destruct hasAbs.
  { simpl. by rewrite app_nil_r. }
  destruct (resolveOidBase parentName p) as [base|]; simpl; [by rewrite app_nil_r|].
  split_and!; [by rewrite ensureNode_objects| |done].
  rewrite ensureNode_nodes. cbn [ModuleIR.NodesByName ModuleIR.setObject].
  destruct (ModuleIR.NodesByName (mod_ p) !! ObjectTypeIR.Name obj) as [v|] eqn:E;
    simpl; [by rewrite insert_id|done].
Qed.

Lemma storesNotification_advanced nt parentName index abs hasAbs p p1 p' :
  advanced p p1 →
  storesNotification nt parentName index abs hasAbs p1 p' →
  storesNotification nt parentName index abs hasAbs p p'.
Proof.
  intros Hadv. unfold storesNotification. cbv zeta.
  by rewrite (resolvedOid_advanced _ _ _ _ _ _ Hadv), (advanced_mod _ _ Hadv),
    (advanced_pend _ _ Hadv).
Qed.

Lemma storesObject_advanced obj parentName index abs hasAbs p p1 p' :
  advanced p p1 →
  storesObject obj parentName index abs hasAbs p1 p' →
  storesObject obj parentName index abs hasAbs p p'.
Proof.
  intros Hadv. unfold storesObject. cbv zeta.
  by rewrite (resolvedOid_advanced _ _ _ _ _ _ Hadv), (advanced_mod _ _ Hadv),
    (advanced_pend _ _ Hadv).
Qed.

(** The clause loops fill in the record they were given: its name and
    its OID are untouched until the reference is read, and the record
    that is stored then is the one of the loop. *)
Lemma notificationType_body_record st :
  match notificationType_body st with
  | Continue st' =>
      NotificationTypeIR.Name st'.2 = NotificationTypeIR.Name st.2
      ∧ NotificationTypeIR.OID st'.2 = NotificationTypeIR.OID st.2
  | Break (Ok p') =>
      ∃ p1 parentName index abs hasAbs,
        advanced st.1 p1
        ∧ p' = resolveNotificationType st.2 parentName index abs hasAbs p1
  | Break (Err _) => True
  end.
Proof.
  destruct st as [p nt]. unfold notificationType_body.
  step_accept.
  { step_accept; [|done]. destruct (while _ _ _ _) as [p1 objs].
    by step_accept. }
  step_accept. { by step_sub. }
  step_accept. { by step_sub. }
  step_accept.
  { pose proof (parseOidAssignment_spec
                  "expected '{' after NOTIFICATION-TYPE '::='"
                  "expected '}' after NOTIFICATION-TYPE OID"
                  (resolveNotificationType nt) (next p)) as Hr.
    destruct (parseOidAssignment _ _ _ _) as [p'|]; [|done].
    destruct Hr as (p1 & ? & ? & ? & ? & Hadv & ->).
    eexists p1, _, _, _, _. split; [|done]. simpl. adv_chain. }
  by step_tokIs.
Qed.

Lemma objectType_body_record ident st :
  match objectType_body ident st with
  | Continue st' =>
      ObjectTypeIR.Name st'.2 = ObjectTypeIR.Name st.2
      ∧ ObjectTypeIR.OID st'.2 = ObjectTypeIR.OID st.2
  | Break (Ok p') =>
      ∃ p1 parentName index abs hasAbs,
        advanced st.1 p1
        ∧ p' = resolveObjectType st.2 parentName index abs hasAbs p1
  | Break (Err _) => True
  end.
Proof.
  destruct st as [p obj]. unfold objectType_body.
  destruct (tokIs TokenEOF p) eqn:He; [done|].
  step_accept. { by step_sub. }
  step_accept. { by step_sub. }
  step_accept. { by step_sub. }
  step_accept. { by step_tokIs. }
  step_accept. { step_accept; [|done]. by step_sub. }
  step_accept. { by step_sub. }
  step_accept. { by step_sub. }
  step_accept.
  { pose proof (parseOidAssignment_spec
                  "expected '{' after '::=' in OBJECT-TYPE"
                  "expected '}' after OBJECT-TYPE OID ref"
                  (resolveObjectType obj) (next p)) as Hr.
    destruct (parseOidAssignment _ _ _ _) as [p'|]; [|done].
    destruct Hr as (p1 & ? & ? & ? & ? & Hadv & ->).
    eexists p1, _, _, _, _. split; [|done]. simpl. adv_chain. }
  step_accept; [done|]. by rewrite He.
Qed.

Lemma parseNotificationType_stores ident p :
  match parseNotificationType ident p with
  | Ok p' =>
      ∃ nt parentName index abs hasAbs,
        NotificationTypeIR.Name nt = ident ∧ NotificationTypeIR.OID nt = []
        ∧ storesNotification nt parentName index abs hasAbs p p'
  | Err _ => True
  end.
Proof.
  unfold parseNotificationType. cbv zeta.
  assert (∀ s s', notificationType_body s = Continue s' →
                  (remaining s'.1 < remaining s.1)%nat) as Hdecr.
  { intros s s' Hb. pose proof (notificationType_body_spec ident s) as Hs.
    rewrite Hb in Hs. tauto. }
  apply (while_ind _ _ Hdecr
           (fun st => advanced p st.1 ∧ NotificationTypeIR.Name st.2 = ident
                      ∧ NotificationTypeIR.OID st.2 = [])
           (fun r => match r with
                     | Ok p' =>
                         ∃ nt parentName index abs hasAbs,
                           NotificationTypeIR.Name nt = ident
                           ∧ NotificationTypeIR.OID nt = []
                           ∧ storesNotification nt parentName index abs hasAbs p p'
                     | Err _ => True
                     end));
    [|split; [apply advanced_next|done]].
  intros st (Hadv & Hname & Hoid).
  pose proof (notificationType_body_spec ident st) as Hspec.
  pose proof (notificationType_body_record st) as Hrec.
  destruct (notificationType_body st) as [st'|[p'|e]]; [| |done].
  - destruct Hspec as (Hadv' & _ & _). destruct Hrec as [Hn Ho].
    split_and!; [by eapply advanced_trans|congruence..].
  - destruct Hrec as (p1 & parentName & index & abs & hasAbs & Hadv1 & ->).
    exists st.2, parentName, index, abs, hasAbs. split_and!; [done..|].
    apply (storesNotification_advanced _ _ _ _ _ p p1);
      [by eapply advanced_trans|apply resolveNotificationType_stores].
Qed.

Lemma parseObjectType_stores ident p :
  match parseObjectType ident p with
  | Ok p' =>
      ∃ obj parentName index abs hasAbs,
        ObjectTypeIR.Name obj = ident ∧ ObjectTypeIR.OID obj = []
        ∧ storesObject obj parentName index abs hasAbs p p'
  | Err _ => True
  end.
Proof.
  unfold parseObjectType. cbv zeta.
  assert (∀ s s', objectType_body ident s = Continue s' →
                  (remaining s'.1 < remaining s.1)%nat) as Hdecr.
  { intros s s' Hb. pose proof (objectType_body_spec ident s) as Hs.
    rewrite Hb in Hs. tauto. }
  apply (while_ind _ _ Hdecr
           (fun st => advanced p st.1 ∧ ObjectTypeIR.Name st.2 = ident
                      ∧ ObjectTypeIR.OID st.2 = [])
           (fun r => match r with
                     | Ok p' =>
                         ∃ obj parentName index abs hasAbs,
                           ObjectTypeIR.Name obj = ident
                           ∧ ObjectTypeIR.OID obj = []
                           ∧ storesObject obj parentName index abs hasAbs p p'
                     | Err _ => True
                     end));
    [|split; [apply advanced_next|done]].
  intros st (Hadv & Hname & Hoid).
  pose proof (objectType_body_spec ident st) as Hspec.
  pose proof (objectType_body_record ident st) as Hrec.
  destruct (objectType_body ident st) as [st'|[p'|e]]; [| |done].
  - destruct Hspec as (Hadv' & _ & _). destruct Hrec as [Hn Ho].
    split_and!; [by eapply advanced_trans|congruence..].
  - destruct Hrec as (p1 & parentName & index & abs & hasAbs & Hadv1 & ->).
    exists st.2, parentName, index, abs, hasAbs. split_and!; [done..|].
    apply (storesObject_advanced _ _ _ _ _ p p1);
      [by eapply advanced_trans|apply resolveObjectType_stores].
Qed.

(** C5.  Resolving a NOTIFICATION-TYPE declaration stores the record
    under its name in notificationTypes, with the resolved OID when the
    reference resolves, and leaves the nodes index as it was: in the
    store-and-resolve block, in the pending closure that resolves the OID
    later, and hence in the whole NOTIFICATION-TYPE construct of
    [parseModule], whose record is the fresh record of the declared name
    with the clauses read.  An OBJECT-TYPE construct, by contrast, stores
    its record in objects and also writes its name into nodes, with the
    resolved OID: at once when the reference resolves, and otherwise with
    the entry the name has, or an empty one, until the pending closure
    writes the OID to both. *)
Theorem notification_not_written_to_nodes :
  (∀ nt parentName index abs hasAbs p,
     storesNotification nt parentName index abs hasAbs p
       (resolveNotificationType nt parentName index abs hasAbs p))
  ∧ (∀ ref idx base m,
       let m' := applyNotificationType ref idx base m in
       ModuleIR.NodesByName m' = ModuleIR.NodesByName m
       ∧ ModuleIR.NotificationTypes m' =
           <[NotificationTypeIR.Name ref :=
               NotificationTypeIR.set_OID (base ++ [idx]) ref]>
             (ModuleIR.NotificationTypes m))
  ∧ (∀ ident p,
       match parseNotificationType ident p with
       | Ok p' =>
           ∃ nt parentName index abs hasAbs,
             NotificationTypeIR.Name nt = ident ∧ NotificationTypeIR.OID nt = []
             ∧ storesNotification nt parentName index abs hasAbs p p'
       | Err _ => True
       end)
  ∧ (∀ obj parentName index abs hasAbs p,
       storesObject obj parentName index abs hasAbs p
         (resolveObjectType obj parentName index abs hasAbs p))
  ∧ (∀ ref idx base m,
       let m' := applyObjectType ref idx base m in
       ModuleIR.ObjectsByName m' =
         <[ObjectTypeIR.Name ref := ObjectTypeIR.set_OID (base ++ [idx]) ref]>
           (ModuleIR.ObjectsByName m)
       ∧ ModuleIR.NodesByName m' =
           <[ObjectTypeIR.Name ref := base ++ [idx]]> (ModuleIR.NodesByName m))
  ∧ (∀ ident p,
       match parseObjectType ident p with
       | Ok p' =>
           ∃ obj parentName index abs hasAbs,
             ObjectTypeIR.Name obj = ident ∧ ObjectTypeIR.OID obj = []
             ∧ storesObject obj parentName index abs hasAbs p p'
       | Err _ => True
       end).
Proof.
  split_and!.
  - apply resolveNotificationType_stores.
  - by intros.
  - apply parseNotificationType_stores.
  - apply resolveObjectType_stores.
  - by intros.
  - apply parseObjectType_stores.
Qed.

(** ** OIDs extend the parent's entry *)

Lemma resolveOidBase_Some name p base :
  resolveOidBase name p = Some base →
  ModuleIR.NodesByName (mod_ p) !! name = Some base ∧ base ≠ [].
Proof.
  unfold resolveOidBase. destruct (_ !! _) as [b|]; [|done].
  destruct b; simpl; [done|]. by intros [= <-].
Qed.

Lemma resolvePass_app pre prs m remaining_ progressed :
  resolvePass (pre ++ prs) m remaining_ progressed =
    (let '(m1, remaining1, progressed1) := resolvePass pre m remaining_ progressed in
     resolvePass prs m1 remaining1 progressed1).
Proof.
  revert m remaining_ progressed.
  induction pre as [|pr pre IH]; intros m remaining_ progressed; simpl.
  { by destruct (resolvePass prs m remaining_ progressed) as [[? ?] ?]. }
  destruct (ModuleIR.NodesByName m !! parent pr); apply IH.
Qed.

(** C6 (as amended).  When the parent name of a symbolic reference (p, i)
    is resolved against a non-empty OID that nodes holds for p, the
    declaration's OID is that entry of p followed by the one integer i,
    whichever the kind of the declaration and whenever the reference is
    resolved: at once in the block that stores the declaration, in a
    group construct, or later, when the fixed-point loop fires the
    closure that the declaration left pending (a pass handles the
    references in order, each on the module as the ones in front of it
    left it, and the reference that a declaration leaves carries the
    written parent and index).  So is the declaration's own entry in
    nodes, for the kinds that have one; and the entry of p is unchanged by
    the step unless the declaration is named p.  (Nothing keeps the
    relation once p is assigned again, see [oid_not_updated_with_parent].) *)
Theorem oid_extends_parent_at_resolution parentName index p base :
  resolveOidBase parentName p = Some base →
  ModuleIR.NodesByName (mod_ p) !! parentName = Some base
  ∧ base ≠ []
  ∧ extendsParent parentName index p base
  ∧ extendsParentGroup parentName index p base
  ∧ extendsParentLater parentName index (mod_ p) base
  ∧ (∀ pr prs remaining_ progressed,
       parent pr = parentName →
       resolvePass (pr :: prs) (mod_ p) remaining_ progressed =
         resolvePass prs (apply pr base (mod_ p)) remaining_ true)
  ∧ (∀ pre prs m remaining_ progressed,
       resolvePass (pre ++ prs) m remaining_ progressed =
         (let '(m1, remaining1, progressed1) :=
            resolvePass pre m remaining_ progressed in
          resolvePass prs m1 remaining1 progressed1))
  ∧ (∀ q, resolveOidBase parentName q = None → defersReference parentName index q).
Proof.
  intros Hres. pose proof (resolveOidBase_Some _ _ _ Hres) as [Hbase Hne].
  split_and!; [done..| | | | | |].
  - unfold extendsParent.
    split_and!; cbv zeta; intros;
      unfold resolveObjectIdentifier, resolveObjectType, resolveModuleIdentity,
        resolveObjectIdentity, resolveNotificationType;
      rewrite Hres; cbn [mod_ update_mod set_mod];
      repeat split; try (apply lookup_insert_eq); try done;
      try (intros Hn; cbn; by rewrite lookup_insert_ne).
  - intros ident. cbv zeta. unfold resolveGroup. rewrite Hbase.
    cbn [mod_ update_mod set_mod pend]. split_and!; [apply lookup_insert_eq| |done].
    intros Hn. cbn. by rewrite lookup_insert_ne.
  - unfold extendsParentLater.
    split_and!; cbv zeta; intros;
      unfold applyNode, applyObjectType, applyModuleIdentity, applyObjectIdentity,
        applyNotificationType;
      repeat split; try (apply lookup_insert_eq); try done;
      try (intros Hn; cbn; by rewrite lookup_insert_ne).
  - intros pr prs remaining_ progressed Hpr. simpl. by rewrite Hpr, Hbase.
  - apply resolvePass_app.
  - intros q Hq. unfold defersReference.
    split_and!; intros;
      unfold resolveObjectIdentifier, resolveObjectType, resolveModuleIdentity,
        resolveObjectIdentity, resolveNotificationType, resolveGroup;
      try rewrite Hq; try done.
    by match goal with H : _ !! _ = None |- _ => rewrite H end.
Qed.

Lemma oid_extends_parent_at_resolution_witness :
  resolveOidBase "mib-2" (Parse_start asciiOnly []) = Some [1; 3; 6; 1; 2; 1]
  ∧ extendsParent "mib-2" 9 (Parse_start asciiOnly []) [1; 3; 6; 1; 2; 1].
Proof.
  split; [vm_compute; reflexivity|].
  refine (proj1 (proj2 (proj2
            (oid_extends_parent_at_resolution "mib-2" 9 (Parse_start asciiOnly [])
               [1; 3; 6; 1; 2; 1] _)))).
  vm_compute. reflexivity.
Defined.

(** C6, counterexample.  In [parentRedefined] the object [a] is declared
    with the reference (b, 1) and resolved to 1.3.6.1.2.1.7.1; [b] is then
    assigned again, and in the parsed module the OID of [a] is not
    nodes[b] followed by 1. *)
Lemma oid_not_updated_with_parent :
  ∃ m obj nb,
    ParseString parentRedefined = Ok m
    ∧ ModuleIR.ObjectsByName m !! "a" = Some obj
    ∧ ObjectTypeIR.OID obj = [1; 3; 6; 1; 2; 1; 7; 1]
    ∧ ModuleIR.NodesByName m !! "b" = Some nb
    ∧ ObjectTypeIR.OID obj ≠ nb ++ [1].
Proof.
  eexists _, _, _. split; [vm_compute; reflexivity|].
  split; [vm_compute; reflexivity|].
  split; [reflexivity|]. split; [vm_compute; reflexivity|]. discriminate.
Qed.

(** ** Claims on the public helpers *)

Section PublicHelpers.
Import mib_parser mib_parser_wf mib_parser_examples.

(** C9.  [oidToString] joins the decimal numerals of the components with
    dots: the empty OID renders as the empty string, and the rendering of
    a non-empty OID neither starts nor ends with a dot and splits at its
    dots into the numerals of the components.  For a non-empty OID of
    non-negative integers, reading each part of the split as a decimal
    number gives the OID back.  ([OIDString] of [types.go] renders the
    same string.) *)
Theorem oidToString_roundtrip (oid : list Z) :
  oid ≠ [] →
  Forall (fun n => 0 ≤ n) oid →
  oidToString [] = EmptyString
  ∧ oidToString oid = Join (map Sprintf_d oid) "."
  ∧ (∀ s, oidToString oid ≠ String "." s)
  ∧ (∀ s, oidToString oid ≠ s +:+ ".")
  ∧ Split (oidToString oid) "." = map Sprintf_d oid
  ∧ map parseDecimal (Split (oidToString oid) ".") = map Some oid
  ∧ (Forall (fun n => n ≤ maxInt64) oid → OIDString oid = oidToString oid).
Proof.
  intros Hne Hnonneg. split_and!; try done.
  - intros s. by apply oidToString_no_leading_dot.
  - intros s. by apply oidToString_no_trailing_dot.
  - by apply Split_oidToString.
  - by apply parseDecimal_oidToString.
  - intros Hmax. apply OIDString_oidToString.
    apply Forall_forall. intros n Hn. split.
    + by eapply Forall_forall in Hnonneg.
    + by eapply Forall_forall in Hmax.
Qed.

Lemma oidToString_roundtrip_witness :
  [1; 3; 6; 1; 2; 1] ≠ []
  ∧ Forall (fun n => 0 ≤ n) [1; 3; 6; 1; 2; 1]
  ∧ oidToString [1; 3; 6; 1; 2; 1] = "1.3.6.1.2.1"
  ∧ map parseDecimal (Split (oidToString [1; 3; 6; 1; 2; 1]) ".")
      = map Some [1; 3; 6; 1; 2; 1].
Proof.
  assert ([1; 3; 6; 1; 2; 1] ≠ []) as Hne by discriminate.
  assert (Forall (fun n => 0 ≤ n) [1; 3; 6; 1; 2; 1]) as Hnonneg
    by (repeat constructor; lia).
  split_and!; [done|done|reflexivity|].
  apply (oidToString_roundtrip [1; 3; 6; 1; 2; 1] Hne Hnonneg).
Defined.

(** The modules that [ParseMIB] returns hold no [nil] pointer. *)
Lemma ParseMIB_noNilPointers U mib : noNilPointers (facade.ParseMIB U mib).1.
Proof.
  unfold facade.ParseMIB. destruct (parser.Parse U mib) as [ir|err]; [|done].
  split; intros entries k [= <-].
  - rewrite map_lookup_imap. by destruct (_ !! k).
  - rewrite lookup_fmap. by destruct (_ !! k).
Qed.

(** C10 (as amended).  [GetObjectByName] returns on every module.  On a
    module whose node and object maps hold no [nil] pointer, as is every
    module that [ParseMIB] returns, none of [GetObjectByName],
    [GetNodeOIDByName], [GetObjectByOID] and [GetObjectByOIDString]
    panics, whatever the argument and the order in which the map is
    visited.  On the [nil] module, and on a module whose queried map is
    [nil], each helper returns [(nil, false)]. *)
Theorem lookups_return_without_nil_entries m visit name oid oidString :
  noNilPointers m →
  range_of m visit →
  (∀ m', GetObjectByName m' name ≠ Panic)
  ∧ GetNodeOIDByName m name ≠ Panic
  ∧ GetObjectByOID m visit oid ≠ Panic
  ∧ GetObjectByOIDString m visit oidString ≠ Panic
  ∧ GetObjectByName None name = Return (None, false)
  ∧ GetNodeOIDByName None name = Return (None, false)
  ∧ GetObjectByOID None visit oid = Return (None, false)
  ∧ GetObjectByOIDString None visit oidString = Return (None, false)
  ∧ (∀ n nodes mi ois tcs nts v,
       let s := Some (Module.mk n nodes None mi ois tcs nts) in
       GetObjectByName s name = Return (None, false)
       ∧ GetObjectByOID s v oid = Return (None, false)
       ∧ GetObjectByOIDString s v oidString = Return (None, false))
  ∧ (∀ n objs mi ois tcs nts,
       GetNodeOIDByName (Some (Module.mk n None objs mi ois tcs nts)) name
         = Return (None, false)).
Proof.
  intros Hwf Hvisit. split_and!; try done.
  - intros m'. apply GetObjectByName_returns.
  - by apply GetNodeOIDByName_returns.
  - by apply GetObjectByOID_returns.
  - by apply GetObjectByOIDString_returns.
Qed.

Lemma lookups_return_without_nil_entries_witness :
  noNilPointers (Some ifIndexModule)
  ∧ range_of (Some ifIndexModule) [("ifIndex", Some ifIndexObject)]
  ∧ GetNodeOIDByName (Some ifIndexModule) "ifIndex" ≠ Panic
  ∧ GetObjectByOID (Some ifIndexModule) [("ifIndex", Some ifIndexObject)]
      [1; 3; 6; 1; 2; 1; 2; 2; 1; 1] ≠ Panic.
Proof.
  assert (noNilPointers (Some ifIndexModule)) as Hwf.
  { split; intros entries k [= <-]; rewrite lookup_singleton;
      by case_decide. }
  assert (range_of (Some ifIndexModule) [("ifIndex", Some ifIndexObject)]) as Hv.
  { simpl. by rewrite map_to_list_singleton. }
  split_and!; [done|done|..];
    by apply (lookups_return_without_nil_entries (Some ifIndexModule)
                [("ifIndex", Some ifIndexObject)] "ifIndex"
                [1; 3; 6; 1; 2; 1; 2; 2; 1; 1] "1.3" Hwf Hv).
Defined.

(** C10, counterexample.  [nilEntryModule] is a module of Go's type
    [Module] whose maps hold a [nil] pointer under [x]:
    [GetNodeOIDByName] panics on that name, and so do [GetObjectByOID] and
    [GetObjectByOIDString] when they visit the entry. *)
Lemma lookups_panic_on_nil_entry :
  range_of (Some nilEntryModule) [("x", None)]
  ∧ GetNodeOIDByName (Some nilEntryModule) "x" = Panic
  ∧ GetObjectByOID (Some nilEntryModule) [("x", None)] [1; 3] = Panic
  ∧ GetObjectByOIDString (Some nilEntryModule) [("x", None)] "1.3" = Panic.
Proof.
  split_and!; try reflexivity. simpl. by rewrite map_to_list_singleton.
Qed.

End PublicHelpers.

(** ** The INDEX clause *)

Lemma tok_cons p t ts : toks p = t :: ts → tok p = t.
Proof. unfold tok. by intros ->. Qed.

Lemma tokIs_cons p t ts ty :
  toks p = t :: ts → tokIs ty p = bool_decide (Typ t = ty).
Proof. intros H. unfold tokIs. by rewrite (tok_cons _ _ _ H). Qed.

Lemma next_cons p t ts : toks p = t :: ts → next p = set_toks ts p.
Proof. unfold next, set_toks. by intros ->. Qed.

Lemma equalFold_length a b :
  equalFold a b = true → String.length a = String.length b.
Proof.
  unfold equalFold. destruct (Nat.eqb_spec (String.length a) (String.length b));
    [done|discriminate].
Qed.

Lemma isIdent_other_length p t ts kw kw' :
  toks p = t :: ts → equalFold (Text t) kw = true →
  String.length kw ≠ String.length kw' → isIdent kw' p = false.
Proof.
  intros Htoks Hkw Hlen. unfold isIdent. rewrite (tok_cons _ _ _ Htoks).
  apply equalFold_length in Hkw. unfold equalFold.
  destruct (Nat.eqb_spec (String.length (Text t)) (String.length kw'));
    [congruence|]. simpl. apply andb_false_r.
Qed.

Lemma indexList_decreases st st' :
  indexList_body st = Continue st' → (remaining st'.1 < remaining st.1)%nat.
Proof.
  intros H. pose proof (indexList_body_spec st) as Hs. rewrite H in Hs. tauto.
Qed.

(** Deciding the equality of two token types that are given. *)
Ltac decide_types :=
  repeat match goal with
         | |- context [bool_decide (?a = ?b)] =>
             let v := eval vm_compute in (bool_decide (a = b)) in
             match v with
             | true => change (bool_decide (a = b)) with true
             | false => change (bool_decide (a = b)) with false
             end
         end.

(** Running a loop body on a state whose first tokens are known. *)
Ltac run_body Htoks :=
  match type of Htoks with
  | toks ?p = _ =>
      destruct p as [tks ? ? ? ? ?]; simpl in Htoks; subst tks;
      unfold set_toks, accept, acceptIdent, isIdent, tokIs, tok, next;
      cbn [toks hd tl eofLine eofCol mod_ pend src];
      repeat (progress (repeat match goal with
                               | H : Typ _ = _ |- _ => rewrite !H
                               | H : equalFold _ _ = _ |- _ => rewrite !H
                               end;
                        decide_types;
                        cbn -[equalFold]));
      try reflexivity
  end.

Lemma indexList_body_close p idx t rest :
  toks p = t :: rest → Typ t = TokenRBrace →
  indexList_body (p, idx) = Break (Ok (set_toks rest p, idx)).
Proof. intros Htoks Ht. unfold indexList_body. run_body Htoks. Qed.

Lemma indexList_body_implied p idx t ts :
  toks p = t :: ts → Typ t = TokenIdent →
  equalFold (Text t) "IMPLIED" = true →
  indexList_body (p, idx) = Continue (set_toks ts p, idx).
Proof. intros Htoks Ht Himp. unfold indexList_body. run_body Htoks. Qed.

Lemma indexList_body_last p idx t c rest :
  toks p = t :: c :: rest → Typ t = TokenIdent →
  equalFold (Text t) "IMPLIED" = false → Typ c = TokenRBrace →
  indexList_body (p, idx) = Break (Ok (set_toks rest p, idx ++ [Text t])).
Proof. intros Htoks Ht Himp Hc. unfold indexList_body. run_body Htoks. Qed.

Lemma indexList_body_entry p idx t c ts :
  toks p = t :: c :: ts → Typ t = TokenIdent →
  equalFold (Text t) "IMPLIED" = false → Typ c = TokenComma →
  indexList_body (p, idx) = Continue (set_toks ts p, idx ++ [Text t]).
Proof. intros Htoks Ht Himp Hc. unfold indexList_body. run_body Htoks. Qed.

Lemma indexList_loop ts names :
  IndexClause ts names →
  ∀ dflt p idx rest,
    toks p = ts ++ rest →
    while (fun st => remaining st.1) dflt indexList_body (p, idx) =
      Ok (set_toks rest p, idx ++ names).
Proof.
  induction 1 as [t Ht|t ts names Ht Himp _ IH|t c Ht Himp Hc
                 |t c ts names Ht Himp Hc _ IH];
    intros dflt p idx rest Htoks; simpl in Htoks;
    rewrite (while_unfold _ _ indexList_decreases).
  - rewrite (indexList_body_close p idx t rest) by done. by rewrite app_nil_r.
  - rewrite (indexList_body_implied p idx t (ts ++ rest)) by done.
    by rewrite (IH dflt (set_toks (ts ++ rest) p) idx rest eq_refl).
  - by rewrite (indexList_body_last p idx t c rest).
  - rewrite (indexList_body_entry p idx t c (ts ++ rest)) by done.
    rewrite (IH dflt (set_toks (ts ++ rest) p) (idx ++ [Text t]) rest eq_refl).
    by rewrite <- app_assoc.
Qed.

(** C8.  In the INDEX clause of an OBJECT-TYPE, on tokens [kw] (the keyword
    INDEX), [lb] (the opening brace) and a list [ts] that declares [names],
    every IMPLIED keyword is consumed and dropped: the list parser returns
    the plain names in the order written, and the clause loop stores them
    as the index field and goes on behind the closing brace.  Parsing S3
    gives an object [foo] with index [a; b] and OID 1.3.6.1.2.1.9, and
    [foo] is in nodes. *)
Theorem index_clause_drops_IMPLIED ident p obj kw lb ts names rest :
  IndexClause ts names →
  toks p = kw :: lb :: ts ++ rest →
  Typ kw = TokenIdent →
  equalFold (Text kw) "INDEX" = true →
  Typ lb = TokenLBrace →
  parseIndexList (set_toks (ts ++ rest) p) = Ok (set_toks rest p, names)
  ∧ objectType_body ident (p, obj) =
      Continue (set_toks rest p, ObjectTypeIR.set_Index names obj)
  ∧ ∃ m foo,
      ParseString S3 = Ok m
      ∧ ModuleIR.ObjectsByName m !! "foo" = Some foo
      ∧ ObjectTypeIR.Index foo = ["a"; "b"]
      ∧ ObjectTypeIR.OID foo = [1; 3; 6; 1; 2; 1; 9]
      ∧ ModuleIR.NodesByName m !! "foo" = Some [1; 3; 6; 1; 2; 1; 9].
Proof.
  intros Hclause Htoks Hkw HINDEX Hlb.
  assert (parseIndexList (set_toks (ts ++ rest) p) = Ok (set_toks rest p, names))
    as Hlist.
  { unfold parseIndexList.
    by rewrite (indexList_loop ts names Hclause _ (set_toks (ts ++ rest) p) [] rest). }
  split_and!; [done| |].
  - unfold objectType_body, acceptIdent, acceptIdent2, acceptIdent, accept.
    rewrite (tokIs_cons _ _ _ TokenEOF Htoks), Hkw. simpl.
    rewrite !(isIdent_other_length p kw _ "INDEX" _ Htoks HINDEX) by done.
    assert (isIdent "INDEX" p = true) as ->.
    { unfold isIdent. rewrite (tokIs_cons _ _ _ _ Htoks), (tok_cons _ _ _ Htoks).
      by rewrite Hkw, HINDEX. }
    rewrite (next_cons _ _ _ Htoks).
    rewrite (tokIs_cons (set_toks (lb :: ts ++ rest) p) lb (ts ++ rest) _ eq_refl).
    rewrite Hlb. simpl.
    rewrite (next_cons (set_toks (lb :: ts ++ rest) p) lb (ts ++ rest) eq_refl).
    change (set_toks (ts ++ rest) (set_toks (lb :: ts ++ rest) p))
      with (set_toks (ts ++ rest) p).
    by rewrite Hlist.
  - eexists _, _. split; [vm_compute; reflexivity|].
    split; [vm_compute; reflexivity|]. by vm_compute.
Qed.

Lemma index_clause_drops_IMPLIED_witness :
  ∃ kw lb ts rest,
    IndexClause ts ["a"; "b"]
    ∧ toks S3_index = kw :: lb :: ts ++ rest
    ∧ Typ kw = TokenIdent
    ∧ equalFold (Text kw) "INDEX" = true
    ∧ Typ lb = TokenLBrace
    ∧ map Text ts = ["IMPLIED"; "a"; ","; "b"; "}"]
    ∧ parseIndexList (set_toks (ts ++ rest) S3_index) =
        Ok (set_toks rest S3_index, ["a"; "b"]).
Proof.
  exists (mkToken TokenIdent "INDEX" 0 1 1), (mkToken TokenLBrace "{" 0 1 8),
    [mkToken TokenIdent "IMPLIED" 0 1 9; mkToken TokenIdent "a" 0 1 17;
     mkToken TokenComma "," 0 1 19; mkToken TokenIdent "b" 0 1 20;
     mkToken TokenRBrace "}" 0 1 23],
    (drop 7 (toks S3_index)).
  assert (IndexClause
            [mkToken TokenIdent "IMPLIED" 0 1 9; mkToken TokenIdent "a" 0 1 17;
             mkToken TokenComma "," 0 1 19; mkToken TokenIdent "b" 0 1 20;
             mkToken TokenRBrace "}" 0 1 23] ["a"; "b"]) as Hclause.
  { apply index_implied; [reflexivity..|].
    apply (index_entry (mkToken TokenIdent "a" 0 1 17)); [reflexivity..|].
    apply (index_last (mkToken TokenIdent "b" 0 1 20)); reflexivity. }
  assert (toks S3_index =
            mkToken TokenIdent "INDEX" 0 1 1 :: mkToken TokenLBrace "{" 0 1 8
            :: [mkToken TokenIdent "IMPLIED" 0 1 9; mkToken TokenIdent "a" 0 1 17;
                mkToken TokenComma "," 0 1 19; mkToken TokenIdent "b" 0 1 20;
                mkToken TokenRBrace "}" 0 1 23] ++ drop 7 (toks S3_index))
    as Htoks by (vm_compute; reflexivity).
  split_and!; [done|done|reflexivity|reflexivity|reflexivity|reflexivity|].
  apply (index_clause_drops_IMPLIED "foo" S3_index (ObjectTypeIR.new "foo")
           _ _ _ _ _ Hclause Htoks); reflexivity.
Defined.

(** ** Skipping an unrecognized construct *)

Lemma set_toks_set_toks ts ts' p : set_toks ts (set_toks ts' p) = set_toks ts p.
Proof. reflexivity. Qed.

Lemma skipBalanced_decreases st st' :
  skipBalanced_body st = Continue st' →
  (remaining st'.1.1 < remaining st.1.1)%nat.
Proof.
  intros H. pose proof (skipBalanced_body_spec st) as Hs. rewrite H in Hs. tauto.
Qed.

Lemma skipBalanced_body_end p depth started :
  toks p = [] → skipBalanced_body (p, depth, started) = Break p.
Proof.
  intros Htoks. unfold skipBalanced_body, tokIs, tok. by rewrite Htoks.
Qed.

Lemma skipBalanced_body_stop p depth started t ts :
  toks p = t :: ts → stopsSkip t = true →
  skipBalanced_body (p, depth, started) = Break p.
Proof.
  intros Htoks Hstop. unfold skipBalanced_body, isIdent, tokIs.
  rewrite (tok_cons _ _ _ Htoks). unfold stopsSkip in Hstop.
  destruct (bool_decide (Typ t = TokenEOF)); [done|]. simpl in Hstop.
  by rewrite Hstop.
Qed.

Lemma beforeBrace_spec t :
  beforeBrace t = true →
  bool_decide (Typ t = TokenEOF) = false
  ∧ bool_decide (Typ t = TokenIdent) && equalFold (Text t) "END" = false
  ∧ bool_decide (Typ t = TokenLBrace) = false.
Proof.
  unfold beforeBrace, stopsSkip.
  destruct (bool_decide (Typ t = TokenEOF)); simpl; [done|].
  destruct (bool_decide (Typ t = TokenIdent) && equalFold (Text t) "END");
    simpl; [done|].
  by destruct (bool_decide (Typ t = TokenLBrace)).
Qed.

Lemma skipBalanced_body_open p depth started t ts :
  toks p = t :: ts → Typ t = TokenLBrace →
  skipBalanced_body (p, depth, started) = Continue (set_toks ts p, depth + 1, true).
Proof.
  intros Htoks Ht. unfold skipBalanced_body, isIdent, tokIs.
  rewrite (tok_cons _ _ _ Htoks), (next_cons _ _ _ Htoks), Ht. by decide_types.
Qed.

Lemma skipBalanced_body_plain p depth started t ts :
  toks p = t :: ts → plainToken t = true →
  skipBalanced_body (p, depth, started) = Continue (set_toks ts p, depth, started).
Proof.
  intros Htoks Hplain. unfold plainToken in Hplain.
  apply andb_true_iff in Hplain as [(He & Hend & Hlb)%beforeBrace_spec Hrb].
  apply negb_true_iff in Hrb.
  unfold skipBalanced_body, isIdent, tokIs.
  rewrite (tok_cons _ _ _ Htoks), (next_cons _ _ _ Htoks).
  by rewrite He, Hend, Hlb, Hrb.
Qed.

(** A closing brace before any brace was opened is consumed like any
    other token. *)
Lemma skipBalanced_body_before p t ts :
  toks p = t :: ts → beforeBrace t = true →
  skipBalanced_body (p, 0, false) = Continue (set_toks ts p, 0, false).
Proof.
  intros Htoks (He & Hend & Hlb)%beforeBrace_spec.
  unfold skipBalanced_body, isIdent, tokIs.
  rewrite (tok_cons _ _ _ Htoks), (next_cons _ _ _ Htoks).
  rewrite He, Hend, Hlb. by destruct (bool_decide (Typ t = TokenRBrace)).
Qed.

Lemma skipBalanced_body_close p depth t ts :
  toks p = t :: ts → Typ t = TokenRBrace → 0 < depth →
  skipBalanced_body (p, depth, true) =
    if depth =? 1 then Break (set_toks ts p)
    else Continue (set_toks ts p, depth - 1, true).
Proof.
  intros Htoks Ht Hd. unfold skipBalanced_body, isIdent, tokIs.
  rewrite (tok_cons _ _ _ Htoks), (next_cons _ _ _ Htoks), Ht. decide_types.
  cbn [andb]. destruct (Z.ltb_spec 0 depth); [|lia].
  destruct (Z.eqb_spec depth 1) as [->|Hne]; [done|].
  by destruct (Z.eqb_spec (depth - 1) 0); [lia|].
Qed.

(** Inside the braces, a balanced run of tokens is consumed and leaves
    the depth as it was. *)
Lemma skipLoop_balanced ts :
  balanced ts →
  ∀ dflt p depth rest,
    0 < depth → toks p = ts ++ rest →
    (while (fun st => remaining st.1.1) dflt skipBalanced_body
       (p, depth, true)) = (while (fun st => remaining st.1.1) dflt skipBalanced_body
       (set_toks rest p, depth, true)).
Proof.
  induction 1 as [|t ts Hplain _ IH|lb ts1 rb ts2 Hlb _ IH1 Hrb _ IH2];
    intros dflt p depth rest Hd Htoks; simpl in Htoks.
  - by rewrite <- Htoks, set_toks_id.
  - rewrite (while_unfold _ _ skipBalanced_decreases).
    rewrite (skipBalanced_body_plain _ _ _ _ _ Htoks Hplain).
    by rewrite (IH dflt (set_toks (ts ++ rest) p) depth rest Hd eq_refl).
  - rewrite <- app_assoc in Htoks. simpl in Htoks.
    rewrite (while_unfold _ _ skipBalanced_decreases).
    rewrite (skipBalanced_body_open _ _ _ _ _ Htoks Hlb).
    rewrite (IH1 dflt (set_toks (ts1 ++ rb :: ts2 ++ rest) p) (depth + 1)
               (rb :: ts2 ++ rest) ltac:(lia) eq_refl).
    rewrite set_toks_set_toks.
    rewrite (while_unfold _ _ skipBalanced_decreases).
    rewrite (skipBalanced_body_close (set_toks (rb :: ts2 ++ rest) p) (depth + 1)
               rb (ts2 ++ rest) eq_refl Hrb ltac:(lia)).
    destruct (Z.eqb_spec (depth + 1) 1); [lia|].
    rewrite set_toks_set_toks. replace (depth + 1 - 1) with depth by lia.
    by rewrite (IH2 dflt (set_toks (ts2 ++ rest) p) depth rest Hd eq_refl).
Qed.

(** Before any brace, every token but END and the opening brace is
    consumed, the semicolon and the closing brace included. *)
Lemma skipLoop_before pre :
  forallb beforeBrace pre = true →
  ∀ dflt p rest,
    toks p = pre ++ rest →
    (while (fun st => remaining st.1.1) dflt skipBalanced_body
       (p, 0, false)) = (while (fun st => remaining st.1.1) dflt skipBalanced_body
       (set_toks rest p, 0, false)).
Proof.
  induction pre as [|t pre IH]; intros Hpre dflt p rest Htoks; simpl in *.
  - by rewrite <- Htoks, set_toks_id.
  - apply andb_true_iff in Hpre as [Ht Hpre].
    rewrite (while_unfold _ _ skipBalanced_decreases).
    rewrite (skipBalanced_body_before _ _ _ Htoks Ht).
    by rewrite (IH Hpre dflt (set_toks (pre ++ rest) p) rest eq_refl).
Qed.

(** Inside the braces, a run of tokens that leaves braces open is
    consumed and leaves the depth positive. *)
Lemma skipLoop_unclosed ts :
  unclosed ts →
  ∀ dflt p depth rest,
    0 < depth → toks p = ts ++ rest →
    ∃ depth', 0 < depth' ∧
      (while (fun st => remaining st.1.1) dflt skipBalanced_body
         (p, depth, true)) = (while (fun st => remaining st.1.1) dflt skipBalanced_body
         (set_toks rest p, depth', true)).
Proof.
  induction 1 as [ts Hts|ts1 lb ts2 Hts1 Hlb _ IH];
    intros dflt p depth rest Hd Htoks.
  - exists depth. split; [done|]. by apply (skipLoop_balanced ts).
  - rewrite <- app_assoc in Htoks. simpl in Htoks.
    destruct (IH dflt (set_toks (ts2 ++ rest) p) (depth + 1) rest ltac:(lia) eq_refl)
      as (depth' & Hd' & Heq).
    exists depth'. split; [done|].
    rewrite (skipLoop_balanced ts1 Hts1 dflt p depth (lb :: ts2 ++ rest) Hd Htoks).
    rewrite (while_unfold _ _ skipBalanced_decreases).
    rewrite (skipBalanced_body_open (set_toks (lb :: ts2 ++ rest) p) depth true lb
               (ts2 ++ rest) eq_refl Hlb).
    rewrite set_toks_set_toks. rewrite Heq. by rewrite set_toks_set_toks.
Qed.

(** Every token list has one of the shapes that the skip tells apart. *)
Lemma token_kind t :
  stopsSkip t = true ∨ Typ t = TokenLBrace ∨ Typ t = TokenRBrace
  ∨ plainToken t = true.
Proof.
  unfold plainToken, beforeBrace. destruct (stopsSkip t); [by left|].
  destruct (decide (Typ t = TokenLBrace)) as [Hl|Hl]; [by right; left|].
  destruct (decide (Typ t = TokenRBrace)) as [Hr|Hr]; [by right; right; left|].
  right; right; right. simpl.
  by rewrite (bool_decide_eq_false_2 _ Hl), (bool_decide_eq_false_2 _ Hr).
Qed.

Lemma unclosed_plain t ts : plainToken t = true → unclosed ts → unclosed (t :: ts).
Proof.
  intros Ht [ts' Hts|ts1 lb ts2 Hts1 Hlb Hts2].
  - by apply unclosed_balanced, balanced_plain.
  - apply (unclosed_open (t :: ts1) lb ts2); [by apply balanced_plain|done..].
Qed.

Lemma unclosed_braces lb ts1 rb ts2 :
  Typ lb = TokenLBrace → balanced ts1 → Typ rb = TokenRBrace → unclosed ts2 →
  unclosed (lb :: ts1 ++ rb :: ts2).
Proof.
  intros Hlb Hts1 Hrb [ts' Hts|ts3 lb' ts4 Hts3 Hlb' Hts4].
  - by apply unclosed_balanced, balanced_braces.
  - replace (lb :: ts1 ++ rb :: ts3 ++ lb' :: ts4)
      with ((lb :: ts1 ++ rb :: ts3) ++ lb' :: ts4)
      by (simpl; by rewrite <- app_assoc).
    apply unclosed_open; [by apply balanced_braces|done..].
Qed.

Lemma inside_braces_shape ts :
  (∃ inner rb rest,
     ts = inner ++ rb :: rest ∧ balanced inner ∧ Typ rb = TokenRBrace)
  ∨ (∃ inner rest,
       ts = inner ++ rest ∧ unclosed inner
       ∧ (rest = [] ∨ ∃ t rest', rest = t :: rest' ∧ stopsSkip t = true)).
Proof.
  remember (length ts) as n eqn:Hn. revert ts Hn.
  induction n as [n IH] using lt_wf_ind. intros ts ->.
  destruct ts as [|t ts].
  { right. exists [], []. split_and!; [done| |by left].
    apply unclosed_balanced, balanced_nil. }
  destruct (token_kind t) as [Hstop|[Hlb|[Hrb|Hplain]]].
  - right. exists [], (t :: ts). split_and!; [done| |right; by eexists _, _].
    apply unclosed_balanced, balanced_nil.
  - destruct (IH (length ts) ltac:(simpl; lia) ts eq_refl)
      as [(inner1 & rb & rest1 & -> & Hin1 & Hrb)
         |(inner1 & rest1 & -> & Hin1 & Hrest1)].
    + destruct (IH (length rest1) ltac:(simpl; rewrite length_app; simpl; lia)
                  rest1 eq_refl)
        as [(inner2 & rb2 & rest2 & -> & Hin2 & Hrb2)
           |(inner2 & rest2 & -> & Hin2 & Hrest2)].
      * left. exists (t :: inner1 ++ rb :: inner2), rb2, rest2. split_and!; [|by apply balanced_braces|done].
        simpl. by rewrite <- app_assoc.
      * right. exists (t :: inner1 ++ rb :: inner2), rest2.
        split_and!; [|by apply unclosed_braces|done].
        simpl. by rewrite <- app_assoc.
    + right. exists (t :: inner1), rest1. split_and!; [done| |done].
      apply (unclosed_open [] t inner1); [apply balanced_nil|done..].
  - left. exists [], t, ts. split_and!; [done|apply balanced_nil|done].
  - destruct (IH (length ts) ltac:(simpl; lia) ts eq_refl)
      as [(inner1 & rb & rest1 & -> & Hin1 & Hrb)
         |(inner1 & rest1 & -> & Hin1 & Hrest1)].
    + left. exists (t :: inner1), rb, rest1. split_and!; [done| |done].
      by apply balanced_plain.
    + right. exists (t :: inner1), rest1. split_and!; [done| |done].
      by apply unclosed_plain.
Qed.

Lemma before_brace_shape ts :
  ∃ pre rest,
    ts = pre ++ rest ∧ forallb beforeBrace pre = true
    ∧ (rest = []
       ∨ (∃ t rest', rest = t :: rest' ∧ stopsSkip t = true)
       ∨ (∃ lb rest', rest = lb :: rest' ∧ Typ lb = TokenLBrace)).
Proof.
  induction ts as [|t ts (pre & rest & -> & Hpre & Hrest)].
  { exists [], []. split_and!; [done..|by left]. }
  destruct (beforeBrace t) eqn:Ht.
  { exists (t :: pre), rest. split_and!; [done| |done]. simpl. by rewrite Ht. }
  exists [], (t :: pre ++ rest). split_and!; [done..|].
  unfold beforeBrace in Ht. destruct (stopsSkip t) eqn:Hs.
  - right; left. by eexists _, _.
  - right; right. simpl in Ht. apply negb_false_iff, bool_decide_eq_true in Ht.
    by eexists _, _.
Qed.

Lemma skipDefinition_not_macro p :
  isIdent "MACRO" p = false → skipDefinition p = skipBalanced p.
Proof. unfold skipDefinition. by intros ->. Qed.

(** C4 (as amended).  On an unrecognized introducer (any token but the
    keyword MACRO) the skip consumes tokens up to the first opening brace;
    every token other than END counts, the semicolon too.  From the brace
    on it tracks the depth and returns behind the closing brace that
    brings the depth back to zero, unless the identifier END, in any
    case, or the end of the input comes first: there it stops, at
    whatever depth, with the braces left open.  If no brace is opened it
    consumes tokens up to the next END or the end of the input, and stops
    in front of it.  Every token list has one of these shapes.  In every
    case the skip ends, and what it returns is the parser state it was
    given with tokens removed from the front, so that parsing goes on. *)
Theorem skip_by_balanced_braces p pre rest :
  isIdent "MACRO" p = false →
  toks p = pre ++ rest →
  forallb beforeBrace pre = true →
  advanced p (skipDefinition p)
  ∧ (∀ t, Typ t = TokenSemicolon → beforeBrace t = true)
  ∧ (rest = [] → skipDefinition p = set_toks [] p)
  ∧ (∀ t rest', rest = t :: rest' → stopsSkip t = true →
       skipDefinition p = set_toks rest p)
  ∧ (∀ lb inner rb rest',
       rest = lb :: inner ++ rb :: rest' →
       Typ lb = TokenLBrace → balanced inner → Typ rb = TokenRBrace →
       skipDefinition p = set_toks rest' p)
  ∧ (∀ lb inner rest',
       rest = lb :: inner ++ rest' →
       Typ lb = TokenLBrace → unclosed inner →
       rest' = [] ∨ (∃ t rest'', rest' = t :: rest'' ∧ stopsSkip t = true) →
       skipDefinition p = set_toks rest' p)
  ∧ (∀ ts : list Token,
       ∃ pre0 rest0,
         ts = pre0 ++ rest0 ∧ forallb beforeBrace pre0 = true
         ∧ (rest0 = []
            ∨ (∃ t rest', rest0 = t :: rest' ∧ stopsSkip t = true)
            ∨ (∃ lb inner rb rest',
                 rest0 = lb :: inner ++ rb :: rest' ∧ Typ lb = TokenLBrace
                 ∧ balanced inner ∧ Typ rb = TokenRBrace)
            ∨ (∃ lb inner rest',
                 rest0 = lb :: inner ++ rest' ∧ Typ lb = TokenLBrace
                 ∧ unclosed inner
                 ∧ (rest' = []
                    ∨ ∃ t rest'', rest' = t :: rest'' ∧ stopsSkip t = true)))).
Proof.
  intros Hmacro Htoks Hpre. split_and!.
  - apply skipDefinition_advanced.
  - intros t Ht. unfold beforeBrace, stopsSkip. rewrite Ht. by decide_types.
  - intros ->. rewrite skipDefinition_not_macro by done. unfold skipBalanced.
    rewrite (skipLoop_before pre Hpre p p [] Htoks).
    rewrite (while_unfold _ _ skipBalanced_decreases).
    by rewrite (skipBalanced_body_end (set_toks [] p) 0 false eq_refl).
  - intros t rest' -> Hstop. rewrite skipDefinition_not_macro by done.
    unfold skipBalanced.
    rewrite (skipLoop_before pre Hpre p p (t :: rest') Htoks).
    rewrite (while_unfold _ _ skipBalanced_decreases).
    by rewrite (skipBalanced_body_stop (set_toks (t :: rest') p) 0 false t rest'
                  eq_refl Hstop).
  - intros lb inner rb rest' -> Hlb Hinner Hrb.
    rewrite skipDefinition_not_macro by done. unfold skipBalanced.
    rewrite (skipLoop_before pre Hpre p p _ Htoks).
    rewrite (while_unfold _ _ skipBalanced_decreases).
    rewrite (skipBalanced_body_open (set_toks _ p) 0 false lb _ eq_refl Hlb).
    rewrite set_toks_set_toks.
    rewrite (skipLoop_balanced inner Hinner p
               (set_toks (inner ++ rb :: rest') p) (0 + 1) (rb :: rest')
               ltac:(lia) eq_refl).
    rewrite set_toks_set_toks.
    rewrite (while_unfold _ _ skipBalanced_decreases).
    by rewrite (skipBalanced_body_close (set_toks (rb :: rest') p) (0 + 1) rb rest'
                  eq_refl Hrb ltac:(lia)).
  - intros lb inner rest' -> Hlb Hinner Hstop.
    rewrite skipDefinition_not_macro by done. unfold skipBalanced.
    rewrite (skipLoop_before pre Hpre p p _ Htoks).
    rewrite (while_unfold _ _ skipBalanced_decreases).
    rewrite (skipBalanced_body_open (set_toks _ p) 0 false lb _ eq_refl Hlb).
    rewrite set_toks_set_toks.
    destruct (skipLoop_unclosed inner Hinner p
                (set_toks (inner ++ rest') p) (0 + 1) rest' ltac:(lia) eq_refl)
      as (depth' & Hd' & ->).
    rewrite set_toks_set_toks.
    rewrite (while_unfold _ _ skipBalanced_decreases).
    destruct Hstop as [->|(t & rest'' & -> & Hstop)].
    + by rewrite (skipBalanced_body_end (set_toks [] p) depth' true eq_refl).
    + by rewrite (skipBalanced_body_stop (set_toks (t :: rest'') p) depth' true t
                    rest'' eq_refl Hstop).
  - intros ts. destruct (before_brace_shape ts) as (pre0 & rest0 & -> & Hpre0 & Hrest0).
    exists pre0, rest0. split_and!; [done..|].
    destruct Hrest0 as [->|[Hstop|(lb & rest' & -> & Hlb)]]; [by left|by right; left|].
    right; right.
    destruct (inside_braces_shape rest')
      as [(inner & rb & rest'' & -> & Hin & Hrb)|(inner & rest'' & -> & Hin & Hrest)].
    + left. by eexists _, _, _, _.
    + right. by eexists _, _, _.
Qed.

Lemma skip_by_balanced_braces_witness :
  ∃ pre lb inner rb rest',
    isIdent "MACRO" S4_unknown = false
    ∧ toks S4_unknown = pre ++ lb :: inner ++ rb :: rest'
    ∧ forallb beforeBrace pre = true
    ∧ map Text pre = ["MUMBLE"; "::="]
    ∧ map Typ inner = [TokenNumber; TokenNumber; TokenNumber; TokenLBrace;
                       TokenNumber; TokenNumber; TokenRBrace]
    ∧ map Text rest' = ["b"; "OBJECT"; "IDENTIFIER"; "::="; "{"; "mib-2";
                        EmptyString; "}"]
    ∧ skipDefinition S4_unknown = set_toks rest' S4_unknown.
Proof.
  exists [mkToken TokenIdent "MUMBLE" 0 1 1; mkToken TokenColonColonEq "::=" 0 1 11],
    (mkToken TokenLBrace "{" 0 1 13),
    [mkToken TokenNumber EmptyString 1 1 14; mkToken TokenNumber EmptyString 2 1 16;
     mkToken TokenNumber EmptyString 3 1 18; mkToken TokenLBrace "{" 0 1 21;
     mkToken TokenNumber EmptyString 4 1 22; mkToken TokenNumber EmptyString 5 1 24;
     mkToken TokenRBrace "}" 0 1 27],
    (mkToken TokenRBrace "}" 0 1 29),
    (drop 11 (toks S4_unknown)).
  assert (isIdent "MACRO" S4_unknown = false) as Hmacro by (vm_compute; reflexivity).
  assert (balanced
            [mkToken TokenNumber EmptyString 1 1 14;
             mkToken TokenNumber EmptyString 2 1 16;
             mkToken TokenNumber EmptyString 3 1 18; mkToken TokenLBrace "{" 0 1 21;
             mkToken TokenNumber EmptyString 4 1 22;
             mkToken TokenNumber EmptyString 5 1 24;
             mkToken TokenRBrace "}" 0 1 27]) as Hinner.
  { do 3 (apply balanced_plain; [reflexivity|]).
    apply (balanced_braces (mkToken TokenLBrace "{" 0 1 21)
             [mkToken TokenNumber EmptyString 4 1 22;
              mkToken TokenNumber EmptyString 5 1 24]
             (mkToken TokenRBrace "}" 0 1 27) []);
      [reflexivity| |reflexivity|apply balanced_nil].
    do 2 (apply balanced_plain; [reflexivity|]). apply balanced_nil. }
  assert (toks S4_unknown =
            [mkToken TokenIdent "MUMBLE" 0 1 1;
             mkToken TokenColonColonEq "::=" 0 1 11]
            ++ mkToken TokenLBrace "{" 0 1 13
               :: [mkToken TokenNumber EmptyString 1 1 14;
                   mkToken TokenNumber EmptyString 2 1 16;
                   mkToken TokenNumber EmptyString 3 1 18;
                   mkToken TokenLBrace "{" 0 1 21;
                   mkToken TokenNumber EmptyString 4 1 22;
                   mkToken TokenNumber EmptyString 5 1 24;
                   mkToken TokenRBrace "}" 0 1 27]
               ++ mkToken TokenRBrace "}" 0 1 29 :: drop 11 (toks S4_unknown))
    as Htoks by (vm_compute; reflexivity).
  destruct (skip_by_balanced_braces S4_unknown _ _ Hmacro Htoks eq_refl)
    as (_ & _ & _ & _ & Hbraces & _ & _).
  split_and!;
    [exact Hmacro|exact Htoks|reflexivity|reflexivity|reflexivity
    |vm_compute; reflexivity|].
  exact (Hbraces _ _ _ _ eq_refl eq_refl Hinner eq_refl).
Defined.

(** C4, counterexample.  In [MUMBLE foo ; bar baz END] no brace is opened:
    the skip does not stop at the semicolon, it consumes [bar] and [baz]
    too and stops in front of END.  A textual convention that follows such
    a construct is not parsed.  And in [unknownWithEndInside] the skip
    does not go on to the closing brace: it stops in front of the
    identifier [end] between the braces. *)
Lemma skip_does_not_stop_at_semicolon :
  map Typ (toks unknownWithSemicolon)
    = [TokenIdent; TokenIdent; TokenSemicolon; TokenIdent; TokenIdent; TokenIdent]
  ∧ map Text (toks unknownWithSemicolon) = ["MUMBLE"; "foo"; ";"; "bar"; "baz"; "END"]
  ∧ map Text (toks (skipDefinition unknownWithSemicolon)) = ["END"]
  ∧ (∃ m, ParseString unknownThenConvention = Ok m
          ∧ ModuleIR.TextualConventions m = ∅)
  ∧ map Text (toks unknownWithEndInside)
      = ["MUMBLE"; "::="; "{"; "start"; "INTEGER"; ","; "end"; "INTEGER"; "}";
         "b"; "OBJECT"; "IDENTIFIER"; "::="; "{"; "mib-2"; EmptyString; "}"]
  ∧ map Text (toks (skipDefinition unknownWithEndInside))
      = ["end"; "INTEGER"; "}";
         "b"; "OBJECT"; "IDENTIFIER"; "::="; "{"; "mib-2"; EmptyString; "}"].
Proof.
  split_and!; try (vm_compute; reflexivity).
  eexists. split; vm_compute; reflexivity.
Qed.

(** ** Declared names are nodes *)

Lemma ensureNode_dom k m :
  dom (ModuleIR.NodesByName (ModuleIR.ensureNode k m)) =
    {[k]} ∪ dom (ModuleIR.NodesByName m).
Proof.
  rewrite ensureNode_nodes.
  destruct (ModuleIR.NodesByName m !! k) eqn:E.
  - apply (elem_of_dom_2 (D := gset string)) in E. set_solver.
  - by rewrite dom_insert_L.
Qed.

Lemma ensureNode_frame k m :
  ModuleIR.ObjectsByName (ModuleIR.ensureNode k m) = ModuleIR.ObjectsByName m
  ∧ ModuleIR.ObjectIdentities (ModuleIR.ensureNode k m) = ModuleIR.ObjectIdentities m
  ∧ ModuleIR.ModuleIdentity (ModuleIR.ensureNode k m) = ModuleIR.ModuleIdentity m
  ∧ ModuleIR.NotificationTypes (ModuleIR.ensureNode k m) = ModuleIR.NotificationTypes m.
Proof. unfold ModuleIR.ensureNode. by destruct (_ !! _). Qed.

Lemma declared_setNode k v m : declared m → declared (ModuleIR.setNode k v m).
Proof.
  intros (Ho & Hi & Hm). unfold declared. simpl. rewrite dom_insert_L.
  split_and!; [set_solver..|]. intros mi Hmi. specialize (Hm mi Hmi). set_solver.
Qed.

Lemma declared_ensureNode k m : declared m → declared (ModuleIR.ensureNode k m).
Proof.
  intros (Ho & Hi & Hm). unfold declared.
  destruct (ensureNode_frame k m) as (-> & -> & -> & _). rewrite ensureNode_dom.
  split_and!; [set_solver..|]. intros mi Hmi. specialize (Hm mi Hmi). set_solver.
Qed.

Lemma declared_setObject_setNode k o v m :
  declared m → declared (ModuleIR.setNode k v (ModuleIR.setObject k o m)).
Proof.
  intros (Ho & Hi & Hm). unfold declared. simpl. rewrite !dom_insert_L.
  split_and!; [set_solver..|]. intros mi Hmi. specialize (Hm mi Hmi). set_solver.
Qed.

Lemma declared_setObject_ensureNode k o m :
  declared m → declared (ModuleIR.ensureNode k (ModuleIR.setObject k o m)).
Proof.
  intros (Ho & Hi & Hm). unfold declared.
  destruct (ensureNode_frame k (ModuleIR.setObject k o m)) as (-> & -> & -> & _).
  rewrite ensureNode_dom. simpl. rewrite !dom_insert_L.
  split_and!; [set_solver..|]. intros mi Hmi. specialize (Hm mi Hmi). set_solver.
Qed.

Lemma declared_setModuleIdentity_setNode mi v m :
  declared m →
  declared (ModuleIR.setNode (ModuleIdentityIR.Name mi) v
              (ModuleIR.setModuleIdentity mi m)).
Proof.
  intros (Ho & Hi & Hm). unfold declared. simpl. rewrite !dom_insert_L.
  split_and!; [set_solver..|]. intros mi' [= <-]. set_solver.
Qed.

Lemma declared_setModuleIdentity mi m :
  ModuleIdentityIR.Name mi ∈ dom (ModuleIR.NodesByName m) →
  declared m → declared (ModuleIR.setModuleIdentity mi m).
Proof.
  intros Hin (Ho & Hi & Hm). unfold declared. simpl.
  split_and!; [done..|]. by intros mi' [= <-].
Qed.

Lemma declared_setObjectIdentity_setNode k oi v m :
  declared m → declared (ModuleIR.setNode k v (ModuleIR.setObjectIdentity k oi m)).
Proof.
  intros (Ho & Hi & Hm). unfold declared. simpl. rewrite !dom_insert_L.
  split_and!; [set_solver..|]. intros mi Hmi. specialize (Hm mi Hmi). set_solver.
Qed.

Lemma declared_setObjectIdentity k oi m :
  k ∈ dom (ModuleIR.NodesByName m) →
  declared m → declared (ModuleIR.setObjectIdentity k oi m).
Proof.
  intros Hin (Ho & Hi & Hm). unfold declared. simpl. rewrite !dom_insert_L.
  split_and!; [set_solver..|done].
Qed.

Lemma declared_setNotificationType k nt m :
  declared m → declared (ModuleIR.setNotificationType k nt m).
Proof. by intros (Ho & Hi & Hm). Qed.

Lemma declared_setTextualConvention k tc m :
  declared m → declared (ModuleIR.setTextualConvention k tc m).
Proof. by intros (Ho & Hi & Hm). Qed.

Lemma declared_set_Name n m : declared m → declared (ModuleIR.set_Name n m).
Proof. by intros (Ho & Hi & Hm). Qed.

(** The closures keep the invariant. *)
Lemma keepsDeclared_applyNode parent_ idx name :
  keepsDeclared (mkPending parent_ idx (applyNode name idx)).
Proof. intros base m Hm. by apply declared_setNode. Qed.

Lemma keepsDeclared_applyObjectType parent_ idx ref :
  keepsDeclared (mkPending parent_ idx (applyObjectType ref idx)).
Proof. intros base m Hm. by apply declared_setObject_setNode. Qed.

Lemma keepsDeclared_applyModuleIdentity parent_ idx ref ident :
  ModuleIdentityIR.Name ref = ident →
  keepsDeclared (mkPending parent_ idx (applyModuleIdentity ref ident idx)).
Proof.
  intros <- base m Hm. simpl. unfold applyModuleIdentity.
  by apply (declared_setModuleIdentity_setNode
              (ModuleIdentityIR.set_OID (base ++ [idx]) ref)).
Qed.

Lemma keepsDeclared_applyObjectIdentity parent_ idx ref ident :
  ObjectIdentityIR.Name ref = ident →
  keepsDeclared (mkPending parent_ idx (applyObjectIdentity ref ident idx)).
Proof.
  intros <- base m Hm. simpl. unfold applyObjectIdentity.
  by apply (declared_setObjectIdentity_setNode (ObjectIdentityIR.Name ref)).
Qed.

Lemma keepsDeclared_applyNotificationType parent_ idx ref :
  keepsDeclared (mkPending parent_ idx (applyNotificationType ref idx)).
Proof. intros base m Hm. by apply declared_setNotificationType. Qed.

Lemma Inv_add_pend pr p : keepsDeclared pr → Inv p → Inv (add_pend pr p).
Proof.
  intros Hpr [Hm Hp]. split; [done|]. simpl. apply Forall_app. by split; [|constructor].
Qed.

Lemma Inv_update_mod f p :
  (∀ m, declared m → declared (f m)) → Inv p → Inv (update_mod f p).
Proof. intros Hf [Hm Hp]. split; [by apply Hf|done]. Qed.

Lemma Inv_advanced p p' : advanced p p' → Inv p → Inv p'.
Proof. by intros [k ->]. Qed.

Lemma Inv_resolveObjectIdentifier ident parentName index abs hasAbs p :
  Inv p → Inv (resolveObjectIdentifier ident parentName index abs hasAbs p).
Proof.
  intros HI. unfold resolveObjectIdentifier. destruct hasAbs.
  { apply Inv_update_mod; [|done]. intros m. apply declared_setNode. }
  destruct (resolveOidBase parentName p).
  { apply Inv_update_mod; [|done]. intros m. apply declared_setNode. }
  apply Inv_add_pend; [apply keepsDeclared_applyNode|].
  apply Inv_update_mod; [|done]. intros m. apply declared_ensureNode.
Qed.

Lemma Inv_resolveObjectType obj parentName index abs hasAbs p :
  Inv p → Inv (resolveObjectType obj parentName index abs hasAbs p).
Proof.
  intros [Hm Hp]. unfold resolveObjectType. destruct hasAbs.
  { split; [|done]. by apply declared_setObject_setNode. }
  destruct (resolveOidBase parentName p).
  { split; [|done]. by apply declared_setObject_setNode. }
  apply Inv_add_pend; [apply keepsDeclared_applyObjectType|].
  split; [|done]. by apply declared_setObject_ensureNode.
Qed.

Lemma Inv_resolveGroup ident parent_ idx p :
  Inv p → Inv (resolveGroup ident parent_ idx p).
Proof.
  intros HI. unfold resolveGroup. destruct (_ !! _).
  { apply Inv_update_mod; [|done]. intros m. apply declared_setNode. }
  apply Inv_add_pend; [apply keepsDeclared_applyNode|done].
Qed.

Lemma Inv_resolveModuleIdentity mi ident parent_ idx abs hasAbs p :
  ModuleIdentityIR.Name mi = ident →
  Inv p →
  Inv (resolveModuleIdentity mi ident parent_ idx abs hasAbs
         (update_mod (ModuleIR.ensureNode ident) p)).
Proof.
  intros <- [Hm Hp]. unfold resolveModuleIdentity.
  pose proof (declared_ensureNode (ModuleIdentityIR.Name mi) _ Hm) as Hm'.
  destruct hasAbs.
  { split; [|done].
    by apply (declared_setModuleIdentity_setNode (ModuleIdentityIR.set_OID abs mi)). }
  destruct (resolveOidBase parent_ _) as [base|].
  { split; [|done].
    by apply (declared_setModuleIdentity_setNode
                (ModuleIdentityIR.set_OID (base ++ [idx]) mi)). }
  apply Inv_add_pend; [by apply keepsDeclared_applyModuleIdentity|].
  split; [|done]. apply declared_setModuleIdentity; [|done].
  rewrite mod_update_mod, ensureNode_dom. set_solver.
Qed.

Lemma Inv_resolveObjectIdentity oi ident parent_ idx abs hasAbs p :
  ObjectIdentityIR.Name oi = ident →
  Inv p →
  Inv (resolveObjectIdentity oi ident parent_ idx abs hasAbs
         (update_mod (ModuleIR.ensureNode ident) p)).
Proof.
  intros <- [Hm Hp]. unfold resolveObjectIdentity.
  pose proof (declared_ensureNode (ObjectIdentityIR.Name oi) _ Hm) as Hm'.
  destruct hasAbs.
  { split; [|done].
    by apply (declared_setObjectIdentity_setNode (ObjectIdentityIR.Name oi)). }
  destruct (resolveOidBase parent_ _) as [base|].
  { split; [|done].
    by apply (declared_setObjectIdentity_setNode (ObjectIdentityIR.Name oi)). }
  apply Inv_add_pend; [by apply keepsDeclared_applyObjectIdentity|].
  split; [|done]. apply declared_setObjectIdentity; [|done].
  rewrite mod_update_mod, ensureNode_dom. set_solver.
Qed.

Lemma Inv_resolveNotificationType nt parent_ idx abs hasAbs p :
  Inv p → Inv (resolveNotificationType nt parent_ idx abs hasAbs p).
Proof.
  intros [Hm Hp]. unfold resolveNotificationType. destruct hasAbs; [done|].
  destruct (resolveOidBase parent_ p); [done|].
  apply Inv_add_pend; [apply keepsDeclared_applyNotificationType|done].
Qed.

Lemma Inv_effect p p' : effect p p' → Inv p → Inv p'.
Proof.
  intros [p1 H|p1 ? ? ? ? ? H|p1 ? H|p1 ? ? ? ? ? H|p1 ? ? ? H
         |p1 ? ? ? ? ? ? H Hn|p1 ? ? ? ? ? ? H Hn|p1 ? ? ? ? ? H] HI;
    apply (Inv_advanced _ _ H) in HI.
  - done.
  - by apply Inv_resolveObjectIdentifier.
  - apply Inv_update_mod; [|done]. intros m. apply declared_setTextualConvention.
  - by apply Inv_resolveObjectType.
  - by apply Inv_resolveGroup.
  - by apply Inv_resolveModuleIdentity.
  - by apply Inv_resolveObjectIdentity.
  - by apply Inv_resolveNotificationType.
Qed.

Lemma Inv_effects p p' : rtc effect p p' → Inv p → Inv p'.
Proof. induction 1; [done|]. intros HI. eauto using Inv_effect. Qed.

Lemma resolvePass_Inv prs m remaining_ progressed :
  declared m → Forall keepsDeclared prs → Forall keepsDeclared remaining_ →
  let '(m', remaining', _) := resolvePass prs m remaining_ progressed in
  declared m' ∧ Forall keepsDeclared remaining'.
Proof.
  revert m remaining_ progressed.
  induction prs as [|pr prs IH]; intros m remaining_ progressed Hm Hprs Hrem;
    simpl; [done|].
  inversion_clear Hprs as [|? ? Hpr Hprs'].
  destruct (ModuleIR.NodesByName m !! parent pr) as [base|].
  - apply IH; [by apply Hpr|done..].
  - apply IH; [done..|]. apply Forall_app. by split; [|constructor].
Qed.

Lemma Inv_resolvePending p : Inv p → Inv (resolvePending p).
Proof.
  unfold resolvePending.
  apply (while_ind _ _ resolvePending_decreases Inv Inv).
  intros s [Hm Hp]. unfold resolvePending_body.
  destruct (Nat.eqb _ _); [done|].
  pose proof (resolvePass_Inv (pend s) (mod_ s) [] false Hm Hp ltac:(constructor))
    as H.
  destruct (resolvePass _ _ _ _) as [[m' r'] b'].
  by destruct b'.
Qed.

Lemma parseModule_Inv p :
  Inv p →
  match parseModule p with
  | Ok p' => Inv p'
  | Err _ => True
  end.
Proof.
  intros HI. unfold parseModule, expect.
  destruct (tokIs TokenIdent p); [|done].
  do 3 (step_accept; [|done]).
  set (p1 := if isIdent "IMPORTS" _ then _ else _).
  assert (Inv p1) as HI1.
  { subst p1. destruct (isIdent "IMPORTS" _).
    - eapply Inv_advanced; [apply parseImports_advanced|].
      split; [by apply declared_set_Name; apply HI|apply HI].
    - split; [by apply declared_set_Name; apply HI|apply HI]. }
  pose proof (moduleBody_effects p1) as Hbody.
  destruct (moduleBody p1) as [p2|]; [|done].
  apply Inv_resolvePending. by eapply Inv_effects.
Qed.

(** The source text travels unchanged through [parseModule]. *)
Lemma src_advanced p p' : advanced p p' → src p' = src p.
Proof. by intros [k ->]. Qed.

Lemma src_effect p p' : effect p p' → src p' = src p.
Proof.
  intros [p1 H|p1 ? ? ? ? ? H|p1 ? H|p1 ? ? ? ? ? H|p1 ? ? ? H
         |p1 ? ? ? ? ? ? H Hn|p1 ? ? ? ? ? ? H Hn|p1 ? ? ? ? ? H];
    rewrite <- (src_advanced _ _ H); try done.
  - unfold resolveObjectIdentifier. destruct hasAbs; [done|]. by destruct (resolveOidBase _ _).
  - unfold resolveObjectType. destruct hasAbs; [done|]. by destruct (resolveOidBase _ _).
  - unfold resolveGroup. by destruct (_ !! _).
  - unfold resolveModuleIdentity. destruct hasAbs; [done|]. by destruct (resolveOidBase _ _).
  - unfold resolveObjectIdentity. destruct hasAbs; [done|]. by destruct (resolveOidBase _ _).
  - unfold resolveNotificationType. destruct hasAbs; [done|]. by destruct (resolveOidBase _ _).
Qed.

Lemma src_effects p p' : rtc effect p p' → src p' = src p.
Proof. induction 1 as [|? ? ? H ? IH]; [done|]. by rewrite IH, (src_effect _ _ H). Qed.

Lemma src_resolvePending p : src (resolvePending p) = src p.
Proof.
  unfold resolvePending.
  apply (while_ind _ _ resolvePending_decreases
           (λ s, src s = src p) (λ s, src s = src p)); [|done].
  intros s Hs. unfold resolvePending_body.
  destruct (Nat.eqb _ _); [done|].
  destruct (resolvePass _ _ _ _) as [[m' r'] b'].
  by destruct b'.
Qed.

Lemma parseModule_src p :
  match parseModule p with
  | Ok p' => src p' = src p
  | Err _ => True
  end.
Proof.
  unfold parseModule, expect.
  destruct (tokIs TokenIdent p); [|done].
  do 3 (step_accept; [|done]).
  set (p1 := if isIdent "IMPORTS" _ then _ else _).
  assert (src p1 = src p) as Hp1.
  { subst p1. destruct (isIdent "IMPORTS" _); [|done].
    by rewrite (src_advanced _ _ (parseImports_advanced _)). }
  pose proof (moduleBody_effects p1) as Hbody.
  destruct (moduleBody p1) as [p2|]; [|done].
  change (src (resolvePending p2) = src p).
  rewrite src_resolvePending, <- Hp1. by apply src_effects.
Qed.

(** The sweep of the source text. *)
Lemma fold_left_declared (f : ModuleIR.t → string → ModuleIR.t) names m :
  (∀ m n, declared m → declared (f m n)) →
  declared m → declared (fold_left f names m).
Proof.
  intros Hf. revert m. induction names as [|n names IH]; intros m Hm; [done|].
  simpl. by apply IH, Hf.
Qed.

Lemma declared_augmentObjId m n : declared m → declared (augmentObjId m n).
Proof. apply declared_ensureNode. Qed.

Lemma declared_augmentObjType m n : declared m → declared (augmentObjType m n).
Proof.
  intros Hm. unfold augmentObjType. destruct (isReservedName n); [done|].
  destruct (ModuleIR.ObjectsByName m !! n).
  - by apply declared_ensureNode.
  - by apply declared_setObject_ensureNode.
Qed.

Lemma declared_augmentObjIdentity m n :
  declared m → declared (augmentObjIdentity m n).
Proof.
  intros Hm. unfold augmentObjIdentity. destruct (isReservedName n); [done|].
  destruct (ModuleIR.ObjectIdentities m !! n).
  - by apply declared_ensureNode.
  - destruct Hm as (Ho & Hi & Hm). unfold declared.
    destruct (ensureNode_frame n (ModuleIR.setObjectIdentity n (ObjectIdentityIR.new n) m))
      as (-> & -> & -> & _).
    rewrite ensureNode_dom. simpl. rewrite !dom_insert_L.
    split_and!; [set_solver..|]. intros mi Hmi. specialize (Hm mi Hmi). set_solver.
Qed.

Lemma declared_augmentNotif m n : declared m → declared (augmentNotif m n).
Proof.
  intros Hm. unfold augmentNotif. destruct (isReservedName n); [done|].
  destruct (ModuleIR.NotificationTypes m !! n).
  - by apply declared_ensureNode.
  - by apply declared_ensureNode, declared_setNotificationType.
Qed.

Lemma augmentNotif_grows m n :
  dom (ModuleIR.NodesByName m) ⊆ dom (ModuleIR.NodesByName (augmentNotif m n))
  ∧ dom (ModuleIR.NotificationTypes m)
      ⊆ dom (ModuleIR.NotificationTypes (augmentNotif m n)).
Proof.
  unfold augmentNotif. destruct (isReservedName n); [done|].
  set (m1 := match ModuleIR.NotificationTypes m !! n with
             | Some _ => m
             | None => ModuleIR.setNotificationType n (NotificationTypeIR.new n) m
             end).
  destruct (ensureNode_frame n m1) as (_ & _ & _ & ->). rewrite ensureNode_dom.
  subst m1. destruct (ModuleIR.NotificationTypes m !! n); simpl;
    rewrite ?dom_insert_L; set_solver.
Qed.

Lemma augmentNotif_adds m n :
  isReservedName n = false →
  n ∈ dom (ModuleIR.NodesByName (augmentNotif m n))
  ∧ n ∈ dom (ModuleIR.NotificationTypes (augmentNotif m n)).
Proof.
  intros Hn. unfold augmentNotif. rewrite Hn.
  set (m1 := match ModuleIR.NotificationTypes m !! n with
             | Some _ => m
             | None => ModuleIR.setNotificationType n (NotificationTypeIR.new n) m
             end).
  destruct (ensureNode_frame n m1) as (_ & _ & _ & ->). rewrite ensureNode_dom.
  split; [set_solver|].
  subst m1. destruct (ModuleIR.NotificationTypes m !! n) eqn:E; simpl.
  - by apply (elem_of_dom_2 (D := gset string)) in E.
  - rewrite dom_insert_L. set_solver.
Qed.

Lemma fold_augmentNotif_grows names m :
  dom (ModuleIR.NodesByName m)
    ⊆ dom (ModuleIR.NodesByName (fold_left augmentNotif names m))
  ∧ dom (ModuleIR.NotificationTypes m)
      ⊆ dom (ModuleIR.NotificationTypes (fold_left augmentNotif names m)).
Proof.
  revert m. induction names as [|n names IH]; intros m; [done|]. simpl.
  destruct (IH (augmentNotif m n)) as [H1 H2].
  destruct (augmentNotif_grows m n) as [H3 H4]. set_solver.
Qed.

Lemma fold_augmentNotif_adds names m n :
  n ∈ names → isReservedName n = false →
  n ∈ dom (ModuleIR.NodesByName (fold_left augmentNotif names m))
  ∧ n ∈ dom (ModuleIR.NotificationTypes (fold_left augmentNotif names m)).
Proof.
  intros Hin Hn. revert m.
  induction Hin as [n names|n n' names Hin IH]; intros m; simpl; [|by apply IH].
  destruct (fold_augmentNotif_grows names (augmentNotif m n)) as [H1 H2].
  destruct (augmentNotif_adds m n Hn) as [H3 H4]. set_solver.
Qed.

Lemma declared_augmentFromSource p :
  declared (mod_ p) → declared (mod_ (augmentFromSource p)).
Proof.
  intros Hm. unfold augmentFromSource. cbv zeta. simpl.
  apply fold_left_declared; [apply declared_augmentNotif|].
  apply fold_left_declared; [apply declared_augmentObjIdentity|].
  apply fold_left_declared; [apply declared_augmentObjType|].
  apply fold_left_declared; [apply declared_augmentObjId|done].
Qed.

Lemma Inv_initBaseOids p : Inv p → Inv (initBaseOids p).
Proof.
  intros HI. unfold initBaseOids. cbv zeta.
  repeat (apply Inv_update_mod; [intros ?; apply declared_setNode|]). done.
Qed.

Lemma Inv_Parse_start U input : Inv (Parse_start U input).
Proof.
  unfold Parse_start. cbv zeta. apply Inv_initBaseOids.
  split; [|constructor].
  unfold declared. simpl. rewrite !dom_empty_L. split_and!; [done..|]. by intros mi.
Qed.

Lemma src_initBaseOids p : src (initBaseOids p) = src p.
Proof. reflexivity. Qed.

(** C3, amended.  For every successfully parsed module, every key of
    objects, every key of objectIdentities, and the name of the
    moduleIdentity record when there is one, is a key of nodes.  A
    notification name is a key of notificationTypes and of nodes when the
    sweep of the source text finds it (in front of NOTIFICATION-TYPE, at the
    start of a line) and it is not a reserved word; the parser itself
    does not put notification names into nodes. *)
Theorem declared_names_are_nodes U input m :
  Parse U input = Ok m →
  dom (ModuleIR.ObjectsByName m) ⊆ dom (ModuleIR.NodesByName m)
  ∧ dom (ModuleIR.ObjectIdentities m) ⊆ dom (ModuleIR.NodesByName m)
  ∧ (∀ mi, ModuleIR.ModuleIdentity m = Some mi →
           ModuleIdentityIR.Name mi ∈ dom (ModuleIR.NodesByName m))
  ∧ (∀ n, n ∈ sweptNotifications input → isReservedName n = false →
          n ∈ dom (ModuleIR.NotificationTypes m)
          ∧ n ∈ dom (ModuleIR.NodesByName m)).
Proof.
  unfold Parse. cbv zeta.
  pose proof (parseModule_Inv _ (Inv_Parse_start U input)) as HI.
  pose proof (parseModule_src (Parse_start U input)) as Hsrc.
  destruct (parseModule (Parse_start U input)) as [p|e]; [|done].
  intros [= <-]. destruct HI as [Hm _].
  destruct (declared_augmentFromSource p Hm) as (Ho & Hi & Hmi).
  split_and!; [done..|].
  intros n Hin Hn. unfold augmentFromSource. cbv zeta. simpl.
  rewrite Hsrc. unfold Parse_start. cbv zeta. rewrite src_initBaseOids. simpl.
  apply and_comm. by apply fold_augmentNotif_adds.
Qed.

Lemma declared_names_are_nodes_witness :
  ∃ m, ParseString S3 = Ok m
       ∧ dom (ModuleIR.ObjectsByName m) = {["foo"]}
       ∧ dom (ModuleIR.ObjectsByName m) ⊆ dom (ModuleIR.NodesByName m).
Proof.
  eexists. split; [vm_compute; reflexivity|].
  split; [by vm_compute|].
  refine (proj1 (declared_names_are_nodes asciiOnly (runes_of_string S3) _ _)).
  vm_compute. reflexivity.
Defined.

(** C3 as written fails: a NOTIFICATION-TYPE that does not start its line
    is stored in notificationTypes, and its name is not a key of nodes. *)
Lemma notification_name_not_in_nodes :
  ∃ m, ParseString notificationInLine = Ok m
       ∧ "up" ∈ dom (ModuleIR.NotificationTypes m)
       ∧ "up" ∉ dom (ModuleIR.NodesByName m).
Proof.
  eexists. split; [vm_compute; reflexivity|].
  split.
  - apply elem_of_dom. eexists. vm_compute. reflexivity.
  - apply not_elem_of_dom. vm_compute. reflexivity.
Qed.

(* ===================================================================== *)
(** * Further properties of the code *)
(* ===================================================================== *)

(** ** The public helpers *)

Section PublicHelperProperties.
Import mib_parser mib_parser_wf.

Lemma oidsEqual_from_eq a b :
  length a = length b → oidsEqual_from a b = true → a = b.
Proof.
  revert b. induction a as [|x a IH]; intros [|y b]; simpl; try done.
  intros [= Hlen]. destruct (x =? y) eqn:E; simpl; [|done].
  intros H. apply Z.eqb_eq in E. f_equal; [done|by apply IH].
Qed.

Lemma oidsEqual_from_refl a : oidsEqual_from a a = true.
Proof. induction a as [|x a IH]; simpl; [done|]. by rewrite Z.eqb_refl. Qed.

Lemma oidsEqual_spec a b : oidsEqual a b = true ↔ a = b.
Proof.
  unfold oidsEqual. split.
  - destruct (Nat.eqb (length a) (length b)) eqn:E; simpl; [|done].
    apply Nat.eqb_eq in E. by apply oidsEqual_from_eq.
  - intros <-. rewrite Nat.eqb_refl. simpl. apply oidsEqual_from_refl.
Qed.

(** X1.  [oidsEqual] decides the equality of two OIDs: it returns true
    exactly when the slices have the same length and the same components. *)
Theorem oidsEqual_decides_equality (a b : list Z) :
  (oidsEqual a b = true ↔ a = b) ∧ (oidsEqual a b = false ↔ a ≠ b).
Proof.
  pose proof (oidsEqual_spec a b) as H. split; [done|].
  destruct (oidsEqual a b); split; try done.
  - intros Hne. destruct Hne. by apply H.
  - intros _ Heq. apply H in Heq. done.
Qed.

(** The decimal numeral determines the number. *)
Lemma unsigned_value n :
  0 < n → parseDecimal_from (digits (S (Z.to_nat (Z.log2 n))) n EmptyString) 0 = Some n.
Proof.
  intros Hn. apply parseDecimal_from_digits. split; [lia|by apply pow10_log2].
Qed.

Lemma unsigned_not_minus n s :
  digits (S (Z.to_nat (Z.log2 n))) n EmptyString ≠ String "-" s.
Proof.
  intros H. pose proof (allDigits_digits (S (Z.to_nat (Z.log2 n))) n EmptyString I) as Hd.
  rewrite H in Hd. destruct Hd as [[d Hd] _]. discriminate Hd.
Qed.

Lemma Sprintf_d_inj a b : Sprintf_d a = Sprintf_d b → a = b.
Proof.
  unfold Sprintf_d.
  destruct (Z.eqb_spec a 0) as [->|Ha], (Z.eqb_spec b 0) as [->|Hb]; [done|..].
  - destruct (Z.ltb_spec b 0) as [Hlt|Hge]; [done|]. intros Heq.
    assert (0 < b) as Hpos by lia. pose proof (unsigned_value b Hpos) as Hv.
    rewrite <- Heq in Hv. simpl in Hv. injection Hv as <-. done.
  - destruct (Z.ltb_spec a 0) as [Hlt|Hge]; [done|]. intros Heq.
    assert (0 < a) as Hpos by lia. pose proof (unsigned_value a Hpos) as Hv.
    rewrite Heq in Hv. simpl in Hv. injection Hv as <-. done.
  - destruct (Z.ltb_spec a 0) as [Hlta|Hgea], (Z.ltb_spec b 0) as [Hltb|Hgeb].
    + assert (0 < - a) as Ha' by lia. assert (0 < - b) as Hb' by lia.
      pose proof (unsigned_value _ Ha') as Hva. pose proof (unsigned_value _ Hb') as Hvb.
      revert Hva Hvb. generalize (digits (S (Z.to_nat (Z.log2 (- a)))) (- a) EmptyString).
      generalize (digits (S (Z.to_nat (Z.log2 (- b)))) (- b) EmptyString).
      intros db da Hva Hvb [= ->]. rewrite Hva in Hvb. injection Hvb as Hv. lia.
    + intros Heq. symmetry in Heq. by apply unsigned_not_minus in Heq.
    + intros Heq. by apply unsigned_not_minus in Heq.
    + intros Heq. assert (0 < a) as Ha' by lia. assert (0 < b) as Hb' by lia.
      pose proof (unsigned_value _ Ha') as Hv.
      rewrite Heq, (unsigned_value _ Hb') in Hv. by injection Hv.
Qed.

Lemma oidToString_inj a b : oidToString a = oidToString b → a = b.
Proof.
  intros H.
  assert (∀ c, c ≠ [] → oidToString c ≠ EmptyString) as Hne.
  { intros c Hc Hs. pose proof (Split_oidToString c Hc) as Hsp.
    rewrite Hs in Hsp. simpl in Hsp. destruct c as [|n [|? ?]]; try done.
    injection Hsp as Hsp. symmetry in Hsp. by apply Sprintf_d_nonempty in Hsp. }
  destruct a as [|x a].
  { destruct b as [|y b]; [done|]. symmetry in H. by apply Hne in H. }
  destruct b as [|y b]; [by apply Hne in H|].
  pose proof (Split_oidToString (x :: a) ltac:(done)) as Ha.
  pose proof (Split_oidToString (y :: b) ltac:(done)) as Hb.
  rewrite H, Hb in Ha. clear -Ha. revert Ha.
  generalize (x :: a) as l1, (y :: b) as l2. clear.
  intros l1 l2. revert l1. induction l2 as [|v l2 IH]; intros [|u l1]; simpl; try done.
  intros [= Hv Hrest]. apply Sprintf_d_inj in Hv. subst. f_equal. by apply IH.
Qed.

(** The map entries of a module's object index that hold an object. *)
Lemma range_of_entry m visit k o :
  range_of m visit → (k, Some o) ∈ visit →
  ∃ s entries, m = Some s ∧ Module.ObjectsByName s = Some entries
               ∧ entries !! k = Some (Some o).
Proof.
  destruct m as [s|]; simpl; [|intros ->; by intros ?%elem_of_nil].
  destruct (Module.ObjectsByName s) as [entries|] eqn:He;
    [|intros ->; by intros ?%elem_of_nil].
  intros Hperm Hin. rewrite Hperm in Hin. apply elem_of_map_to_list in Hin.
  by exists s, entries.
Qed.

Lemma GetObjectByOID_range_spec visit oid :
  Forall (fun e => e.2 ≠ None) visit →
  (∃ k o, (k, Some o) ∈ visit ∧ ObjectType.OID o = oid
          ∧ GetObjectByOID_range visit oid = Return (Some o, true))
  ∨ ((∀ k o, (k, Some o) ∈ visit → ObjectType.OID o ≠ oid)
     ∧ GetObjectByOID_range visit oid = Return (None, false)).
Proof.
  induction visit as [|[k [o|]] visit IH]; intros Hall; simpl.
  - right. split; [|done]. intros k o Hin. by apply elem_of_nil in Hin.
  - inversion_clear Hall as [|? ? _ Hrest].
    destruct (oidsEqual (ObjectType.OID o) oid) eqn:E.
    + left. exists k, o. apply oidsEqual_spec in E. split_and!; [left|done..].
    + destruct (IH Hrest) as [(k' & o' & Hin & Hoid & Hres)|[Hnone Hres]].
      * left. exists k', o'. split_and!; [by right|done..].
      * right. split; [|done]. intros k' o' Hin.
        apply elem_of_cons in Hin as [[= -> ->]|Hin]; [|by eapply Hnone].
        intros Heq. apply oidsEqual_spec in Heq. congruence.
  - inversion_clear Hall as [|? ? Hk]. by destruct Hk.
Qed.

(** X2.  On a module without [nil] entries, [GetObjectByOID] returns either
    an object of the object index whose OID is the queried one, with
    [true], or [(nil, false)], and the latter only if no object of the
    index has the queried OID; and this whatever the order in which the
    map is visited. *)
Theorem GetObjectByOID_sound_and_complete m visit oid :
  noNilPointers m → range_of m visit →
  (∃ k o s entries,
     m = Some s ∧ Module.ObjectsByName s = Some entries
     ∧ entries !! k = Some (Some o) ∧ ObjectType.OID o = oid
     ∧ GetObjectByOID m visit oid = Return (Some o, true))
  ∨ ((∀ s entries k o,
        m = Some s → Module.ObjectsByName s = Some entries →
        entries !! k = Some (Some o) → ObjectType.OID o ≠ oid)
     ∧ GetObjectByOID m visit oid = Return (None, false)).
Proof.
  intros Hwf Hvisit.
  pose proof (range_of_noNil m visit Hwf Hvisit) as Hall.
  destruct (GetObjectByOID_range_spec visit oid Hall)
    as [(k & o & Hin & Hoid & Hres)|[Hnone Hres]].
  - left. destruct (range_of_entry m visit k o Hvisit Hin) as (s & entries & -> & He & Hl).
    exists k, o, s, entries. split_and!; try done.
    unfold GetObjectByOID, nil_or. simpl. by rewrite He.
  - right. split.
    + intros s entries k o -> He Hl. apply (Hnone k). simpl in Hvisit.
      rewrite He in Hvisit. rewrite Hvisit. by apply elem_of_map_to_list.
    + unfold GetObjectByOID, nil_or. destruct m as [s|]; simpl; [|done].
      by destruct (Module.ObjectsByName s).
Qed.

Lemma GetObjectByOID_sound_and_complete_witness :
  noNilPointers (Some mib_parser_examples.ifIndexModule)
  ∧ range_of (Some mib_parser_examples.ifIndexModule)
      [("ifIndex", Some mib_parser_examples.ifIndexObject)]
  ∧ GetObjectByOID (Some mib_parser_examples.ifIndexModule)
      [("ifIndex", Some mib_parser_examples.ifIndexObject)]
      [1; 3; 6; 1; 2; 1; 2; 2; 1; 1]
    = Return (Some mib_parser_examples.ifIndexObject, true)
  ∧ GetObjectByOID (Some mib_parser_examples.ifIndexModule)
      [("ifIndex", Some mib_parser_examples.ifIndexObject)] [1; 3]
    = Return (None, false).
Proof.
  assert (noNilPointers (Some mib_parser_examples.ifIndexModule)) as Hwf.
  { split; intros entries k [= <-]; rewrite lookup_singleton; by case_decide. }
  assert (range_of (Some mib_parser_examples.ifIndexModule)
            [("ifIndex", Some mib_parser_examples.ifIndexObject)]) as Hv.
  { simpl. by rewrite map_to_list_singleton. }
  split_and!; [done|done|..].
  - destruct (GetObjectByOID_sound_and_complete _ _ [1; 3; 6; 1; 2; 1; 2; 2; 1; 1] Hwf Hv)
      as [(k & o & s & entries & _ & _ & _ & _ & Hres)|[_ Hres]];
      [reflexivity|discriminate Hres].
  - destruct (GetObjectByOID_sound_and_complete _ _ [1; 3] Hwf Hv)
      as [(k & o & s & entries & _ & _ & _ & _ & Hres)|[_ Hres]];
      [discriminate Hres|exact Hres].
Defined.

Lemma lookup_ranges_agree visit oid :
  GetObjectByOIDString_range visit (oidToString oid) = GetObjectByOID_range visit oid.
Proof.
  induction visit as [|[k [o|]] visit IH]; simpl; [done| |done].
  destruct (oidsEqual (ObjectType.OID o) oid) eqn:E.
  - apply oidsEqual_spec in E. rewrite E. by rewrite String.eqb_refl.
  - destruct (String.eqb_spec (oidToString (ObjectType.OID o)) (oidToString oid))
      as [Heq|_]; [|done].
    apply oidToString_inj, oidsEqual_spec in Heq. congruence.
Qed.

(** X3.  Looking an object up by the dotted string of an OID gives the
    result of looking it up by the OID itself: [oidToString] renders
    different OIDs differently, so [GetObjectByOIDString] on
    [oidToString oid] and [GetObjectByOID] on [oid] return the same
    object, or fail alike, for every module and visiting order. *)
Theorem lookup_by_string_agrees_with_lookup_by_oid m visit oid :
  GetObjectByOIDString m visit (oidToString oid) = GetObjectByOID m visit oid
  ∧ (∀ oid', oidToString oid' = oidToString oid → oid' = oid).
Proof.
  split; [|intros oid'; apply oidToString_inj].
  unfold GetObjectByOIDString, GetObjectByOID.
  destruct (nil_or m Module.ObjectsByName) as [[|]|]; simpl; [done| |done].
  apply lookup_ranges_agree.
Qed.

Lemma digits_fuel f1 f2 m :
  0 ≤ m < 10 ^ Z.of_nat f1 → 0 ≤ m < 10 ^ Z.of_nat f2 →
  digits f1 m EmptyString = digits f2 m EmptyString.
Proof.
  revert f2 m. induction f1 as [|f1 IH]; intros f2 m H1 H2.
  - simpl in H1. assert (m = 0) as -> by lia. by destruct f2.
  - destruct (Z.eq_dec m 0) as [->|Hm]; [by destruct f2|].
    destruct f2 as [|f2]; [simpl in H2; lia|].
    rewrite !digits_step by lia. f_equal.
    rewrite !Nat2Z.inj_succ, !Z.pow_succ_r in * by lia.
    apply IH; (split; [apply Z.div_pos; lia|apply Z.div_lt_upper_bound; lia]).
Qed.

Lemma itoa_signed n : minInt64 < n ≤ maxInt64 → itoa n = Sprintf_d n.
Proof.
  intros Hn. destruct (Z.le_gt_cases 0 n) as [Hpos|Hneg].
  { apply itoa_Sprintf_d. lia. }
  unfold itoa, Sprintf_d.
  destruct (Z.eqb_spec n 0); [lia|]. destruct (Z.ltb_spec n 0); [|lia].
  assert (wrap64 (- n) = - n) as ->.
  { unfold wrap64, minInt64 in *. rewrite Z.mod_small; lia. }
  f_equal. apply digits_fuel.
  - unfold minInt64 in Hn. change (Z.of_nat 20) with 20. lia.
  - split; [lia|]. apply pow10_log2. lia.
Qed.

Lemma itoa_minInt64 : itoa minInt64 = "-".
Proof. reflexivity. Qed.

Lemma OIDString_from_signed i s oid :
  Forall (fun n => minInt64 < n ≤ maxInt64) oid →
  OIDString_from i s oid =
    match oid with
    | [] => s
    | _ => (if (0 <? i)%nat then s +:+ "." else s) +:+ oidToString oid
    end.
Proof.
  revert i s. induction oid as [|n oid IH]; intros i s Hall; [done|].
  inversion_clear Hall as [|? ? Hn Hoid]. simpl OIDString_from.
  rewrite IH by done. rewrite itoa_signed by done.
  destruct oid as [|m oid]; [done|].
  unfold oidToString. simpl. by rewrite !append_assoc.
Qed.

(** X4.  [itoa] of [types.go] writes the decimal numeral of every 64-bit
    integer but the least one, for which the negation wraps around and
    the result is the bare sign; hence [OIDString] renders an OID as
    [oidToString] does whenever no component is the least integer,
    negative components included. *)
Theorem itoa_decimal_except_least_integer (n : Z) (oid : list Z) :
  minInt64 ≤ n ≤ maxInt64 →
  Forall (fun k => minInt64 < k ≤ maxInt64) oid →
  itoa n = (if n =? minInt64 then "-" else Sprintf_d n)
  ∧ OIDString oid = oidToString oid.
Proof.
  intros Hn Hoid. split.
  - destruct (Z.eqb_spec n minInt64) as [->|Hne]; [apply itoa_minInt64|].
    apply itoa_signed. lia.
  - unfold OIDString. destruct oid as [|k oid]; [done|].
    simpl Nat.eqb. cbv iota. by rewrite OIDString_from_signed.
Qed.

Lemma itoa_decimal_except_least_integer_witness :
  itoa (-42) = "-42" ∧ OIDString [1; 3; -6] = "1.3.-6".
Proof.
  assert (minInt64 ≤ -42 ≤ maxInt64) as Hn by (unfold minInt64, maxInt64; lia).
  assert (Forall (fun k => minInt64 < k ≤ maxInt64) [1; 3; -6]) as Hoid
    by (repeat constructor; unfold minInt64, maxInt64; lia).
  exact (itoa_decimal_except_least_integer (-42) [1; 3; -6] Hn Hoid).
Defined.

(** X5.  [ParseMIB] returns a module exactly when the parser succeeds,
    and the error of the parser otherwise.  On the module it returns, the
    lookup helpers mirror the parser's result: [GetNodeOIDByName] finds
    the names of nodes, with a copy of the OID, which is the [nil] slice
    for a placeholder, and [GetObjectByName] finds the names of objects,
    with the fields of the parsed object. *)
Theorem ParseMIB_lookups_mirror_parser U mib :
  match parser.Parse U mib with
  | parser.Ok ir =>
      ∃ m, facade.ParseMIB U mib = (Some m, None)
           ∧ Module.Name m = parser.ModuleIR.Name ir
           ∧ ∀ name,
               GetNodeOIDByName (Some m) name =
                 Return (match parser.ModuleIR.NodesByName ir !! name with
                         | Some oid => (copyOID oid, true)
                         | None => (None, false)
                         end)
               ∧ GetObjectByName (Some m) name =
                   Return (match parser.ModuleIR.ObjectsByName ir !! name with
                           | Some obj => (Some (facade.fromObjectTypeIR obj), true)
                           | None => (None, false)
                           end)
  | parser.Err err => facade.ParseMIB U mib = (None, Some err)
  end.
Proof.
  unfold facade.ParseMIB. destruct (parser.Parse U mib) as [ir|err]; [|done].
  eexists. split; [done|]. split; [done|]. intros name.
  unfold GetNodeOIDByName, GetObjectByName, nil_or. simpl. split.
  - rewrite map_lookup_imap. by destruct (_ !! name).
  - rewrite lookup_fmap. by destruct (_ !! name).
Qed.
End PublicHelperProperties.

(** ** The lexer *)

Section LexerProperties.
Import props.
Variable U : Unicode.

Lemma pos_after_snoc pre r : pos_after (pre ++ [r]) = pos_step (pos_after pre) r.
Proof. unfold pos_after. by rewrite fold_left_app. Qed.

Lemma standsIn_advance text l : standsIn text l → standsIn text (advance l).
Proof.
  intros (pre & Htext & Hpos). unfold advance.
  destruct (input l) as [|r rest] eqn:E; [exists pre; by rewrite E|].
  exists (pre ++ [r]). rewrite pos_after_snoc, <- Hpos. unfold pos_step.
  destruct (r =? 10); simpl; (split; [by rewrite <- app_assoc|done]).
Qed.

Lemma standsIn_skipLine text l : standsIn text l → standsIn text (skipLine l).
Proof.
  unfold skipLine.
  apply (while_ind _ _ skipLine_decreases (standsIn text) (standsIn text)).
  intros s Hs. unfold skipLine_body. destruct (_ && _); [|done].
  by apply standsIn_advance.
Qed.

Lemma standsIn_skipWhitespaceAndComments text l :
  standsIn text l → standsIn text (skipWhitespaceAndComments l).
Proof.
  unfold skipWhitespaceAndComments.
  apply (while_ind _ _ skipWhitespaceAndComments_decreases
           (standsIn text) (standsIn text)).
  intros s Hs. unfold skipWhitespaceAndComments_body.
  destruct (eof s); [done|]. destruct (_ || _); [by apply standsIn_advance|].
  destruct (_ && _); [|done].
  by apply standsIn_skipLine, standsIn_advance, standsIn_advance.
Qed.

Lemma standsIn_readIdent text l : standsIn text l → standsIn text (readIdent U l).2.
Proof.
  intros Hl. unfold readIdent.
  set (w := while _ _ _ _).
  assert (standsIn text w.1) as Hw; [|by destruct w].
  apply (while_ind _ _ (readIdent_decreases U)
           (fun st => standsIn text st.1) (fun r => standsIn text r.1));
    [|by apply standsIn_advance].
  intros [s acc] Hs. unfold readIdent_body. simpl in *.
  destruct (eof s); [done|]. destruct (lexer.isIdent U (cur s)); [|done].
  by apply standsIn_advance.
Qed.

Lemma standsIn_readNumber text l : standsIn text l → standsIn text (readNumber U l).2.
Proof.
  intros Hl. unfold readNumber.
  set (w := while _ _ _ _).
  assert (standsIn text w.1) as Hw; [|by destruct w].
  apply (while_ind _ _ (readNumber_decreases U)
           (fun st => standsIn text st.1) (fun r => standsIn text r.1)); [|done].
  intros [s acc] Hs. unfold readNumber_body. simpl in *.
  destruct (_ && _); [|done]. by apply standsIn_advance.
Qed.

Lemma standsIn_readString text l : standsIn text l → standsIn text (readString l).2.
Proof.
  intros Hl. unfold readString.
  set (w := while _ _ _ _).
  assert (standsIn text w.1) as Hw; [|by destruct w].
  apply (while_ind _ _ readString_decreases
           (fun st => standsIn text st.1) (fun r => standsIn text r.1));
    [|by apply standsIn_advance].
  intros [s acc] Hs. unfold readString_body. simpl in *.
  destruct (eof s); [done|].
  destruct (cur s =? 34); [by apply standsIn_advance|].
  destruct (cur s =? 92); [|by apply standsIn_advance].
  destruct (eof (advance s)); [by apply standsIn_advance|].
  by apply standsIn_advance, standsIn_advance.
Qed.

(** What one [advance] does in front of a rune. *)
Lemma advance_spec l :
  eof l = false →
  input l = cur l :: input (advance l)
  ∧ (line (advance l), col (advance l)) = pos_step (line l, col l) (cur l).
Proof.
  unfold eof, cur, advance, pos_step. destruct (input l) as [|r rest]; [done|].
  intros _. simpl. by destruct (r =? 10).
Qed.

Lemma pos_after_app pre s : pos_after (pre ++ s) = fold_left pos_step s (pos_after pre).
Proof. unfold pos_after. by rewrite fold_left_app. Qed.

Lemma lexerAt_standsIn pre l :
  (line l, col l) = pos_after pre → lexerAt pre (input l) = l.
Proof. intros Hpos. unfold lexerAt. rewrite <- Hpos. by destruct l. Qed.

(** Positions tell the places of a text apart. *)
Lemma pos_lt_step pos r : pos_lt pos (pos_step pos r).
Proof. unfold pos_lt, pos_step. destruct (r =? 10); simpl; lia. Qed.

Lemma pos_lt_trans a b c : pos_lt a b → pos_lt b c → pos_lt a c.
Proof. unfold pos_lt. lia. Qed.

Lemma pos_lt_fold s pos : s ≠ [] → pos_lt pos (fold_left pos_step s pos).
Proof.
  revert pos. induction s as [|r s IH]; intros pos Hs; [done|]. simpl.
  destruct s as [|r' s]; [apply pos_lt_step|].
  eapply pos_lt_trans; [apply pos_lt_step|by apply IH].
Qed.

Lemma pos_after_inj (text pre1 rest1 pre2 rest2 : list Z) :
  text = pre1 ++ rest1 → text = pre2 ++ rest2 →
  pos_after pre1 = pos_after pre2 → pre1 = pre2.
Proof.
  intros -> Heq Hpos.
  assert (∀ pre d : list Z, pos_after pre = pos_after (pre ++ d) → d = []) as Hnil.
  { intros pre d Hd. destruct d as [|r d]; [done|]. exfalso.
    pose proof (pos_lt_fold (r :: d) (pos_after pre) ltac:(done)) as Hlt.
    rewrite <- pos_after_app, <- Hd in Hlt. unfold pos_lt in Hlt. lia. }
  apply app_eq_inv in Heq as [(d & -> & _)|(d & -> & _)].
  - symmetry in Hpos. apply Hnil in Hpos as ->. by rewrite app_nil_r.
  - apply Hnil in Hpos as ->. by rewrite app_nil_r.
Qed.

(** Where the skip of white space and comments stops, there is nothing
    to skip. *)
Lemma skipWhitespaceAndComments_body_Break l r :
  skipWhitespaceAndComments_body l = Break r → r = l.
Proof.
  unfold skipWhitespaceAndComments_body. destruct (eof l); [by intros [= <-]|].
  destruct (_ || _); [done|]. destruct (_ && _); [done|by intros [= <-]].
Qed.

Lemma skipWhitespaceAndComments_fixed l :
  skipWhitespaceAndComments_body (skipWhitespaceAndComments l)
    = Break (skipWhitespaceAndComments l).
Proof.
  unfold skipWhitespaceAndComments.
  apply (while_ind _ _ skipWhitespaceAndComments_decreases (fun _ => True)
           (fun r => skipWhitespaceAndComments_body r = Break r)); [|done].
  intros s _. destruct (skipWhitespaceAndComments_body s) as [s'|r] eqn:Hb; [done|].
  by pose proof (skipWhitespaceAndComments_body_Break _ _ Hb) as ->.
Qed.

Lemma skipWhitespaceAndComments_idem l :
  skipWhitespaceAndComments (skipWhitespaceAndComments l) = skipWhitespaceAndComments l.
Proof.
  unfold skipWhitespaceAndComments at 1.
  rewrite (while_unfold _ _ skipWhitespaceAndComments_decreases).
  by rewrite skipWhitespaceAndComments_fixed.
Qed.

(** The token that [Next] returns is the one it reads where the skip of
    white space and comments has stopped. *)
Lemma Next_at_token l r :
  Next_body U l = Break r → Next U (skipWhitespaceAndComments l) = r.
Proof.
  intros Hb. unfold Next. rewrite (while_unfold _ _ (Next_decreases U)).
  assert (Next_body U (skipWhitespaceAndComments l) = Next_body U l) as ->;
    [|by rewrite Hb].
  unfold Next_body. by rewrite skipWhitespaceAndComments_idem.
Qed.

Lemma readIdent_token l :
  Typ (readIdent U l).1 = TokenIdent
  ∧ Line (readIdent U l).1 = line l ∧ Col (readIdent U l).1 = col l.
Proof. unfold readIdent. by destruct (while _ _ _ _). Qed.

Lemma readNumber_token l :
  Typ (readNumber U l).1 = TokenNumber
  ∧ Line (readNumber U l).1 = line l ∧ Col (readNumber U l).1 = col l.
Proof. unfold readNumber. by destruct (while _ _ _ _). Qed.

Lemma readString_token l :
  Typ (readString l).1 = TokenString
  ∧ Line (readString l).1 = line l ∧ Col (readString l).1 = col l.
Proof. unfold readString. by destruct (while _ _ _ _). Qed.

Lemma tokenPositioned_start text s (t : Token) :
  standsIn text s → eof s = false → (Next U s).1 = t →
  Line t = line s → Col t = col s →
  match Typ t with
  | TokenIdent | TokenNumber | TokenString => startsToken U (Typ t) (cur s) = true
  | _ => False
  end →
  tokenPositioned U text t.
Proof.
  intros (pre & Htext & Hpos) He HN Hline Hcol Hty.
  exists pre, (input s). split; [done|].
  rewrite (lexerAt_standsIn pre s Hpos). split; [done|].
  rewrite Hline, Hcol.
  destruct (advance_spec s He) as [Hin _].
  destruct (Typ t); try done; (split; [by eexists _, _|done]).
Qed.

(** A punctuation token whose text is the [k] characters [w] that were
    read, with the lexer [s'] behind them. *)
Lemma tokenPositioned_behind text s s' w ty str :
  standsIn text s → eof s = false → punctuation (cur s) = true →
  input s = w ++ input s' →
  (line s', col s') = fold_left pos_step w (line s, col s) →
  runes_of_string str = w → str ≠ EmptyString →
  (Next U s).1 = mk s' ty str →
  match ty with
  | TokenEOF | TokenIdent | TokenNumber | TokenString => False
  | _ => True
  end →
  tokenPositioned U text (mk s' ty str).
Proof.
  intros (pre & Htext & Hpos) He Hp Hin Hpos' Hstr Hne HN Hty.
  exists pre, (input s). split; [done|].
  rewrite (lexerAt_standsIn pre s Hpos). split; [done|].
  destruct (advance_spec s He) as [Hcur _].
  assert ((∃ r rest', input s = r :: rest' ∧ punctuation r = true)
          ∧ (∃ rest', input s = runes_of_string (Text (mk s' ty str)) ++ rest')
          ∧ Text (mk s' ty str) ≠ EmptyString
          ∧ (Line (mk s' ty str), Col (mk s' ty str))
            = pos_after (pre ++ runes_of_string (Text (mk s' ty str)))) as H.
  { simpl. rewrite Hstr. split_and!; [by eexists _, _|by eexists|done|].
    by rewrite pos_after_app, <- Hpos. }
  by destruct ty.
Qed.

Lemma tokenPositioned_punct text s ty str :
  standsIn text s → eof s = false → punctuation (cur s) = true →
  runes_of_string str = [cur s] →
  (Next U s).1 = (punct s ty str).1 →
  match ty with
  | TokenEOF | TokenIdent | TokenNumber | TokenString => False
  | _ => True
  end →
  tokenPositioned U text (punct s ty str).1.
Proof.
  intros Hs He Hp Hstr HN Hty. unfold punct in *. cbv zeta in *. simpl in *.
  destruct (advance_spec s He) as [Hin Hpos].
  apply (tokenPositioned_behind text s (advance s) [cur s]); try done.
  intros ->. simpl in Hstr. done.
Qed.

Lemma tokenPositioned_readColonAssign text s :
  standsIn text s → eof s = false → cur s = 58 →
  (Next U s).1 = (readColonAssign s).1 →
  tokenPositioned U text (readColonAssign s).1.
Proof.
  intros Hs He Hc. unfold readColonAssign. cbv zeta.
  destruct (advance_spec s He) as [Hin Hpos]. rewrite Hc in Hin, Hpos.
  assert (punctuation (cur s) = true) as Hp by (by rewrite Hc).
  destruct (eof (advance s)) eqn:He1; simpl.
  { intros HN. by apply (tokenPositioned_behind text s (advance s) [58]). }
  destruct (cur (advance s) =? 58) eqn:Hc1; simpl.
  2:{ intros HN. by apply (tokenPositioned_behind text s (advance s) [58]). }
  apply Z.eqb_eq in Hc1.
  destruct (advance_spec (advance s) He1) as [Hin1 Hpos1]. rewrite Hc1 in Hin1, Hpos1.
  assert (input s = [58; 58] ++ input (advance (advance s))) as Hin2
    by (by rewrite Hin, Hin1 at 1).
  assert ((line (advance (advance s)), col (advance (advance s)))
          = fold_left pos_step [58; 58] (line s, col s)) as Hpos2
    by (simpl; by rewrite <- Hpos).
  destruct (eof (advance (advance s))) eqn:He2; simpl.
  { intros HN. by apply (tokenPositioned_behind text s (advance (advance s)) [58; 58]). }
  destruct (cur (advance (advance s)) =? 61) eqn:Hc2; simpl.
  2:{ intros HN.
      by apply (tokenPositioned_behind text s (advance (advance s)) [58; 58]). }
  apply Z.eqb_eq in Hc2.
  destruct (advance_spec (advance (advance s)) He2) as [Hin3 Hpos3].
  rewrite Hc2 in Hin3, Hpos3.
  intros HN.
  apply (tokenPositioned_behind text s (advance (advance (advance s))) [58; 58; 61]);
    try done.
  - by rewrite Hin, Hin1, Hin3 at 1.
  - simpl. by rewrite <- Hpos, <- Hpos1.
Qed.

Ltac cur_is :=
  match goal with
  | H : cur _ = _ |- _ => rewrite H; reflexivity
  end.

Lemma Next_body_positioned text l :
  standsIn text l →
  match Next_body U l with
  | Continue l' => standsIn text l'
  | Break r => tokenPositioned U text r.1 ∧ standsIn text r.2
  end.
Proof.
  intros Hl.
  pose proof (Next_at_token l) as HN.
  revert HN. unfold Next_body.
  pose proof (standsIn_skipWhitespaceAndComments text l Hl) as Hs.
  set (s := skipWhitespaceAndComments l) in *. intros HN.
  destruct (eof s) eqn:He.
  { split; [|done]. specialize (HN _ eq_refl).
    destruct Hs as (pre & Htext & Hpos).
    exists pre, (input s). split; [done|].
    rewrite (lexerAt_standsIn pre s Hpos). rewrite HN. split; [done|]. simpl.
    unfold eof in He. by destruct (input s). }
  destruct (isIdentStart U (cur s)) eqn:Hi.
  { split; [|by apply standsIn_readIdent]. specialize (HN _ eq_refl).
    destruct (readIdent_token s) as (Ht & Hline & Hcol).
    apply (tokenPositioned_start text s); [done|done|by rewrite HN|done|done|].
    by rewrite Ht. }
  destruct (unicode_IsDigit U (cur s)) eqn:Hd.
  { split; [|by apply standsIn_readNumber]. specialize (HN _ eq_refl).
    destruct (readNumber_token s) as (Ht & Hline & Hcol).
    apply (tokenPositioned_start text s); [done|done|by rewrite HN|done|done|].
    by rewrite Ht. }
  destruct (cur s =? 34) eqn:Hq.
  { split; [|by apply standsIn_readString]. specialize (HN _ eq_refl).
    destruct (readString_token s) as (Ht & Hline & Hcol).
    apply (tokenPositioned_start text s); [done|done|by rewrite HN|done|done|].
    by rewrite Ht. }
  repeat match goal with
         | |- context [if cur s =? ?c then _ else _] =>
             destruct (cur s =? c) eqn:?;
               [specialize (HN _ eq_refl);
                match goal with
                | H : (cur s =? _) = true |- _ => apply Z.eqb_eq in H
                end;
                first
                  [ split; [|by apply (standsIn_advance text s)];
                    apply tokenPositioned_punct;
                    [done|done|cur_is|cur_is|by rewrite HN|done]
                  | split;
                    [apply tokenPositioned_readColonAssign;
                     [done|done|done|by rewrite HN]
                    |] ]
               |]
         end.
  - unfold readColonAssign. cbv zeta.
    destruct (eof (advance s) || negb (cur (advance s) =? 58)); simpl;
      [by apply standsIn_advance|].
    destruct (eof (advance (advance s)) || negb (cur (advance (advance s)) =? 61));
      simpl; [by do 2 apply standsIn_advance|by do 3 apply standsIn_advance].
  - by apply standsIn_advance.
Qed.

Lemma Next_positioned text l :
  standsIn text l →
  tokenPositioned U text (Next U l).1 ∧ standsIn text (Next U l).2.
Proof.
  unfold Next.
  apply (while_ind _ _ (Next_decreases U) (standsIn text)
           (fun r => tokenPositioned U text r.1 ∧ standsIn text r.2)).
  intros s Hs. apply Next_body_positioned, Hs.
Qed.

Lemma standsIn_New text : standsIn text (New text).
Proof. by exists []. Qed.

Lemma Tokens_positioned (input : list Z) :
  Forall (tokenPositioned U input) (tokens (Tokens U (New input)))
  ∧ tokenPositioned U input (last (Tokens U (New input))).
Proof.
  unfold Tokens.
  apply (while_ind _ _ (Tokens_decreases U)
           (fun st => standsIn input st.1 ∧ Forall (tokenPositioned U input) st.2)
           (fun ts => Forall (tokenPositioned U input) (tokens ts)
                      ∧ tokenPositioned U input (last ts)));
    [|split; [apply standsIn_New|constructor]].
  intros [l acc] [Hl Hacc]. simpl in *. unfold Tokens_body.
  destruct (Next_positioned input l Hl) as [Ht Hl'].
  destruct (Next U l) as [t l']. simpl in *.
  case_bool_decide; simpl; [done|]. split; [done|].
  apply Forall_app. by split; [|constructor].
Qed.

(** X6.  Every token carries its own position in the input, counted in
    lines and columns from 1:1 with a line feed ending a line.  The
    input splits at the first rune of the token, [Next] called there
    returns the token, and the line and the column that the token
    carries are those of that place for an identifier, a number and a
    string, those of the place behind its last character for a
    punctuation token, and those of the end of the input for the final
    [TokenEOF].  Two different places of the input never have the same
    line and column. *)
Theorem tokens_carry_their_position (input : list Z) :
  Forall (tokenPositioned U input) (tokens (Tokens U (New input)))
  ∧ tokenPositioned U input (last (Tokens U (New input)))
  ∧ (∀ pre1 rest1 pre2 rest2,
       input = pre1 ++ rest1 → input = pre2 ++ rest2 →
       pos_after pre1 = pos_after pre2 → pre1 = pre2).
Proof.
  destruct (Tokens_positioned input) as [Htokens Hlast].
  split_and!; [done..|]. apply pos_after_inj.
Qed.

Lemma Tokens_shape (input : list Z) :
  Forall (fun t => Typ t ≠ TokenEOF) (tokens (Tokens U (New input)))
  ∧ Typ (last (Tokens U (New input))) = TokenEOF
  ∧ (length (tokens (Tokens U (New input))) ≤ length input)%nat.
Proof.
  unfold Tokens.
  apply (while_ind _ _ (Tokens_decreases U)
           (fun st => Forall (fun t => Typ t ≠ TokenEOF) st.2
                      ∧ (length st.2 + unread st.1 ≤ length input)%nat)
           (fun ts => Forall (fun t => Typ t ≠ TokenEOF) (tokens ts)
                      ∧ Typ (last ts) = TokenEOF
                      ∧ (length (tokens ts) ≤ length input)%nat));
    [|split; [constructor|simpl; unfold unread; simpl; lia]].
  intros [l acc] [Hacc Hlen]. simpl in *. unfold Tokens_body.
  destruct (Next_consumes U l) as [_ Hlt].
  destruct (Next U l) as [t l']. simpl in *.
  case_bool_decide as Ht; simpl.
  - split_and!; [done..|lia].
  - split; [apply Forall_app; by split; [|constructor]|].
    rewrite length_app. simpl. specialize (Hlt Ht). lia.
Qed.

(** X7.  The lexer ends on every input, within one round of its loop per
    rune: the token sequence of an input is reached with fuel for
    [length input + 1] rounds.  None of the tokens before the last is
    [TokenEOF], the last one is, and there are no more tokens than runes.
    A call of [Next] never gives input back, and it consumes input unless
    it returns [TokenEOF]. *)
Theorem lexer_ends_with_one_EOF (input : list Z) :
  loop (Tokens_body U) (S (length input)) (New input, [])
    = Some (Tokens U (New input))
  ∧ Forall (fun t => Typ t ≠ TokenEOF) (tokens (Tokens U (New input)))
  ∧ Typ (last (Tokens U (New input))) = TokenEOF
  ∧ (length (tokens (Tokens U (New input))) ≤ length input)%nat
  ∧ ∀ l, (unread (Next U l).2 ≤ unread l)%nat
         ∧ (Typ (Next U l).1 ≠ TokenEOF → (unread (Next U l).2 < unread l)%nat).
Proof.
  split; [apply (Tokens_total U)|].
  destruct (Tokens_shape input) as (H1 & H2 & H3).
  split_and!; [done..|]. apply (Next_consumes U).
Qed.

(** *** What the lexer reads *)

Lemma while_default {St R : Type} (body : St → ctl St R) (μ : St → nat) :
  (∀ s s', body s = Continue s' → (μ s' < μ s)%nat) →
  ∀ d1 d2 s, while μ d1 body s = while μ d2 body s.
Proof.
  intros Hdec d1 d2 s.
  pose proof (while_fuel body μ Hdec d1 s) as H1.
  pose proof (while_fuel body μ Hdec d2 s) as H2. congruence.
Qed.

Lemma advance_cons l r rest :
  input l = r :: rest → r ≠ 10 →
  advance l = mkLexer rest (line l) (col l + 1).
Proof.
  intros Hin Hr. unfold advance. rewrite Hin.
  destruct (Z.eqb_spec r 10); [done|reflexivity].
Qed.

Lemma Lexer_eta l : l = mkLexer (input l) (line l) (col l).
Proof. by destruct l. Qed.

(** The lexer has nothing to skip in front of a rune that is neither
    white space nor a hyphen. *)
Lemma skipWhitespaceAndComments_stop l r rest :
  input l = r :: rest →
  (r =? 32) || (r =? 9) || (r =? 13) || (r =? 10) = false →
  r ≠ 45 →
  skipWhitespaceAndComments l = l.
Proof.
  intros Hin Hws Hhy. unfold skipWhitespaceAndComments.
  rewrite (while_unfold _ _ skipWhitespaceAndComments_decreases).
  unfold skipWhitespaceAndComments_body, eof, cur. rewrite Hin. simpl.
  rewrite Hws. by destruct (Z.eqb_spec r 45).
Qed.

Lemma asciiDigit_IsDigit r : asciiDigit r = true → unicode_IsDigit U r = true.
Proof.
  unfold asciiDigit, unicode_IsDigit. intros H.
  destruct (Z.ltb_spec r 128); [done|lia].
Qed.

Lemma asciiLetter_IsLetter r : asciiLetter r = true → unicode_IsLetter U r = true.
Proof.
  unfold asciiLetter, unicode_IsLetter. intros H.
  destruct (Z.ltb_spec r 128); [done|lia].
Qed.

Lemma asciiDigit_not_letter r : asciiDigit r = true → unicode_IsLetter U r = false.
Proof.
  unfold asciiDigit, unicode_IsLetter. intros H.
  destruct (Z.ltb_spec r 128); lia.
Qed.

Lemma digitValue_rune c d :
  digitValue c = Some d → asciiDigit (Z_of_byte c) = true ∧ d = Z_of_byte c - 48.
Proof.
  unfold digitValue, asciiDigit. destruct (_ && _); [|done]. by intros [= <-].
Qed.

Lemma parseDecimal_from_ge s acc v :
  parseDecimal_from s acc = Some v → 0 ≤ acc → acc ≤ v.
Proof.
  revert acc. induction s as [|c s IH]; intros acc; simpl.
  - intros [= <-]. lia.
  - destruct (digitValue c) as [d|] eqn:Hd; [|done]. intros Hv Hacc.
    apply digitValue_rune in Hd as [Hd ->]. unfold asciiDigit in Hd.
    apply IH in Hv; lia.
Qed.

Lemma readNumber_loop s : ∀ rest dflt l acc v,
  input l = runes_of_string s ++ rest →
  endsBefore (unicode_IsDigit U) rest →
  parseDecimal_from s acc = Some v → 0 ≤ acc → v ≤ maxInt64 →
  while (fun st => unread st.1) dflt (readNumber_body U) (l, acc) =
    (mkLexer rest (line l) (col l + Z.of_nat (String.length s)), v).
Proof.
  induction s as [|c s IH]; intros rest dflt l acc v Hin Hend Hv Hacc Hmax;
    rewrite (while_unfold _ _ (readNumber_decreases U)); unfold readNumber_body at 1.
  - simpl in *. injection Hv as <-. unfold eof, cur. rewrite Hin.
    assert (mkLexer rest (line l) (col l + Z.of_nat 0) = l) as ->.
    { change (Z.of_nat 0) with 0. rewrite Z.add_0_r, <- Hin. symmetry. apply Lexer_eta. }
    destruct rest as [|r rest]; [done|]. simpl in *. by rewrite Hend.
  - simpl in Hv. destruct (digitValue c) as [d|] eqn:Hd; [|done].
    apply digitValue_rune in Hd as [Hd ->].
    change (runes_of_string (String c s)) with (Z_of_byte c :: runes_of_string s) in Hin.
    unfold eof, cur. rewrite Hin. simpl. rewrite (asciiDigit_IsDigit _ Hd).
    pose proof (parseDecimal_from_ge _ _ _ Hv) as Hge. unfold asciiDigit in Hd.
    rewrite wrap64_id by (unfold minInt64; lia).
    rewrite (advance_cons l _ _ Hin) by lia.
    rewrite (IH rest dflt _ _ v); [|done|done|done|lia|done]. simpl.
    do 2 f_equal. lia.
Qed.

(** X8.  The lexer reads a decimal numeral back as the number it denotes:
    on a text that starts with a string [s] of decimal digits of value
    [v], not above the greatest 64-bit integer and not followed by a
    further digit, [Next] returns the number token with [Int = v], an
    empty [Text] and the position of the first digit, and stands behind
    the numeral.  (The numerals that [%d] prints for non-negative numbers
    are such strings.) *)
Theorem lexer_reads_decimal_numbers l s rest v :
  input l = runes_of_string s ++ rest →
  parseDecimal s = Some v → v ≤ maxInt64 →
  endsBefore (unicode_IsDigit U) rest →
  Next U l =
    (mkToken TokenNumber EmptyString v (line l) (col l),
     mkLexer rest (line l) (col l + Z.of_nat (String.length s)))
  ∧ (0 ≤ v → parseDecimal (Sprintf_d v) = Some v).
Proof.
  intros Hin Hv Hmax Hend. split; [|apply parseDecimal_Sprintf_d].
  destruct s as [|c s]; [done|]. unfold parseDecimal in Hv.
  assert (asciiDigit (Z_of_byte c) = true) as Hd.
  { simpl in Hv. destruct (digitValue c) as [d|] eqn:Hd; [|done].
    by apply digitValue_rune in Hd as [Hd _]. }
  change (runes_of_string (String c s)) with (Z_of_byte c :: runes_of_string s) in Hin.
  unfold Next. rewrite (while_unfold _ _ (Next_decreases U)). unfold Next_body.
  unfold asciiDigit in Hd.
  rewrite (skipWhitespaceAndComments_stop l _ _ Hin);
    [|repeat (apply orb_false_intro); lia|lia].
  unfold eof, cur, isIdentStart. rewrite Hin. simpl.
  rewrite asciiDigit_not_letter, asciiDigit_IsDigit by (unfold asciiDigit; lia).
  unfold readNumber.
  rewrite (readNumber_loop (String c s) rest _ l 0 v); try done.
Qed.

Lemma Z_of_byte_of_Z r : 0 ≤ r < 256 → Z_of_byte (byte_of_Z r) = r.
Proof.
  intros Hr. unfold Z_of_byte, byte_of_Z.
  rewrite N_ascii_embedding by lia. lia.
Qed.

Lemma runes_of_string_of_runes s :
  Forall (fun r => 0 ≤ r ≤ 127) s → runes_of_string (string_of_runes s) = s.
Proof.
  unfold runes_of_string, string_of_runes. rewrite list_ascii_of_string_of_list_ascii.
  induction 1 as [|r s Hr Hs IH]; [done|]. simpl.
  unfold encodeRune.
  destruct (Z.ltb_spec r 0); [lia|]. destruct (Z.ltb_spec 0x10FFFF r); [lia|].
  destruct (Z.leb_spec 0xD800 r); [lia|]. simpl.
  destruct (Z.leb_spec r 0x7F); [|lia]. simpl.
  rewrite Z_of_byte_of_Z by lia. f_equal. exact IH.
Qed.

Lemma identChar_isIdent r : identChar r = true → lexer.isIdent U r = true ∧ r ≠ 10.
Proof.
  unfold identChar, lexer.isIdent. intros H. split.
  - apply orb_true_iff in H as [H|H]; [apply orb_true_iff in H as [H|H]|].
    + by rewrite asciiLetter_IsLetter.
    + rewrite asciiDigit_IsDigit by done. by rewrite orb_true_r.
    + rewrite H. by rewrite orb_true_r.
  - unfold asciiLetter, asciiDigit in H. lia.
Qed.

Lemma identChar_ascii r : identChar r = true → 0 ≤ r ≤ 127.
Proof. unfold identChar, asciiLetter, asciiDigit. lia. Qed.

Lemma readIdent_loop s : ∀ rest dflt l acc,
  input l = s ++ rest →
  forallb identChar s = true →
  endsBefore (lexer.isIdent U) rest →
  while (fun st => unread st.1) dflt (readIdent_body U) (l, acc) =
    (mkLexer rest (line l) (col l + Z.of_nat (length s)), acc ++ s).
Proof.
  induction s as [|r s IH]; intros rest dflt l acc Hin Hs Hend;
    rewrite (while_unfold _ _ (readIdent_decreases U)); unfold readIdent_body at 1.
  - simpl in *. unfold eof, cur. rewrite Hin, app_nil_r.
    assert (mkLexer rest (line l) (col l + Z.of_nat 0) = l) as ->.
    { change (Z.of_nat 0) with 0. rewrite Z.add_0_r, <- Hin. symmetry. apply Lexer_eta. }
    destruct rest as [|r rest]; [done|]. simpl in *. by rewrite Hend.
  - simpl in Hs. apply andb_true_iff in Hs as [Hr Hs].
    apply identChar_isIdent in Hr as [Hr Hnl].
    simpl in Hin. unfold eof, cur. rewrite Hin. simpl. rewrite Hr.
    rewrite (advance_cons l _ _ Hin) by done.
    rewrite (IH rest dflt _ _); [|done..]. simpl.
    rewrite <- app_assoc. simpl. do 2 f_equal. lia.
Qed.

(** X9.  The lexer reads an ASCII identifier as one token: on a text that
    starts with a letter followed by letters, digits and hyphens (two
    hyphens in a row included, which do not start a comment there), not
    followed by a further identifier character, [Next] returns the
    identifier token whose [Text] is that word, one byte per character,
    with the position of its first character, and stands behind the
    word. *)
Theorem lexer_reads_ascii_identifiers l s rest :
  input l = s ++ rest →
  asciiIdentifier s = true →
  endsBefore (lexer.isIdent U) rest →
  Next U l =
    (mkToken TokenIdent (string_of_runes s) 0 (line l) (col l),
     mkLexer rest (line l) (col l + Z.of_nat (length s)))
  ∧ runes_of_string (string_of_runes s) = s.
Proof.
  intros Hin Hs Hend. destruct s as [|r s]; [done|]. simpl in Hs.
  apply andb_true_iff in Hs as [Hr Hs]. split.
  - simpl in Hin.
    unfold Next. rewrite (while_unfold _ _ (Next_decreases U)). unfold Next_body.
    pose proof Hr as Hr'. unfold asciiLetter in Hr'.
    rewrite (skipWhitespaceAndComments_stop l _ _ Hin);
      [|repeat (apply orb_false_intro); lia|lia].
    unfold eof, cur, isIdentStart. rewrite Hin. simpl.
    rewrite (asciiLetter_IsLetter _ Hr).
    unfold readIdent, cur. rewrite Hin. simpl hd.
    rewrite (advance_cons l _ _ Hin) by lia.
    rewrite (readIdent_loop s rest); [|done..]. cbv beta iota. simpl length.
    rewrite Nat2Z.inj_succ. simpl line. simpl col. do 2 f_equal. lia.
  - apply runes_of_string_of_runes. constructor.
    + unfold asciiLetter in Hr. lia.
    + apply Forall_forall. intros x Hx. apply identChar_ascii.
      rewrite forallb_forall in Hs. by apply Hs, list_elem_of_In.
Qed.

Lemma input_advance l r rest : input l = r :: rest → input (advance l) = rest.
Proof. intros Hin. unfold advance. rewrite Hin. by destruct (r =? 10). Qed.

Lemma advanceBy_succ k l : advanceBy (S k) l = advanceBy k (advance l).
Proof. unfold advanceBy. apply Nat.iter_succ_r. Qed.

Lemma input_advanceBy k l : input (advanceBy k l) = drop k (input l).
Proof.
  revert l. induction k as [|k IH]; intros l; [by rewrite drop_0|].
  rewrite advanceBy_succ, IH. unfold advance.
  destruct (input l) as [|r rest] eqn:E; [by rewrite E, !drop_nil|].
  by destruct (r =? 10).
Qed.

Lemma readString_loop body : ∀ closing dflt l acc,
  input l = body ++ closing →
  Forall (fun r => r ≠ 34 ∧ r ≠ 92) body →
  closing = [] ∨ (∃ rest, closing = 34 :: rest) →
  while (fun st => unread st.1) dflt readString_body (l, acc) =
    (advanceBy (length (body ++ take 1 closing)) l, acc ++ body).
Proof.
  induction body as [|r body IH]; intros closing dflt l acc Hin Hbody Hclosing;
    rewrite (while_unfold _ _ readString_decreases); unfold readString_body at 1.
  - simpl in *. unfold eof, cur. rewrite Hin, app_nil_r.
    destruct Hclosing as [->|[rest ->]]; [done|]. simpl. done.
  - inversion_clear Hbody as [|? ? [Hq Hb] Hbody']. simpl in Hin.
    unfold eof, cur. rewrite Hin. simpl.
    destruct (Z.eqb_spec r 34); [done|]. destruct (Z.eqb_spec r 92); [done|].
    rewrite (IH closing dflt (advance l) (acc ++ [r]));
      [|by eapply input_advance|done..].
    rewrite <- app_assoc. f_equal. symmetry.
    exact (advanceBy_succ (length (body ++ take 1 closing)) l).
Qed.

(** X10.  The lexer reads a string literal up to the closing quote, or to
    the end of the input when the quote is missing, which is no error:
    on a text that starts with a quote, a body without quote and
    backslash, and then either nothing or a quote, [Next] returns the
    string token whose [Text] is the body, with the position of the
    opening quote, and stands behind the closing quote, or at the end. *)
Theorem lexer_reads_string_literals l body closing :
  input l = 34 :: body ++ closing →
  Forall (fun r => r ≠ 34 ∧ r ≠ 92) body →
  closing = [] ∨ (∃ rest, closing = 34 :: rest) →
  Next U l =
    (mkToken TokenString (string_of_runes body) 0 (line l) (col l),
     advanceBy (length (34 :: body ++ take 1 closing)) l)
  ∧ input (Next U l).2 = tl closing.
Proof.
  intros Hin Hbody Hclosing.
  assert (Next U l =
            (mkToken TokenString (string_of_runes body) 0 (line l) (col l),
             advanceBy (length (34 :: body ++ take 1 closing)) l)) as HN.
  { unfold Next. rewrite (while_unfold _ _ (Next_decreases U)). unfold Next_body.
    rewrite (skipWhitespaceAndComments_stop l _ _ Hin); [|done..].
    unfold eof, cur, isIdentStart, unicode_IsLetter, unicode_IsDigit.
    rewrite Hin. simpl.
    unfold readString.
    rewrite (readString_loop body closing _ (advance l) []);
      [|by eapply input_advance|done..].
    simpl app. f_equal. symmetry.
    exact (advanceBy_succ (length (body ++ take 1 closing)) l). }
  split; [done|]. rewrite HN. cbn [snd]. rewrite input_advanceBy, Hin.
  change (length (34 :: body ++ take 1 closing))
    with (S (length (body ++ take 1 closing))).
  cbn [drop]. destruct Hclosing as [->|[rest ->]].
  - by rewrite drop_all.
  - cbn [take tl]. rewrite (cons_middle 34 body rest), app_assoc.
    by rewrite drop_app_length.
Qed.

Lemma skipLine_loop body : ∀ tail dflt l,
  input l = body ++ tail →
  Forall (fun r => r ≠ 10) body →
  tail = [] ∨ (∃ rest, tail = 10 :: rest) →
  while unread dflt skipLine_body l =
    mkLexer tail (line l) (col l + Z.of_nat (length body)).
Proof.
  induction body as [|r body IH]; intros tail dflt l Hin Hbody Htail;
    rewrite (while_unfold _ _ skipLine_decreases); unfold skipLine_body at 1.
  - simpl in *. unfold eof, cur. rewrite Hin.
    assert (mkLexer tail (line l) (col l + Z.of_nat 0) = l) as ->.
    { change (Z.of_nat 0) with 0. rewrite Z.add_0_r, <- Hin. symmetry. apply Lexer_eta. }
    by destruct Htail as [->|[rest ->]].
  - inversion_clear Hbody as [|? ? Hr Hbody']. simpl in Hin.
    unfold eof, cur. rewrite Hin. simpl. destruct (Z.eqb_spec r 10); [done|]. simpl.
    rewrite (advance_cons l _ _ Hin) by done.
    rewrite (IH tail dflt _); [|done..]. simpl. f_equal. lia.
Qed.

(** X11.  A comment yields no token: on a text that starts with two
    hyphens and goes on to the end of the line or of the input, [Next]
    returns what it returns on the text behind the comment, at the
    position behind the comment. *)
Theorem comment_yields_no_token l body tail :
  input l = 45 :: 45 :: body ++ tail →
  Forall (fun r => r ≠ 10) body →
  tail = [] ∨ (∃ rest, tail = 10 :: rest) →
  Next U l = Next U (mkLexer tail (line l) (col l + 2 + Z.of_nat (length body))).
Proof.
  intros Hin Hbody Htail.
  set (l2 := mkLexer tail (line l) (col l + 2 + Z.of_nat (length body))).
  assert (skipWhitespaceAndComments l = skipWhitespaceAndComments l2) as Hskip.
  { unfold skipWhitespaceAndComments at 1.
    rewrite (while_unfold _ _ skipWhitespaceAndComments_decreases).
    unfold skipWhitespaceAndComments_body at 1, eof, cur, peekChar.
    rewrite Hin. simpl.
    rewrite (advance_cons l _ _ Hin) by done.
    erewrite (advance_cons (mkLexer _ _ _)); [|reflexivity|done]. simpl.
    unfold skipLine. rewrite (skipLine_loop body tail); [|done..]. simpl.
    replace (col l + 1 + 1 + Z.of_nat (length body))
      with (col l + 2 + Z.of_nat (length body)) by lia.
    apply (while_default _ _ skipWhitespaceAndComments_decreases). }
  assert (Next_body U l = Next_body U l2) as Hbody2.
  { unfold Next_body. by rewrite Hskip. }
  unfold Next.
  rewrite (while_unfold _ _ (Next_decreases U) _ l).
  rewrite (while_unfold _ _ (Next_decreases U) _ l2).
  rewrite Hbody2. destruct (Next_body U l2); [|done].
  apply (while_default _ _ (Next_decreases U)).
Qed.

(** An identifier token has a text. *)
Lemma encodeRune_nonempty r : encodeRune r ≠ [].
Proof. unfold encodeRune. by repeat case_match. Qed.

Lemma string_of_runes_nonempty s : s ≠ [] → string_of_runes s ≠ EmptyString.
Proof.
  destruct s as [|r s]; [done|]. intros _. unfold string_of_runes. simpl.
  pose proof (encodeRune_nonempty r) as Hr. by destruct (encodeRune r).
Qed.

Lemma readIdent_text l : Text (readIdent U l).1 ≠ EmptyString.
Proof.
  unfold readIdent. set (w := while _ _ _ _).
  assert (w.2 ≠ []) as Hw; [|destruct w; by apply string_of_runes_nonempty].
  apply (while_ind _ _ (readIdent_decreases U)
           (fun st => st.2 ≠ []) (fun r => r.2 ≠ [])); [|done].
  intros [s acc] Hs. unfold readIdent_body. simpl in *.
  destruct (eof s); [done|]. destruct (lexer.isIdent U (cur s)); [|done].
  simpl. by destruct acc.
Qed.

Lemma Next_ident_text l :
  Typ (Next U l).1 = TokenIdent → Text (Next U l).1 ≠ EmptyString.
Proof.
  unfold Next.
  apply (while_ind _ _ (Next_decreases U) (fun _ => True)
           (fun r => Typ r.1 = TokenIdent → Text r.1 ≠ EmptyString)); [|done].
  intros s _. unfold Next_body.
  destruct (eof _); [done|].
  destruct (isIdentStart U _); [intros _; apply readIdent_text|].
  destruct (unicode_IsDigit U _).
  { by destruct (readNumber_token (skipWhitespaceAndComments s)) as (-> & _). }
  destruct (_ =? 34).
  { by destruct (readString_token (skipWhitespaceAndComments s)) as (-> & _). }
  repeat (destruct (_ =? _); [try done|]); [|done].
  unfold readColonAssign. by repeat case_match.
Qed.

Lemma Tokens_ident_text (input : list Z) :
  Forall (fun t => Typ t = TokenIdent → Text t ≠ EmptyString)
         (tokens (Tokens U (New input))).
Proof.
  unfold Tokens.
  apply (while_ind _ _ (Tokens_decreases U)
           (fun st => Forall (fun t => Typ t = TokenIdent → Text t ≠ EmptyString) st.2)
           (fun ts => Forall (fun t => Typ t = TokenIdent → Text t ≠ EmptyString)
                        (tokens ts)));
    [|constructor].
  intros [l acc] Hacc. simpl in *. unfold Tokens_body.
  pose proof (Next_ident_text l) as Ht.
  destruct (Next U l) as [t l']. simpl in *.
  case_bool_decide; simpl; [done|].
  apply Forall_app. by split; [|constructor].
Qed.

End LexerProperties.

Section LexerWitnesses.
Import props.

Lemma lexer_reads_decimal_numbers_witness :
  Next asciiOnly (mkLexer (runes_of_string (Sprintf_d 4096 +:+ " }")) 3 7) =
    (mkToken TokenNumber EmptyString 4096 3 7,
     mkLexer (runes_of_string " }") 3 11).
Proof.
  refine (proj1 (lexer_reads_decimal_numbers asciiOnly
                   (mkLexer (runes_of_string (Sprintf_d 4096 +:+ " }")) 3 7)
                   (Sprintf_d 4096) (runes_of_string " }") 4096 _ _ _ _)).
  - reflexivity.
  - reflexivity.
  - unfold maxInt64. lia.
  - simpl. unfold unicode_IsDigit. reflexivity.
Defined.

Lemma lexer_reads_ascii_identifiers_witness :
  Next asciiOnly (mkLexer (runes_of_string "if--Index 1") 1 1) =
    (mkToken TokenIdent "if--Index" 0 1 1, mkLexer (runes_of_string " 1") 1 10).
Proof.
  refine (proj1 (lexer_reads_ascii_identifiers asciiOnly
                   (mkLexer (runes_of_string "if--Index 1") 1 1)
                   (runes_of_string "if--Index") (runes_of_string " 1") _ _ _));
    reflexivity.
Defined.

Lemma lexer_reads_string_literals_witness :
  Next asciiOnly (mkLexer (34 :: runes_of_string "a b") 1 1) =
    (mkToken TokenString "a b" 0 1 1,
     advanceBy 4 (mkLexer (34 :: runes_of_string "a b") 1 1))
  ∧ input (Next asciiOnly (mkLexer (34 :: runes_of_string "a b") 1 1)).2 = [].
Proof.
  refine (lexer_reads_string_literals asciiOnly
            (mkLexer (34 :: runes_of_string "a b") 1 1)
            (runes_of_string "a b") [] _ _ _).
  - reflexivity.
  - repeat constructor; discriminate.
  - by left.
Defined.

Lemma comment_yields_no_token_witness :
  Next asciiOnly (mkLexer (runes_of_string "-- c" ++ 10 :: runes_of_string "x") 1 1) =
    Next asciiOnly (mkLexer (10 :: runes_of_string "x") 1 5).
Proof.
  refine (comment_yields_no_token asciiOnly
            (mkLexer (runes_of_string "-- c" ++ 10 :: runes_of_string "x") 1 1)
            (runes_of_string " c") (10 :: runes_of_string "x") _ _ _).
  - reflexivity.
  - repeat constructor; discriminate.
  - right. by eexists.
Defined.

End LexerWitnesses.

(** ** Properties of the module that every statement of the parser keeps *)

Section ModuleInvariant.
Import props.
Variable P : ModuleIR.t → Prop.
Hypothesis P_setNode : ∀ k v m, P m → P (ModuleIR.setNode k v m).
Hypothesis P_setObject :
  ∀ obj m, P m → P (ModuleIR.setObject (ObjectTypeIR.Name obj) obj m).
Hypothesis P_setModuleIdentity :
  ∀ mi m, P m → P (ModuleIR.setModuleIdentity mi m).
Hypothesis P_setObjectIdentity :
  ∀ oi m, P m → P (ModuleIR.setObjectIdentity (ObjectIdentityIR.Name oi) oi m).
Hypothesis P_setTextualConvention :
  ∀ tc m, P m → P (ModuleIR.setTextualConvention (TextualConventionIR.Name tc) tc m).
Hypothesis P_setNotificationType :
  ∀ nt m, P m → P (ModuleIR.setNotificationType (NotificationTypeIR.Name nt) nt m).

Lemma P_ensureNode k m : P m → P (ModuleIR.ensureNode k m).
Proof. intros Hm. unfold ModuleIR.ensureNode. destruct (_ !! _); auto. Qed.

Lemma holds_update_mod f p : (∀ m, P m → P (f m)) → holds P p → holds P (update_mod f p).
Proof. intros Hf [Hm Hp]. split; [by apply Hf|done]. Qed.

Lemma holds_add_pend pr p : keeps P pr → holds P p → holds P (add_pend pr p).
Proof.
  intros Hpr [Hm Hp]. split; [done|]. simpl. apply Forall_app. by split; [|constructor].
Qed.

Lemma holds_advanced p p' : advanced p p' → holds P p → holds P p'.
Proof. by intros [k ->]. Qed.

Lemma keeps_applyNode parent_ name idx :
  keeps P (mkPending parent_ idx (applyNode name idx)).
Proof. intros base m Hm. by apply P_setNode. Qed.

Lemma keeps_applyObjectType parent_ ref idx :
  keeps P (mkPending parent_ idx (applyObjectType ref idx)).
Proof.
  intros base m Hm. simpl. unfold applyObjectType. cbv zeta.
  apply P_setNode. by apply (P_setObject (ObjectTypeIR.set_OID (base ++ [idx]) ref)).
Qed.

Lemma keeps_applyModuleIdentity parent_ ref ident idx :
  keeps P (mkPending parent_ idx (applyModuleIdentity ref ident idx)).
Proof.
  intros base m Hm. simpl. unfold applyModuleIdentity. cbv zeta.
  by apply P_setNode, P_setModuleIdentity.
Qed.

Lemma keeps_applyObjectIdentity parent_ ref ident idx :
  keeps P (mkPending parent_ idx (applyObjectIdentity ref ident idx)).
Proof.
  intros base m Hm. simpl. unfold applyObjectIdentity. cbv zeta.
  apply P_setNode.
  by apply (P_setObjectIdentity (ObjectIdentityIR.set_OID (base ++ [idx]) ref)).
Qed.

Lemma keeps_applyNotificationType parent_ ref idx :
  keeps P (mkPending parent_ idx (applyNotificationType ref idx)).
Proof.
  intros base m Hm. simpl. unfold applyNotificationType. cbv zeta.
  by apply (P_setNotificationType (NotificationTypeIR.set_OID (base ++ [idx]) ref)).
Qed.

Lemma holds_resolveObjectIdentifier ident parentName index abs hasAbs p :
  holds P p → holds P (resolveObjectIdentifier ident parentName index abs hasAbs p).
Proof.
  intros H. unfold resolveObjectIdentifier. destruct hasAbs.
  { apply holds_update_mod; [|done]. intros m. apply P_setNode. }
  destruct (resolveOidBase parentName p).
  { apply holds_update_mod; [|done]. intros m. apply P_setNode. }
  apply holds_add_pend; [apply keeps_applyNode|].
  apply holds_update_mod; [|done]. intros m. apply P_ensureNode.
Qed.

Lemma holds_resolveObjectType obj parentName index abs hasAbs p :
  holds P p → holds P (resolveObjectType obj parentName index abs hasAbs p).
Proof.
  intros H. unfold resolveObjectType. destruct hasAbs.
  { cbv zeta. apply holds_update_mod; [intros m; apply P_setNode|].
    apply holds_update_mod; [|done]. intros m.
    apply (P_setObject (ObjectTypeIR.set_OID abs obj)). }
  destruct (resolveOidBase parentName p) as [base|]; cbv zeta.
  { apply holds_update_mod; [intros m; apply P_setNode|].
    apply holds_update_mod; [|done]. intros m.
    apply (P_setObject (ObjectTypeIR.set_OID (base ++ [index]) obj)). }
  apply holds_add_pend; [apply keeps_applyObjectType|].
  apply holds_update_mod; [intros m; apply P_ensureNode|].
  apply holds_update_mod; [|done]. intros m. apply P_setObject.
Qed.

Lemma holds_resolveGroup ident parent_ idx p :
  holds P p → holds P (resolveGroup ident parent_ idx p).
Proof.
  intros H. unfold resolveGroup. destruct (_ !! _).
  { apply holds_update_mod; [|done]. intros m. apply P_setNode. }
  apply holds_add_pend; [apply keeps_applyNode|done].
Qed.

Lemma holds_resolveModuleIdentity mi ident parent_ idx abs hasAbs p :
  holds P p → holds P (resolveModuleIdentity mi ident parent_ idx abs hasAbs p).
Proof.
  intros H. unfold resolveModuleIdentity. destruct hasAbs.
  { cbv zeta. apply holds_update_mod; [intros m; apply P_setNode|].
    apply holds_update_mod; [|done]. intros m. apply P_setModuleIdentity. }
  destruct (resolveOidBase parent_ p) as [base|]; cbv zeta.
  { apply holds_update_mod; [intros m; apply P_setNode|].
    apply holds_update_mod; [|done]. intros m. apply P_setModuleIdentity. }
  apply holds_add_pend; [apply keeps_applyModuleIdentity|].
  apply holds_update_mod; [|done]. intros m. apply P_setModuleIdentity.
Qed.

Lemma holds_resolveObjectIdentity oi ident parent_ idx abs hasAbs p :
  holds P p → holds P (resolveObjectIdentity oi ident parent_ idx abs hasAbs p).
Proof.
  intros H. unfold resolveObjectIdentity. destruct hasAbs.
  { cbv zeta. apply holds_update_mod; [intros m; apply P_setNode|].
    apply holds_update_mod; [|done]. intros m.
    apply (P_setObjectIdentity (ObjectIdentityIR.set_OID abs oi)). }
  destruct (resolveOidBase parent_ p) as [base|]; cbv zeta.
  { apply holds_update_mod; [intros m; apply P_setNode|].
    apply holds_update_mod; [|done]. intros m.
    apply (P_setObjectIdentity (ObjectIdentityIR.set_OID (base ++ [idx]) oi)). }
  apply holds_add_pend; [apply keeps_applyObjectIdentity|].
  apply holds_update_mod; [|done]. intros m. apply P_setObjectIdentity.
Qed.

Lemma holds_resolveNotificationType nt parent_ idx abs hasAbs p :
  holds P p → holds P (resolveNotificationType nt parent_ idx abs hasAbs p).
Proof.
  intros H. unfold resolveNotificationType. destruct hasAbs.
  { cbv zeta. apply holds_update_mod; [|done]. intros m.
    apply (P_setNotificationType (NotificationTypeIR.set_OID abs nt)). }
  destruct (resolveOidBase parent_ p) as [base|]; cbv zeta.
  { apply holds_update_mod; [|done]. intros m.
    apply (P_setNotificationType (NotificationTypeIR.set_OID (base ++ [idx]) nt)). }
  apply holds_add_pend; [apply keeps_applyNotificationType|].
  apply holds_update_mod; [|done]. intros m. apply P_setNotificationType.
Qed.

Lemma holds_effect p p' : effect p p' → holds P p → holds P p'.
Proof.
  intros [p1 H|p1 ? ? ? ? ? H|p1 ? H|p1 ? ? ? ? ? H|p1 ? ? ? H
         |p1 ? ? ? ? ? ? H Hn|p1 ? ? ? ? ? ? H Hn|p1 ? ? ? ? ? H] HI;
    apply (holds_advanced _ _ H) in HI.
  - done.
  - by apply holds_resolveObjectIdentifier.
  - apply holds_update_mod; [|done]. intros m. apply P_setTextualConvention.
  - by apply holds_resolveObjectType.
  - by apply holds_resolveGroup.
  - apply holds_resolveModuleIdentity.
    apply holds_update_mod; [|done]. intros m. apply P_ensureNode.
  - apply holds_resolveObjectIdentity.
    apply holds_update_mod; [|done]. intros m. apply P_ensureNode.
  - by apply holds_resolveNotificationType.
Qed.

Lemma holds_effects p p' : rtc effect p p' → holds P p → holds P p'.
Proof. induction 1; [done|]. intros HI. eauto using holds_effect. Qed.

Lemma holds_resolvePass prs m remaining_ progressed :
  P m → Forall (keeps P) prs → Forall (keeps P) remaining_ →
  let '(m', remaining', _) := resolvePass prs m remaining_ progressed in
  P m' ∧ Forall (keeps P) remaining'.
Proof.
  revert m remaining_ progressed.
  induction prs as [|pr prs IH]; intros m remaining_ progressed Hm Hprs Hrem;
    simpl; [done|].
  inversion_clear Hprs as [|? ? Hpr Hprs'].
  destruct (ModuleIR.NodesByName m !! parent pr) as [base|].
  - apply IH; [by apply Hpr|done..].
  - apply IH; [done..|]. apply Forall_app. by split; [|constructor].
Qed.

Lemma holds_resolvePending p : holds P p → holds P (resolvePending p).
Proof.
  unfold resolvePending.
  apply (while_ind _ _ resolvePending_decreases (holds P) (holds P)).
  intros s [Hm Hp]. unfold resolvePending_body.
  destruct (Nat.eqb _ _); [done|].
  pose proof (holds_resolvePass (pend s) (mod_ s) [] false Hm Hp ltac:(constructor))
    as H.
  destruct (resolvePass _ _ _ _) as [[m' r'] b'].
  by destruct b'.
Qed.

(** [parseModule] sets the name of the module first; from there on the
    property is kept. *)
Lemma holds_parseModule p :
  Forall (keeps P) (pend p) →
  P (ModuleIR.set_Name (Text (tok p)) (mod_ p)) →
  match parseModule p with
  | Ok p' => holds P p'
  | Err _ => True
  end.
Proof.
  intros Hpend Hname. unfold parseModule, expect.
  destruct (tokIs TokenIdent p); [|done].
  do 3 (step_accept; [|done]).
  set (p1 := if isIdent "IMPORTS" _ then _ else _).
  assert (holds P p1) as HI1.
  { subst p1. destruct (isIdent "IMPORTS" _).
    - eapply holds_advanced; [apply parseImports_advanced|]. by split.
    - by split. }
  pose proof (moduleBody_effects p1) as Hbody.
  destruct (moduleBody p1) as [p2|]; [|done].
  apply holds_resolvePending. by eapply holds_effects.
Qed.

Lemma P_fold_left (f : ModuleIR.t → string → ModuleIR.t) names m :
  (∀ m n, P m → P (f m n)) → P m → P (fold_left f names m).
Proof.
  intros Hf. revert m. induction names as [|n names IH]; intros m Hm; [done|].
  simpl. by apply IH, Hf.
Qed.

Lemma P_augmentFromSource p : P (mod_ p) → P (mod_ (augmentFromSource p)).
Proof.
  intros Hm. unfold augmentFromSource. cbv zeta. simpl.
  apply P_fold_left.
  { intros m n Hp. unfold augmentNotif. destruct (isReservedName n); [done|].
    apply P_ensureNode. destruct (_ !! n); [done|].
    apply (P_setNotificationType (NotificationTypeIR.new n)), Hp. }
  apply P_fold_left.
  { intros m n Hp. unfold augmentObjIdentity. destruct (isReservedName n); [done|].
    apply P_ensureNode. destruct (_ !! n); [done|].
    apply (P_setObjectIdentity (ObjectIdentityIR.new n)), Hp. }
  apply P_fold_left.
  { intros m n Hp. unfold augmentObjType. destruct (isReservedName n); [done|].
    apply P_ensureNode. destruct (_ !! n); [done|].
    apply (P_setObject (ObjectTypeIR.new n)), Hp. }
  apply P_fold_left; [|done].
  intros m n Hp. by apply P_ensureNode.
Qed.

(** A property that every store of the parser keeps, and that is true once
    the module has its name and the bootstrap nodes, is true of every
    parsed module. *)
Lemma Parse_keeps U input m :
  P (ModuleIR.set_Name (Text (tok (Parse_start U input)))
       (mod_ (Parse_start U input))) →
  Parse U input = Ok m → P m.
Proof.
  intros Hstart. unfold Parse. cbv zeta.
  pose proof (holds_parseModule (Parse_start U input)) as H.
  destruct (parseModule (Parse_start U input)) as [p|e]; [|done].
  intros [= <-]. apply P_augmentFromSource.
  apply H; [|done]. unfold Parse_start. cbv zeta. constructor.
Qed.

End ModuleInvariant.

Section ParsedModuleProperties.
Import props.

Lemma Parse_start_nodes U input :
  ModuleIR.NodesByName (mod_ (Parse_start U input)) = bootstrap.
Proof.
  unfold Parse_start. rewrite initBaseOids_nodes. simpl. apply (right_id ∅ (∪)).
Qed.

Lemma Parse_start_indexes U input :
  ModuleIR.ObjectsByName (mod_ (Parse_start U input)) = ∅
  ∧ ModuleIR.ObjectIdentities (mod_ (Parse_start U input)) = ∅
  ∧ ModuleIR.TextualConventions (mod_ (Parse_start U input)) = ∅
  ∧ ModuleIR.NotificationTypes (mod_ (Parse_start U input)) = ∅.
Proof. done. Qed.

(** X12.  The parser never removes a name from nodes: the ten bootstrap
    names are names of nodes in every parsed module, whatever the module
    declares (it may assign them other OIDs). *)
Theorem parsed_module_keeps_bootstrap_names U input m :
  Parse U input = Ok m →
  dom bootstrap ⊆ dom (ModuleIR.NodesByName m).
Proof.
  apply (Parse_keeps (fun m => dom bootstrap ⊆ dom (ModuleIR.NodesByName m))).
  - intros k v m0 H. simpl. rewrite dom_insert_L. set_solver.
  - by intros obj m0 H.
  - by intros mi m0 H.
  - by intros oi m0 H.
  - by intros tc m0 H.
  - by intros nt m0 H.
  - change (dom bootstrap ⊆ dom (ModuleIR.NodesByName (mod_ (Parse_start U input)))).
    by rewrite Parse_start_nodes.
Qed.

Lemma parsed_module_keeps_bootstrap_names_witness :
  ∃ m, ParseString parentRedefined = Ok m
       ∧ dom bootstrap ⊆ dom (ModuleIR.NodesByName m).
Proof.
  eexists. split; [vm_compute; reflexivity|].
  refine (parsed_module_keeps_bootstrap_names asciiOnly
            (runes_of_string parentRedefined) _ _).
  vm_compute. reflexivity.
Defined.

Lemma filedByName_insert_object obj m :
  filedByName m → filedByName (ModuleIR.setObject (ObjectTypeIR.Name obj) obj m).
Proof.
  intros (Ho & Hi & Ht & Hn). split_and!; try done. simpl. intros k o.
  rewrite lookup_insert. case_decide; [by intros [= <-]|apply Ho].
Qed.

Lemma filedByName_insert_objectIdentity oi m :
  filedByName m →
  filedByName (ModuleIR.setObjectIdentity (ObjectIdentityIR.Name oi) oi m).
Proof.
  intros (Ho & Hi & Ht & Hn). split_and!; try done. simpl. intros k o.
  rewrite lookup_insert. case_decide; [by intros [= <-]|apply Hi].
Qed.

Lemma filedByName_insert_textualConvention tc m :
  filedByName m →
  filedByName (ModuleIR.setTextualConvention (TextualConventionIR.Name tc) tc m).
Proof.
  intros (Ho & Hi & Ht & Hn). split_and!; try done. simpl. intros k o.
  rewrite lookup_insert. case_decide; [by intros [= <-]|apply Ht].
Qed.

Lemma filedByName_insert_notificationType nt m :
  filedByName m →
  filedByName (ModuleIR.setNotificationType (NotificationTypeIR.Name nt) nt m).
Proof.
  intros (Ho & Hi & Ht & Hn). split_and!; try done. simpl. intros k o.
  rewrite lookup_insert. case_decide; [by intros [= <-]|apply Hn].
Qed.

(** X13.  In every parsed module each record is filed under its own name:
    the key of an entry of objects, objectIdentities, textualConventions
    and notificationTypes is the name field of the record, also for the
    records that a pending reference stores later and for the ones the
    sweep of the source adds.  The module that [ParseMIB] builds has the
    same property for its objects and its nodes. *)
Theorem records_are_filed_under_their_names U input m :
  Parse U input = Ok m →
  filedByName m
  ∧ ∃ M, facade.ParseMIB U input = (Some M, None)
         ∧ (∀ entries k o,
              mib_parser.Module.ObjectsByName M = Some entries →
              entries !! k = Some (Some o) → mib_parser.ObjectType.Name o = k)
         ∧ (∀ entries k n,
              mib_parser.Module.NodesByName M = Some entries →
              entries !! k = Some (Some n) → mib_parser.OidNode.Name n = k).
Proof.
  intros HP.
  assert (filedByName m) as Hm.
  { revert HP. apply (Parse_keeps filedByName).
    - by intros k v m0 H.
    - apply filedByName_insert_object.
    - by intros mi m0 H.
    - apply filedByName_insert_objectIdentity.
    - apply filedByName_insert_textualConvention.
    - apply filedByName_insert_notificationType.
    - destruct (Parse_start_indexes U input) as (Ho & Hi & Ht & Hn).
      split_and!; simpl; intros k x; rewrite ?Ho, ?Hi, ?Ht, ?Hn;
        by rewrite lookup_empty. }
  split; [done|]. unfold facade.ParseMIB. rewrite HP. eexists. split; [done|].
  destruct Hm as (Ho & _). split.
  - intros entries k o [= <-]. rewrite lookup_fmap.
    destruct (ModuleIR.ObjectsByName m !! k) as [obj|] eqn:E; [|done].
    simpl. intros [= <-]. simpl. by apply Ho.
  - intros entries k n [= <-]. rewrite map_lookup_imap.
    destruct (ModuleIR.NodesByName m !! k) as [oid|] eqn:E; [|done].
    simpl. by intros [= <-].
Qed.

Lemma records_are_filed_under_their_names_witness :
  ∃ m, ParseString S3 = Ok m ∧ filedByName m.
Proof.
  eexists. split; [vm_compute; reflexivity|].
  refine (proj1 (records_are_filed_under_their_names asciiOnly
                   (runes_of_string S3) _ _)).
  vm_compute. reflexivity.
Defined.

Lemma toks_initBaseOids p : toks (initBaseOids p) = toks p.
Proof. reflexivity. Qed.

Lemma Parse_start_toks U input :
  toks (Parse_start U input) = tokens (Tokens U (New input)).
Proof. unfold Parse_start. cbv zeta. rewrite toks_initBaseOids. reflexivity. Qed.

Lemma Name_set_Name n m : ModuleIR.Name (ModuleIR.set_Name n m) = n.
Proof. reflexivity. Qed.

Lemma parseModule_Ok_ident p p' : parseModule p = Ok p' → tokIs TokenIdent p = true.
Proof. unfold parseModule, expect. by destruct (tokIs TokenIdent p). Qed.

Lemma Parse_Ok_ident U input m :
  Parse U input = Ok m → tokIs TokenIdent (Parse_start U input) = true.
Proof.
  unfold Parse. cbv zeta.
  destruct (parseModule (Parse_start U input)) as [p'|] eqn:E; [|discriminate].
  intros _. exact (parseModule_Ok_ident _ _ E).
Qed.

Lemma first_token p ts :
  toks p = ts → tokIs TokenIdent p = true →
  ∃ t ts', ts = t :: ts' ∧ Typ t = TokenIdent ∧ tok p = t.
Proof.
  unfold tokIs, tok. intros <- Hid. destruct (toks p) as [|t ts']; [done|].
  exists t, ts'. by apply bool_decide_eq_true in Hid.
Qed.

(** X14.  The name of a parsed module is the text of the first token of
    the input, which is an identifier; no later statement of the module
    changes it. *)
Theorem module_name_is_the_first_token U input m :
  Parse U input = Ok m →
  ∃ t ts, tokens (Tokens U (New input)) = t :: ts
          ∧ Typ t = TokenIdent
          ∧ ModuleIR.Name m = Text t.
Proof.
  intros HP.
  destruct (first_token _ _ (Parse_start_toks U input) (Parse_Ok_ident U input m HP))
    as (t & ts & Hts & Hty & Htok).
  exists t, ts. split; [exact Hts|]. split; [exact Hty|].
  revert HP. apply (Parse_keeps (fun m => ModuleIR.Name m = Text t));
    [by intros..|].
  rewrite Name_set_Name, Htok. reflexivity.
Qed.

Lemma module_name_is_the_first_token_witness :
  ∃ m, ParseString S1 = Ok m ∧ ModuleIR.Name m = "FOO".
Proof.
  eexists. split; [vm_compute; reflexivity|].
  destruct (module_name_is_the_first_token asciiOnly (runes_of_string S1)
              (ModuleIR.mk "FOO" bootstrap ∅ None ∅ ∅ ∅))
    as (t & ts & Ht & _ & Hname); [vm_compute; reflexivity|].
  reflexivity.
Defined.

End ParsedModuleProperties.

(** ** The module body and the fixed-point loop *)

Section ModuleBodyProperties.
Import props.

Lemma lift_not_Break_Ok r p' : lift r ≠ Break (Ok p').
Proof. by destruct r. Qed.

(** The body loop is left without an error at the end of the tokens, or
    at an END that is the last token. *)
Lemma moduleBody_body_Break_Ok p p' :
  moduleBody_body p = Break (Ok p') →
  (tokIs TokenEOF p = true ∧ p' = p)
  ∨ (isIdent "END" p = true ∧ Typ (Peek p) = TokenEOF ∧ p' = next p).
Proof.
  unfold moduleBody_body.
  destruct (tokIs TokenEOF p); [intros [= <-]; by left|].
  destruct (isIdent "END" p).
  { case_bool_decide; [|done]. intros [= <-]. by right. }
  destruct (tokIs TokenIdent p); [|done].
  destruct (isIdent "MACRO" (next p)); [done|].
  destruct (isIdent "OBJECT" (next p)); [by intros ?%lift_not_Break_Ok|].
  destruct (accept TokenColonColonEq (next p)) as [[|] q].
  { destruct (acceptIdent "TEXTUAL-CONVENTION" q) as [[|] q'];
      [by intros ?%lift_not_Break_Ok|done]. }
  repeat match goal with
         | |- (if ?c then _ else _) = _ → _ =>
             destruct c; [by intros ?%lift_not_Break_Ok|]
         end.
  done.
Qed.

Lemma noEOF_advanced p p' : advanced p p' → noEOF p → noEOF p'.
Proof. intros [k ->]. unfold noEOF. simpl. apply Forall_drop. Qed.

Lemma toks_resolve_effect p p' : effect p p' → ∃ k, toks p' = drop k (toks p).
Proof.
  intros [p1 [k ->]|p1 ? ? ? ? ? [k ->]|p1 ? [k ->]|p1 ? ? ? ? ? [k ->]|p1 ? ? ? [k ->]
         |p1 ? ? ? ? ? ? [k ->] _|p1 ? ? ? ? ? ? [k ->] _|p1 ? ? ? ? ? [k ->]];
    exists k; try done.
  - unfold resolveObjectIdentifier. destruct hasAbs; [done|]. by destruct (resolveOidBase _ _).
  - unfold resolveObjectType. destruct hasAbs; [done|]. by destruct (resolveOidBase _ _).
  - unfold resolveGroup. by destruct (_ !! _).
  - unfold resolveModuleIdentity. destruct hasAbs; [done|]. by destruct (resolveOidBase _ _).
  - unfold resolveObjectIdentity. destruct hasAbs; [done|]. by destruct (resolveOidBase _ _).
  - unfold resolveNotificationType. destruct hasAbs; [done|]. by destruct (resolveOidBase _ _).
Qed.

Lemma noEOF_effect p p' : effect p p' → noEOF p → noEOF p'.
Proof.
  intros [k Hk]%toks_resolve_effect. unfold noEOF. rewrite Hk. apply Forall_drop.
Qed.

Lemma noEOF_at_EOF p : noEOF p → tokIs TokenEOF p = true → toks p = [].
Proof.
  unfold noEOF, tokIs, tok. intros Hp Ht. apply bool_decide_eq_true in Ht.
  destruct (toks p) as [|t ts]; [done|]. by inversion_clear Hp.
Qed.

Lemma noEOF_Peek p : noEOF p → Typ (Peek p) = TokenEOF → toks (next p) = [].
Proof.
  unfold noEOF, Peek. simpl. intros Hp Ht.
  destruct (toks p) as [|t [|t' ts]]; [done..|].
  inversion_clear Hp as [|? ? _ Hp']. by inversion_clear Hp'.
Qed.

Lemma moduleBody_consumes p :
  noEOF p →
  match moduleBody p with
  | Ok p' => toks p' = []
  | Err _ => True
  end.
Proof.
  unfold moduleBody.
  apply (while_ind _ _ moduleBody_decreases noEOF
           (fun r => match r with Ok p' => toks p' = [] | Err _ => True end)).
  intros s Hs. pose proof (moduleBody_body_spec s) as Hspec.
  destruct (moduleBody_body s) as [s'|[p'|e]] eqn:Hb; [| |done].
  - destruct Hspec as [He _]. by eapply noEOF_effect.
  - apply moduleBody_body_Break_Ok in Hb as [[Ht ->]|(_ & Ht & ->)].
    + by apply noEOF_at_EOF.
    + by apply noEOF_Peek.
Qed.

Lemma toks_resolvePending p : toks (resolvePending p) = toks p.
Proof.
  unfold resolvePending.
  apply (while_ind _ _ resolvePending_decreases
           (fun s => toks s = toks p) (fun s => toks s = toks p)); [|done].
  intros s Hs. unfold resolvePending_body.
  destruct (Nat.eqb _ _); [done|].
  destruct (resolvePass _ _ _ _) as [[m' r'] b'].
  by destruct b'.
Qed.

Lemma parseModule_consumes p p' :
  noEOF p → parseModule p = Ok p' → toks p' = [].
Proof.
  intros Hp. unfold parseModule, expect.
  destruct (tokIs TokenIdent p); [|done].
  assert (∀ q, advanced (update_mod (ModuleIR.set_Name (Text (tok p))) (next p)) q →
               noEOF q) as Hadv.
  { intros q Hq. eapply noEOF_advanced; [exact Hq|].
    apply (noEOF_advanced p (next p)); [apply advanced_next|done]. }
  do 3 (step_accept; [|done]).
  set (p1 := if isIdent "IMPORTS" _ then _ else _).
  assert (noEOF p1) as H1.
  { subst p1. destruct (isIdent "IMPORTS" _).
    - eapply noEOF_advanced; [apply parseImports_advanced|]. apply Hadv. adv_chain.
    - apply Hadv. adv_chain. }
  pose proof (moduleBody_consumes p1 H1) as Hbody.
  destruct (moduleBody p1) as [p2|]; [|done].
  intros [= <-]. by rewrite toks_resolvePending.
Qed.

Lemma noEOF_Parse_start U input : noEOF (Parse_start U input).
Proof.
  unfold noEOF. rewrite Parse_start_toks. apply (Tokens_shape U input).
Qed.

(** X15.  A parse that succeeds has read every token of the input: the
    body loop goes on until the tokens are used up, or until an END that
    is the last token, so what follows an earlier END is parsed as
    further statements of the module and never dropped unread. *)
Theorem successful_parse_reads_all_tokens U input p' :
  parseModule (Parse_start U input) = Ok p' → toks p' = [].
Proof. apply parseModule_consumes, noEOF_Parse_start. Qed.

Lemma successful_parse_reads_all_tokens_witness :
  ∃ p', parseModule (Parse_start asciiOnly (runes_of_string S3)) = Ok p'
        ∧ toks p' = [].
Proof.
  eexists. split; [vm_compute; reflexivity|].
  refine (successful_parse_reads_all_tokens asciiOnly (runes_of_string S3) _ _).
  vm_compute. reflexivity.
Defined.

(** One pass that fires no closure leaves the module alone, and none of
    the references it went through has its parent in nodes. *)
Lemma resolvePass_idle prs : ∀ m remaining_ progressed,
  let '(m', remaining', progressed') := resolvePass prs m remaining_ progressed in
  progressed' = false →
  progressed = false ∧ m' = m ∧ remaining' = remaining_ ++ prs
  ∧ Forall (fun pr => ModuleIR.NodesByName m !! parent pr = None) prs.
Proof.
  induction prs as [|pr prs IH]; intros m remaining_ progressed; simpl.
  { intros ->. by rewrite app_nil_r. }
  destruct (ModuleIR.NodesByName m !! parent pr) as [base|] eqn:E.
  - specialize (IH (apply pr base m) remaining_ true).
    destruct (resolvePass prs _ _ _) as [[m' r'] b']. intros Hb.
    by destruct (IH Hb) as [? _].
  - specialize (IH m (remaining_ ++ [pr]) progressed).
    destruct (resolvePass prs _ _ _) as [[m' r'] b']. intros Hb.
    destruct (IH Hb) as (-> & -> & -> & Hall).
    rewrite <- app_assoc. split_and!; try done. by constructor.
Qed.

(** X16.  The fixed-point loop over the pending references ends, within
    one pass per reference and one more, and it ends at a fixed point:
    none of the references that are left has its parent among the names of
    nodes, so that no further pass could fire one.  No pass adds a
    reference. *)
Theorem pending_loop_ends_at_a_fixed_point p :
  loop resolvePending_body (S (length (pend p))) p = Some (resolvePending p)
  ∧ Forall (fun pr =>
              ModuleIR.NodesByName (mod_ (resolvePending p)) !! parent pr = None)
           (pend (resolvePending p))
  ∧ (length (pend (resolvePending p)) ≤ length (pend p))%nat.
Proof.
  split.
  { apply (while_fuel resolvePending_body (fun p => length (pend p))
             resolvePending_decreases). }
  unfold resolvePending.
  apply (while_ind _ _ resolvePending_decreases
           (fun s => (length (pend s) ≤ length (pend p))%nat)
           (fun r => Forall (fun pr => ModuleIR.NodesByName (mod_ r) !! parent pr = None)
                       (pend r)
                     ∧ (length (pend r) ≤ length (pend p))%nat)); [|done].
  intros s Hs. unfold resolvePending_body.
  destruct (Nat.eqb_spec (length (pend s)) 0) as [Hz|_].
  { split; [|done]. destruct (pend s); [constructor|done]. }
  pose proof (resolvePass_idle (pend s) (mod_ s) [] false) as Hidle.
  pose proof (resolvePass_length (pend s) (mod_ s) [] false) as Hlen.
  destruct (resolvePass _ _ _ _) as [[m' r'] b'].
  destruct Hlen as [Hlen _]. simpl in Hlen.
  destruct b'; simpl; [lia|].
  destruct (Hidle eq_refl) as (_ & -> & -> & Hall). simpl. split; [done|lia].
Qed.

End ModuleBodyProperties.

(** ** The sub-parsers *)

Section SubparserProperties.
Import props.

Lemma parseImports_body_semicolon p semi rest :
  toks p = semi :: rest → Typ semi = TokenSemicolon →
  parseImports_body p = Break (set_toks rest p).
Proof. intros Htoks Ht. unfold parseImports_body. run_body Htoks. Qed.

Lemma parseImports_body_other p t ts :
  toks p = t :: ts → Typ t ≠ TokenSemicolon → Typ t ≠ TokenEOF →
  parseImports_body p = Continue (set_toks ts p).
Proof.
  intros Htoks Hs He. unfold parseImports_body, accept, tokIs.
  rewrite (tok_cons _ _ _ Htoks).
  rewrite !bool_decide_eq_false_2 by done. by rewrite (next_cons _ _ _ Htoks).
Qed.

Lemma parseImports_body_end p : toks p = [] → parseImports_body p = Break p.
Proof. intros Htoks. unfold parseImports_body, tokIs, tok. by rewrite Htoks. Qed.

Lemma parseImports_loop pre : ∀ dflt p tail,
  toks p = pre ++ tail →
  Forall (fun t => Typ t ≠ TokenSemicolon ∧ Typ t ≠ TokenEOF) pre →
  tail = [] ∨ (∃ semi rest, tail = semi :: rest ∧ Typ semi = TokenSemicolon) →
  while remaining dflt parseImports_body p = set_toks (tl tail) p.
Proof.
  induction pre as [|t pre IH]; intros dflt p tail Htoks Hpre Htail;
    simpl in Htoks; rewrite (while_unfold _ _ parseImports_decreases).
  - destruct Htail as [->|(semi & rest & -> & Hsemi)].
    + rewrite (parseImports_body_end p Htoks). simpl. by rewrite <- Htoks, set_toks_id.
    + by rewrite (parseImports_body_semicolon p semi rest Htoks Hsemi).
  - inversion_clear Hpre as [|? ? [Hs He] Hpre'].
    rewrite (parseImports_body_other p t _ Htoks Hs He).
    by rewrite (IH dflt (set_toks (pre ++ tail) p) tail eq_refl Hpre' Htail).
Qed.

(** X17.  [parseImports] drops the IMPORTS clause unread: it consumes the
    keyword and every token up to and including the first semicolon.
    When no semicolon follows, it consumes all the tokens that are left, so
    that the rest of the module is lost without an error. *)
Theorem imports_are_skipped_to_the_semicolon p imp pre tail :
  toks p = imp :: pre ++ tail →
  Forall (fun t => Typ t ≠ TokenSemicolon ∧ Typ t ≠ TokenEOF) pre →
  tail = [] ∨ (∃ semi rest, tail = semi :: rest ∧ Typ semi = TokenSemicolon) →
  parseImports p = set_toks (tl tail) p.
Proof.
  intros Htoks Hpre Htail. unfold parseImports. cbv zeta.
  rewrite (next_cons _ _ _ Htoks).
  by rewrite (parseImports_loop pre _ (set_toks (pre ++ tail) p) tail eq_refl Hpre Htail).
Qed.

Lemma imports_are_skipped_to_the_semicolon_witness :
  parseImports
    (mkParser [mkToken TokenIdent "IMPORTS" 0 1 1; mkToken TokenIdent "a" 0 1 9;
               mkToken TokenIdent "FROM" 0 1 11; mkToken TokenIdent "B" 0 1 16;
               mkToken TokenSemicolon ";" 0 1 18; mkToken TokenIdent "END" 0 2 1]
       2 4 ModuleIR.new [] [])
  = mkParser [mkToken TokenIdent "END" 0 2 1] 2 4 ModuleIR.new [] [].
Proof.
  refine (imports_are_skipped_to_the_semicolon
            (mkParser _ 2 4 ModuleIR.new [] [])
            (mkToken TokenIdent "IMPORTS" 0 1 1)
            [mkToken TokenIdent "a" 0 1 9; mkToken TokenIdent "FROM" 0 1 11;
             mkToken TokenIdent "B" 0 1 16]
            [mkToken TokenSemicolon ";" 0 1 18; mkToken TokenIdent "END" 0 2 1]
            _ _ _).
  - reflexivity.
  - repeat constructor; discriminate.
  - right. by eexists _, _.
Defined.

Lemma absOid_decreases st st' :
  absOid_body st = Continue st' → (remaining st'.1 < remaining st.1)%nat.
Proof.
  intros H. pose proof (absOid_body_spec st) as Hs. rewrite H in Hs. tauto.
Qed.

Lemma absOid_loop nums : ∀ dflt p abs stop rest,
  toks p = nums ++ stop :: rest →
  Forall (fun t => Typ t = TokenNumber) nums → Typ stop ≠ TokenNumber →
  while (fun st => remaining st.1) dflt absOid_body (p, abs) =
    (set_toks (stop :: rest) p, abs ++ map Int nums).
Proof.
  induction nums as [|n nums IH]; intros dflt p abs stop rest Htoks Hnums Hstop;
    simpl in Htoks; rewrite (while_unfold _ _ absOid_decreases);
    unfold absOid_body at 1, tokIs.
  - rewrite (tok_cons _ _ _ Htoks), bool_decide_eq_false_2 by done.
    by rewrite <- Htoks, set_toks_id, app_nil_r.
  - inversion_clear Hnums as [|? ? Hn Hnums'].
    rewrite (tok_cons _ _ _ Htoks), (next_cons _ _ _ Htoks).
    rewrite bool_decide_eq_true_2 by done.
    rewrite (IH dflt (set_toks (nums ++ stop :: rest) p) _ stop rest eq_refl Hnums' Hstop).
    simpl. by rewrite <- app_assoc.
Qed.

Lemma parseParentRef_OidRef ts parent_ idx :
  OidRef ts parent_ idx →
  ∀ p rb rest,
    toks p = ts ++ rb :: rest → Typ rb = TokenRBrace →
    parseParentRef p = (parent_, idx, set_toks (rb :: rest) p).
Proof.
  intros [id n Hid Hn|md dot id n Hmd Hdot Hid Hn|id lp n rp Hid Hlp Hn Hrp|id Hid]
    p rb rest Htoks Hrb; simpl in Htoks; unfold parseParentRef; run_body Htoks.
Qed.

Lemma parseOidAssignmentInsideBraces_shape ts parent_ idx abs hasAbs p rb rest :
  OidBraces ts parent_ idx abs hasAbs →
  toks p = ts ++ rb :: rest → Typ rb = TokenRBrace →
  parseOidAssignmentInsideBraces p =
    (parent_, idx, abs, hasAbs, set_toks (rb :: rest) p).
Proof.
  intros [nums Hne Hnums|ts' parent' idx' Href] Htoks Hrb;
    unfold parseOidAssignmentInsideBraces.
  - destruct nums as [|n nums]; [done|]. simpl in Htoks.
    unfold tokIs. rewrite (tok_cons _ _ _ Htoks).
    inversion Hnums as [|? ? Hn Hnums']; subst.
    rewrite bool_decide_eq_true_2 by done.
    rewrite (absOid_loop (n :: nums) _ p [] rb rest); try done.
    rewrite Hrb. discriminate.
  - assert (tokIs TokenNumber p = false) as ->.
    { unfold tokIs. destruct Href; simpl in Htoks;
        rewrite (tok_cons _ _ _ Htoks); apply bool_decide_eq_false_2; congruence. }
    by rewrite (parseParentRef_OidRef _ _ _ Href p rb rest Htoks Hrb).
Qed.

(** X18.  [parseOidAssignmentInsideBraces] reads what stands in front of
    the closing brace: a list of numbers as the absolute OID of these
    numbers, and otherwise a parent name with its index, where a module
    prefix is dropped, parentheses around the index are accepted, and a
    missing index counts as 0.  It stops in front of the closing brace. *)
Theorem oid_between_braces ts parent_ idx abs hasAbs p rb rest :
  OidBraces ts parent_ idx abs hasAbs →
  toks p = ts ++ rb :: rest → Typ rb = TokenRBrace →
  parseOidAssignmentInsideBraces p =
    (parent_, idx, abs, hasAbs, set_toks (rb :: rest) p).
Proof. apply parseOidAssignmentInsideBraces_shape. Qed.

Lemma oid_between_braces_witness :
  parseOidAssignmentInsideBraces
    (mkParser [mkToken TokenIdent "SNMPv2-SMI" 0 4 1; mkToken TokenDot "." 0 4 12;
               mkToken TokenIdent "mib-2" 0 4 12; mkToken TokenNumber EmptyString 31 4 18;
               mkToken TokenRBrace "}" 0 4 22]
       5 1 ModuleIR.new [] [])
  = ("mib-2", 31, [], false,
     mkParser [mkToken TokenRBrace "}" 0 4 22] 5 1 ModuleIR.new [] []).
Proof.
  refine (oid_between_braces
            [mkToken TokenIdent "SNMPv2-SMI" 0 4 1; mkToken TokenDot "." 0 4 12;
             mkToken TokenIdent "mib-2" 0 4 12; mkToken TokenNumber EmptyString 31 4 18]
            "mib-2" 31 [] false (mkParser _ 5 1 ModuleIR.new [] [])
            (mkToken TokenRBrace "}" 0 4 22) [] _ _ _).
  - apply OidBraces_symbolic.
    exact (OidRef_qualified (mkToken TokenIdent "SNMPv2-SMI" 0 4 1)
             (mkToken TokenDot "." 0 4 12) (mkToken TokenIdent "mib-2" 0 4 12)
             (mkToken TokenNumber EmptyString 31 4 18) eq_refl eq_refl eq_refl eq_refl).
  - reflexivity.
  - reflexivity.
Defined.

Lemma skipMacroBody_decreases p p' :
  skipMacroBody_body p = Continue p' → (remaining p' < remaining p)%nat.
Proof.
  intros H. pose proof (skipMacroBody_body_spec p) as Hs. rewrite H in Hs. tauto.
Qed.

Lemma skipMacroBody_loop body : ∀ dflt p tail,
  toks p = body ++ tail →
  forallb (fun t => negb (stopsSkip t)) body = true →
  tail = [] ∨ (∃ e rest, tail = e :: rest ∧ keyword "END" e = true) →
  while remaining dflt skipMacroBody_body p = set_toks (tl tail) p.
Proof.
  induction body as [|t body IH]; intros dflt p tail Htoks Hbody Htail;
    simpl in Htoks; rewrite (while_unfold _ _ skipMacroBody_decreases);
    unfold skipMacroBody_body at 1, isIdent, tokIs.
  - destruct Htail as [->|(e & rest & -> & He)].
    + unfold tok. rewrite Htoks. simpl. by rewrite <- Htoks, set_toks_id.
    + rewrite (tok_cons _ _ _ Htoks), (next_cons _ _ _ Htoks).
      unfold keyword in He. apply andb_true_iff in He as [He1 He2].
      apply bool_decide_eq_true in He1. rewrite He1, He2. by decide_types.
  - simpl in Hbody. apply andb_true_iff in Hbody as [Ht Hbody].
    rewrite (tok_cons _ _ _ Htoks), (next_cons _ _ _ Htoks).
    unfold stopsSkip in Ht. apply negb_true_iff, orb_false_iff in Ht as [Ht1 Ht2].
    rewrite Ht1, Ht2.
    by rewrite (IH dflt (set_toks (body ++ tail) p) tail eq_refl Hbody Htail).
Qed.

(** X19.  A macro definition is skipped as a whole: on the keyword MACRO
    followed by the assignment sign and BEGIN, [skipDefinition] consumes
    the body up to and including the first END, whatever braces the body
    holds, and all the tokens that are left when there is no END. *)
Theorem macro_is_skipped_to_its_END p macro assign begin_ body tail :
  toks p = macro :: assign :: begin_ :: body ++ tail →
  keyword "MACRO" macro = true →
  Typ assign = TokenColonColonEq →
  keyword "BEGIN" begin_ = true →
  forallb (fun t => negb (stopsSkip t)) body = true →
  tail = [] ∨ (∃ e rest, tail = e :: rest ∧ keyword "END" e = true) →
  skipDefinition p = set_toks (tl tail) p.
Proof.
  intros Htoks Hmacro Hassign Hbegin Hbody Htail.
  unfold keyword in Hmacro, Hbegin.
  apply andb_true_iff in Hmacro as [Hm1 Hm2]. apply bool_decide_eq_true in Hm1.
  apply andb_true_iff in Hbegin as [Hb1 Hb2]. apply bool_decide_eq_true in Hb1.
  assert (skipDefinition p =
            while remaining (set_toks (body ++ tail) p) skipMacroBody_body
              (set_toks (body ++ tail) p)) as ->.
  { unfold skipDefinition. run_body Htoks. }
  by rewrite (skipMacroBody_loop body _ (set_toks (body ++ tail) p) tail eq_refl
                Hbody Htail).
Qed.

Lemma macro_is_skipped_to_its_END_witness :
  skipDefinition
    (mkParser [mkToken TokenIdent "MACRO" 0 1 5; mkToken TokenColonColonEq "::=" 0 1 14;
               mkToken TokenIdent "BEGIN" 0 1 15; mkToken TokenLBrace "{" 0 2 2;
               mkToken TokenIdent "x" 0 2 3; mkToken TokenIdent "END" 0 3 1;
               mkToken TokenIdent "b" 0 4 1]
       4 2 ModuleIR.new [] [])
  = mkParser [mkToken TokenIdent "b" 0 4 1] 4 2 ModuleIR.new [] [].
Proof.
  refine (macro_is_skipped_to_its_END
            (mkParser _ 4 2 ModuleIR.new [] [])
            (mkToken TokenIdent "MACRO" 0 1 5) (mkToken TokenColonColonEq "::=" 0 1 14)
            (mkToken TokenIdent "BEGIN" 0 1 15)
            [mkToken TokenLBrace "{" 0 2 2; mkToken TokenIdent "x" 0 2 3]
            [mkToken TokenIdent "END" 0 3 1; mkToken TokenIdent "b" 0 4 1]
            _ _ _ _ _ _).
  - reflexivity.
  - reflexivity.
  - reflexivity.
  - reflexivity.
  - reflexivity.
  - right. by eexists _, _.
Defined.

Lemma keyword_false_isIdent p t ts kw :
  toks p = t :: ts → keyword kw t = false → isIdent kw p = false.
Proof.
  intros Htoks Hk. unfold isIdent, tokIs. by rewrite (tok_cons _ _ _ Htoks).
Qed.

Lemma keyword_isIdent p t ts kw :
  toks p = t :: ts → keyword kw t = true → isIdent kw p = true.
Proof.
  intros Htoks Hk. unfold isIdent, tokIs. by rewrite (tok_cons _ _ _ Htoks).
Qed.

Lemma keyword_other_length kw kw' t :
  keyword kw t = true → String.length kw ≠ String.length kw' → keyword kw' t = false.
Proof.
  unfold keyword. intros [_ Hk]%andb_true_iff Hlen.
  apply equalFold_length in Hk. unfold equalFold.
  destruct (Nat.eqb_spec (String.length (Text t)) (String.length kw'));
    [congruence|]. simpl. apply andb_false_r.
Qed.

Lemma parseObjectIdentifier_statement name p obj ident assign lb ts rb rest
    parent_ idx abs hasAbs :
  toks p = obj :: ident :: assign :: lb :: ts ++ rb :: rest →
  keyword "IDENTIFIER" ident = true →
  Typ assign = TokenColonColonEq → Typ lb = TokenLBrace → Typ rb = TokenRBrace →
  OidBraces ts parent_ idx abs hasAbs →
  parseObjectIdentifier name p =
    Ok (resolveObjectIdentifier name parent_ idx abs hasAbs (set_toks rest p)).
Proof.
  intros Htoks Hident Hassign Hlb Hrb Hbraces. unfold parseObjectIdentifier. cbv zeta.
  rewrite (next_cons _ _ _ Htoks).
  unfold acceptIdent.
  rewrite (keyword_isIdent (set_toks (ident :: assign :: lb :: ts ++ rb :: rest) p)
             ident _ "IDENTIFIER" eq_refl Hident).
  rewrite (next_cons (set_toks _ p) ident _ eq_refl), set_toks_set_toks.
  cbn [negb]. unfold accept at 1.
  rewrite (tokIs_cons (set_toks _ p) assign _ _ eq_refl), Hassign. decide_types.
  rewrite (next_cons (set_toks _ p) assign _ eq_refl), set_toks_set_toks.
  cbn [negb]. unfold accept at 1.
  rewrite (tokIs_cons (set_toks _ p) lb _ _ eq_refl), Hlb. decide_types.
  rewrite (next_cons (set_toks _ p) lb _ eq_refl), set_toks_set_toks.
  cbn [negb].
  rewrite (parseOidAssignmentInsideBraces_shape ts parent_ idx abs hasAbs
             (set_toks (ts ++ rb :: rest) p) rb rest Hbraces eq_refl Hrb).
  rewrite set_toks_set_toks. unfold accept.
  rewrite (tokIs_cons (set_toks _ p) rb _ _ eq_refl), Hrb. decide_types.
  rewrite (next_cons (set_toks _ p) rb _ eq_refl), set_toks_set_toks.
  reflexivity.
Qed.

(** X25.  The statement [N OBJECT IDENTIFIER ::= { ... }] as a whole: the
    body loop reads its tokens up to the closing brace and stores [N] in
    nodes.  With an absolute OID between the braces, [N] gets that OID.
    With a reference to a parent that has a non-empty OID, [N] gets this
    OID followed by the index, and nothing is left pending.  With a
    parent that is unknown or still a placeholder, [N] keeps the entry it
    has, or gets an empty placeholder, and one pending reference is
    added. *)
Theorem object_identifier_statement p name obj ident assign lb ts rb rest
    parent_ idx abs hasAbs :
  toks p = name :: obj :: ident :: assign :: lb :: ts ++ rb :: rest →
  Typ name = TokenIdent → keyword "END" name = false →
  keyword "OBJECT" obj = true → keyword "IDENTIFIER" ident = true →
  Typ assign = TokenColonColonEq → Typ lb = TokenLBrace → Typ rb = TokenRBrace →
  OidBraces ts parent_ idx abs hasAbs →
  ∃ p', moduleBody_body p = Continue p'
        ∧ toks p' = rest
        ∧ (hasAbs = true →
           ModuleIR.NodesByName (mod_ p') !! Text name = Some abs
           ∧ pend p' = pend p)
        ∧ (∀ base, hasAbs = false →
             ModuleIR.NodesByName (mod_ p) !! parent_ = Some base → base ≠ [] →
             ModuleIR.NodesByName (mod_ p') !! Text name = Some (base ++ [idx])
             ∧ pend p' = pend p)
        ∧ (hasAbs = false →
           ModuleIR.NodesByName (mod_ p) !! parent_ = None
           ∨ ModuleIR.NodesByName (mod_ p) !! parent_ = Some [] →
           ModuleIR.NodesByName (mod_ p') !! Text name =
             Some (default [] (ModuleIR.NodesByName (mod_ p) !! Text name))
           ∧ ∃ pr, pend p' = pend p ++ [pr] ∧ parent pr = parent_ ∧ index pr = idx).
Proof.
  intros Htoks Hname Hend Hobj Hident Hassign Hlb Hrb Hbraces.
  exists (resolveObjectIdentifier (Text name) parent_ idx abs hasAbs (set_toks rest p)).
  split.
  { unfold moduleBody_body.
    rewrite (tokIs_cons _ _ _ TokenEOF Htoks), Hname. decide_types.
    rewrite (keyword_false_isIdent _ _ _ _ Htoks Hend).
    rewrite (tokIs_cons _ _ _ TokenIdent Htoks), Hname. decide_types.
    cbv zeta. rewrite (tok_cons _ _ _ Htoks), (next_cons _ _ _ Htoks).
    rewrite (keyword_false_isIdent (set_toks _ p) obj _ "MACRO" eq_refl
               (keyword_other_length "OBJECT" "MACRO" obj Hobj ltac:(done))).
    rewrite (keyword_isIdent (set_toks _ p) obj _ "OBJECT" eq_refl Hobj).
    rewrite (parseObjectIdentifier_statement (Text name) (set_toks _ p) obj ident
               assign lb ts rb rest parent_ idx abs hasAbs eq_refl Hident Hassign
               Hlb Hrb Hbraces).
    by rewrite set_toks_set_toks. }
  unfold resolveObjectIdentifier, resolveOidBase. simpl.
  split_and!.
  - destruct hasAbs; [done|]. by destruct (ModuleIR.NodesByName (mod_ p) !! parent_)
      as [[|]|].
  - intros ->. simpl. by rewrite lookup_insert_eq.
  - intros base -> Hbase Hne. rewrite Hbase.
    destruct base as [|b base]; [done|]. simpl. by rewrite lookup_insert_eq.
  - intros -> Hparent.
    assert (match ModuleIR.NodesByName (mod_ p) !! parent_ with
            | Some base => if (0 <? length base)%nat then Some base else None
            | None => None
            end = None) as ->.
    { by destruct Hparent as [->| ->]. }
    simpl. split; [|by eexists].
    rewrite ensureNode_nodes.
    destruct (ModuleIR.NodesByName (mod_ p) !! Text name) eqn:E; simpl;
      [exact E|apply lookup_insert_eq].
Qed.

Lemma object_identifier_statement_witness :
  ∃ p',
    moduleBody_body
      (mkParser [mkToken TokenIdent "ifMIB" 0 3 1; mkToken TokenIdent "OBJECT" 0 3 7;
                 mkToken TokenIdent "IDENTIFIER" 0 3 14;
                 mkToken TokenColonColonEq "::=" 0 3 28; mkToken TokenLBrace "{" 0 3 30;
                 mkToken TokenIdent "mib-2" 0 3 31; mkToken TokenNumber EmptyString 31 3 37;
                 mkToken TokenRBrace "}" 0 3 41; mkToken TokenIdent "END" 0 4 1]
         5 1 (ModuleIR.setNode "mib-2" [1; 3; 6; 1; 2; 1] ModuleIR.new) [] [])
    = Continue p'
    ∧ toks p' = [mkToken TokenIdent "END" 0 4 1]
    ∧ ModuleIR.NodesByName (mod_ p') !! "ifMIB" = Some [1; 3; 6; 1; 2; 1; 31]
    ∧ pend p' = [].
Proof.
  destruct (object_identifier_statement
              (mkParser
                 [mkToken TokenIdent "ifMIB" 0 3 1; mkToken TokenIdent "OBJECT" 0 3 7;
                  mkToken TokenIdent "IDENTIFIER" 0 3 14;
                  mkToken TokenColonColonEq "::=" 0 3 28; mkToken TokenLBrace "{" 0 3 30;
                  mkToken TokenIdent "mib-2" 0 3 31;
                  mkToken TokenNumber EmptyString 31 3 37;
                  mkToken TokenRBrace "}" 0 3 41; mkToken TokenIdent "END" 0 4 1]
                 5 1 (ModuleIR.setNode "mib-2" [1; 3; 6; 1; 2; 1] ModuleIR.new) [] [])
              (mkToken TokenIdent "ifMIB" 0 3 1) (mkToken TokenIdent "OBJECT" 0 3 7)
              (mkToken TokenIdent "IDENTIFIER" 0 3 14)
              (mkToken TokenColonColonEq "::=" 0 3 28) (mkToken TokenLBrace "{" 0 3 30)
              [mkToken TokenIdent "mib-2" 0 3 31; mkToken TokenNumber EmptyString 31 3 37]
              (mkToken TokenRBrace "}" 0 3 41) [mkToken TokenIdent "END" 0 4 1]
              "mib-2" 31 [] false)
    as (p' & Hstep & Htoks & _ & Hknown & _);
    try reflexivity.
  { apply OidBraces_symbolic.
    exact (OidRef_plain (mkToken TokenIdent "mib-2" 0 3 31)
             (mkToken TokenNumber EmptyString 31 3 37) eq_refl eq_refl). }
  destruct (Hknown [1; 3; 6; 1; 2; 1] eq_refl eq_refl ltac:(done)) as [Hnode Hpend].
  exists p'. split_and!; done.
Defined.

End SubparserProperties.

(** ** The sweep of the source *)

Section SweepProperties.
Import props.

Lemma addsOnly_refl {V : Type} (dflt : string → V) mp : addsOnly dflt mp mp.
Proof. intros k. by left. Qed.

Lemma addsOnly_trans {V : Type} (dflt : string → V) mp1 mp2 mp3 :
  addsOnly dflt mp1 mp2 → addsOnly dflt mp2 mp3 → addsOnly dflt mp1 mp3.
Proof.
  intros H12 H23 k. destruct (H12 k) as [E12|[E1 E2]], (H23 k) as [E23|[E2' E3]].
  - left. congruence.
  - right. split; congruence.
  - right. split; congruence.
  - congruence.
Qed.

Lemma addsOnly_insert {V : Type} (dflt : string → V) mp k :
  mp !! k = None → addsOnly dflt mp (<[k := dflt k]> mp).
Proof.
  intros Hk k'. rewrite lookup_insert. case_decide as E; [|by left].
  subst k'. by right.
Qed.

Lemma addsOnly_lookup {V : Type} (dflt : string → V) mp mp' k :
  addsOnly dflt mp mp' → is_Some (mp !! k) → mp' !! k = mp !! k.
Proof. intros H [v Hv]. destruct (H k) as [E|[E _]]; congruence. Qed.

Lemma addsOnly_is_Some {V : Type} (dflt : string → V) mp mp' k :
  addsOnly dflt mp mp' → is_Some (mp !! k) → is_Some (mp' !! k).
Proof. intros H Hk. by rewrite (addsOnly_lookup _ _ _ _ H Hk). Qed.

Lemma sweepOf_refl m : sweepOf m m.
Proof. split_and!; try done; apply addsOnly_refl. Qed.

Lemma sweepOf_trans m1 m2 m3 : sweepOf m1 m2 → sweepOf m2 m3 → sweepOf m1 m3.
Proof.
  intros (A1 & A2 & A3 & A4 & A5 & A6 & A7) (B1 & B2 & B3 & B4 & B5 & B6 & B7).
  split_and!; try congruence; by eapply addsOnly_trans.
Qed.

Lemma sweepOf_ensureNode k m : sweepOf m (ModuleIR.ensureNode k m).
Proof.
  unfold ModuleIR.ensureNode. destruct (ModuleIR.NodesByName m !! k) eqn:E;
    [apply sweepOf_refl|].
  split_and!; try done; try apply addsOnly_refl.
  by apply (addsOnly_insert (fun _ => [])).
Qed.

Lemma sweepOf_augmentObjId m n : sweepOf m (augmentObjId m n).
Proof. apply sweepOf_ensureNode. Qed.

Lemma sweepOf_augmentObjType m n : sweepOf m (augmentObjType m n).
Proof.
  unfold augmentObjType. destruct (isReservedName n); [apply sweepOf_refl|].
  cbv zeta. eapply sweepOf_trans; [|apply sweepOf_ensureNode].
  destruct (ModuleIR.ObjectsByName m !! n) eqn:E; [apply sweepOf_refl|].
  split_and!; try done; try apply addsOnly_refl.
  by apply (addsOnly_insert ObjectTypeIR.new).
Qed.

Lemma sweepOf_augmentObjIdentity m n : sweepOf m (augmentObjIdentity m n).
Proof.
  unfold augmentObjIdentity. destruct (isReservedName n); [apply sweepOf_refl|].
  cbv zeta. eapply sweepOf_trans; [|apply sweepOf_ensureNode].
  destruct (ModuleIR.ObjectIdentities m !! n) eqn:E; [apply sweepOf_refl|].
  split_and!; try done; try apply addsOnly_refl.
  by apply (addsOnly_insert ObjectIdentityIR.new).
Qed.

Lemma sweepOf_augmentNotif m n : sweepOf m (augmentNotif m n).
Proof.
  unfold augmentNotif. destruct (isReservedName n); [apply sweepOf_refl|].
  cbv zeta. eapply sweepOf_trans; [|apply sweepOf_ensureNode].
  destruct (ModuleIR.NotificationTypes m !! n) eqn:E; [apply sweepOf_refl|].
  split_and!; try done; try apply addsOnly_refl.
  by apply (addsOnly_insert NotificationTypeIR.new).
Qed.

Lemma sweepOf_fold (f : ModuleIR.t → string → ModuleIR.t) names m :
  (∀ m n, sweepOf m (f m n)) → sweepOf m (fold_left f names m).
Proof.
  intros Hf. revert m. induction names as [|n names IH]; intros m;
    [apply sweepOf_refl|].
  simpl. eapply sweepOf_trans; [apply Hf|apply IH].
Qed.

(** X20.  The sweep of the source only adds placeholders: it leaves the
    name of the module, the module identity, the textual conventions and
    every entry that the parser made as they are, and what it adds is an
    empty OID in nodes and, in objects, objectIdentities and
    notificationTypes, a record that holds nothing but its name. *)
Theorem sweep_only_adds_placeholders p :
  sweepOf (mod_ p) (mod_ (augmentFromSource p)).
Proof.
  unfold augmentFromSource. cbv zeta. simpl.
  eapply sweepOf_trans; [|apply sweepOf_fold, sweepOf_augmentNotif].
  eapply sweepOf_trans; [|apply sweepOf_fold, sweepOf_augmentObjIdentity].
  eapply sweepOf_trans; [|apply sweepOf_fold, sweepOf_augmentObjType].
  apply sweepOf_fold, sweepOf_augmentObjId.
Qed.

(** What a fold of the sweep makes present stays present. *)
Lemma fold_adds (f : ModuleIR.t → string → ModuleIR.t)
    (present : ModuleIR.t → string → Prop) (wanted : string → Prop) names m n :
  (∀ m n, wanted n → present (f m n) n) →
  (∀ m n k, present m k → present (f m n) k) →
  n ∈ names → wanted n → present (fold_left f names m) n.
Proof.
  intros Hadd Hkeep Hin Hn. revert m.
  assert (∀ names m k, present m k → present (fold_left f names m) k) as Hfold.
  { clear -Hkeep. induction names as [|x names IH]; intros m k Hk; [done|].
    simpl. by apply IH, Hkeep. }
  induction Hin as [n names|n n' names Hin IH]; intros m; simpl; [|by apply IH].
  by apply Hfold, Hadd.
Qed.

Lemma ensureNode_present k m : is_Some (ModuleIR.NodesByName (ModuleIR.ensureNode k m) !! k).
Proof.
  unfold ModuleIR.ensureNode. destruct (ModuleIR.NodesByName m !! k) eqn:E;
    [by rewrite E|]. simpl. by rewrite lookup_insert_eq.
Qed.

Lemma elem_of_namesOf n names :
  n ∈ testutil.namesOf names ↔ n ∈ names ∧ isReservedName n = false.
Proof.
  unfold testutil.namesOf. rewrite elem_of_list_to_set, list_elem_of_In, filter_In.
  rewrite <- list_elem_of_In. unfold testutil.isReserved.
  by rewrite negb_true_iff.
Qed.

(** The names that the sweep looks for are in the index of their kind
    afterwards. *)
Lemma sweep_makes_present p :
  let clean := cleanSource (src p) in
  let m' := mod_ (augmentFromSource p) in
  (∀ n, n ∈ FindAllNames reObjId clean → is_Some (ModuleIR.NodesByName m' !! n))
  ∧ (∀ n, n ∈ FindAllNames reObjType clean → isReservedName n = false →
          is_Some (ModuleIR.ObjectsByName m' !! n))
  ∧ (∀ n, n ∈ FindAllNames reObjIdentity clean → isReservedName n = false →
          is_Some (ModuleIR.ObjectIdentities m' !! n))
  ∧ (∀ n, n ∈ FindAllNames reNotif clean → isReservedName n = false →
          is_Some (ModuleIR.NotificationTypes m' !! n)).
Proof.
  cbv zeta. unfold augmentFromSource. cbv zeta. simpl.
  set (clean := cleanSource (src p)).
  set (m1 := fold_left augmentObjId (FindAllNames reObjId clean) (mod_ p)).
  set (m2 := fold_left augmentObjType (FindAllNames reObjType clean) m1).
  set (m3 := fold_left augmentObjIdentity (FindAllNames reObjIdentity clean) m2).
  set (m4 := fold_left augmentNotif (FindAllNames reNotif clean) m3).
  assert (sweepOf m1 m2) as H12 by apply sweepOf_fold, sweepOf_augmentObjType.
  assert (sweepOf m2 m3) as H23 by apply sweepOf_fold, sweepOf_augmentObjIdentity.
  assert (sweepOf m3 m4) as H34 by apply sweepOf_fold, sweepOf_augmentNotif.
  pose proof (sweepOf_trans _ _ _ H12 (sweepOf_trans _ _ _ H23 H34)) as H14.
  pose proof (sweepOf_trans _ _ _ H23 H34) as H24.
  split_and!.
  - intros n Hn. destruct H14 as (_ & _ & _ & Hnodes & _).
    apply (addsOnly_is_Some _ _ _ _ Hnodes). subst m1.
    apply (fold_adds augmentObjId
             (fun m k => is_Some (ModuleIR.NodesByName m !! k)) (fun _ => True));
      [| |done|done].
    + intros m k _. apply ensureNode_present.
    + intros m k k' Hk. pose proof (sweepOf_augmentObjId m k) as (_ & _ & _ & Ha & _).
      by apply (addsOnly_is_Some _ _ _ _ Ha).
  - intros n Hn Hres. destruct H24 as (_ & _ & _ & _ & Hobjs & _).
    apply (addsOnly_is_Some _ _ _ _ Hobjs). subst m2.
    apply (fold_adds augmentObjType
             (fun m k => is_Some (ModuleIR.ObjectsByName m !! k))
             (fun k => isReservedName k = false)); [| |done|done].
    + intros m k Hk. unfold augmentObjType. rewrite Hk. cbv zeta.
      destruct (ensureNode_frame k
                  match ModuleIR.ObjectsByName m !! k with
                  | Some _ => m
                  | None => ModuleIR.setObject k (ObjectTypeIR.new k) m
                  end) as (-> & _).
      destruct (ModuleIR.ObjectsByName m !! k) eqn:E; [by rewrite E|].
      simpl. by rewrite lookup_insert_eq.
    + intros m k k' Hk.
      pose proof (sweepOf_augmentObjType m k) as (_ & _ & _ & _ & Ha & _).
      by apply (addsOnly_is_Some _ _ _ _ Ha).
  - intros n Hn Hres. destruct H34 as (_ & _ & _ & _ & _ & Hois & _).
    apply (addsOnly_is_Some _ _ _ _ Hois). subst m3.
    apply (fold_adds augmentObjIdentity
             (fun m k => is_Some (ModuleIR.ObjectIdentities m !! k))
             (fun k => isReservedName k = false)); [| |done|done].
    + intros m k Hk. unfold augmentObjIdentity. rewrite Hk. cbv zeta.
      destruct (ensureNode_frame k
                  match ModuleIR.ObjectIdentities m !! k with
                  | Some _ => m
                  | None => ModuleIR.setObjectIdentity k (ObjectIdentityIR.new k) m
                  end) as (_ & -> & _).
      destruct (ModuleIR.ObjectIdentities m !! k) eqn:E; [by rewrite E|].
      simpl. by rewrite lookup_insert_eq.
    + intros m k k' Hk.
      pose proof (sweepOf_augmentObjIdentity m k) as (_ & _ & _ & _ & _ & Ha & _).
      by apply (addsOnly_is_Some _ _ _ _ Ha).
  - intros n Hn Hres. subst m4.
    apply (fold_adds augmentNotif
             (fun m k => is_Some (ModuleIR.NotificationTypes m !! k))
             (fun k => isReservedName k = false)); [| |done|done].
    + intros m k Hk. unfold augmentNotif. rewrite Hk. cbv zeta.
      destruct (ensureNode_frame k
                  match ModuleIR.NotificationTypes m !! k with
                  | Some _ => m
                  | None => ModuleIR.setNotificationType k (NotificationTypeIR.new k) m
                  end) as (_ & _ & _ & ->).
      destruct (ModuleIR.NotificationTypes m !! k) eqn:E; [by rewrite E|].
      simpl. by rewrite lookup_insert_eq.
    + intros m k k' Hk.
      pose proof (sweepOf_augmentNotif m k) as (_ & _ & _ & _ & _ & _ & Ha).
      by apply (addsOnly_is_Some _ _ _ _ Ha).
Qed.

Lemma Parse_sweeps U input m :
  Parse U input = Ok m →
  ∃ p, src p = input ∧ m = mod_ (augmentFromSource p).
Proof.
  unfold Parse. cbv zeta.
  pose proof (parseModule_src (Parse_start U input)) as Hsrc.
  destruct (parseModule (Parse_start U input)) as [p|e]; [|done].
  intros [= <-]. exists p. split; [|done].
  rewrite Hsrc. unfold Parse_start. cbv zeta. by rewrite src_initBaseOids.
Qed.

Lemma Parse_module_name U input m :
  Parse U input = Ok m → ModuleIR.Name m ≠ EmptyString.
Proof.
  intros HP.
  destruct (first_token _ _ (Parse_start_toks U input) (Parse_Ok_ident U input m HP))
    as (t & ts & Hts & Hty & Htok).
  pose proof (Tokens_ident_text U input) as Hall. rewrite Hts in Hall.
  inversion_clear Hall as [|? ? Ht _]. specialize (Ht Hty).
  revert HP. apply (Parse_keeps (fun m => ModuleIR.Name m ≠ EmptyString));
    [by intros..|].
  by rewrite Name_set_Name, Htok.
Qed.

Lemma moduleIdentitySkipped_parses :
  ∃ ir0,
    Parse asciiOnly (runes_of_string moduleIdentitySkipped) = Ok ir0
    ∧ ModuleIR.ModuleIdentity ir0 = None.
Proof. eexists. split; [vm_compute; reflexivity|]. reflexivity. Qed.

(** X21.  On a source that parses, the test helper [VerifyMIB] can fail
    in its MODULE-IDENTITY check only.  The module of [ParseMIB] is not
    [nil] and has a name, and the four presence loops report nothing:
    every name that [extractExpected] finds in front of OBJECT
    IDENTIFIER, OBJECT-TYPE, OBJECT-IDENTITY or NOTIFICATION-TYPE in the
    cleaned source is in the index of its kind, because the sweep of
    the source looks for the same names in the same text.  The sweep
    does not look for MODULE-IDENTITY: in [moduleIdentitySkipped] the
    statement is swallowed by the skip of the unknown construct in front
    of it, the source parses, and the check reports the missing module
    identity. *)
Theorem VerifyMIB_fails_only_on_module_identity U input ir :
  Parse U input = Ok ir →
  let exp := testutil.extractExpected (testutil.cleaned input) in
  (∃ md, facade.ParseMIB U input = (Some md, None)
         ∧ testutil.moduleEmpty (Some md) = false
         ∧ testutil.missingObjectIdentifiers exp ir = ∅
         ∧ testutil.missingObjectTypes exp md = ∅
         ∧ testutil.missingObjectIdentities exp md = ∅
         ∧ testutil.missingNotificationTypes exp md = ∅)
  ∧ (∃ md0,
       facade.ParseMIB asciiOnly (runes_of_string moduleIdentitySkipped)
         = (Some md0, None)
       ∧ testutil.ModuleIdentityName
           (testutil.extractExpected
              (testutil.cleaned (runes_of_string moduleIdentitySkipped))) = "foo"
       ∧ mib_parser.Module.ModuleIdentity md0 = None
       ∧ ∀ EqualFold,
           testutil.moduleIdentityMissing EqualFold
             (testutil.extractExpected
                (testutil.cleaned (runes_of_string moduleIdentitySkipped))) md0
           = true).
Proof.
  intros HP exp. split.
  2:{ destruct moduleIdentitySkipped_parses as (ir0 & HP0 & Hnone).
      assert (testutil.ModuleIdentityName
                (testutil.extractExpected
                   (testutil.cleaned (runes_of_string moduleIdentitySkipped))) = "foo")
        as Hname by (vm_compute; reflexivity).
      exists (facade.fromIR ir0). unfold facade.ParseMIB. rewrite HP0.
      split; [reflexivity|]. split; [exact Hname|].
      assert (mib_parser.Module.ModuleIdentity (facade.fromIR ir0) = None) as Hmi.
      { unfold facade.fromIR. cbn [mib_parser.Module.ModuleIdentity].
        by rewrite Hnone. }
      split; [exact Hmi|].
      intros EqualFold. unfold testutil.moduleIdentityMissing.
      rewrite Hname, Hmi. reflexivity. }
  unfold facade.ParseMIB. rewrite HP. eexists. split; [done|].
  split.
  { simpl. apply String.eqb_neq. by apply (Parse_module_name U input). }
  destruct (Parse_sweeps U input ir HP) as (p & Hsrc & ->).
  pose proof (sweep_makes_present p) as Hsweep. cbv zeta in Hsweep.
  rewrite Hsrc in Hsweep.
  change (cleanSource input) with (testutil.cleaned input) in Hsweep.
  remember (mod_ (augmentFromSource p)) as m eqn:Hm in *. clear Hm.
  destruct Hsweep as (Hid & Hot & Hoi & Hnt).
  subst exp.
  unfold testutil.missingObjectIdentifiers, testutil.missingObjectTypes,
    testutil.missingObjectIdentities, testutil.missingNotificationTypes,
    testutil.extractExpected.
  cbn [testutil.ObjectIdentifierNames testutil.ObjectTypeNames
       testutil.ObjectIdentityNames testutil.NotificationTypeNames].
  split_and!; apply set_eq; intros n; rewrite elem_of_filter;
    split; try (by intros ?%not_elem_of_empty); intros [Hmiss Hin]; exfalso.
  - apply elem_of_list_to_set in Hin. apply Hid in Hin as [v Hv]. congruence.
  - apply elem_of_namesOf in Hin as [Hin Hres].
    destruct (Hot n Hin Hres) as [v Hv]. revert Hmiss.
    unfold mib_parser.index. simpl. by rewrite lookup_fmap, Hv.
  - apply elem_of_namesOf in Hin as [Hin Hres].
    destruct (Hoi n Hin Hres) as [v Hv]. revert Hmiss.
    unfold mib_parser.index. simpl. by rewrite lookup_fmap, Hv.
  - apply elem_of_namesOf in Hin as [Hin Hres].
    destruct (Hnt n Hin Hres) as [v Hv]. revert Hmiss.
    unfold mib_parser.index. simpl. by rewrite lookup_fmap, Hv.
Qed.

Lemma VerifyMIB_fails_only_on_module_identity_witness :
  ∃ ir md,
    Parse asciiOnly (runes_of_string S3) = Ok ir
    ∧ facade.ParseMIB asciiOnly (runes_of_string S3) = (Some md, None)
    ∧ testutil.moduleEmpty (Some md) = false
    ∧ testutil.missingObjectTypes
        (testutil.extractExpected (testutil.cleaned (runes_of_string S3))) md = ∅.
Proof.
  assert (∃ ir, Parse asciiOnly (runes_of_string S3) = Ok ir) as [ir HP]
    by (eexists; vm_compute; reflexivity).
  destruct (VerifyMIB_fails_only_on_module_identity asciiOnly (runes_of_string S3) ir HP)
    as [(md & Hmd & Hne & _ & Hobjs & _) _].
  exists ir, md. split; [exact HP|]. split; [exact Hmd|]. split; [exact Hne|exact Hobjs].
Defined.

End SweepProperties.

(** ** Text helpers *)

Section TextProperties.
Import props.

Lemma splitLines_nonempty s : splitLines s ≠ [].
Proof.
  induction s as [|r s IH]; simpl; [done|]. destruct (r =? 10); [done|].
  by destruct (splitLines s).
Qed.














Lemma equalFold_from_lower a b :
  String.length a = String.length b →
  (equalFold_from a b = true ↔ lower a = lower b).
Proof.
  unfold lower. revert b. induction a as [|ca a IH]; intros [|cb b]; simpl; try done.
  intros [= Hlen]. destruct (Z.eqb_spec (lowerByte ca) (lowerByte cb)) as [E|E]; simpl.
  - rewrite (IH b Hlen). split; [by intros ->; rewrite E|by intros [= _ ?]].
  - split; [done|by intros [= ? _]].
Qed.

Lemma lower_length a : length (lower a) = String.length a.
Proof.
  unfold lower. rewrite length_map. induction a as [|c a IH]; simpl; [done|].
  by rewrite IH.
Qed.

(** X23.  Keywords are compared without regard to the case of ASCII
    letters, and only of those: [equalFold] holds of two strings exactly
    when they have the same bytes once the letters A to Z are put in lower
    case.  It is reflexive and symmetric, and strings of different length
    are never equal under it. *)
Theorem equalFold_compares_lower_case (a b : string) :
  (equalFold a b = true ↔ lower a = lower b)
  ∧ equalFold a a = true
  ∧ equalFold a b = equalFold b a
  ∧ (String.length a ≠ String.length b → equalFold a b = false).
Proof.
  assert (∀ x y, equalFold x y = true ↔ lower x = lower y) as Hspec.
  { intros x y. unfold equalFold.
    destruct (Nat.eqb_spec (String.length x) (String.length y)) as [Hlen|Hlen]; simpl.
    - by apply equalFold_from_lower.
    - split; [done|]. intros Heq. destruct Hlen.
      by rewrite <- !lower_length, Heq. }
  split_and!.
  - apply Hspec.
  - by apply Hspec.
  - destruct (equalFold a b) eqn:E1, (equalFold b a) eqn:E2; try done.
    + apply Hspec in E1. symmetry in E1. apply Hspec in E1. congruence.
    + apply Hspec in E2. symmetry in E2. apply Hspec in E2. congruence.
  - intros Hlen. unfold equalFold.
    by destruct (Nat.eqb_spec (String.length a) (String.length b)).
Qed.

Lemma trimLeft_spec s :
  ∃ a, s = a +:+ trimLeft s ∧ allSpace a = true
       ∧ startsWithSpace (trimLeft s) = false.
Proof.
  induction s as [|c s IH]; [by exists EmptyString|]. simpl.
  destruct (isSpaceByte c) eqn:E.
  - destruct IH as (a & Hs & Ha & Hstart). exists (String c a).
    rewrite append_cons, <- Hs. simpl. by rewrite E.
  - exists EmptyString. simpl. by rewrite E.
Qed.

Lemma trimRight_spec s :
  ∃ b, s = trimRight s +:+ b ∧ allSpace b = true
       ∧ endsWithSpace (trimRight s) = false
       ∧ (startsWithSpace s = false → startsWithSpace (trimRight s) = false).
Proof.
  induction s as [|c s IH]; [by exists EmptyString|].
  destruct IH as (b & Hs & Hb & Hend & _). simpl.
  destruct (trimRight s) as [|d t] eqn:E.
  - rewrite append_nil_l in Hs. subst b. destruct (isSpaceByte c) eqn:Ec.
    + exists (String c s). simpl. by rewrite Ec.
    + exists s. simpl. by rewrite Ec.
  - exists b. rewrite append_cons, <- Hs. by split_and!.
Qed.

Lemma trimLeft_id s : startsWithSpace s = false → trimLeft s = s.
Proof. destruct s as [|c s]; simpl; [done|]. by intros ->. Qed.

Lemma trimRight_id s : endsWithSpace s = false → trimRight s = s.
Proof.
  induction s as [|c s IH]; [done|]. destruct s as [|d s].
  - simpl. by intros ->.
  - intros Hend. change (endsWithSpace (String c (String d s)))
      with (endsWithSpace (String d s)) in Hend.
    specialize (IH Hend).
    change (trimRight (String c (String d s)))
      with (match trimRight (String d s) with
            | EmptyString => if isSpaceByte c then EmptyString else String c EmptyString
            | String _ _ as t => String c t
            end).
    by rewrite IH.
Qed.

Lemma trimSpace_trimmed s :
  startsWithSpace (trimSpace s) = false ∧ endsWithSpace (trimSpace s) = false.
Proof.
  unfold trimSpace. destruct (trimLeft_spec s) as (a & _ & _ & Hstart).
  destruct (trimRight_spec (trimLeft s)) as (b & _ & _ & Hend & Hkeep). auto.
Qed.

Lemma parseUntilKeywords_decreases stop st st' :
  parseUntilKeywords_body stop st = Continue st' →
  (remaining st'.1 < remaining st.1)%nat.
Proof.
  intros H. pose proof (parseUntilKeywords_body_spec stop st) as Hs.
  rewrite H in Hs. tauto.
Qed.

(** X24.  [trimSpace] removes white space at both ends and nothing else:
    the string is the trimmed string between two runs of blanks, tabs,
    line feeds and carriage returns, the trimmed string neither starts
    nor ends with one of them, and trimming again changes nothing.  The
    clause values that [parseUntilKeywords] collects (the syntax, the
    access and the status of a declaration) are trimmed in this way. *)
Theorem trimSpace_trims_both_ends (s : string) :
  (∃ a b, s = a +:+ trimSpace s +:+ b ∧ allSpace a = true ∧ allSpace b = true)
  ∧ startsWithSpace (trimSpace s) = false
  ∧ endsWithSpace (trimSpace s) = false
  ∧ trimSpace (trimSpace s) = trimSpace s
  ∧ ∀ stop p,
      startsWithSpace (parseUntilKeywords stop p).1 = false
      ∧ endsWithSpace (parseUntilKeywords stop p).1 = false.
Proof.
  destruct (trimSpace_trimmed s) as [Hstart Hend]. split_and!; try done.
  - unfold trimSpace. destruct (trimLeft_spec s) as (a & Hs & Ha & _).
    destruct (trimRight_spec (trimLeft s)) as (b & Ht & Hb & _).
    exists a, b. split; [|done]. by rewrite <- Ht.
  - unfold trimSpace at 1. rewrite (trimLeft_id _ Hstart). by apply trimRight_id.
  - intros stop p. unfold parseUntilKeywords.
    apply (while_ind _ _ (parseUntilKeywords_decreases stop) (fun _ => True)
             (fun r => startsWithSpace r.1 = false ∧ endsWithSpace r.1 = false));
      [|done].
    intros [q acc] _. unfold parseUntilKeywords_body.
    destruct (tokIs TokenEOF q); [apply trimSpace_trimmed|].
    destruct (_ && _); [apply trimSpace_trimmed|].
    destruct (_ && _); [apply trimSpace_trimmed|done].
Qed.

Lemma joinLines_splitLines s : joinLines (splitLines s) = s.
Proof.
  induction s as [|r s IH]; [done|]. cbn [splitLines].
  pose proof (splitLines_nonempty s) as Hne.
  destruct (r =? 10) eqn:Hr.
  - apply Z.eqb_eq in Hr as ->. cbn [joinLines].
    destruct (splitLines s) as [|l ls]; [done|]. simpl. by rewrite <- IH.
  - destruct (splitLines s) as [|l ls]; [done|].
    rewrite <- IH. by destruct ls.
Qed.

Lemma removeImportsBlocks_from_sublist skipping lines :
  sublist (removeImportsBlocks_from skipping lines) lines.
Proof.
  revert skipping. induction lines as [|line rest IH]; intros skipping; [done|].
  cbn [removeImportsBlocks_from]. cbv zeta.
  destruct (negb skipping && HasPrefix _ _).
  { destruct (ContainsSemicolon line); apply sublist_cons, IH. }
  destruct skipping.
  { destruct (ContainsSemicolon line); apply sublist_cons, IH. }
  apply sublist_skip, IH.
Qed.

Lemma removeImportsBlocks_from_kept skipping lines :
  Forall (fun l => importsLine l = false) (removeImportsBlocks_from skipping lines).
Proof.
  revert skipping. induction lines as [|line rest IH]; intros skipping; [done|].
  cbn [removeImportsBlocks_from]. cbv zeta.
  destruct skipping; cbn [negb andb].
  { destruct (ContainsSemicolon line); apply IH. }
  destruct (HasPrefix _ _) eqn:Hp.
  { destruct (ContainsSemicolon line); apply IH. }
  constructor; [exact Hp|apply IH].
Qed.

Lemma removeImportsBlocks_from_skipping lines :
  Forall (fun l => ContainsSemicolon l = false) lines →
  removeImportsBlocks_from true lines = [].
Proof.
  induction 1 as [|line rest Hl _ IH]; [done|].
  cbn [removeImportsBlocks_from]. cbv zeta. cbn [negb andb]. by rewrite Hl.
Qed.

Lemma removeImportsBlocks_from_id lines :
  Forall (fun l => importsLine l = false) lines →
  removeImportsBlocks_from false lines = lines.
Proof.
  induction 1 as [|line rest Hl _ IH]; [done|].
  cbn [removeImportsBlocks_from]. cbv zeta. cbn [negb andb].
  unfold importsLine in Hl. rewrite Hl. by rewrite IH.
Qed.

(** X27.  [removeImportsBlocks] drops whole lines and nothing else: the
    lines it keeps are lines of the source in their order, and none of
    them starts, after leading space, with [IMPORTS].  A source that has
    no such line comes back unchanged.  A block that is opened by an
    [IMPORTS] line and never closed by a semicolon takes every line after
    it, to the end of the source. *)
Theorem removeImportsBlocks_drops_whole_lines :
  (∀ skipping lines,
     sublist (removeImportsBlocks_from skipping lines) lines
     ∧ Forall (fun l => importsLine l = false)
         (removeImportsBlocks_from skipping lines))
  ∧ (∀ src, Forall (fun l => importsLine l = false) (splitLines src) →
            removeImportsBlocks src = src)
  ∧ (∀ line rest, importsLine line = true →
                  Forall (fun l => ContainsSemicolon l = false) (line :: rest) →
                  removeImportsBlocks_from false (line :: rest) = []).
Proof.
  split_and!.
  - intros skipping lines. split;
      [apply removeImportsBlocks_from_sublist|apply removeImportsBlocks_from_kept].
  - intros src Hsrc. unfold removeImportsBlocks.
    rewrite removeImportsBlocks_from_id by done. apply joinLines_splitLines.
  - intros line rest Hline Hall. inversion_clear Hall as [|? ? Hl Hrest].
    cbn [removeImportsBlocks_from]. cbv zeta. cbn [negb andb].
    unfold importsLine in Hline. rewrite Hline, Hl.
    by apply removeImportsBlocks_from_skipping.
Qed.

End TextProperties.

(** ** Every error is reported at a token of the input *)

Section ErrorProperties.
Import props.

Lemma sameTokens_refl p : sameTokens p p.
Proof. split; [by exists 0%nat|done]. Qed.

Lemma sameTokens_trans p1 p2 p3 :
  sameTokens p1 p2 → sameTokens p2 p3 → sameTokens p1 p3.
Proof.
  intros [[k1 H1] E1] [[k2 H2] E2]. split; [|congruence].
  exists (k1 + k2)%nat. by rewrite H2, H1, drop_drop.
Qed.

Lemma advanced_sameTokens p p' : advanced p p' → sameTokens p p'.
Proof. intros [k ->]. split; [by exists k|done]. Qed.

Lemma sameTokens_update_mod f p : sameTokens p (update_mod f p).
Proof. split; [by exists 0%nat|done]. Qed.

Lemma eofTok_effect p p' : effect p p' → eofTok p' = eofTok p.
Proof.
  intros [p1 [k ->]|p1 ? ? ? ? ? [k ->]|p1 ? [k ->]|p1 ? ? ? ? ? [k ->]|p1 ? ? ? [k ->]
         |p1 ? ? ? ? ? ? [k ->] _|p1 ? ? ? ? ? ? [k ->] _|p1 ? ? ? ? ? [k ->]];
    try done.
  - unfold resolveObjectIdentifier. destruct hasAbs; [done|]. by destruct (resolveOidBase _ _).
  - unfold resolveObjectType. destruct hasAbs; [done|]. by destruct (resolveOidBase _ _).
  - unfold resolveGroup. by destruct (_ !! _).
  - unfold resolveModuleIdentity. destruct hasAbs; [done|]. by destruct (resolveOidBase _ _).
  - unfold resolveObjectIdentity. destruct hasAbs; [done|]. by destruct (resolveOidBase _ _).
  - unfold resolveNotificationType. destruct hasAbs; [done|]. by destruct (resolveOidBase _ _).
Qed.

Lemma effect_sameTokens p p' : effect p p' → sameTokens p p'.
Proof.
  intros He. split; [by apply toks_resolve_effect|by apply eofTok_effect].
Qed.

Lemma located_errorf p msg : located p (errorf p msg).
Proof.
  exists (tok p), msg. split; [|done]. unfold tok.
  destruct (toks p) as [|t ts]; simpl; set_solver.
Qed.

Lemma located_sameTokens p p' e : sameTokens p p' → located p' e → located p e.
Proof.
  intros [[k Hk] He] (t & msg & Ht & ->). exists t, msg. split; [|done].
  rewrite Hk, He in Ht. apply elem_of_app in Ht as [Ht|Ht]; apply elem_of_app;
    [left|by right].
  rewrite <- (take_drop k (toks p)). apply elem_of_app. by right.
Qed.

Lemma failsAt_sameTokens {A} p p' (r : result A) :
  sameTokens p p' → failsAt p' r → failsAt p r.
Proof. destruct r; [done|]. apply located_sameTokens. Qed.

Lemma failsAt_advanced {A} p p' (r : result A) :
  advanced p p' → failsAt p' r → failsAt p r.
Proof. intros H. by apply failsAt_sameTokens, advanced_sameTokens. Qed.

(** An error raised after some tokens were consumed. *)
Ltac raised :=
  simpl;
  first
    [ done
    | eapply located_sameTokens; [|apply located_errorf];
      apply advanced_sameTokens; adv_chain ].

(** A loop whose iterations consume tokens and whose errors are located
    where it stands reports its errors within the tokens it was given. *)
Lemma while_failsAt {St A : Type} (π : St → rdParser)
    (body : St → ctl St (result A)) dflt :
  (∀ s, match body s with
        | Continue s' =>
            advanced (π s) (π s') ∧ (remaining (π s') < remaining (π s))%nat
        | Break r => failsAt (π s) r
        end) →
  ∀ s, failsAt (π s) (while (fun s => remaining (π s)) dflt body s).
Proof.
  intros Hspec. apply (while_advanced π body (fun q r => failsAt q r) dflt); [|done].
  intros p p' r. apply failsAt_advanced.
Qed.

Lemma parseOidAssignment_failsAt lbrace rbrace resolve p :
  failsAt p (parseOidAssignment lbrace rbrace resolve p).
Proof.
  unfold parseOidAssignment. step_accept; [|raised].
  step_sub. step_accept; raised.
Qed.

Lemma parseObjectIdentifier_failsAt ident p :
  failsAt p (parseObjectIdentifier ident p).
Proof.
  unfold parseObjectIdentifier. do 3 (step_accept; [|raised]).
  step_sub. step_accept; raised.
Qed.

Lemma textualConvention_body_failsAt st :
  match textualConvention_body st with
  | Continue st' => advanced st.1 st'.1 ∧ (remaining st'.1 < remaining st.1)%nat
  | Break r => failsAt st.1 r
  end.
Proof.
  pose proof (textualConvention_body_spec st) as Hspec.
  destruct st as [p tc]. unfold textualConvention_body in *.
  step_accept. { step_tokIs; exact Hspec. }
  step_accept. { step_sub. exact Hspec. }
  step_accept. { step_tokIs; exact Hspec. }
  step_accept. { by step_sub. }
  step_tokIs; [raised|exact Hspec].
Qed.

Lemma parseTextualConvention_failsAt ident p :
  failsAt p (parseTextualConvention ident p).
Proof.
  unfold parseTextualConvention.
  apply (while_failsAt fst textualConvention_body (Ok p)
           textualConvention_body_failsAt (p, TextualConventionIR.new ident)).
Qed.

Lemma indexList_body_failsAt st :
  match indexList_body st with
  | Continue st' => advanced st.1 st'.1 ∧ (remaining st'.1 < remaining st.1)%nat
  | Break r => failsAt st.1 r
  end.
Proof.
  pose proof (indexList_body_spec st) as Hspec.
  destruct st as [p idx]. unfold indexList_body in *.
  destruct (tokIs TokenIdent p) eqn:Hi.
  - destruct (equalFold _ _); [exact Hspec|].
    step_accept; [exact Hspec|]. step_accept; raised.
  - step_accept; raised.
Qed.

Lemma parseIndexList_failsAt p : failsAt p (parseIndexList p).
Proof.
  unfold parseIndexList.
  apply (while_failsAt fst indexList_body (Ok (p, []))
           indexList_body_failsAt (p, [])).
Qed.

(** The loop of a construct whose iterations consume tokens, given with
    what is known of its iterations. *)
Lemma body_failsAt {St : Type} (π : St → rdParser)
    (body : St → ctl St (result rdParser)) (K : St → St → Prop)
    (B : St → result rdParser → Prop) :
  (∀ s, match body s with
        | Continue s' =>
            advanced (π s) (π s') ∧ (remaining (π s') < remaining (π s))%nat ∧ K s s'
        | Break r => B s r
        end) →
  (∀ s, match body s with
        | Continue _ => True
        | Break r => failsAt (π s) r
        end) →
  ∀ dflt s, failsAt (π s) (while (fun s => remaining (π s)) dflt body s).
Proof.
  intros Hspec Hfails dflt. apply while_failsAt. intros s.
  specialize (Hspec s). specialize (Hfails s).
  destruct (body s); [tauto|done].
Qed.

Lemma objectType_body_failsAt ident st :
  match objectType_body ident st with
  | Continue _ => True
  | Break r => failsAt st.1 r
  end.
Proof.
  destruct st as [p obj]. unfold objectType_body.
  destruct (tokIs TokenEOF p) eqn:He; [raised|].
  step_accept. { by step_sub. }
  step_accept. { by step_sub. }
  step_accept. { by step_sub. }
  step_accept. { step_tokIs; [done|raised]. }
  step_accept.
  { step_accept; [|raised].
    pose proof (parseIndexList_failsAt (next (next p))) as Hf.
    destruct (parseIndexList _) as [[? ?]|e]; [done|].
    simpl in *. eapply located_sameTokens; [|exact Hf].
    apply advanced_sameTokens. adv_chain. }
  step_accept. { by step_sub. }
  step_accept. { by step_sub. }
  step_accept.
  { eapply failsAt_advanced; [|apply parseOidAssignment_failsAt]. adv_chain. }
  step_accept; [done|]. by rewrite He.
Qed.

Lemma parseObjectType_failsAt ident p : failsAt p (parseObjectType ident p).
Proof.
  unfold parseObjectType. cbv zeta.
  apply (failsAt_advanced p (next p)); [apply advanced_next|].
  apply (body_failsAt fst (objectType_body ident) _ _
           (objectType_body_spec ident) (objectType_body_failsAt ident)
           (Ok (next p)) (next p, ObjectTypeIR.new ident)).
Qed.

Lemma group_body_failsAt kw ident p :
  match group_body kw ident p with
  | Continue p' => advanced p p' ∧ (remaining p' < remaining p)%nat
  | Break r => failsAt p r
  end.
Proof.
  pose proof (group_body_spec kw ident p) as Hspec.
  unfold group_body in *. destruct (tokIs TokenEOF p) eqn:He; [raised|].
  step_accept; [|exact Hspec]. step_accept; [|raised].
  pose proof (parseParentRef_advanced (next (next p))) as Hadv.
  destruct (parseParentRef _) as [[? ?] p1]. simpl in Hadv.
  step_accept; raised.
Qed.

Lemma parseGroup_failsAt kw ident p : failsAt p (parseGroup kw ident p).
Proof.
  unfold parseGroup. cbv zeta.
  apply (failsAt_advanced p (next p)); [apply advanced_next|].
  apply (while_failsAt id (group_body kw ident) (Ok (next p))
           (group_body_failsAt kw ident) (next p)).
Qed.

Lemma moduleIdentity_body_failsAt ident st :
  match moduleIdentity_body ident st with
  | Continue _ => True
  | Break r => failsAt st.1 r
  end.
Proof.
  destruct st as [p mi]. unfold moduleIdentity_body.
  do 4 (step_accept; [by step_sub|]).
  step_accept.
  { eapply failsAt_advanced; [|apply parseOidAssignment_failsAt]. adv_chain. }
  step_tokIs; [raised|done].
Qed.

Lemma parseModuleIdentity_failsAt ident p : failsAt p (parseModuleIdentity ident p).
Proof.
  unfold parseModuleIdentity. cbv zeta.
  apply (failsAt_sameTokens p (update_mod (ModuleIR.ensureNode ident) (next p))).
  { eapply sameTokens_trans; [|apply sameTokens_update_mod].
    apply advanced_sameTokens, advanced_next. }
  apply (body_failsAt fst (moduleIdentity_body ident) _ _
           (moduleIdentity_body_spec ident) (moduleIdentity_body_failsAt ident)
           (Ok (update_mod (ModuleIR.ensureNode ident) (next p)))
           (update_mod (ModuleIR.ensureNode ident) (next p), ModuleIdentityIR.new ident)).
Qed.

Lemma objectIdentity_body_failsAt ident st :
  match objectIdentity_body ident st with
  | Continue _ => True
  | Break r => failsAt st.1 r
  end.
Proof.
  destruct st as [p oi]. unfold objectIdentity_body.
  do 2 (step_accept; [by step_sub|]).
  step_accept.
  { eapply failsAt_advanced; [|apply parseOidAssignment_failsAt]. adv_chain. }
  step_tokIs; [raised|done].
Qed.

Lemma parseObjectIdentity_failsAt ident p : failsAt p (parseObjectIdentity ident p).
Proof.
  unfold parseObjectIdentity. cbv zeta.
  apply (failsAt_sameTokens p (update_mod (ModuleIR.ensureNode ident) (next p))).
  { eapply sameTokens_trans; [|apply sameTokens_update_mod].
    apply advanced_sameTokens, advanced_next. }
  apply (body_failsAt fst (objectIdentity_body ident) _ _
           (objectIdentity_body_spec ident) (objectIdentity_body_failsAt ident)
           (Ok (update_mod (ModuleIR.ensureNode ident) (next p)))
           (update_mod (ModuleIR.ensureNode ident) (next p), ObjectIdentityIR.new ident)).
Qed.

Lemma notificationType_body_failsAt st :
  match notificationType_body st with
  | Continue _ => True
  | Break r => failsAt st.1 r
  end.
Proof.
  destruct st as [p nt]. unfold notificationType_body.
  step_accept.
  { step_accept; [|raised].
    pose proof (objectsList_advanced (next (next p))) as Hadv.
    destruct (while _ _ _ _) as [p1 objs]. simpl in Hadv.
    step_accept; raised. }
  do 2 (step_accept; [by step_sub|]).
  step_accept.
  { eapply failsAt_advanced; [|apply parseOidAssignment_failsAt]. adv_chain. }
  step_tokIs; [raised|done].
Qed.

Lemma parseNotificationType_failsAt ident p :
  failsAt p (parseNotificationType ident p).
Proof.
  unfold parseNotificationType. cbv zeta.
  apply (failsAt_advanced p (next p)); [apply advanced_next|].
  apply (body_failsAt fst notificationType_body _ _
           (notificationType_body_spec ident) notificationType_body_failsAt
           (Ok (next p)) (next p, NotificationTypeIR.new ident)).
Qed.

Lemma lift_failsAt p q r :
  advanced p q → failsAt q r →
  match lift r with
  | Continue _ => True
  | Break r' => failsAt p r'
  end.
Proof.
  intros Hpq Hr. destruct r as [p'|e]; simpl; [done|].
  eapply located_sameTokens; [by apply advanced_sameTokens|done].
Qed.

Lemma moduleBody_body_failsAt p :
  match moduleBody_body p with
  | Continue _ => True
  | Break r => failsAt p r
  end.
Proof.
  unfold moduleBody_body.
  destruct (tokIs TokenEOF p); [done|].
  pose proof (advanced_next p) as Hadv.
  destruct (isIdent "END" p). { by case_bool_decide. }
  destruct (tokIs TokenIdent p); [|done].
  destruct (isIdent "MACRO" (next p)); [done|].
  destruct (isIdent "OBJECT" (next p)).
  { apply (lift_failsAt p (next p)); [done|]. apply parseObjectIdentifier_failsAt. }
  step_accept.
  { step_accept; [|done].
    apply (lift_failsAt p (next (next (next p)))); [adv_chain|].
    apply parseTextualConvention_failsAt. }
  repeat match goal with
         | |- context [if isIdent ?kw (next p) then _ else _] =>
             destruct (isIdent kw (next p)) eqn:?
         end;
    first
      [ done
      | match goal with |- context [lift (?f ?q)] => apply (lift_failsAt p q) end;
        [ adv_chain | ];
        first
          [ apply parseObjectType_failsAt
          | apply parseGroup_failsAt
          | apply parseModuleIdentity_failsAt
          | apply parseObjectIdentity_failsAt
          | apply parseNotificationType_failsAt
          | apply parseTextualConvention_failsAt ] ].
Qed.

Lemma moduleBody_failsAt p : failsAt p (moduleBody p).
Proof.
  unfold moduleBody.
  apply (while_ind _ _ moduleBody_decreases
           (fun s => sameTokens p s) (fun r => failsAt p r));
    [|apply sameTokens_refl].
  intros s Hs. pose proof (moduleBody_body_spec s) as Hspec.
  pose proof (moduleBody_body_failsAt s) as Hf.
  destruct (moduleBody_body s) as [s'|r].
  - destruct Hspec as [He _]. eapply sameTokens_trans; [done|].
    by apply effect_sameTokens.
  - by eapply failsAt_sameTokens.
Qed.

Lemma parseModule_failsAt p : failsAt p (parseModule p).
Proof.
  unfold parseModule, expect.
  destruct (tokIs TokenIdent p); [|apply located_errorf].
  set (p0 := update_mod _ (next p)).
  assert (sameTokens p p0) as H0.
  { eapply sameTokens_trans; [|apply sameTokens_update_mod].
    apply advanced_sameTokens, advanced_next. }
  apply (failsAt_sameTokens p p0 _ H0). clearbody p0.
  do 3 (step_accept; [|raised]).
  set (p1 := if isIdent "IMPORTS" _ then _ else _).
  assert (advanced p0 p1) as H1.
  { subst p1. destruct (isIdent "IMPORTS" _).
    - eapply advanced_trans; [|apply parseImports_advanced]. adv_chain.
    - adv_chain. }
  pose proof (moduleBody_failsAt p1) as Hbody.
  destruct (moduleBody p1) as [p2|e]; [done|].
  simpl in *. eapply located_sameTokens; [|exact Hbody].
  by apply advanced_sameTokens.
Qed.

Lemma eofTok_initBaseOids p : eofTok (initBaseOids p) = eofTok p.
Proof. reflexivity. Qed.

Lemma eofTok_Parse_start U input :
  Line (eofTok (Parse_start U input)) = Line (last (Tokens U (New input)))
  ∧ Col (eofTok (Parse_start U input)) = Col (last (Tokens U (New input))).
Proof.
  unfold Parse_start. cbv zeta. rewrite eofTok_initBaseOids.
  generalize (Tokens U (New input)). intros ts. split; reflexivity.
Qed.

Lemma Parse_Err_located U input e :
  Parse U input = Err e → located (Parse_start U input) e.
Proof.
  unfold Parse. cbv zeta.
  pose proof (parseModule_failsAt (Parse_start U input)) as Hf.
  destruct (parseModule (Parse_start U input)) as [p'|e']; [discriminate|].
  intros [= ->]. exact Hf.
Qed.

Lemma located_among p ts l e :
  toks p = ts → Line (eofTok p) = Line l ∧ Col (eofTok p) = Col l →
  located p e → ∃ t msg, t ∈ ts ++ [l] ∧ e = parseErrorAt t msg.
Proof.
  intros <- [HL HC] (t & msg & Ht & ->).
  apply elem_of_app in Ht as [Ht|Ht].
  - exists t, msg. split; [|done]. apply elem_of_app. by left.
  - apply list_elem_of_singleton in Ht as ->.
    exists l, msg. split; [set_solver|].
    unfold parseErrorAt. by rewrite HL, HC.
Qed.

(** X26.  Every error that [Parse] returns is the text
    [parse error at L:C: ...] where [L] and [C] are the line and the
    column of a token that the lexer read from the input, the EOF token
    included: no error comes without a position, and none points
    outside the tokens of the input. *)
Theorem parse_errors_point_at_a_token U input e :
  Parse U input = Err e →
  ∃ t msg, t ∈ tokens (Tokens U (New input)) ++ [last (Tokens U (New input))]
           ∧ e = parseErrorAt t msg.
Proof.
  intros HP.
  exact (located_among _ _ _ e (Parse_start_toks U input) (eofTok_Parse_start U input)
           (Parse_Err_located U input e HP)).
Qed.

End ErrorProperties.

Lemma parse_errors_point_at_a_token_witness :
  ∃ t msg,
    t ∈ tokens (Tokens asciiOnly (New (runes_of_string "FOO")))
        ++ [last (Tokens asciiOnly (New (runes_of_string "FOO")))]
    ∧ "parse error at 1:4: expected DEFINITIONS" = props.parseErrorAt t msg.
Proof.
  apply (parse_errors_point_at_a_token asciiOnly (runes_of_string "FOO")).
  vm_compute. reflexivity.
Defined.

